(** * SchedLinSim: a shallow embedding of the simulation engine

    The development follows the JavaScript sources of the simulator:
    the red-black tree used as an ordered map ([redblack]), the event
    classes and the simulation queue, the process and scheduling-class
    objects, the kernel ([Simulator.pickNext], [Simulator.checkPreempt],
    the event handlers and the main loop), the first-come-first-served
    class and the completely fair class.  The kernel is defined for any
    methods of the scheduling classes ([Dispatch]); the two classes of the
    model are its instance [builtin].  The round-robin class and the class
    of the first Linux scheduler are not part of the model.

    Conventions.
    - JavaScript numbers that hold simulation times and counters are
      integers and are modelled by [Z].  Virtual run times of the fair class
      are produced by divisions and are modelled by exact rationals [Q];
      the one place where the source computes with an [undefined] property
      is modelled by [jsnum], a rational or [NaN].
    - A function that may [throw] returns [res]; the message of the
      exception is kept.
    - Objects are shared by reference in the source.  Processes are named
      by a [pref] (their pid, or the idle process), scheduling classes by a
      [clsref] (their registered name, or the idle class), events by their
      allocation number [eid].  Reference equality [===] is equality of
      these names. *)

From Stdlib Require Import ZArith QArith Qround Lia Bool List Sorted Permutation.
From stdpp Require Import base option list strings pretty gmap.

Local Open Scope string_scope.
Local Open Scope Z_scope.

(** ** Exceptions *)

Inductive res (A : Type) : Type :=
| Ok (a : A)
| Err (msg : string).
Arguments Ok {A} a.
Arguments Err {A} msg.

Definition rbind {A B : Type} (m : res A) (k : A -> res B) : res B :=
  match m with
  | Ok a => k a
  | Err e => Err e
  end.

Notation "'do' x <- m ; k" := (rbind m (fun x => k))
  (at level 10, x name, m at level 100, k at level 200).
Notation "'do' ' p <- m ; k" := (rbind m (fun x => let 'p := x in k))
  (at level 10, p pattern, m at level 100, k at level 200).

Definition is_ok {A : Type} (m : res A) : bool :=
  match m with Ok _ => true | Err _ => false end.

(** A value that the source reads from a possibly missing place
    ([undefined.field] raises a [TypeError]). *)
Definition deref {A : Type} (o : option A) (what : string) : res A :=
  match o with
  | Some a => Ok a
  | None => Err ("TypeError: " ++ what)
  end.

(** ** redblack.js: the tree as an ordered map

    [redblack.tree()] is used by the simulator only through [insert],
    [getDelete], [leftmost] and [leftmostDelete].  The balancer recolours
    and rotates nodes; rotations keep the in-order sequence of the
    (key, value) nodes, which is all these four methods observe.  The model
    keeps the tree as that in-order sequence.  [find], [insert] and
    [directDelete] walk the tree by comparing the key with [<], [>] and
    [===]; on the in-order sequence this is a walk from the left. *)

Module redblack.
Section Tree.
Context {K V : Type} (cmp : K -> K -> comparison).

Definition tree := list (K * V).

Definition empty : tree := [].

  (** [find(this.root, key)] and the value of the node found. *)
Fixpoint get (key : K) (t : tree) : option V :=
    match t with
    | [] => None
    | (k, v) :: t' =>
        match cmp key k with
        | Eq => Some v
        | Lt => None
        | Gt => get key t'
        end
    end.

  (** [Tree.prototype.insert]: a node with the same key has its value
      replaced, otherwise a new node is linked at its place. *)
Fixpoint insert (key : K) (value : V) (t : tree) : tree :=
    match t with
    | [] => [(key, value)]
    | (k, v) :: t' =>
        match cmp key k with
        | Eq => (k, value) :: t'
        | Lt => (key, value) :: (k, v) :: t'
        | Gt => (k, v) :: insert key value t'
        end
    end.

  (** [directDelete] of the node found for [key]. *)
Fixpoint delete (key : K) (t : tree) : tree :=
    match t with
    | [] => []
    | (k, v) :: t' =>
        match cmp key k with
        | Eq => t'
        | Lt => (k, v) :: t'
        | Gt => (k, v) :: delete key t'
        end
    end.

  (** [Tree.prototype.getDelete]: the value stored for the key ([null] when
      there is none) and the tree without that node. *)
Definition getDelete (key : K) (t : tree) : option V * tree :=
    (get key t, delete key t).

  (** [Tree.prototype.leftmost]. *)
Definition leftmost (t : tree) : option V :=
    match t with
    | [] => None
    | (_, v) :: _ => Some v
    end.

  (** [Tree.prototype.leftmostDelete]. *)
Definition leftmostDelete (t : tree) : option V * tree :=
    match t with
    | [] => (None, [])
    | (_, v) :: t' => (Some v, t')
    end.
End Tree.
End redblack.

(** A tree node of the simulator holds either one object or, when several
    objects have the same key, an array of them. *)
Inductive holder (A : Type) : Type :=
| Single (a : A)
| Bucket (l : list A).
Arguments Single {A} a.
Arguments Bucket {A} l.

(** ** Names of shared objects *)

Inductive pref : Type :=
| Idle
| Pid (n : nat).

Inductive clsref : Type :=
| IdleCls
| Cls (name : string).

Definition pref_eqb (a b : pref) : bool :=
  match a, b with
  | Idle, Idle => true
  | Pid n, Pid m => Nat.eqb n m
  | _, _ => false
  end.

Definition clsref_eqb (a b : clsref) : bool :=
  match a, b with
  | IdleCls, IdleCls => true
  | Cls n, Cls m => String.eqb n m
  | _, _ => false
  end.

(** ** Events *)

(** [ExitCond], the reason recorded in an exit event. *)
Module ExitCond.
Inductive t : Type := procExec | simExec | execCnt.
Definition eqb (a b : t) : bool :=
    match a, b with
    | procExec, procExec | simExec, simExec | execCnt, execCnt => true
    | _, _ => false
    end.
End ExitCond.

(** The subclasses of [Event]. *)
Inductive EventKind : Type :=
| SimStartEvent
| SimStopEvent
| ForkEvent
| ExitEvent (type : ExitCond.t) (nice : bool)
| EnqueueEvent
| BlockEvent
| TimerEvent
| PickEvent.

Record Event : Type := mkEvent {
  eid : nat;               (* identity of the object *)
  time : Z;
  setOn : Z;
  kind : EventKind;
  process : option pref    (* [undefined] for start, stop and timer events *)
}.

Definition Event_same (a b : Event) : bool := Nat.eqb (eid a) (eid b).

Definition isBlockEvent (e : Event) : bool :=
  match kind e with BlockEvent => true | _ => false end.
Definition isExitEvent (e : Event) : bool :=
  match kind e with ExitEvent _ _ => true | _ => false end.
Definition isSimStopEvent (e : Event) : bool :=
  match kind e with SimStopEvent => true | _ => false end.

Definition set_time (t : Z) (e : Event) : Event :=
  mkEvent (eid e) t (setOn e) (kind e) (process e).
Definition set_process (p : option pref) (e : Event) : Event :=
  mkEvent (eid e) (time e) (setOn e) (kind e) p.

(** ** The simulation queue

    A tree keyed by event time; the functions below are the only ones that
    touch it.  [now] is [sim.time()]. *)

Abbreviation queue := (@redblack.tree Z (holder Event)).

Definition insertEvent (now : Z) (evt : Event) (simulationQueue : queue) : res queue :=
  let putTime := time evt in
  if putTime <? now then
    Err "cannot insert event at a time that has already passed."
  else
    let '(h, q) := redblack.getDelete Z.compare putTime simulationQueue in
    let h' :=
      match h with
      | Some (Single e) => Bucket [e; evt]
      | Some (Bucket l) => Bucket (l ++ [evt])
      | None => Single evt
      end in
    Ok (redblack.insert Z.compare putTime h' q).

(** [holder.splice(i, 1)] at the first index whose element is [evt]. *)
Fixpoint splice_event (evt : Event) (l : list Event) : option (Event * list Event) :=
  match l with
  | [] => None
  | e :: l' =>
      if Event_same e evt then Some (e, l')
      else match splice_event evt l' with
           | Some (r, l'') => Some (r, e :: l'')
           | None => None
           end
  end.

(** [getEvent]: the event and the queue without it.  An empty array in the
    tree makes the source return [undefined]. *)
Definition getEvent (now : Z) (evt : Event) (simulationQueue : queue)
  : res (option Event * queue) :=
  let getTime := time evt in
  if getTime <? now then
    Err "cannot get an event that has already passed, check simEventLog instead."
  else
    let '(h, q) := redblack.getDelete Z.compare getTime simulationQueue in
    match h with
    | Some (Single e) => Ok (Some e, q)
    | Some (Bucket []) => Ok (None, q)
    | Some (Bucket [e]) => Ok (Some e, q)
    | Some (Bucket [e0; e1]) =>
        if Event_same e0 evt then
          Ok (Some e0, redblack.insert Z.compare getTime (Single e1) q)
        else if Event_same e1 evt then
          Ok (Some e1, redblack.insert Z.compare getTime (Single e0) q)
        else Err "the event was not found at the time it should be at"
    | Some (Bucket l) =>
        match splice_event evt l with
        | Some (r, l') => Ok (Some r, redblack.insert Z.compare getTime (Bucket l') q)
        | None => Err "the event was not found at the time it should be at"
        end
    | None => Err "the event was not found at the time it should be at"
    end.

Definition deleteEvent (now : Z) (evt : Event) (simulationQueue : queue)
  : res (option Event * queue) :=
  getEvent now evt simulationQueue.

(** [getNextEvent].  With an empty array in the tree the source returns
    [undefined], which its only caller dereferences at once. *)
Definition getNextEvent (simulationQueue : queue) : res (Event * queue) :=
  let '(h, q) := redblack.leftmostDelete simulationQueue in
  match h with
  | Some (Single e) => Ok (e, q)
  | Some (Bucket []) => Err "TypeError: evt is undefined"
  | Some (Bucket [e]) => Ok (e, q)
  | Some (Bucket [e0; e1]) => Ok (e0, redblack.insert Z.compare (time e1) (Single e1) q)
  | Some (Bucket (e0 :: ((e1 :: _) as l))) =>
      Ok (e0, redblack.insert Z.compare (time e1) (Bucket l) q)
  | None => Err "the simulation queue is empty or has an invalid value stored in it."
  end.

Definition peekNextEvent (simulationQueue : queue) : res Event :=
  match redblack.leftmost simulationQueue with
  | Some (Single e) => Ok e
  | Some (Bucket l) => deref (head l) "peekNextEvent() is undefined"
  | None => Err "the simulation queue is empty or invalid value stored in it."
  end.

(** ** Process definitions and behaviours *)

(** A value of a process definition: a number, or an interval given as a
    two-element array. *)
Inductive procval : Type :=
| PNum (z : Z)
| PRange (lo hi : Z).

(** A priority: a number, an interval, or the [Infinity] of the idle
    process. *)
Inductive prioval : Type :=
| PrioNum (z : Z)
| PrioRange (lo hi : Z)
| PrioInfinity.

(** An entry of [Process.behavior] after loading: the switch conditions are
    numbers, absent fields are [undefined]. *)
Module Behavior.
Record t : Type := mk {
  priority : option prioval;
  run : option procval;
  block : option procval;
  procExec : option Z;
  simExec : option Z;
  execCnt : option Z;
  final : bool;
  endNicely : bool
}.

Definition set_priority (v : option prioval) (x : t) : t :=
  mk v (run x) (block x) (procExec x) (simExec x) (execCnt x) (final x)
      (endNicely x).
Definition set_run (v : option procval) (x : t) : t :=
  mk (priority x) v (block x) (procExec x) (simExec x) (execCnt x) (final x)
      (endNicely x).
Definition set_block (v : option procval) (x : t) : t :=
  mk (priority x) (run x) v (procExec x) (simExec x) (execCnt x) (final x)
      (endNicely x).
End Behavior.

(** ** Processes *)

Inductive LogEvent : Type :=
| LogEnqueue | LogDequeue | LogPick | LogBlock | LogPreempt | LogExit.

Record LogEntry : Type := mkLogEntry {
  timestamp : Z;
  event : LogEvent
}.

(** The [Process] object.  [schedClass] is the class registered under
    [policy] (the idle class for the idle process).  [currBehavior] is an
    alias of [behavior[0]], see [currBehavior] below.  The last four fields
    are the properties that the fair class reads; [load] is [undefined]
    unless the process definition gives it in its [custom] object. *)
Record Process : Type := mkProcess {
  pid : Z;
  pname : string;
  alive : bool;
  runnable : bool;
  onRq : bool;
  waiting : bool;
  remainingRuntime : Z;
  policy : string;
  schedClass : clsref;
  spawned : Z;
  exited : Z;
  enqueued : Z;
  picked : Z;
  updated : Z;
  nextEvent : option Event;
  strictEndEvent : option Event;
  execCnt : Z;
  execTime : Z;
  waitTime : Z;
  nextBehIndex : nat;
  behavior : list Behavior.t;   (* currBehavior is behavior[0] *)
  execLog : list LogEntry;
  runLog : list Z;
  latencyLog : list Z;
  enqueueWakeup : bool;   (* LinuxFairClass *)
  vruntime : Q;   (* LinuxFairClass *)
  prevSumExecRuntime : Z;   (* LinuxFairClass *)
  load : option Q   (* never assigned by the simulator *)
}.

Definition set_alive (v : bool) (x : Process) : Process :=
  mkProcess (pid x) (pname x) v (runnable x) (onRq x) (waiting x)
      (remainingRuntime x) (policy x) (schedClass x) (spawned x) (exited x)
      (enqueued x) (picked x) (updated x) (nextEvent x) (strictEndEvent x)
      (execCnt x) (execTime x) (waitTime x) (nextBehIndex x) (behavior x)
      (execLog x) (runLog x) (latencyLog x) (enqueueWakeup x) (vruntime x)
      (prevSumExecRuntime x) (load x).
Definition set_runnable (v : bool) (x : Process) : Process :=
  mkProcess (pid x) (pname x) (alive x) v (onRq x) (waiting x)
      (remainingRuntime x) (policy x) (schedClass x) (spawned x) (exited x)
      (enqueued x) (picked x) (updated x) (nextEvent x) (strictEndEvent x)
      (execCnt x) (execTime x) (waitTime x) (nextBehIndex x) (behavior x)
      (execLog x) (runLog x) (latencyLog x) (enqueueWakeup x) (vruntime x)
      (prevSumExecRuntime x) (load x).
Definition set_onRq (v : bool) (x : Process) : Process :=
  mkProcess (pid x) (pname x) (alive x) (runnable x) v (waiting x)
      (remainingRuntime x) (policy x) (schedClass x) (spawned x) (exited x)
      (enqueued x) (picked x) (updated x) (nextEvent x) (strictEndEvent x)
      (execCnt x) (execTime x) (waitTime x) (nextBehIndex x) (behavior x)
      (execLog x) (runLog x) (latencyLog x) (enqueueWakeup x) (vruntime x)
      (prevSumExecRuntime x) (load x).
Definition set_waiting (v : bool) (x : Process) : Process :=
  mkProcess (pid x) (pname x) (alive x) (runnable x) (onRq x) v
      (remainingRuntime x) (policy x) (schedClass x) (spawned x) (exited x)
      (enqueued x) (picked x) (updated x) (nextEvent x) (strictEndEvent x)
      (execCnt x) (execTime x) (waitTime x) (nextBehIndex x) (behavior x)
      (execLog x) (runLog x) (latencyLog x) (enqueueWakeup x) (vruntime x)
      (prevSumExecRuntime x) (load x).
Definition set_remainingRuntime (v : Z) (x : Process) : Process :=
  mkProcess (pid x) (pname x) (alive x) (runnable x) (onRq x) (waiting x) v
      (policy x) (schedClass x) (spawned x) (exited x) (enqueued x) (picked x)
      (updated x) (nextEvent x) (strictEndEvent x) (execCnt x) (execTime x)
      (waitTime x) (nextBehIndex x) (behavior x) (execLog x) (runLog x)
      (latencyLog x) (enqueueWakeup x) (vruntime x) (prevSumExecRuntime x)
      (load x).
Definition set_policy (v : string) (x : Process) : Process :=
  mkProcess (pid x) (pname x) (alive x) (runnable x) (onRq x) (waiting x)
      (remainingRuntime x) v (schedClass x) (spawned x) (exited x) (enqueued
      x) (picked x) (updated x) (nextEvent x) (strictEndEvent x) (execCnt x)
      (execTime x) (waitTime x) (nextBehIndex x) (behavior x) (execLog x)
      (runLog x) (latencyLog x) (enqueueWakeup x) (vruntime x)
      (prevSumExecRuntime x) (load x).
Definition set_schedClass (v : clsref) (x : Process) : Process :=
  mkProcess (pid x) (pname x) (alive x) (runnable x) (onRq x) (waiting x)
      (remainingRuntime x) (policy x) v (spawned x) (exited x) (enqueued x)
      (picked x) (updated x) (nextEvent x) (strictEndEvent x) (execCnt x)
      (execTime x) (waitTime x) (nextBehIndex x) (behavior x) (execLog x)
      (runLog x) (latencyLog x) (enqueueWakeup x) (vruntime x)
      (prevSumExecRuntime x) (load x).
Definition set_spawned (v : Z) (x : Process) : Process :=
  mkProcess (pid x) (pname x) (alive x) (runnable x) (onRq x) (waiting x)
      (remainingRuntime x) (policy x) (schedClass x) v (exited x) (enqueued x)
      (picked x) (updated x) (nextEvent x) (strictEndEvent x) (execCnt x)
      (execTime x) (waitTime x) (nextBehIndex x) (behavior x) (execLog x)
      (runLog x) (latencyLog x) (enqueueWakeup x) (vruntime x)
      (prevSumExecRuntime x) (load x).
Definition set_exited (v : Z) (x : Process) : Process :=
  mkProcess (pid x) (pname x) (alive x) (runnable x) (onRq x) (waiting x)
      (remainingRuntime x) (policy x) (schedClass x) (spawned x) v (enqueued
      x) (picked x) (updated x) (nextEvent x) (strictEndEvent x) (execCnt x)
      (execTime x) (waitTime x) (nextBehIndex x) (behavior x) (execLog x)
      (runLog x) (latencyLog x) (enqueueWakeup x) (vruntime x)
      (prevSumExecRuntime x) (load x).
Definition set_enqueued (v : Z) (x : Process) : Process :=
  mkProcess (pid x) (pname x) (alive x) (runnable x) (onRq x) (waiting x)
      (remainingRuntime x) (policy x) (schedClass x) (spawned x) (exited x) v
      (picked x) (updated x) (nextEvent x) (strictEndEvent x) (execCnt x)
      (execTime x) (waitTime x) (nextBehIndex x) (behavior x) (execLog x)
      (runLog x) (latencyLog x) (enqueueWakeup x) (vruntime x)
      (prevSumExecRuntime x) (load x).
Definition set_picked (v : Z) (x : Process) : Process :=
  mkProcess (pid x) (pname x) (alive x) (runnable x) (onRq x) (waiting x)
      (remainingRuntime x) (policy x) (schedClass x) (spawned x) (exited x)
      (enqueued x) v (updated x) (nextEvent x) (strictEndEvent x) (execCnt x)
      (execTime x) (waitTime x) (nextBehIndex x) (behavior x) (execLog x)
      (runLog x) (latencyLog x) (enqueueWakeup x) (vruntime x)
      (prevSumExecRuntime x) (load x).
Definition set_updated (v : Z) (x : Process) : Process :=
  mkProcess (pid x) (pname x) (alive x) (runnable x) (onRq x) (waiting x)
      (remainingRuntime x) (policy x) (schedClass x) (spawned x) (exited x)
      (enqueued x) (picked x) v (nextEvent x) (strictEndEvent x) (execCnt x)
      (execTime x) (waitTime x) (nextBehIndex x) (behavior x) (execLog x)
      (runLog x) (latencyLog x) (enqueueWakeup x) (vruntime x)
      (prevSumExecRuntime x) (load x).
Definition set_nextEvent (v : option Event) (x : Process) : Process :=
  mkProcess (pid x) (pname x) (alive x) (runnable x) (onRq x) (waiting x)
      (remainingRuntime x) (policy x) (schedClass x) (spawned x) (exited x)
      (enqueued x) (picked x) (updated x) v (strictEndEvent x) (execCnt x)
      (execTime x) (waitTime x) (nextBehIndex x) (behavior x) (execLog x)
      (runLog x) (latencyLog x) (enqueueWakeup x) (vruntime x)
      (prevSumExecRuntime x) (load x).
Definition set_strictEndEvent (v : option Event) (x : Process) : Process :=
  mkProcess (pid x) (pname x) (alive x) (runnable x) (onRq x) (waiting x)
      (remainingRuntime x) (policy x) (schedClass x) (spawned x) (exited x)
      (enqueued x) (picked x) (updated x) (nextEvent x) v (execCnt x)
      (execTime x) (waitTime x) (nextBehIndex x) (behavior x) (execLog x)
      (runLog x) (latencyLog x) (enqueueWakeup x) (vruntime x)
      (prevSumExecRuntime x) (load x).
Definition set_execCnt (v : Z) (x : Process) : Process :=
  mkProcess (pid x) (pname x) (alive x) (runnable x) (onRq x) (waiting x)
      (remainingRuntime x) (policy x) (schedClass x) (spawned x) (exited x)
      (enqueued x) (picked x) (updated x) (nextEvent x) (strictEndEvent x) v
      (execTime x) (waitTime x) (nextBehIndex x) (behavior x) (execLog x)
      (runLog x) (latencyLog x) (enqueueWakeup x) (vruntime x)
      (prevSumExecRuntime x) (load x).
Definition set_execTime (v : Z) (x : Process) : Process :=
  mkProcess (pid x) (pname x) (alive x) (runnable x) (onRq x) (waiting x)
      (remainingRuntime x) (policy x) (schedClass x) (spawned x) (exited x)
      (enqueued x) (picked x) (updated x) (nextEvent x) (strictEndEvent x)
      (execCnt x) v (waitTime x) (nextBehIndex x) (behavior x) (execLog x)
      (runLog x) (latencyLog x) (enqueueWakeup x) (vruntime x)
      (prevSumExecRuntime x) (load x).
Definition set_waitTime (v : Z) (x : Process) : Process :=
  mkProcess (pid x) (pname x) (alive x) (runnable x) (onRq x) (waiting x)
      (remainingRuntime x) (policy x) (schedClass x) (spawned x) (exited x)
      (enqueued x) (picked x) (updated x) (nextEvent x) (strictEndEvent x)
      (execCnt x) (execTime x) v (nextBehIndex x) (behavior x) (execLog x)
      (runLog x) (latencyLog x) (enqueueWakeup x) (vruntime x)
      (prevSumExecRuntime x) (load x).
Definition set_nextBehIndex (v : nat) (x : Process) : Process :=
  mkProcess (pid x) (pname x) (alive x) (runnable x) (onRq x) (waiting x)
      (remainingRuntime x) (policy x) (schedClass x) (spawned x) (exited x)
      (enqueued x) (picked x) (updated x) (nextEvent x) (strictEndEvent x)
      (execCnt x) (execTime x) (waitTime x) v (behavior x) (execLog x) (runLog
      x) (latencyLog x) (enqueueWakeup x) (vruntime x) (prevSumExecRuntime x)
      (load x).
Definition set_behavior (v : list Behavior.t) (x : Process) : Process :=
  mkProcess (pid x) (pname x) (alive x) (runnable x) (onRq x) (waiting x)
      (remainingRuntime x) (policy x) (schedClass x) (spawned x) (exited x)
      (enqueued x) (picked x) (updated x) (nextEvent x) (strictEndEvent x)
      (execCnt x) (execTime x) (waitTime x) (nextBehIndex x) v (execLog x)
      (runLog x) (latencyLog x) (enqueueWakeup x) (vruntime x)
      (prevSumExecRuntime x) (load x).
Definition set_execLog (v : list LogEntry) (x : Process) : Process :=
  mkProcess (pid x) (pname x) (alive x) (runnable x) (onRq x) (waiting x)
      (remainingRuntime x) (policy x) (schedClass x) (spawned x) (exited x)
      (enqueued x) (picked x) (updated x) (nextEvent x) (strictEndEvent x)
      (execCnt x) (execTime x) (waitTime x) (nextBehIndex x) (behavior x) v
      (runLog x) (latencyLog x) (enqueueWakeup x) (vruntime x)
      (prevSumExecRuntime x) (load x).
Definition set_runLog (v : list Z) (x : Process) : Process :=
  mkProcess (pid x) (pname x) (alive x) (runnable x) (onRq x) (waiting x)
      (remainingRuntime x) (policy x) (schedClass x) (spawned x) (exited x)
      (enqueued x) (picked x) (updated x) (nextEvent x) (strictEndEvent x)
      (execCnt x) (execTime x) (waitTime x) (nextBehIndex x) (behavior x)
      (execLog x) v (latencyLog x) (enqueueWakeup x) (vruntime x)
      (prevSumExecRuntime x) (load x).
Definition set_latencyLog (v : list Z) (x : Process) : Process :=
  mkProcess (pid x) (pname x) (alive x) (runnable x) (onRq x) (waiting x)
      (remainingRuntime x) (policy x) (schedClass x) (spawned x) (exited x)
      (enqueued x) (picked x) (updated x) (nextEvent x) (strictEndEvent x)
      (execCnt x) (execTime x) (waitTime x) (nextBehIndex x) (behavior x)
      (execLog x) (runLog x) v (enqueueWakeup x) (vruntime x)
      (prevSumExecRuntime x) (load x).
Definition set_enqueueWakeup (v : bool) (x : Process) : Process :=
  mkProcess (pid x) (pname x) (alive x) (runnable x) (onRq x) (waiting x)
      (remainingRuntime x) (policy x) (schedClass x) (spawned x) (exited x)
      (enqueued x) (picked x) (updated x) (nextEvent x) (strictEndEvent x)
      (execCnt x) (execTime x) (waitTime x) (nextBehIndex x) (behavior x)
      (execLog x) (runLog x) (latencyLog x) v (vruntime x) (prevSumExecRuntime
      x) (load x).
Definition set_vruntime (v : Q) (x : Process) : Process :=
  mkProcess (pid x) (pname x) (alive x) (runnable x) (onRq x) (waiting x)
      (remainingRuntime x) (policy x) (schedClass x) (spawned x) (exited x)
      (enqueued x) (picked x) (updated x) (nextEvent x) (strictEndEvent x)
      (execCnt x) (execTime x) (waitTime x) (nextBehIndex x) (behavior x)
      (execLog x) (runLog x) (latencyLog x) (enqueueWakeup x) v
      (prevSumExecRuntime x) (load x).
Definition set_prevSumExecRuntime (v : Z) (x : Process) : Process :=
  mkProcess (pid x) (pname x) (alive x) (runnable x) (onRq x) (waiting x)
      (remainingRuntime x) (policy x) (schedClass x) (spawned x) (exited x)
      (enqueued x) (picked x) (updated x) (nextEvent x) (strictEndEvent x)
      (execCnt x) (execTime x) (waitTime x) (nextBehIndex x) (behavior x)
      (execLog x) (runLog x) (latencyLog x) (enqueueWakeup x) (vruntime x) v
      (load x).
(** ** Scheduling classes *)

(** The fields of the base class [SchedClass]. *)
Module SchedClass.
Record t : Type := mk {
  nrRunning : Z;
  nrWaiting : Z;
  latencySum : Z;
  latencyUpdate : Z;
  latencyLog : list Z
}.

Definition set_nrRunning (v : Z) (x : t) : t :=
  mk v (nrWaiting x) (latencySum x) (latencyUpdate x) (latencyLog x).
Definition set_nrWaiting (v : Z) (x : t) : t :=
  mk (nrRunning x) v (latencySum x) (latencyUpdate x) (latencyLog x).
Definition set_latencySum (v : Z) (x : t) : t :=
  mk (nrRunning x) (nrWaiting x) v (latencyUpdate x) (latencyLog x).
Definition set_latencyUpdate (v : Z) (x : t) : t :=
  mk (nrRunning x) (nrWaiting x) (latencySum x) v (latencyLog x).
Definition set_latencyLog (v : list Z) (x : t) : t :=
  mk (nrRunning x) (nrWaiting x) (latencySum x) (latencyUpdate x) v.
End SchedClass.

(** The fields that [LinuxFairClass] adds. *)
Module LinuxFair.
Record t : Type := mk {
  runqueue : @redblack.tree Q (holder pref);
  enqueued : Z;
  load : Z;
  minVruntime : Q;
  curr : option pref;
  timeScale : Z;
  minGranularity : Z;
  schedLatency : Z;
  schedWakeupGranularity : Z;
  schedMinGranularity : Z;
  startDebit : bool;
  schedNrLatency : Z;
  vruntime : option Q   (* written by enqueue, never read *)
}.

Definition set_runqueue (v : @redblack.tree Q (holder pref)) (x : t) : t :=
  mk v (enqueued x) (load x) (minVruntime x) (curr x) (timeScale x)
      (minGranularity x) (schedLatency x) (schedWakeupGranularity x)
      (schedMinGranularity x) (startDebit x) (schedNrLatency x) (vruntime x).
Definition set_enqueued (v : Z) (x : t) : t :=
  mk (runqueue x) v (load x) (minVruntime x) (curr x) (timeScale x)
      (minGranularity x) (schedLatency x) (schedWakeupGranularity x)
      (schedMinGranularity x) (startDebit x) (schedNrLatency x) (vruntime x).
Definition set_load (v : Z) (x : t) : t :=
  mk (runqueue x) (enqueued x) v (minVruntime x) (curr x) (timeScale x)
      (minGranularity x) (schedLatency x) (schedWakeupGranularity x)
      (schedMinGranularity x) (startDebit x) (schedNrLatency x) (vruntime x).
Definition set_minVruntime (v : Q) (x : t) : t :=
  mk (runqueue x) (enqueued x) (load x) v (curr x) (timeScale x)
      (minGranularity x) (schedLatency x) (schedWakeupGranularity x)
      (schedMinGranularity x) (startDebit x) (schedNrLatency x) (vruntime x).
Definition set_curr (v : option pref) (x : t) : t :=
  mk (runqueue x) (enqueued x) (load x) (minVruntime x) v (timeScale x)
      (minGranularity x) (schedLatency x) (schedWakeupGranularity x)
      (schedMinGranularity x) (startDebit x) (schedNrLatency x) (vruntime x).
Definition set_timeScale (v : Z) (x : t) : t :=
  mk (runqueue x) (enqueued x) (load x) (minVruntime x) (curr x) v
      (minGranularity x) (schedLatency x) (schedWakeupGranularity x)
      (schedMinGranularity x) (startDebit x) (schedNrLatency x) (vruntime x).
Definition set_minGranularity (v : Z) (x : t) : t :=
  mk (runqueue x) (enqueued x) (load x) (minVruntime x) (curr x) (timeScale x)
      v (schedLatency x) (schedWakeupGranularity x) (schedMinGranularity x)
      (startDebit x) (schedNrLatency x) (vruntime x).
Definition set_schedLatency (v : Z) (x : t) : t :=
  mk (runqueue x) (enqueued x) (load x) (minVruntime x) (curr x) (timeScale x)
      (minGranularity x) v (schedWakeupGranularity x) (schedMinGranularity x)
      (startDebit x) (schedNrLatency x) (vruntime x).
Definition set_schedWakeupGranularity (v : Z) (x : t) : t :=
  mk (runqueue x) (enqueued x) (load x) (minVruntime x) (curr x) (timeScale x)
      (minGranularity x) (schedLatency x) v (schedMinGranularity x)
      (startDebit x) (schedNrLatency x) (vruntime x).
Definition set_schedMinGranularity (v : Z) (x : t) : t :=
  mk (runqueue x) (enqueued x) (load x) (minVruntime x) (curr x) (timeScale x)
      (minGranularity x) (schedLatency x) (schedWakeupGranularity x) v
      (startDebit x) (schedNrLatency x) (vruntime x).
Definition set_startDebit (v : bool) (x : t) : t :=
  mk (runqueue x) (enqueued x) (load x) (minVruntime x) (curr x) (timeScale x)
      (minGranularity x) (schedLatency x) (schedWakeupGranularity x)
      (schedMinGranularity x) v (schedNrLatency x) (vruntime x).
Definition set_schedNrLatency (v : Z) (x : t) : t :=
  mk (runqueue x) (enqueued x) (load x) (minVruntime x) (curr x) (timeScale x)
      (minGranularity x) (schedLatency x) (schedWakeupGranularity x)
      (schedMinGranularity x) (startDebit x) v (vruntime x).
Definition set_vruntime (v : option Q) (x : t) : t :=
  mk (runqueue x) (enqueued x) (load x) (minVruntime x) (curr x) (timeScale x)
      (minGranularity x) (schedLatency x) (schedWakeupGranularity x)
      (schedMinGranularity x) (startDebit x) (schedNrLatency x) v.
End LinuxFair.

(** ** The simulator state

    The private and public variables of the [Simulator] closure, together
    with the objects they refer to.  [curr] is [null] only before the first
    [Simulator.init]; those states are not represented.  A scheduling class
    is one object, reachable from [schedClassRegistered], from
    [schedClassActive] and from its processes: the objects are kept in
    [schedClassRegistered] and [schedClassActive] lists the names it has.
    [Math.random] is a
    stream of integers [randomSource] read at position [randomCount].
    [putPrevCalls] is not a variable of the source: it counts the executions
    of [SchedClass.putPrev] and [IdleClass.putPrev], the only two places
    that set [calledPutPrev]. *)
Record Sim : Type := mkSim {
  simulationTime : Z;
  simulationLen : Z;
  timerTickLen : Z;
  contextSwitches : Z;
  liveProcessCount : Z;
  simulationQueue : queue;
  simEventLog : list Event;
  schedClassRegistered : gmap string SchedClass.t;   (* the class objects, by name *)
  schedClassPrioRegistered : list string;
  schedClassActive : list string;   (* the names under which schedClassActive holds a class *)
  schedClassPrio : list string;
  schedClassName : option string;   (* None when schedClassNameSet is false *)
  procList : list Process;
  curr : pref;
  idle : Process;
  idleClass : SchedClass.t;
  preemption : bool;
  calledPutPrev : bool;
  processesLoaded : bool;
  simInitDone : bool;
  simRunning : bool;
  eventCount : nat;   (* events created so far: the identity of the next one *)
  randomSource : nat -> Z;   (* the stream behind Math.random() *)
  randomCount : nat;   (* calls to Math.random() so far *)
  putPrevCalls : nat;   (* ghost: executions of a putPrev method *)
  fcfs : list pref;   (* FCFSClass.runqueue *)
  fair : LinuxFair.t   (* the LinuxFairClass object *)
}.

Definition set_simulationTime (v : Z) (x : Sim) : Sim :=
  mkSim v (simulationLen x) (timerTickLen x) (contextSwitches x)
      (liveProcessCount x) (simulationQueue x) (simEventLog x)
      (schedClassRegistered x) (schedClassPrioRegistered x) (schedClassActive
      x) (schedClassPrio x) (schedClassName x) (procList x) (curr x) (idle x)
      (idleClass x) (preemption x) (calledPutPrev x) (processesLoaded x)
      (simInitDone x) (simRunning x) (eventCount x) (randomSource x)
      (randomCount x) (putPrevCalls x) (fcfs x) (fair x).
Definition set_simulationLen (v : Z) (x : Sim) : Sim :=
  mkSim (simulationTime x) v (timerTickLen x) (contextSwitches x)
      (liveProcessCount x) (simulationQueue x) (simEventLog x)
      (schedClassRegistered x) (schedClassPrioRegistered x) (schedClassActive
      x) (schedClassPrio x) (schedClassName x) (procList x) (curr x) (idle x)
      (idleClass x) (preemption x) (calledPutPrev x) (processesLoaded x)
      (simInitDone x) (simRunning x) (eventCount x) (randomSource x)
      (randomCount x) (putPrevCalls x) (fcfs x) (fair x).
Definition set_timerTickLen (v : Z) (x : Sim) : Sim :=
  mkSim (simulationTime x) (simulationLen x) v (contextSwitches x)
      (liveProcessCount x) (simulationQueue x) (simEventLog x)
      (schedClassRegistered x) (schedClassPrioRegistered x) (schedClassActive
      x) (schedClassPrio x) (schedClassName x) (procList x) (curr x) (idle x)
      (idleClass x) (preemption x) (calledPutPrev x) (processesLoaded x)
      (simInitDone x) (simRunning x) (eventCount x) (randomSource x)
      (randomCount x) (putPrevCalls x) (fcfs x) (fair x).
Definition set_contextSwitches (v : Z) (x : Sim) : Sim :=
  mkSim (simulationTime x) (simulationLen x) (timerTickLen x) v
      (liveProcessCount x) (simulationQueue x) (simEventLog x)
      (schedClassRegistered x) (schedClassPrioRegistered x) (schedClassActive
      x) (schedClassPrio x) (schedClassName x) (procList x) (curr x) (idle x)
      (idleClass x) (preemption x) (calledPutPrev x) (processesLoaded x)
      (simInitDone x) (simRunning x) (eventCount x) (randomSource x)
      (randomCount x) (putPrevCalls x) (fcfs x) (fair x).
Definition set_liveProcessCount (v : Z) (x : Sim) : Sim :=
  mkSim (simulationTime x) (simulationLen x) (timerTickLen x) (contextSwitches
      x) v (simulationQueue x) (simEventLog x) (schedClassRegistered x)
      (schedClassPrioRegistered x) (schedClassActive x) (schedClassPrio x)
      (schedClassName x) (procList x) (curr x) (idle x) (idleClass x)
      (preemption x) (calledPutPrev x) (processesLoaded x) (simInitDone x)
      (simRunning x) (eventCount x) (randomSource x) (randomCount x)
      (putPrevCalls x) (fcfs x) (fair x).
Definition set_simulationQueue (v : queue) (x : Sim) : Sim :=
  mkSim (simulationTime x) (simulationLen x) (timerTickLen x) (contextSwitches
      x) (liveProcessCount x) v (simEventLog x) (schedClassRegistered x)
      (schedClassPrioRegistered x) (schedClassActive x) (schedClassPrio x)
      (schedClassName x) (procList x) (curr x) (idle x) (idleClass x)
      (preemption x) (calledPutPrev x) (processesLoaded x) (simInitDone x)
      (simRunning x) (eventCount x) (randomSource x) (randomCount x)
      (putPrevCalls x) (fcfs x) (fair x).
Definition set_simEventLog (v : list Event) (x : Sim) : Sim :=
  mkSim (simulationTime x) (simulationLen x) (timerTickLen x) (contextSwitches
      x) (liveProcessCount x) (simulationQueue x) v (schedClassRegistered x)
      (schedClassPrioRegistered x) (schedClassActive x) (schedClassPrio x)
      (schedClassName x) (procList x) (curr x) (idle x) (idleClass x)
      (preemption x) (calledPutPrev x) (processesLoaded x) (simInitDone x)
      (simRunning x) (eventCount x) (randomSource x) (randomCount x)
      (putPrevCalls x) (fcfs x) (fair x).
Definition set_schedClassRegistered (v : gmap string SchedClass.t) (x : Sim) : Sim :=
  mkSim (simulationTime x) (simulationLen x) (timerTickLen x) (contextSwitches
      x) (liveProcessCount x) (simulationQueue x) (simEventLog x) v
      (schedClassPrioRegistered x) (schedClassActive x) (schedClassPrio x)
      (schedClassName x) (procList x) (curr x) (idle x) (idleClass x)
      (preemption x) (calledPutPrev x) (processesLoaded x) (simInitDone x)
      (simRunning x) (eventCount x) (randomSource x) (randomCount x)
      (putPrevCalls x) (fcfs x) (fair x).
Definition set_schedClassPrioRegistered (v : list string) (x : Sim) : Sim :=
  mkSim (simulationTime x) (simulationLen x) (timerTickLen x) (contextSwitches
      x) (liveProcessCount x) (simulationQueue x) (simEventLog x)
      (schedClassRegistered x) v (schedClassActive x) (schedClassPrio x)
      (schedClassName x) (procList x) (curr x) (idle x) (idleClass x)
      (preemption x) (calledPutPrev x) (processesLoaded x) (simInitDone x)
      (simRunning x) (eventCount x) (randomSource x) (randomCount x)
      (putPrevCalls x) (fcfs x) (fair x).
Definition set_schedClassActive (v : list string) (x : Sim) : Sim :=
  mkSim (simulationTime x) (simulationLen x) (timerTickLen x) (contextSwitches
      x) (liveProcessCount x) (simulationQueue x) (simEventLog x)
      (schedClassRegistered x) (schedClassPrioRegistered x) v (schedClassPrio
      x) (schedClassName x) (procList x) (curr x) (idle x) (idleClass x)
      (preemption x) (calledPutPrev x) (processesLoaded x) (simInitDone x)
      (simRunning x) (eventCount x) (randomSource x) (randomCount x)
      (putPrevCalls x) (fcfs x) (fair x).
Definition set_schedClassPrio (v : list string) (x : Sim) : Sim :=
  mkSim (simulationTime x) (simulationLen x) (timerTickLen x) (contextSwitches
      x) (liveProcessCount x) (simulationQueue x) (simEventLog x)
      (schedClassRegistered x) (schedClassPrioRegistered x) (schedClassActive
      x) v (schedClassName x) (procList x) (curr x) (idle x) (idleClass x)
      (preemption x) (calledPutPrev x) (processesLoaded x) (simInitDone x)
      (simRunning x) (eventCount x) (randomSource x) (randomCount x)
      (putPrevCalls x) (fcfs x) (fair x).
Definition set_schedClassName (v : option string) (x : Sim) : Sim :=
  mkSim (simulationTime x) (simulationLen x) (timerTickLen x) (contextSwitches
      x) (liveProcessCount x) (simulationQueue x) (simEventLog x)
      (schedClassRegistered x) (schedClassPrioRegistered x) (schedClassActive
      x) (schedClassPrio x) v (procList x) (curr x) (idle x) (idleClass x)
      (preemption x) (calledPutPrev x) (processesLoaded x) (simInitDone x)
      (simRunning x) (eventCount x) (randomSource x) (randomCount x)
      (putPrevCalls x) (fcfs x) (fair x).
Definition set_procList (v : list Process) (x : Sim) : Sim :=
  mkSim (simulationTime x) (simulationLen x) (timerTickLen x) (contextSwitches
      x) (liveProcessCount x) (simulationQueue x) (simEventLog x)
      (schedClassRegistered x) (schedClassPrioRegistered x) (schedClassActive
      x) (schedClassPrio x) (schedClassName x) v (curr x) (idle x) (idleClass
      x) (preemption x) (calledPutPrev x) (processesLoaded x) (simInitDone x)
      (simRunning x) (eventCount x) (randomSource x) (randomCount x)
      (putPrevCalls x) (fcfs x) (fair x).
Definition set_curr (v : pref) (x : Sim) : Sim :=
  mkSim (simulationTime x) (simulationLen x) (timerTickLen x) (contextSwitches
      x) (liveProcessCount x) (simulationQueue x) (simEventLog x)
      (schedClassRegistered x) (schedClassPrioRegistered x) (schedClassActive
      x) (schedClassPrio x) (schedClassName x) (procList x) v (idle x)
      (idleClass x) (preemption x) (calledPutPrev x) (processesLoaded x)
      (simInitDone x) (simRunning x) (eventCount x) (randomSource x)
      (randomCount x) (putPrevCalls x) (fcfs x) (fair x).
Definition set_idle (v : Process) (x : Sim) : Sim :=
  mkSim (simulationTime x) (simulationLen x) (timerTickLen x) (contextSwitches
      x) (liveProcessCount x) (simulationQueue x) (simEventLog x)
      (schedClassRegistered x) (schedClassPrioRegistered x) (schedClassActive
      x) (schedClassPrio x) (schedClassName x) (procList x) (curr x) v
      (idleClass x) (preemption x) (calledPutPrev x) (processesLoaded x)
      (simInitDone x) (simRunning x) (eventCount x) (randomSource x)
      (randomCount x) (putPrevCalls x) (fcfs x) (fair x).
Definition set_idleClass (v : SchedClass.t) (x : Sim) : Sim :=
  mkSim (simulationTime x) (simulationLen x) (timerTickLen x) (contextSwitches
      x) (liveProcessCount x) (simulationQueue x) (simEventLog x)
      (schedClassRegistered x) (schedClassPrioRegistered x) (schedClassActive
      x) (schedClassPrio x) (schedClassName x) (procList x) (curr x) (idle x)
      v (preemption x) (calledPutPrev x) (processesLoaded x) (simInitDone x)
      (simRunning x) (eventCount x) (randomSource x) (randomCount x)
      (putPrevCalls x) (fcfs x) (fair x).
Definition set_calledPutPrev (v : bool) (x : Sim) : Sim :=
  mkSim (simulationTime x) (simulationLen x) (timerTickLen x) (contextSwitches
      x) (liveProcessCount x) (simulationQueue x) (simEventLog x)
      (schedClassRegistered x) (schedClassPrioRegistered x) (schedClassActive
      x) (schedClassPrio x) (schedClassName x) (procList x) (curr x) (idle x)
      (idleClass x) (preemption x) v (processesLoaded x) (simInitDone x)
      (simRunning x) (eventCount x) (randomSource x) (randomCount x)
      (putPrevCalls x) (fcfs x) (fair x).
Definition set_processesLoaded (v : bool) (x : Sim) : Sim :=
  mkSim (simulationTime x) (simulationLen x) (timerTickLen x) (contextSwitches
      x) (liveProcessCount x) (simulationQueue x) (simEventLog x)
      (schedClassRegistered x) (schedClassPrioRegistered x) (schedClassActive
      x) (schedClassPrio x) (schedClassName x) (procList x) (curr x) (idle x)
      (idleClass x) (preemption x) (calledPutPrev x) v (simInitDone x)
      (simRunning x) (eventCount x) (randomSource x) (randomCount x)
      (putPrevCalls x) (fcfs x) (fair x).
Definition set_simInitDone (v : bool) (x : Sim) : Sim :=
  mkSim (simulationTime x) (simulationLen x) (timerTickLen x) (contextSwitches
      x) (liveProcessCount x) (simulationQueue x) (simEventLog x)
      (schedClassRegistered x) (schedClassPrioRegistered x) (schedClassActive
      x) (schedClassPrio x) (schedClassName x) (procList x) (curr x) (idle x)
      (idleClass x) (preemption x) (calledPutPrev x) (processesLoaded x) v
      (simRunning x) (eventCount x) (randomSource x) (randomCount x)
      (putPrevCalls x) (fcfs x) (fair x).
Definition set_simRunning (v : bool) (x : Sim) : Sim :=
  mkSim (simulationTime x) (simulationLen x) (timerTickLen x) (contextSwitches
      x) (liveProcessCount x) (simulationQueue x) (simEventLog x)
      (schedClassRegistered x) (schedClassPrioRegistered x) (schedClassActive
      x) (schedClassPrio x) (schedClassName x) (procList x) (curr x) (idle x)
      (idleClass x) (preemption x) (calledPutPrev x) (processesLoaded x)
      (simInitDone x) v (eventCount x) (randomSource x) (randomCount x)
      (putPrevCalls x) (fcfs x) (fair x).
Definition set_eventCount (v : nat) (x : Sim) : Sim :=
  mkSim (simulationTime x) (simulationLen x) (timerTickLen x) (contextSwitches
      x) (liveProcessCount x) (simulationQueue x) (simEventLog x)
      (schedClassRegistered x) (schedClassPrioRegistered x) (schedClassActive
      x) (schedClassPrio x) (schedClassName x) (procList x) (curr x) (idle x)
      (idleClass x) (preemption x) (calledPutPrev x) (processesLoaded x)
      (simInitDone x) (simRunning x) v (randomSource x) (randomCount x)
      (putPrevCalls x) (fcfs x) (fair x).
Definition set_randomCount (v : nat) (x : Sim) : Sim :=
  mkSim (simulationTime x) (simulationLen x) (timerTickLen x) (contextSwitches
      x) (liveProcessCount x) (simulationQueue x) (simEventLog x)
      (schedClassRegistered x) (schedClassPrioRegistered x) (schedClassActive
      x) (schedClassPrio x) (schedClassName x) (procList x) (curr x) (idle x)
      (idleClass x) (preemption x) (calledPutPrev x) (processesLoaded x)
      (simInitDone x) (simRunning x) (eventCount x) (randomSource x) v
      (putPrevCalls x) (fcfs x) (fair x).
Definition set_putPrevCalls (v : nat) (x : Sim) : Sim :=
  mkSim (simulationTime x) (simulationLen x) (timerTickLen x) (contextSwitches
      x) (liveProcessCount x) (simulationQueue x) (simEventLog x)
      (schedClassRegistered x) (schedClassPrioRegistered x) (schedClassActive
      x) (schedClassPrio x) (schedClassName x) (procList x) (curr x) (idle x)
      (idleClass x) (preemption x) (calledPutPrev x) (processesLoaded x)
      (simInitDone x) (simRunning x) (eventCount x) (randomSource x)
      (randomCount x) v (fcfs x) (fair x).
Definition set_fcfs (v : list pref) (x : Sim) : Sim :=
  mkSim (simulationTime x) (simulationLen x) (timerTickLen x) (contextSwitches
      x) (liveProcessCount x) (simulationQueue x) (simEventLog x)
      (schedClassRegistered x) (schedClassPrioRegistered x) (schedClassActive
      x) (schedClassPrio x) (schedClassName x) (procList x) (curr x) (idle x)
      (idleClass x) (preemption x) (calledPutPrev x) (processesLoaded x)
      (simInitDone x) (simRunning x) (eventCount x) (randomSource x)
      (randomCount x) (putPrevCalls x) v (fair x).
Definition set_fair (v : LinuxFair.t) (x : Sim) : Sim :=
  mkSim (simulationTime x) (simulationLen x) (timerTickLen x) (contextSwitches
      x) (liveProcessCount x) (simulationQueue x) (simEventLog x)
      (schedClassRegistered x) (schedClassPrioRegistered x) (schedClassActive
      x) (schedClassPrio x) (schedClassName x) (procList x) (curr x) (idle x)
      (idleClass x) (preemption x) (calledPutPrev x) (processesLoaded x)
      (simInitDone x) (simRunning x) (eventCount x) (randomSource x)
      (randomCount x) (putPrevCalls x) (fcfs x) v.

(** ** Access to the shared objects *)

Definition getProc (r : pref) (s : Sim) : res Process :=
  match r with
  | Idle => Ok (idle s)
  | Pid n => deref (procList s !! n) "the process is undefined"
  end.

(** The process object [r] is given the fields of [p]. *)
Definition setProc (r : pref) (p : Process) (s : Sim) : Sim :=
  set_idle (match r with Idle => p | Pid _ => idle s end)
    (set_procList (match r with
                   | Idle => procList s
                   | Pid n => <[n := p]> (procList s)
                   end) s).

(** An assignment to fields of the process object [r]. *)
Definition updProc (r : pref) (f : Process -> Process) (s : Sim) : res Sim :=
  do p <- getProc r s; Ok (setProc r (f p) s).

Definition getClass (c : clsref) (s : Sim) : res SchedClass.t :=
  match c with
  | IdleCls => Ok (idleClass s)
  | Cls name => deref (schedClassRegistered s !! name) "the scheduling class is undefined"
  end.

(** The class object [c] is given the fields of [o]. *)
Definition setClass (c : clsref) (o : SchedClass.t) (s : Sim) : Sim :=
  set_idleClass (match c with IdleCls => o | Cls _ => idleClass s end)
    (set_schedClassRegistered
       (match c with
        | IdleCls => schedClassRegistered s
        | Cls name => <[name := o]> (schedClassRegistered s)
        end) s).

(** An assignment to fields of the scheduling-class object [c]. *)
Definition updClass (c : clsref) (f : SchedClass.t -> SchedClass.t) (s : Sim) : res Sim :=
  do o <- getClass c s; Ok (setClass c (f o) s).

(** [proc.currBehavior], the object [proc.behavior[0]]. *)
Definition currBehavior (p : Process) : res Behavior.t :=
  deref (head (behavior p)) "proc.currBehavior is undefined".

Definition updCurrBehavior (f : Behavior.t -> Behavior.t) (p : Process) : Process :=
  match behavior p with
  | b :: l => set_behavior (f b :: l) p
  | [] => p
  end.

(** [new XEvent(time, process)]: the constructor reads [Simulator.time()]. *)
Definition newEvent (k : EventKind) (t : Z) (p : option pref) (s : Sim) : Event * Sim :=
  (mkEvent (eventCount s) t (simulationTime s) k p, set_eventCount (S (eventCount s)) s).

Definition sim_insertEvent (evt : Event) (s : Sim) : res Sim :=
  do q <- insertEvent (simulationTime s) evt (simulationQueue s);
  Ok (set_simulationQueue q s).

Definition sim_deleteEvent (evt : Event) (s : Sim) : res Sim :=
  do '(_, q) <- deleteEvent (simulationTime s) evt (simulationQueue s);
  Ok (set_simulationQueue q s).

(** [Math.floor(Math.random() * range)] for a range that is not negative. *)
Definition mathRandomFloor (range : Z) (s : Sim) : Z * Sim :=
  ((if 0 <? range then randomSource s (randomCount s) mod range else 0),
   set_randomCount (S (randomCount s)) s).

(** [getProcVal] *)
Definition getProcVal (entry : option procval) (s : Sim) : res (Z * Sim) :=
  match entry with
  | Some (PNum z) => Ok (z, s)
  | Some (PRange lo hi) =>
      if lo <=? hi then
        let '(x, s) := mathRandomFloor (hi - lo) s in Ok (lo + x, s)
      else Err "parsing an ivnalid entity with getVal."
  | None => Err "parsing an ivnalid entity with getVal."
  end.

(** The statements
    [c.latencySum += (now - c.latencyUpdate) * c.nrWaiting; c.latencyUpdate = now;]
    which the source repeats wherever a waiting count is about to change. *)
Definition latencyFlush (now : Z) (c : SchedClass.t) : SchedClass.t :=
  SchedClass.set_latencyUpdate now
    (SchedClass.set_latencySum
       (SchedClass.latencySum c + (now - SchedClass.latencyUpdate c) * SchedClass.nrWaiting c) c).

Definition logEntry (s : Sim) (e : LogEvent) (p : Process) : Process :=
  set_execLog (execLog p ++ [mkLogEntry (simulationTime s) e]) p.

(** ** The base class [SchedClass] *)

Definition SchedClass_init (name : string) (s : Sim) : Sim :=
  setClass (Cls name) (SchedClass.mk 0 0 0 (simulationTime s) []) s.

Definition SchedClass_enqueue (proc : pref) (s : Sim) : res Sim :=
  do p <- getProc proc s;
  if negb (alive p) then Err "attempting to enqueue a dead process."
  else if onRq p then Err "attempting to enqueue a process that's already on the runqueue."
  else updProc proc (fun p => logEntry s LogEnqueue (set_onRq true p)) s.

Definition SchedClass_dequeue (proc : pref) (s : Sim) : res Sim :=
  do p <- getProc proc s;
  if negb (onRq p) then Err "attempting to dequeue a process that's not on the runqueue."
  else updProc proc (fun p => logEntry s LogDequeue (set_onRq false p)) s.

Definition SchedClass_updateLatency (name : string) (s : Sim) : res Sim :=
  let now := simulationTime s in
  updClass (Cls name)
    (fun c => let c := latencyFlush now c in
              SchedClass.set_latencyLog (SchedClass.latencyLog c ++ [SchedClass.latencySum c]) c) s.

Definition SchedClass_pickNext (name : string) (s : Sim) : res Sim :=
  if calledPutPrev s then
    Err "simulatorPutPrev true at the start of pickNext. A previous scheduling class likely called putPrev but returned null!"
  else SchedClass_updateLatency name s.

Definition SchedClass_putPrev (s : Sim) : Sim :=
  set_putPrevCalls (S (putPrevCalls s)) (set_calledPutPrev true s).

(** [IdleClass.putPrev]; the other methods of the idle class that the
    kernel can reach do nothing. *)
Definition IdleClass_putPrev (s : Sim) : Sim :=
  set_putPrevCalls (S (putPrevCalls s)) (set_calledPutPrev true s).

(** ** Dynamic dispatch

    The methods of the registered scheduling classes, selected by the name
    of the class.  A method that calls back into the simulator receives the
    function it calls: [pickNext] implementations call
    [Simulator.putPrev], [checkPreempt] and [taskTick] implementations call
    [Simulator.pickNext]. *)

Record classParams : Type := mkClassParams {
  p_timeScale : option Z;
  p_minGranularity : option Z;
  p_schedLatency : option Z;
  p_schedWakeupGranularity : option Z;
  p_schedMinGranularity : option Z;
  p_startDebit : option bool
}.

Record Dispatch : Type := mkDispatch {
  cls_init : string -> option classParams -> Sim -> res Sim;
  cls_enqueue : string -> pref -> Sim -> res Sim;
  cls_dequeue : string -> pref -> Sim -> res Sim;
  cls_pickNext : (pref -> Sim -> res Sim) -> string -> pref -> Sim -> res (option pref * Sim);
  cls_putPrev : string -> pref -> Sim -> res Sim;
  cls_checkPreempt : (Sim -> res Sim) -> string -> pref -> Sim -> res Sim;
  cls_taskTick : (Sim -> res Sim) -> string -> Sim -> res Sim
}.

(** ** The kernel *)

Section Kernel.
Variable D : Dispatch.

  (** [proc.schedClass.dequeue(proc)] *)
Definition class_dequeue (c : clsref) (proc : pref) (s : Sim) : res Sim :=
    match c with
    | IdleCls => Ok s
    | Cls name => cls_dequeue D name proc s
    end.

  (** [proc.schedClass.enqueue(proc)] *)
Definition class_enqueue (c : clsref) (proc : pref) (s : Sim) : res Sim :=
    match c with
    | IdleCls => Ok s
    | Cls name => cls_enqueue D name proc s
    end.

  (** [Simulator.putPrev] *)
Definition putPrev (prev : pref) (s : Sim) : res Sim :=
    do p <- getProc prev s;
    match schedClass p with
    | IdleCls => Ok (IdleClass_putPrev s)
    | Cls name => cls_putPrev D name prev s
    end.

  (** [handleBlock] *)
Definition handleBlock (evt : Event) (s : Sim) : res Sim :=
    let now := simulationTime s in
    do r <- deref (process evt) "evt.process is undefined";
    do proc <- getProc r s;
    let lastRun := now - picked proc in
    do s <- updProc r (fun p =>
              set_runLog (runLog p ++ [lastRun])
                (set_execTime (execTime p + lastRun)
                   (set_picked now (set_runnable false (set_remainingRuntime 0 p))))) s;
    do s <- (if onRq proc then class_dequeue (schedClass proc) r s else Ok s);
    do proc <- getProc r s;
    do cb <- currBehavior proc;
    do '(t, s) <- getProcVal (Behavior.block cb) s;
    let '(e, s) := newEvent EnqueueEvent (now + t) (Some r) s in
    do s <- sim_insertEvent e s;
    do s <- updProc r (fun p => logEntry s LogBlock (set_nextEvent (Some e) p)) s;
    updClass (schedClass proc)
      (fun c => SchedClass.set_nrRunning (SchedClass.nrRunning c - 1) c) s.

  (** [handleExit] *)
Definition handleExit (evt : Event) (s : Sim) : res Sim :=
    let now := simulationTime s in
    do r <- deref (process evt) "evt.process is undefined";
    do proc <- getProc r s;
    do s <- updProc r (fun p => set_exited now (set_alive false (set_runnable false p))) s;
    do s <- (if onRq proc then class_dequeue (schedClass proc) r s else Ok s);
    do proc <- getProc r s;
    do s <- (match nextEvent proc with
             | Some ne =>
                 if negb (Event_same ne evt) && (time ne >=? now)
                 then sim_deleteEvent ne s else Ok s
             | None => Ok s
             end);
    do s <- updProc r (logEntry s LogExit) s;
    let s := set_liveProcessCount (liveProcessCount s - 1) s in
    if pref_eqb r (curr s) then
      let lastRun := now - picked proc in
      updProc r (fun p =>
        set_runLog (runLog p ++ [lastRun])
          (set_execTime (execTime p + lastRun)
             (set_picked now (set_remainingRuntime 0 p)))) s
    else if waiting proc then
      let pWaitTime := now - enqueued proc in
      do s <- updProc r (fun p =>
                set_waiting false
                  (set_waitTime (waitTime p + pWaitTime)
                     (set_latencyLog (latencyLog p ++ [pWaitTime]) p))) s;
      updClass (schedClass proc)
        (fun c =>
           let c := latencyFlush now c in
           let c := SchedClass.set_latencySum (SchedClass.latencySum c - pWaitTime) c in
           let c := SchedClass.set_nrWaiting (SchedClass.nrWaiting c - 1) c in
           SchedClass.set_nrRunning (SchedClass.nrRunning c - 1) c) s
    else Ok s.

  (** [handlePreempt] *)
Definition handlePreempt (r : pref) (s : Sim) : res Sim :=
    do proc <- getProc r s;
    if negb (alive proc) then Err "attempting to handle a dead process." else
    let now := simulationTime s in
    let lastRun := now - picked proc in
    do s <- updProc r (fun p => set_remainingRuntime (remainingRuntime p - lastRun) p) s;
    do proc <- getProc r s;
    do atEnd <- (if remainingRuntime proc <=? 0 then Ok true
                 else do ne <- deref (nextEvent proc) "proc.nextEvent is null";
                      Ok (time ne =? now));
    if atEnd then
      if 0 <? remainingRuntime proc then
        Err "next event of preempted process at current time, but remainingRuntime > 0"
      else
        do ne <- deref (nextEvent proc) "proc.nextEvent is null";
        if negb (time ne =? now) then
          Err "remainingRuntime == 0 for preempted process, but its next event is at another time"
        else
          let s := set_simEventLog (simEventLog s ++ [ne]) s in
          do s <- (match kind ne with
                   | BlockEvent => handleBlock ne s
                   | ExitEvent _ _ =>
                       do s <- handleExit ne s; updProc r (set_nextEvent None) s
                   | _ => Err "proc.nextEvent is not an end event (block or exit)"
                   end);
          do s <- sim_deleteEvent ne s;
          updProc r (set_nextEvent None) s
    else
      do s <- updProc r (fun p =>
                set_runLog (runLog p ++ [lastRun])
                  (set_execTime (execTime p + lastRun) (set_picked now p))) s;
      do s <- updClass (schedClass proc) (latencyFlush now) s;
      do s <- updProc r (fun p => set_waiting true (set_enqueued now p)) s;
      do s <- updClass (schedClass proc)
                (fun c => SchedClass.set_nrWaiting (SchedClass.nrWaiting c + 1) c) s;
      do s <- updProc r (logEntry s LogPreempt) s;
      match nextEvent proc with
      | Some ne =>
          match kind ne with
          | ExitEvent ExitCond.simExec false => Ok s
          | ExitEvent ExitCond.execCnt false =>
              do s <- sim_deleteEvent ne s;
              let ne' := set_time now ne in
              do s <- updProc r (set_nextEvent (Some ne')) s;
              sim_insertEvent ne' s
          | _ =>
              do s <- sim_deleteEvent ne s;
              updProc r (set_nextEvent None) s
          end
      | None => Ok s
      end.

  (** *** [Simulator.pickNext] *)

  (** The loop over [schedClassPrio]: the classes are asked in order until
      one returns a process, the others only update their latency. *)
Fixpoint pickNext_classes (prev : pref) (names : list string) (next : option pref)
      (s : Sim) : res (option pref * Sim) :=
    match names with
    | [] => Ok (next, s)
    | name :: rest =>
        match next with
        | None =>
            do '(n, s) <- cls_pickNext D putPrev name prev s;
            match n with
            | Some _ =>
                if negb (calledPutPrev s) then
                  Err "the scheduling class returned a process to run, but never made a call to Simulator.putPrev(prev)."
                else pickNext_classes prev rest n s
            | None =>
                if calledPutPrev s then
                  Err "the scheduling class returned null, but made a call to prev.schedClass.putPrev(prev)."
                else pickNext_classes prev rest n s
            end
        | Some _ =>
            do s <- SchedClass_updateLatency name s;
            pickNext_classes prev rest next s
        end
    end.

  (** Run idle if no class returned a process, otherwise count a context
      switch and close the waiting period of the picked process. *)
Definition pickNext_account (next : option pref) (s : Sim) : res (pref * Sim) :=
    let now := simulationTime s in
    match next with
    | None => Ok (Idle, s)
    | Some r =>
        let s := set_contextSwitches (contextSwitches s + 1) s in
        do p <- getProc r s;
        if waiting p then
          let pWaitTime := now - enqueued p in
          do s <- updProc r (fun p =>
                    set_waiting false
                      (set_waitTime (waitTime p + pWaitTime)
                         (set_latencyLog (latencyLog p ++ [pWaitTime]) p))) s;
          do s <- updClass (schedClass p)
                    (fun c =>
                       let c := latencyFlush now c in
                       let c := SchedClass.set_latencySum (SchedClass.latencySum c - pWaitTime) c in
                       SchedClass.set_nrWaiting (SchedClass.nrWaiting c - 1) c) s;
          Ok (r, s)
        else Ok (r, s)
    end.

  (** The pick is logged in the process and in the simulation log. *)
Definition pickNext_log (next : pref) (s : Sim) : res Sim :=
    do s <- updProc next (logEntry s LogPick) s;
    let '(e, s) := newEvent PickEvent (simulationTime s) (Some next) s in
    Ok (set_simEventLog (simEventLog s ++ [e]) s).

  (** The condition under which the entry [nextBeh] replaces the current
      behaviour of [next]. *)
Definition behaviorSwitchDue (nextBeh : Behavior.t) (next : Process) (now : Z) : bool :=
    negb (Behavior.final nextBeh) &&
    ((match Behavior.procExec nextBeh with Some t => execTime next >=? t | None => false end)
     || (match Behavior.simExec nextBeh with Some t => now >=? t | None => false end)
     || (match Behavior.execCnt nextBeh with Some t => execCnt next >=? t | None => false end)).

  (** The fields of [nextBeh] that are defined are written into
      [currBehavior]. *)
Definition overlayBehavior (nextBeh cb : Behavior.t) : Behavior.t :=
    let cb := match Behavior.run nextBeh with
              | Some v => Behavior.set_run (Some v) cb | None => cb end in
    let cb := match Behavior.block nextBeh with
              | Some v => Behavior.set_block (Some v) cb | None => cb end in
    match Behavior.priority nextBeh with
    | Some v => Behavior.set_priority (Some v) cb | None => cb end.

  (** The update of the behaviour by a non-final entry. *)
Definition pickNext_switchBehavior (next : pref) (s : Sim) : res Sim :=
    let now := simulationTime s in
    do p <- getProc next s;
    match behavior p !! nextBehIndex p with
    | Some nextBeh =>
        if behaviorSwitchDue nextBeh p now then
          updProc next (fun p =>
            set_nextBehIndex (S (nextBehIndex p))
              (updCurrBehavior (overlayBehavior nextBeh) p)) s
        else Ok s
    | None => Ok s
    end.

  (** The time for which the task shall run: what remains of the last
      burst, or a new value of [currBehavior.run], stored in the process. *)
Definition pickNext_runTime (next : pref) (s : Sim) : res (Z * Sim) :=
    do p <- getProc next s;
    if 0 <? remainingRuntime p then Ok (remainingRuntime p, s)
    else
      do cb <- currBehavior p;
      do '(runTime, s) <- getProcVal (Behavior.run cb) s;
      do s <- updProc next (set_remainingRuntime runTime) s;
      Ok (runTime, s).

  (** The non-nice exit at a simulation time: the exit event is kept in
      [strictEndEvent]; it is also the next event of the process when the
      burst reaches it. *)
Definition pickNext_strictEnd (next : pref) (simExec runTime : Z) (s : Sim)
      : res (bool * Sim) :=
    let now := simulationTime s in
    do p <- getProc next s;
    do s <- (match strictEndEvent p with
             | Some old => sim_deleteEvent old s
             | None => Ok s
             end);
    let strictEndTime := if simExec <? now then now else simExec in
    let '(e, s) := newEvent (ExitEvent ExitCond.simExec false) strictEndTime (Some next) s in
    do s <- sim_insertEvent e s;
    do s <- updProc next (set_strictEndEvent (Some e)) s;
    if now + runTime >=? simExec then
      do s <- updProc next (set_nextEvent (Some e)) s;
      Ok (true, s)
    else Ok (false, s).

  (** The case where the next behaviour entry is a final entry.  The result
      tells whether the end event of the process has been set. *)
Definition pickNext_finalBehavior (next : pref) (s : Sim) : res (bool * Sim) :=
    let now := simulationTime s in
    do p <- getProc next s;
    match behavior p !! nextBehIndex p with
    | Some nextBeh =>
        if Behavior.final nextBeh then
          do '(runTime, s) <- pickNext_runTime next s;
          do p <- getProc next s;
          let exitAt (endTime : Z) (exitCond : ExitCond.t) (exitNice : bool) (s : Sim) :=
            if 0 <? endTime then
              let '(e, s) := newEvent (ExitEvent exitCond exitNice) endTime (Some next) s in
              do s <- sim_insertEvent e s;
              do s <- updProc next (set_nextEvent (Some e)) s;
              Ok (true, s)
            else Ok (false, s) in
          let procExecDue :=
            match Behavior.procExec nextBeh with
            | Some t => if execTime p + runTime >=? t then Some t else None
            | None => None
            end in
          match procExecDue, Behavior.simExec nextBeh, Behavior.execCnt nextBeh with
          | Some t, _, _ =>
              if Behavior.endNicely nextBeh then exitAt (now + runTime) ExitCond.procExec true s
              else if execTime p >=? t then exitAt (now + 1) ExitCond.procExec false s
              else exitAt (now + (t - execTime p)) ExitCond.procExec false s
          | None, Some t, _ =>
              if Behavior.endNicely nextBeh then
                if now + runTime >=? t then exitAt (now + runTime) ExitCond.simExec true s
                else Ok (false, s)
              else pickNext_strictEnd next t runTime s
          | None, None, Some c =>
              if execCnt p + 1 >=? c then
                exitAt (now + runTime) ExitCond.execCnt (Behavior.endNicely nextBeh) s
              else Ok (false, s)
          | None, None, None => Ok (false, s)
          end
        else Ok (false, s)
    | None => Ok (false, s)
    end.

  (** The behaviour of the picked process is updated and, when a final
      entry comes next, its exit is prepared. *)
Definition pickNext_behavior (next : pref) (s : Sim) : res (bool * Sim) :=
    do p <- getProc next s;
    if (nextBehIndex p <? length (behavior p))%nat then
      do s <- pickNext_switchBehavior next s;
      pickNext_finalBehavior next s
    else Ok (false, s).

  (** The execution counter, the block event when no exit event has been
      set, the pick time and the running process. *)
Definition pickNext_finish (next : pref) (endEventSet : bool) (s : Sim) : res Sim :=
    let now := simulationTime s in
    do s <- updProc next (fun p => set_execCnt (execCnt p + 1) p) s;
    do s <- (if endEventSet then Ok s
             else
               do '(runTime, s) <- pickNext_runTime next s;
               let '(e, s) := newEvent BlockEvent (now + runTime) (Some next) s in
               do s <- sim_insertEvent e s;
               updProc next (set_nextEvent (Some e)) s);
    do s <- updProc next (set_picked now) s;
    Ok (set_curr next s).

  (** What [Simulator.pickNext] does once the classes have answered. *)
Definition pickNext_run (next : option pref) (s : Sim) : res Sim :=
    do '(next, s) <- pickNext_account next s;
    do s <- pickNext_log next s;
    do '(endEventSet, s) <- pickNext_behavior next s;
    pickNext_finish next endEventSet s.

Definition pickNext (s : Sim) : res Sim :=
    let prev := curr s in
    do p <- getProc prev s;
    do s <- (if runnable p then handlePreempt prev s else Ok s);
    let s := set_calledPutPrev false s in
    do '(next, s) <- pickNext_classes prev (schedClassPrio s) None s;
    pickNext_run next s.

  (** *** [Simulator.checkPreempt] *)

Fixpoint checkPreempt_walk (proc : pref) (names : list string) (s : Sim) : res Sim :=
    match names with
    | [] => Ok s
    | name :: rest =>
        do p <- getProc proc s;
        if clsref_eqb (Cls name) (schedClass p) then
          do s <- pickNext s;
          checkPreempt_walk proc rest s
        else
          do c <- getProc (curr s) s;
          if clsref_eqb (Cls name) (schedClass c) then Ok s
          else checkPreempt_walk proc rest s
    end.

Definition checkPreempt (proc : pref) (s : Sim) : res Sim :=
    do p <- getProc proc s;
    do c <- getProc (curr s) s;
    if clsref_eqb (schedClass p) (schedClass c) && preemption s then
      match schedClass p with
      | IdleCls => Ok s
      | Cls name => cls_checkPreempt D pickNext name proc s
      end
    else checkPreempt_walk proc (schedClassPrio s) s.

  (** *** The main loop of [Simulator.run] *)

  (** [sim.time(t)] *)
Definition sim_time (t : Z) (s : Sim) : res Sim :=
    if t <? 0 then Err "called sim.time with an invalid argument."
    else Ok (set_simulationTime t s).

  (** [curr.schedClass.taskTick()] *)
Definition class_taskTick (c : clsref) (s : Sim) : res Sim :=
    match c with
    | IdleCls => Ok s
    | Cls name => cls_taskTick D pickNext name s
    end.

  (** The body of the loop for the event [evt], up to the bookkeeping of
      the run modes. *)
Definition run_event (evt : Event) (s : Sim) : res Sim :=
    if time evt >? simulationLen s then
      Err "current simulation time exceeded simuletion length! Missing SimStopEvent?"
    else if time evt <? simulationTime s then
      Err "event time is lower than current simulation time. We can't time travel."
    else
      do s <- sim_time (time evt) s;
      let s := set_simEventLog (simEventLog s ++ [evt]) s in
      let forkOrEnqueue (fork : bool) :=
        do r <- deref (process evt) "evt.process is undefined";
        let now := simulationTime s in
        do s <- updProc r (fun p =>
                  set_enqueued now
                    (set_waiting true
                       (set_runnable true (if fork then set_alive true p else p)))) s;
        do p <- getProc r s;
        do s <- updClass (schedClass p)
                  (fun c =>
                     let c := latencyFlush now c in
                     let c := SchedClass.set_nrWaiting (SchedClass.nrWaiting c + 1) c in
                     SchedClass.set_nrRunning (SchedClass.nrRunning c + 1) c) s;
        do s <- class_enqueue (schedClass p) r s;
        checkPreempt r s in
      do s <- (match kind evt with
               | ForkEvent => forkOrEnqueue true
               | EnqueueEvent => forkOrEnqueue false
               | BlockEvent => do s <- handleBlock evt s; pickNext s
               | TimerEvent =>
                   if preemption s then
                     do c <- getProc (curr s) s;
                     do s <- class_taskTick (schedClass c) s;
                     let '(e, s) :=
                       newEvent TimerEvent (simulationTime s + timerTickLen s) None s in
                     sim_insertEvent e s
                   else Ok s
               | ExitEvent _ _ =>
                   do s <- handleExit evt s;
                   match process evt with
                   | Some r => if pref_eqb r (curr s) then pickNext s else Ok s
                   | None => Ok s
                   end
               | SimStartEvent => pickNext s
               | PickEvent =>
                   Err "found a PickEvent in the simulation queue: this should not be here!"
               | SimStopEvent => Ok s
               end);
      match process evt with
      | None =>
          Ok (set_simEventLog
                (map (fun e => if Event_same e evt then set_process (Some (curr s)) e else e)
                   (simEventLog s)) s)
      | Some _ => Ok s
      end.

  (** How the loop was left. *)
Inductive loopExit : Type :=
  | SimStopped (evt : Event) (s : Sim)
  | PartialExit (s : Sim)
  | OutOfFuel (s : Sim).

  (** The run modes: to the end, until a time, or for a number of steps. *)
Inductive runMode : Type :=
  | RunToEnd
  | RunUntil (runAmount : Z)
  | RunSteps (runAmount : Z).

  (** The loop; [fuel] bounds the number of events taken from the queue. *)
Fixpoint run_loop (fuel : nat) (mode : runMode) (stepsDone : Z) (s : Sim) : res loopExit :=
    match fuel with
    | O => Ok (OutOfFuel s)
    | S fuel =>
        do '(evt, q) <- getNextEvent (simulationQueue s);
        let s := set_simulationQueue q s in
        if isSimStopEvent evt then Ok (SimStopped evt s)
        else
          do s <- run_event evt s;
          match mode with
          | RunToEnd => run_loop fuel mode stepsDone s
          | RunUntil runAmount =>
              do nxt <- peekNextEvent (simulationQueue s);
              if time nxt >? runAmount then
                do s <- sim_time runAmount s; Ok (PartialExit s)
              else run_loop fuel mode stepsDone s
          | RunSteps runAmount =>
              do nxt <- peekNextEvent (simulationQueue s);
              let stepsDone :=
                if negb (time nxt =? simulationTime s) then stepsDone + 1 else stepsDone in
              if stepsDone =? runAmount then Ok (PartialExit s)
              else run_loop fuel mode stepsDone s
          end
    end.

  (** The part of [SimResult] that does not consist of floating-point
      statistics. *)
Record SimResult : Type := mkSimResult {
    r_finished : bool;
    r_runTime : Z;
    r_length : Z;
    r_contextSwitches : Z;
    r_simEvents : list Event;
    r_processList : list Process;
    r_activeClasses : list string
  }.

Definition simResult (finished : bool) (runTime : Z) (s : Sim) : SimResult :=
    mkSimResult finished runTime (simulationLen s) (contextSwitches s)
      (simEventLog s) (procList s) (schedClassPrio s).

  (** The final exit of [Simulator.run]: the running process and the
      waiting processes are brought up to date and the stop event is
      logged. *)
Definition run_finalExit (evt : Event) (s : Sim) : res Sim :=
    do s <- sim_time (time evt) s;
    let now := simulationTime s in
    do c <- getProc (curr s) s;
    let lastRun := now - picked c in
    do s <- updProc (curr s) (fun p =>
              set_runLog (runLog p ++ [lastRun])
                (set_execTime (execTime p + lastRun) (set_picked now p))) s;
    let s := set_procList
               (map (fun p => if waiting p
                              then set_waitTime (waitTime p + (now - enqueued p)) p
                              else p) (procList s)) s in
    let s := set_simEventLog (simEventLog s ++ [set_process (Some Idle) evt]) s in
    Ok (set_simInitDone false (set_simRunning false s)).

  (** [Simulator.run(runFor)]; [None] is a call without an argument.  The
      result is [null] when [runFor] is zero. *)
Definition run (fuel : nat) (runFor : option Z) (s : Sim)
      : res (option SimResult * Sim) :=
    if negb (simInitDone s) then
      Err "simulation has not been properly started. Run Simulator.init() first."
    else if negb (processesLoaded s) then
      Err "atttempting to run simulation before the processes were successfully loaded."
    else
      let s := set_simRunning true s in
      let start (mode : runMode) :=
        do x <- run_loop fuel mode 0 s;
        match x with
        | SimStopped evt s =>
            do s <- run_finalExit evt s;
            Ok (Some (simResult true (simulationLen s) s), s)
        | PartialExit s => Ok (Some (simResult false (simulationTime s) s), s)
        | OutOfFuel s => Err "the model ran out of fuel"
        end in
      match runFor with
      | None => start RunToEnd
      | Some runFor =>
          if 0 <? runFor then start (RunUntil (runFor + simulationTime s))
          else if runFor <? 0 then start (RunSteps (- runFor))
          else Ok (None, s)
      end.

End Kernel.

(** ** FCFSClass *)

Module FCFSClass.

Definition name : string := "FCFSClass".

Definition init (s : Sim) : res Sim :=
  Ok (set_fcfs [] (SchedClass_init name s)).

Definition enqueue (proc : pref) (s : Sim) : res Sim :=
  do s <- SchedClass_enqueue proc s;
  Ok (set_fcfs (fcfs s ++ [proc]) s).

(** [runqueue.splice(i, 1)] at the first index that holds [proc]. *)
Fixpoint remove_first (proc : pref) (l : list pref) : list pref :=
  match l with
  | [] => []
  | x :: l' => if pref_eqb x proc then l' else x :: remove_first proc l'
  end.

Definition dequeue (proc : pref) (s : Sim) : res Sim :=
  do s <- SchedClass_dequeue proc s;
  Ok (set_fcfs (remove_first proc (fcfs s)) s).

Definition pickNext (simPutPrev : pref -> Sim -> res Sim) (prev : pref) (s : Sim)
  : res (option pref * Sim) :=
  do s <- SchedClass_pickNext name s;
  if (0 <? length (fcfs s))%nat then
    do s <- simPutPrev prev s;
    Ok (head (fcfs s), s)
  else Ok (None, s).

Definition putPrev (prev : pref) (s : Sim) : res Sim :=
  Ok (SchedClass_putPrev s).

Definition checkPreempt (proc : pref) (s : Sim) : res Sim := Ok s.

Definition taskTick (s : Sim) : res Sim := Ok s.

End FCFSClass.

(** ** Numbers of the fair class

    A value computed by the fair class from a division or from a property
    that may be [undefined]. *)
Inductive jsnum : Type :=
| Num (q : Q)
| Infty (positive : bool)
| NaN.

Definition Qsign (q : Q) : comparison := Qcompare q 0.

(** [a * b] *)
Definition jsmul (a b : jsnum) : jsnum :=
  match a, b with
  | Num x, Num y => Num (x * y)
  | NaN, _ | _, NaN => NaN
  | Infty p, Num y | Num y, Infty p =>
      match Qsign y with
      | Eq => NaN
      | Gt => Infty p
      | Lt => Infty (negb p)
      end
  | Infty p, Infty p' => Infty (Bool.eqb p p')
  end.

(** [a / b] *)
Definition jsdiv (a b : jsnum) : jsnum :=
  match a, b with
  | Num x, Num y =>
      match Qsign y with
      | Eq => match Qsign x with Eq => NaN | Gt => Infty true | Lt => Infty false end
      | _ => Num (x / y)
      end
  | NaN, _ | _, NaN => NaN
  | Infty p, Num y =>
      match Qsign y with
      | Lt => Infty (negb p)
      | _ => Infty p
      end
  | Num _, Infty _ => Num 0
  | Infty _, Infty _ => NaN
  end.

(** [a + b] *)
Definition jsadd (a b : jsnum) : jsnum :=
  match a, b with
  | Num x, Num y => Num (x + y)
  | NaN, _ | _, NaN => NaN
  | Infty p, Num _ | Num _, Infty p => Infty p
  | Infty p, Infty p' => if Bool.eqb p p' then Infty p else NaN
  end.

(** [a < b] *)
Definition jslt (a b : jsnum) : bool :=
  match a, b with
  | Num x, Num y => match Qcompare x y with Lt => true | _ => false end
  | NaN, _ | _, NaN => false
  | Infty p, Num _ => negb p
  | Num _, Infty p => p
  | Infty p, Infty p' => negb p && p'
  end.

(** [a > b] *)
Definition jsgt (a b : jsnum) : bool := jslt b a.

Definition Qltb (a b : Q) : bool :=
  match Qcompare a b with Lt => true | _ => false end.
Definition Qgtb (a b : Q) : bool := Qltb b a.
Definition Qeqb (a b : Q) : bool :=
  match Qcompare a b with Eq => true | _ => false end.

(** ** LinuxFairClass *)

Module LinuxFairClass.

Definition name : string := "LinuxFairClass".

(** [schedPrioToWeight] *)
Definition schedPrioToWeight : list Z :=
  [ 88761; 71755; 56483; 46273; 36291;
    29154; 23254; 18705; 14949; 11916;
     9548;  7620;  6100;  4904;  3906;
     3121;  2501;  1991;  1586;  1277;
     1024;   820;   655;   526;   423;
      335;   272;   215;   172;   137;
      110;    87;    70;    56;    45;
       36;    29;    23;    18;    15 ].

Definition this (s : Sim) : LinuxFair.t := fair s.

Definition upd (f : LinuxFair.t -> LinuxFair.t) (s : Sim) : Sim :=
  set_fair (f (fair s)) s.

(** [Simulator.modProc(propName, propVal, this.name)] for a property that
    the model has as a field. *)
Definition modProc (f : Process -> Process) (className : string) (s : Sim) : res Sim :=
  if negb (bool_decide (className ∈ schedClassPrio s)) then
    if bool_decide (className ∈ schedClassPrioRegistered s) then
      Err "The class referenced in className is not currently active"
    else Err "Unknown scheduling class"
  else
    Ok (set_procList
          (map (fun p => if String.eqb (policy p) className then f p else p) (procList s)) s).

Definition init (classParams : option classParams) (s : Sim) : res Sim :=
  let s := SchedClass_init name s in
  let timeScale := 1000000 in
  let o := LinuxFair.mk redblack.empty 0 0 0%Q None
             timeScale (timeScale * 1) (timeScale * 8) (timeScale * 1) (timeScale * 1)
             false ((timeScale * 8) / (timeScale * 1)) (LinuxFair.vruntime (fair s)) in
  let positive (what : string) (v : option Z) (k : Z -> LinuxFair.t -> LinuxFair.t)
        (o : LinuxFair.t) : res LinuxFair.t :=
    match v with
    | Some x => if x <=? 0 then Err (what ++ " has to be a positive value") else Ok (k x o)
    | None => Ok o
    end in
  do o <- (match classParams with
           | Some cp =>
               do o <- positive "timeScale" (p_timeScale cp) LinuxFair.set_timeScale o;
               do o <- positive "minGranularity" (p_minGranularity cp)
                         LinuxFair.set_minGranularity o;
               do o <- positive "schedLatency" (p_schedLatency cp)
                         (fun x o =>
                            LinuxFair.set_schedNrLatency
                              (x / LinuxFair.schedWakeupGranularity o)
                              (LinuxFair.set_schedLatency x o)) o;
               do o <- positive "schedWakeupGranularity" (p_schedWakeupGranularity cp)
                         (fun x o =>
                            LinuxFair.set_schedNrLatency (LinuxFair.schedLatency o / x)
                              (LinuxFair.set_schedWakeupGranularity x o)) o;
               do o <- positive "schedMinGranularity" (p_schedMinGranularity cp)
                         LinuxFair.set_schedMinGranularity o;
               Ok (match p_startDebit cp with
                   | Some b => LinuxFair.set_startDebit b o
                   | None => o
                   end)
           | None => Ok o
           end);
  let s := set_fair o s in
  do s <- modProc (set_enqueueWakeup false) name s;
  do s <- modProc (set_vruntime 0%Q) name s;
  modProc (set_prevSumExecRuntime 0) name s.

(** [getLoad] *)
Definition getLoad (prio : option prioval) : res Z :=
  match prio with
  | Some (PrioNum z) =>
      if (z <? -20) || (z >? 19) then
        Err "Invalid priority detected, expected a number on [-20, 19]"
      else deref (schedPrioToWeight !! Z.to_nat (z + 20)) "weight"
  | _ => Err "Invalid priority detected, expected a number on [-20, 19]"
  end.

(** [calcDelta] *)
Definition calcDelta (deltaExec weight loadWeight : jsnum) : jsnum :=
  jsdiv (jsmul deltaExec weight) loadWeight.

Definition isZeroPrio (prio : option prioval) : bool :=
  match prio with
  | Some (PrioNum 0) => true
  | _ => false
  end.

(** [calcDeltaFair] *)
Definition calcDeltaFair (delta : jsnum) (proc : Process) : res jsnum :=
  do cb <- currBehavior proc;
  if isZeroPrio (Behavior.priority cb) then Ok delta
  else
    do w0 <- getLoad (Some (PrioNum 0));
    do w <- getLoad (Behavior.priority cb);
    Ok (calcDelta delta (Num (inject_Z w0)) (Num (inject_Z w))).

(** [calcDeltaFair] of a time; the weights are positive, so the result is a
    number. *)
Definition calcDeltaFairQ (delta : Z) (proc : Process) : res Q :=
  do d <- calcDeltaFair (Num (inject_Z delta)) proc;
  match d with
  | Num q => Ok q
  | _ => Err "calcDeltaFair: not a finite number"
  end.

(** [schedPeriod] *)
Definition schedPeriod (processCount : Z) (o : LinuxFair.t) : Z :=
  if processCount >? LinuxFair.schedNrLatency o
  then processCount * LinuxFair.minGranularity o
  else LinuxFair.schedLatency o.

Definition is_curr (proc : pref) (o : LinuxFair.t) : bool :=
  match LinuxFair.curr o with
  | Some c => pref_eqb proc c
  | None => false
  end.

(** [schedSlice].  [proc.load] is a property that no process is given, so
    the sum [load += proc.load] is [NaN]. *)
Definition schedSlice (proc : pref) (s : Sim) : res jsnum :=
  let o := fair s in
  do p <- getProc proc s;
  let processCount :=
    if onRq p then LinuxFair.enqueued o else LinuxFair.enqueued o + 1 in
  let slice := schedPeriod processCount o in
  let procLoad := match load p with Some l => Num l | None => NaN end in
  let load := Num (inject_Z (LinuxFair.load o)) in
  let load := if negb (onRq p) && negb (is_curr proc o) then jsadd load procLoad else load in
  do cb <- currBehavior p;
  do w <- getLoad (Behavior.priority cb);
  Ok (calcDelta (Num (inject_Z slice)) (Num (inject_Z w)) load).

(** [schedVslice] *)
Definition schedVslice (proc : pref) (s : Sim) : res jsnum :=
  do slice <- schedSlice proc s;
  do p <- getProc proc s;
  calcDeltaFair slice p.

(** The process at the left of the tree: the holder itself or the first
    element of the array. *)
Definition leftmostProc (s : Sim) : res pref :=
  match redblack.leftmost (LinuxFair.runqueue (fair s)) with
  | Some (Single r) => Ok r
  | Some (Bucket l) => deref (head l) "leftmost is undefined"
  | None => Err "the runqueue is empty or has an invalid value stored in it"
  end.

(** [updateMinVruntime] *)
Definition updateMinVruntime (proc : pref) (s : Sim) : res Sim :=
  let o := fair s in
  do p <- getProc proc s;
  let vruntime0 := if runnable p then vruntime p else LinuxFair.minVruntime o in
  do vruntime1 <-
    (if LinuxFair.enqueued o >? 0 then
       do l <- leftmostProc s;
       do leftmost <- getProc l s;
       if runnable p then
         Ok (if Qltb (vruntime leftmost) vruntime0 then vruntime leftmost else vruntime0)
       else Ok (vruntime leftmost)
     else Ok vruntime0);
  Ok (upd (LinuxFair.set_minVruntime
             (if Qgtb (LinuxFair.minVruntime o) vruntime1
              then LinuxFair.minVruntime o else vruntime1)) s).

(** [updateCurr] *)
Definition updateCurr (proc : pref) (s : Sim) : res Sim :=
  do p <- getProc proc s;
  if negb (clsref_eqb (schedClass p) (Cls name)) then Ok s
  else
    let now := simulationTime s in
    let deltaExec := now - updated p in
    if deltaExec <=? 0 then Ok s
    else
      do s <- updProc proc (set_updated now) s;
      do p <- getProc proc s;
      do d <- calcDeltaFairQ deltaExec p;
      do s <- updProc proc (fun p => set_vruntime (vruntime p + d)%Q p) s;
      updateMinVruntime proc s.

(** [placeEntity].  A candidate that is not a finite number leaves the
    process where it is when the comparison fails; a process cannot be
    given an infinite [vruntime] in this model. *)
Definition placeEntity (proc : pref) (initial : bool) (s : Sim) : res Sim :=
  let o := fair s in
  let vruntime0 := Num (LinuxFair.minVruntime o) in
  do vruntime1 <-
    (if initial && LinuxFair.startDebit o then
       do vs <- schedVslice proc s; Ok (jsadd vruntime0 vs)
     else Ok vruntime0);
  let vruntime2 :=
    if negb initial then
      jsadd vruntime1 (Num (- (inject_Z (LinuxFair.schedLatency o) / 2))%Q)
    else vruntime1 in
  do p <- getProc proc s;
  if jslt (Num (vruntime p)) vruntime2 then
    match vruntime2 with
    | Num v => updProc proc (set_vruntime v) s
    | _ => Err "placeEntity: an infinite vruntime is not represented"
    end
  else Ok s.

(** [enqueueEntity] *)
Definition enqueueEntity (proc : pref) (s : Sim) : res Sim :=
  do p <- getProc proc s;
  let '(h, t) := redblack.getDelete Qcompare (vruntime p) (LinuxFair.runqueue (fair s)) in
  let h' :=
    match h with
    | Some (Single x) => Bucket [x; proc]
    | Some (Bucket l) => Bucket (l ++ [proc])
    | None => Single proc
    end in
  Ok (upd (LinuxFair.set_runqueue (redblack.insert Qcompare (vruntime p) h' t)) s).

(** [holder.splice(i, 1)] at the first index that holds [proc]. *)
Fixpoint splice_proc (proc : pref) (l : list pref) : option (list pref) :=
  match l with
  | [] => None
  | x :: l' =>
      if pref_eqb x proc then Some l'
      else match splice_proc proc l' with
           | Some l'' => Some (x :: l'')
           | None => None
           end
  end.

(** [dequeueEntity]; its callers ignore the process it returns. *)
Definition dequeueEntity (proc : pref) (s : Sim) : res Sim :=
  do p <- getProc proc s;
  let '(h, t) := redblack.getDelete Qcompare (vruntime p) (LinuxFair.runqueue (fair s)) in
  let reinsert (first : pref) (h' : holder pref) :=
    do f <- getProc first s;
    Ok (upd (LinuxFair.set_runqueue (redblack.insert Qcompare (vruntime f) h' t)) s) in
  match h with
  | Some (Single _) => Ok (upd (LinuxFair.set_runqueue t) s)
  | Some (Bucket []) => Ok (upd (LinuxFair.set_runqueue t) s)
  | Some (Bucket [_]) => Ok (upd (LinuxFair.set_runqueue t) s)
  | Some (Bucket [x0; x1]) =>
      if pref_eqb x0 proc then reinsert x1 (Single x1)
      else if pref_eqb x1 proc then reinsert x0 (Single x0)
      else Err "the process was not found at the time it should be at"
  | Some (Bucket l) =>
      match splice_proc proc l with
      | Some l' =>
          do first <- deref (head l') "holder[0] is undefined";
          reinsert first (Bucket l')
      | None => Err "the process was not found at the time it should be at"
      end
  | None => Err "the process was not found at the time it should be at"
  end.

Definition enqueue (proc : pref) (s : Sim) : res Sim :=
  do s <- SchedClass_enqueue proc s;
  do s <- updProc proc (set_onRq false) s;
  let curr := curr s in
  do s <- updateCurr curr s;
  do p <- getProc proc s;
  do cb <- currBehavior p;
  do w <- getLoad (Behavior.priority cb);
  let s := upd (fun o => LinuxFair.set_enqueued (LinuxFair.enqueued o + 1)
                           (LinuxFair.set_load (LinuxFair.load o + w) o)) s in
  do s <-
    (if Qeqb (vruntime p) 0 then
       do c <- getProc curr s;
       let s := if clsref_eqb (schedClass c) (Cls name)
                then upd (LinuxFair.set_vruntime (Some (vruntime c))) s else s in
       placeEntity proc true s
     else if enqueueWakeup p then
       do s <- placeEntity proc false s;
       updProc proc (set_enqueueWakeup false) s
     else Ok s);
  do s <- enqueueEntity proc s;
  updProc proc (set_onRq true) s.

Definition dequeue (proc : pref) (s : Sim) : res Sim :=
  do s <- SchedClass_dequeue proc s;
  do s <- updProc proc (set_onRq true) s;
  do s <- updateCurr (curr s) s;
  do s <- dequeueEntity proc s;
  do s <- updProc proc (set_onRq false) s;
  do p <- getProc proc s;
  do cb <- currBehavior p;
  do w <- getLoad (Behavior.priority cb);
  let s := upd (fun o => LinuxFair.set_enqueued (LinuxFair.enqueued o - 1)
                           (LinuxFair.set_load (LinuxFair.load o - w) o)) s in
  if negb (runnable p) then updProc proc (set_enqueueWakeup true) s else Ok s.

Definition pickNext (simPutPrev : pref -> Sim -> res Sim) (prev : pref) (s : Sim)
  : res (option pref * Sim) :=
  do s <- SchedClass_pickNext name s;
  do c <- getClass (Cls name) s;
  do pv <- getProc prev s;
  let empty := LinuxFair.enqueued (fair s) =? 0 in
  if empty && (SchedClass.nrRunning c =? 0) then Ok (None, s)
  else if empty && clsref_eqb (schedClass pv) (Cls name) && runnable pv then
    do s <- simPutPrev prev s;
    Ok (Some prev, s)
  else
    do s <- simPutPrev prev s;
    do picked <- leftmostProc s;
    do s <- dequeueEntity picked s;
    do s <- updProc picked (set_onRq false) s;
    let s := upd (fun o => LinuxFair.set_enqueued (LinuxFair.enqueued o - 1) o) s in
    do s <- updProc picked (set_updated (simulationTime s)) s;
    let s := upd (LinuxFair.set_curr (Some picked)) s in
    do s <- updProc picked (fun p => set_prevSumExecRuntime (execTime p) p) s;
    Ok (Some picked, s).

Definition putPrev (prev : pref) (s : Sim) : res Sim :=
  let s := SchedClass_putPrev s in
  do s <- updateCurr prev s;
  do p <- getProc prev s;
  do s <- (if runnable p then
             do s <- enqueueEntity prev s;
             do s <- updProc prev (set_onRq true) s;
             Ok (upd (fun o => LinuxFair.set_enqueued (LinuxFair.enqueued o + 1) o) s)
           else Ok s);
  Ok (upd (LinuxFair.set_curr None) s).

Definition checkPreempt (simPickNext : Sim -> res Sim) (proc : pref) (s : Sim) : res Sim :=
  let curr := curr s in
  do s <- updateCurr curr s;
  do c <- getProc curr s;
  do p <- getProc proc s;
  let vdiff := (vruntime c - vruntime p)%Q in
  do granularity <-
    calcDeltaFair (Num (inject_Z (LinuxFair.schedWakeupGranularity (fair s)))) p;
  if jsgt (Num vdiff) granularity then simPickNext s else Ok s.

Definition taskTick (simPickNext : Sim -> res Sim) (s : Sim) : res Sim :=
  let now := simulationTime s in
  let curr := curr s in
  do s <- updateCurr curr s;
  do c <- getClass (Cls name) s;
  if SchedClass.nrRunning c <=? 1 then Ok s
  else
    do idealRuntime <- schedSlice curr s;
    do p <- getProc curr s;
    let deltaExec := (execTime p + now - picked p) - prevSumExecRuntime p in
    if jsgt (Num (inject_Z deltaExec)) idealRuntime then simPickNext s
    else if (deltaExec <? LinuxFair.schedMinGranularity (fair s))
            || (LinuxFair.enqueued (fair s) <? 1) then Ok s
    else
      do l <- leftmostProc s;
      do left <- getProc l s;
      let delta := (vruntime p - vruntime left)%Q in
      if Qltb delta 0 then Ok s
      else if jsgt (Num delta) idealRuntime then simPickNext s
      else Ok s.

End LinuxFairClass.

(** ** The registered classes *)

Definition unknownClass {A : Type} : res A :=
  Err "TypeError: the scheduling class is undefined".

(** The dispatch over the two classes of the model. *)
Definition builtin : Dispatch :=
  mkDispatch
    (fun name cp s =>
       if String.eqb name FCFSClass.name then FCFSClass.init s
       else if String.eqb name LinuxFairClass.name then LinuxFairClass.init cp s
       else unknownClass)
    (fun name proc s =>
       if String.eqb name FCFSClass.name then FCFSClass.enqueue proc s
       else if String.eqb name LinuxFairClass.name then LinuxFairClass.enqueue proc s
       else unknownClass)
    (fun name proc s =>
       if String.eqb name FCFSClass.name then FCFSClass.dequeue proc s
       else if String.eqb name LinuxFairClass.name then LinuxFairClass.dequeue proc s
       else unknownClass)
    (fun simPutPrev name prev s =>
       if String.eqb name FCFSClass.name then FCFSClass.pickNext simPutPrev prev s
       else if String.eqb name LinuxFairClass.name then LinuxFairClass.pickNext simPutPrev prev s
       else unknownClass)
    (fun name prev s =>
       if String.eqb name FCFSClass.name then FCFSClass.putPrev prev s
       else if String.eqb name LinuxFairClass.name then LinuxFairClass.putPrev prev s
       else unknownClass)
    (fun simPickNext name proc s =>
       if String.eqb name FCFSClass.name then FCFSClass.checkPreempt proc s
       else if String.eqb name LinuxFairClass.name
       then LinuxFairClass.checkPreempt simPickNext proc s
       else unknownClass)
    (fun simPickNext name s =>
       if String.eqb name FCFSClass.name then FCFSClass.taskTick s
       else if String.eqb name LinuxFairClass.name then LinuxFairClass.taskTick simPickNext s
       else unknownClass).

(** ** Loading a simulation

    A simulation configuration after [handleSuffix]: the times are numbers.
    The [custom] object of a process definition is not modelled. *)

Record BehaviorDef : Type := mkBehaviorDef {
  d_priority : option prioval;
  d_run : option procval;
  d_block : option procval;
  d_procExec : option procval;
  d_simExec : option procval;
  d_execCnt : option procval;
  d_final : option bool;       (* any value that is not a string makes the entry final *)
  d_endNicely : option bool
}.

Record ProcDef : Type := mkProcDef {
  d_pname : option string;
  d_spawn : option procval;
  d_policy : option string;
  d_behavior : list BehaviorDef
}.

Record SimConf : Type := mkSimConf {
  c_name : option string;
  c_simLen : Z;
  c_timerTickLen : option Z;
  c_policy : option string;
  c_classPrio : option (list string);
  c_classParams : list (string * classParams);
  c_processes : option (list ProcDef)
}.

(** [checkFields]: the number of valid fields, or the negated number of the
    first invalid one. *)
Definition checkFields (entry : BehaviorDef) : Z :=
  let validTime (v : procval) : bool :=
    match v with
    | PNum z => negb (z <? 1)
    | PRange lo hi => negb ((lo >? hi) || (lo <? 1))
    end in
  let badPriority :=
    match d_priority entry with
    | Some (PrioRange lo hi) => lo >? hi
    | _ => false
    end in
  let badRun := match d_run entry with Some v => negb (validTime v) | None => false end in
  let badBlock := match d_block entry with Some v => negb (validTime v) | None => false end in
  if badPriority then -1
  else if badRun then -2
  else if badBlock then -3
  else (if d_priority entry is Some _ then 1 else 0)
       + (if d_run entry is Some _ then 1 else 0)
       + (if d_block entry is Some _ then 1 else 0).

(** [execCondValid] *)
Definition execCondValid (execCond : procval) : bool :=
  match execCond with
  | PNum z => negb (z <? 1)
  | PRange lo hi => negb ((lo >? hi) || (lo <? 0))
  end.

(** The checks of the first behaviour entry. *)
Definition checkFirstBehavior (b : BehaviorDef) : res unit :=
  let validFields := checkFields b in
  if validFields <? 3 then
    if validFields >? -1 then
      Err "the first behavior entry does not contain all the required fields"
    else if validFields <? -2 then
      Err "the first behavior entry contains an invalid block field"
    else if validFields <? -1 then
      Err "the first behavior entry contains an invalid run field"
    else Err "the first behavior entry contains an invalid priority field"
  else Ok tt.

(** The checks of a later behaviour entry. *)
Definition checkLaterBehavior (b : BehaviorDef) : res unit :=
  do _ <- (match d_final b with
           | None =>
               let validFields := checkFields b in
               if validFields =? 0 then
                 Err "behavior entry contains no behavior update fields"
               else if validFields <? -2 then Err "behavior entry contains an invalid block field"
               else if validFields <? -1 then Err "behavior entry contains an invalid run field"
               else if validFields <? 0 then
                 Err "behavior entry contains an invalid priority field"
               else Ok tt
           | Some _ => Ok tt
           end);
  let cond (c : option procval) (id : Z) (what : string) : res Z :=
    match c with
    | Some v => if execCondValid v then Ok id
                else Err ("behavior entry contains an invalid field " ++ what)
    | None => Ok 0
    end in
  do a <- cond (d_procExec b) 1 "procExec";
  do b' <- cond (d_simExec b) 2 "simExec";
  do c <- cond (d_execCnt b) 4 "execCnt";
  let validFields := a + b' + c in
  if validFields =? 0 then Err "behavior entry contains no parse conditions"
  else if (validFields =? 3) || (validFields >? 4) then
    Err "behavior entry contains more than one parse condition"
  else Ok tt.

(** The sanity check of one process definition. *)
Definition checkProcDef (s : Sim) (proc : ProcDef) : res unit :=
  do _ <- (match d_policy proc with
           | None =>
               if schedClassName s is None then Err "missing policy definition" else Ok tt
           | Some pol =>
               if schedClassRegistered s !! pol is None
               then Err "given policy does not exist" else Ok tt
           end);
  do _ <- (match d_spawn proc with
           | None => Err "invalid value found in process spawn entry"
           | Some (PNum z) => if z <? 0 then Err "spawn value cannot be negative" else Ok tt
           | Some (PRange lo hi) =>
               if (lo >? hi) || (lo <? 0) then Err "invalid spawn range" else Ok tt
           end);
  match d_behavior proc with
  | [] => Err "missing or invalid behavior list"
  | b0 :: later =>
      do _ <- checkFirstBehavior b0;
      fold_left (fun acc b => do _ <- acc; checkLaterBehavior b) later (Ok tt)
  end.

(** The behaviour entry of a new process: the value of an interval
    condition is drawn once. *)
Definition loadBehavior (b : BehaviorDef) (s : Sim) : res (Behavior.t * Sim) :=
  let draw (c : option procval) (s : Sim) : res (option Z * Sim) :=
    match c with
    | Some v => do '(z, s) <- getProcVal (Some v) s; Ok (Some z, s)
    | None => Ok (None, s)
    end in
  do '(pe, s) <- draw (d_procExec b) s;
  do '(se, s) <- draw (d_simExec b) s;
  do '(ec, s) <- draw (d_execCnt b) s;
  let final := if d_final b is Some _ then true else false in
  let endNicely := if d_endNicely b is Some false then false else true in
  Ok (Behavior.mk (d_priority b) (d_run b) (d_block b) pe se ec final (final && endNicely), s).

Fixpoint loadBehaviors (l : list BehaviorDef) (s : Sim) : res (list Behavior.t * Sim) :=
  match l with
  | [] => Ok ([], s)
  | b :: l' =>
      do '(b', s) <- loadBehavior b s;
      do '(l'', s) <- loadBehaviors l' s;
      Ok (b' :: l'', s)
  end.

(** [new Process(pid, pname)] *)
Definition newProcess (pid : Z) (pname : string) : Process :=
  mkProcess pid pname false false false false 0 "" IdleCls (-1) (-1) (-1) (-1) (-1)
    None None 0 0 0 0%nat [] [] [] [] false 0%Q 0 None.

(** [new IdleProcess]; [behavior[0].run] is given by [Simulator.init]. *)
Definition newIdleProcess (run : Z) : Process :=
  set_behavior
    [Behavior.mk (Some PrioInfinity) (Some (PNum run)) (Some (PNum 0)) None None None false false]
    (set_alive true
       (mkProcess (-1) "idle" false false false false 0 "IdleClass" IdleCls (-1) (-1) (-1) (-1)
          (-1) None None 0 0 0 0%nat [] [] [] [] false 0%Q 0 None)).

(** [i.toString().padStart(pidPadLength, "0")] *)
Definition padStart (len : nat) (str : string) : string :=
  String.concat "" (replicate (len - String.length str) "0") ++ str.

(** The second loop of [loadProc] for the definition with index [i]: the
    process is created, added to [procList] and its fork is scheduled. *)
Definition loadProcess (pidPadLength : nat) (i : nat) (procDef : ProcDef)
    (st : list string * Sim) : res (list string * Sim) :=
  let '(activeClassList, s) := st in
  let procName :=
    match d_pname procDef with
    | Some n => n
    | None => "proc_" ++ padStart pidPadLength (pretty i)
    end in
  let newProc := newProcess (Z.of_nat i) procName in
  do '(spawnTime, s) <- getProcVal (d_spawn procDef) s;
  let pol := match d_policy procDef with
             | Some pol => pol
             | None => default "" (schedClassName s)
             end in
  let newProc :=
    set_schedClass (Cls pol)
      (set_policy pol (set_enqueued spawnTime (set_spawned spawnTime newProc))) in
  let activeClassList :=
    match d_policy procDef with
    | Some pol =>
        if bool_decide (pol ∈ activeClassList) then activeClassList
        else (activeClassList ++ [pol])%list
    | None => activeClassList
    end in
  do '(beh, s) <- loadBehaviors (d_behavior procDef) s;
  let newProc := set_nextBehIndex 1%nat (set_behavior beh newProc) in
  let s := set_procList (procList s ++ [newProc]) s in
  let '(e, s) := newEvent ForkEvent spawnTime (Some (Pid i)) s in
  do s <- sim_insertEvent e s;
  Ok (activeClassList, s).

Fixpoint loadProcesses (pidPadLength : nat) (i : nat) (defs : list ProcDef)
    (st : list string * Sim) : res (list string * Sim) :=
  match defs with
  | [] => Ok st
  | d :: defs' =>
      do st <- loadProcess pidPadLength i d st;
      loadProcesses pidPadLength (S i) defs' st
  end.

(** [Simulator.loadProc] *)
Definition loadProc (procListDef : option (list ProcDef)) (s : Sim) : res Sim :=
  let s := set_schedClassActive [] (set_schedClassPrio []
             (set_procList [] (set_processesLoaded false s))) in
  let activeClassList :=
    match schedClassName s with
    | Some n => [n]
    | None => []
    end in
  match procListDef with
  | None => Err "missing or invalid process list passed to loadProc."
  | Some defs =>
      if (length defs <? 1)%nat then
        Err "missing or invalid process list passed to loadProc."
      else
        do _ <- fold_left (fun acc d => do _ <- acc; checkProcDef s d) defs (Ok tt);
        let pidPadLength := (String.length (pretty (length defs)) - 1)%nat in
        do '(activeClassList, s) <- loadProcesses pidPadLength 0 defs (activeClassList, s);
        let prio :=
          filter (fun n => n ∈ activeClassList) (schedClassPrioRegistered s) in
        let s := set_schedClassActive prio (set_schedClassPrio prio s) in
        let s := set_idleClass (SchedClass.mk 0 0 0 0 []) (set_idle (newIdleProcess 1) s) in
        Ok (set_processesLoaded true s)
  end.

Fixpoint remove_name (name : string) (l : list string) : list string :=
  match l with
  | [] => []
  | x :: l' => if String.eqb x name then l' else x :: remove_name name l'
  end.

(** [regClass.unshift(regClass.splice(j, 1)[0])] for the first [j] that
    holds [name]. *)
Definition moveToFront (name : string) (regClass : list string) : list string :=
  if bool_decide (name ∈ regClass) then name :: remove_name name regClass
  else regClass.

(** [Simulator.parseClassPrio] *)
Definition parseClassPrio (activeClassArray : list string) (s : Sim) : Sim :=
  let regClass := foldr moveToFront (schedClassPrioRegistered s) activeClassArray in
  let actClass := filter (fun n => n ∈ schedClassPrio s) regClass in
  set_schedClassPrio actClass (set_schedClassPrioRegistered regClass s).

Section Init.
Variable D : Dispatch.

(** The loop of [Simulator.init] that initialises the active classes. *)
Fixpoint initClasses (params : list (string * classParams)) (names : list string)
    (s : Sim) : res Sim :=
  match names with
  | [] => Ok s
  | n :: rest =>
      do s <- cls_init D n (snd <$> find (fun x => String.eqb (fst x) n) params) s;
      initClasses params rest s
  end.

(** [Simulator.init] *)
Definition init (simConf : SimConf) (s : Sim) : res Sim :=
  if simRunning s then
    Err "a simulation is already underway. Finish it, or stop it with Simulator.break() before starting a new one."
  else
    let s := set_simulationTime 0 s in
    let s := set_simulationQueue redblack.empty s in
    let '(e, s) := newEvent SimStartEvent 0 None s in
    do s <- sim_insertEvent e s;
    let s := set_schedClassName None s in
    do s <- (if c_simLen simConf <? 0
             then Err "Simulator.setSimLen was called with an invalid time value."
             else Ok (set_simulationLen (c_simLen simConf) s));
    let timLen := default 1000000 (c_timerTickLen simConf) in
    do s <- (if timLen <=? 1
             then Err "setTimerTickLen expects a positive number larger than 1"
             else Ok (set_timerTickLen timLen s));
    do s <- (match c_policy simConf with
             | Some n =>
                 if bool_decide (n ∈ schedClassPrioRegistered s)
                 then Ok (set_schedClassName (Some n) s)
                 else Err "invalid schedClassName given"
             | None => Ok s
             end);
    do s <- loadProc (c_processes simConf) s;
    let s := match c_classPrio simConf with
             | Some l => parseClassPrio l s
             | None => s
             end in
    let s := set_simulationTime 0 s in
    let s := set_contextSwitches 0 s in
    let s := set_liveProcessCount (Z.of_nat (length (procList s))) s in
    let s := set_simEventLog [] s in
    let s := set_curr Idle s in
    let s := set_idle (updCurrBehavior (Behavior.set_run (Some (PNum (simulationLen s))))
                         (idle s)) s in
    do s <- initClasses (c_classParams simConf) (schedClassPrio s) s;
    let '(e, s) := newEvent SimStopEvent (simulationLen s) None s in
    do s <- sim_insertEvent e s;
    let '(e, s) := newEvent TimerEvent (timerTickLen s) None s in
    do s <- sim_insertEvent e s;
    Ok (set_simInitDone true s).

End Init.

(** The simulator before any simulation, with the scheduling classes
    [names] registered in this order. *)
Definition freshSim (names : list string) (randomSource : nat -> Z) : Sim :=
  mkSim 0 0 0 0 0 redblack.empty []
    (list_to_map ((fun n => (n, SchedClass.mk 0 0 0 0 [])) <$> names)) names [] [] None
    [] Idle (newIdleProcess 1) (SchedClass.mk 0 0 0 0 []) true false false false false
    0%nat randomSource 0%nat 0%nat [] 
    (LinuxFair.mk redblack.empty 0 0 0%Q None 0 0 0 0 0 false 0 None).

(** ** Notions used in the statements about the simulation queue *)

Definition holder_events (h : holder Event) : list Event :=
  match h with
  | Single e => [e]
  | Bucket l => l
  end.

(** The queued events, in the order in which [getNextEvent] returns them. *)
Definition pending (q : queue) : list Event :=
  flat_map (fun kv => holder_events (snd kv)) q.

(** The shape of the tree that the queue functions maintain: increasing
    keys, no empty array, and every event stored under its time. *)
Definition holder_ok (kv : Z * holder Event) : Prop :=
  holder_events (snd kv) <> [] /\ Forall (fun e => time e = fst kv) (holder_events (snd kv)).

Definition wf_queue (q : queue) : Prop :=
  StronglySorted Z.lt (map fst q) /\ Forall holder_ok q.

(** The insertion of [x] into a list ordered by the time [t], behind the
    elements that are not due later than [x]. *)
Fixpoint insert_by {A : Type} (t : A -> Z) (x : A) (l : list A) : list A :=
  match l with
  | [] => [x]
  | y :: l' => if t x <? t y then x :: y :: l' else y :: insert_by t x l'
  end.

(** An event together with the number of the [insertEvent] call that
    queued it. *)
Definition stamped : Type := nat * Event.

(** [earlier a b]: [a] is due before [b], or is due at the same time and
    was inserted first. *)
Definition earlier (a b : stamped) : bool :=
  (time (snd a) <? time (snd b))
  || ((time (snd a) =? time (snd b)) && (fst a <? fst b)%nat).

(** The event that is first in time and, at that time, first inserted. *)
Fixpoint first_event (pend : list stamped) : option stamped :=
  match pend with
  | [] => None
  | x :: l =>
      match first_event l with
      | None => Some x
      | Some y => if earlier y x then Some y else Some x
      end
  end.

Definition remove_stamp (k : nat) (pend : list stamped) : list stamped :=
  List.filter (fun x => negb (Nat.eqb (fst x) k)) pend.

(** [before a b]: the order in which two queued events are due. *)
Definition before (a b : stamped) : Prop :=
  time (snd a) < time (snd b) \/ (time (snd a) = time (snd b) /\ (fst a < fst b)%nat).

(** The states of the queue that are reached from the empty tree by calls
    of [insertEvent] and [getNextEvent].  [now] is the simulation time,
    which the main loop sets to the time of the event it takes from the
    queue; [n] counts the insertions, [pend] lists the queued events with
    the number of their insertion and [popped] lists the events returned
    so far, the last one first. *)
Inductive reachable : Z -> nat -> list stamped -> list Event -> queue -> Prop :=
| reach_empty (now : Z) : reachable now 0 [] [] redblack.empty
| reach_insert (now : Z) (n : nat) (pend : list stamped) (popped : list Event)
    (q q' : queue) (e : Event) :
    reachable now n pend popped q ->
    insertEvent now e q = Ok q' ->
    reachable now (S n) ((n, e) :: pend) popped q'
| reach_pop (now : Z) (n : nat) (pend : list stamped) (popped : list Event)
    (q q' : queue) (e : Event) (x : stamped) :
    reachable now n pend popped q ->
    getNextEvent q = Ok (e, q') ->
    first_event pend = Some x ->
    reachable (time e) n (remove_stamp (fst x) pend) (e :: popped) q'.

(** What holds of every reachable state of the queue: the tree is well
    formed, and its events, taken with their insertion numbers, are the
    queued events in the order [before]. *)
Definition queue_inv (now : Z) (n : nat) (pend : list stamped) (popped : list Event)
    (q : queue) : Prop :=
  wf_queue q /\
  exists P : list stamped,
    map snd P = pending q /\ Permutation P pend /\ StronglySorted before P /\
    NoDup (map fst P) /\ Forall (fun x => (fst x < n)%nat) P /\
    Forall (fun x => now <= time (snd x)) P /\
    Forall (fun p => time p <= now) popped /\
    StronglySorted (fun a b => time b <= time a) popped.

(** ** Notions used in the statements about the behaviour of a process *)

(** The switch condition of the behaviour entry [nb], for the process [p]
    at the time [now]. *)
Definition switch_condition (nb : Behavior.t) (p : Process) (now : Z) : Prop :=
  (exists t, Behavior.simExec nb = Some t /\ t <= now) \/
  (exists t, Behavior.procExec nb = Some t /\ t <= execTime p) \/
  (exists t, Behavior.execCnt nb = Some t /\ t <= execCnt p).

(** The entry at [nextBehIndex] is a non-final entry whose switch condition
    holds. *)
Definition switch_due (p : Process) (now : Z) : Prop :=
  exists nb, behavior p !! nextBehIndex p = Some nb /\ Behavior.final nb = false
             /\ switch_condition nb p now.

(** [cb'] is [cb] with the run, block and priority fields that [nb]
    defines. *)
Definition overlaid (nb cb cb' : Behavior.t) : Prop :=
  Behavior.run cb' = (if Behavior.run nb is Some v then Some v else Behavior.run cb) /\
  Behavior.block cb' = (if Behavior.block nb is Some v then Some v else Behavior.block cb) /\
  Behavior.priority cb' =
    (if Behavior.priority nb is Some v then Some v else Behavior.priority cb) /\
  Behavior.procExec cb' = Behavior.procExec cb /\
  Behavior.simExec cb' = Behavior.simExec cb /\
  Behavior.execCnt cb' = Behavior.execCnt cb /\
  Behavior.final cb' = Behavior.final cb /\
  Behavior.endNicely cb' = Behavior.endNicely cb.

(** The two processes are at the same place of the same behaviour list. *)
Definition same_behavior (p p' : Process) : Prop :=
  nextBehIndex p' = nextBehIndex p /\ behavior p' = behavior p.

(** The same, with the same execution time and execution count. *)
Definition same_progress (p p' : Process) : Prop :=
  same_behavior p p' /\ execTime p' = execTime p /\ execCnt p' = execCnt p.

(** ** Example simulations *)

(** The result of a computation that is known to return. *)
Definition the {A : Type} (d : A) (m : res A) : A :=
  match m with
  | Ok a => a
  | Err _ => d
  end.

(** The simulator with the two classes registered, FCFS first, and a
    random source that always yields the low end of an interval. *)
Definition exampleSim : Sim :=
  freshSim [FCFSClass.name; LinuxFairClass.name] (fun _ => 0).

Definition firstBehavior (priority run block : Z) : BehaviorDef :=
  mkBehaviorDef (Some (PrioNum priority)) (Some (PNum run)) (Some (PNum block))
    None None None None None.

(** One FCFS process that runs for 5, blocks for 2, runs for 7 from its
    second pick on and is ended at the simulation time 50. *)
Definition strictEndConf : SimConf :=
  mkSimConf (Some "strict end") 100 (Some 20) (Some FCFSClass.name) None []
    (Some [mkProcDef None (Some (PNum 0)) None
             [firstBehavior 0 5 2;
              mkBehaviorDef None (Some (PNum 7)) None None None (Some (PNum 1)) None None;
              mkBehaviorDef None None None None (Some (PNum 50)) None (Some true)
                (Some false)]]).

(** The simulation [conf], initialised and run for [steps] steps. *)
Definition stepped (conf : SimConf) (steps : nat) : res Sim :=
  Nat.iter steps
    (fun m => do s <- m; do '(_, s) <- run builtin 64 (Some (-1)) s; Ok s)
    (init builtin conf exampleSim).


(** ** Notions used in the statements about the scheduling classes *)

(** [min_vruntime] of the fair class has not decreased from [s] to [s']. *)
Definition minVruntime_le (s s' : Sim) : Prop :=
  (LinuxFair.minVruntime (fair s) <= LinuxFair.minVruntime (fair s'))%Q.

(** What a method of a scheduling class does to the variables of the
    simulator and of the fair class that it does not own: the counter of
    context switches is left alone, [putPrev] has been executed [k] times
    and [min_vruntime] has not decreased. *)
Definition class_step (k : nat) (s s' : Sim) : Prop :=
  contextSwitches s' = contextSwitches s /\
  putPrevCalls s' = (putPrevCalls s + k)%nat /\
  minVruntime_le s s'.

(** The number of [putPrev] calls that go with the answer of a class. *)
Definition putPrevDue (next : option pref) : nat :=
  if next is Some _ then 1%nat else 0%nat.

(** One operation of the fair class on the simulator, with the functions of
    the simulator that it calls back. *)
Inductive fair_operation (s s' : Sim) : Prop :=
| fair_enqueue (proc : pref) :
    LinuxFairClass.enqueue proc s = Ok s' -> fair_operation s s'
| fair_dequeue (proc : pref) :
    LinuxFairClass.dequeue proc s = Ok s' -> fair_operation s s'
| fair_pickNext (prev : pref) (next : option pref) :
    LinuxFairClass.pickNext (putPrev builtin) prev s = Ok (next, s') -> fair_operation s s'
| fair_putPrev (prev : pref) :
    LinuxFairClass.putPrev prev s = Ok s' -> fair_operation s s'
| fair_checkPreempt (proc : pref) :
    LinuxFairClass.checkPreempt (pickNext builtin) proc s = Ok s' -> fair_operation s s'
| fair_taskTick :
    LinuxFairClass.taskTick (pickNext builtin) s = Ok s' -> fair_operation s s'.

(** The candidate of [updateMinVruntime] for the process [p], the process
    [leftmost] at the left of the tree when the tree is in use, and the old
    value [old] of [min_vruntime]. *)
Definition minVruntime_candidate (p : Process) (leftmost : option Process) (old : Q) : Q :=
  match runnable p, leftmost with
  | true, Some l => if Qltb (vruntime l) (vruntime p) then vruntime l else vruntime p
  | true, None => vruntime p
  | false, Some l => vruntime l
  | false, None => old
  end.

(** Two fair processes: the first runs for 1 and blocks for 100, the second
    runs for 200 and blocks for 1; the scheduling latency is 8. *)
Definition fairConf : SimConf :=
  mkSimConf (Some "fair") 1000 (Some 1000) (Some LinuxFairClass.name) None
    [(LinuxFairClass.name,
      mkClassParams (Some 1) (Some 1) (Some 8) (Some 1) (Some 1) None)]
    (Some [mkProcDef None (Some (PNum 0)) None [firstBehavior 0 1 100];
           mkProcDef None (Some (PNum 0)) None [firstBehavior 0 200 1]]).

(** ** Notions used in the statements about [Simulator.pickNext] *)





(** ** Notions used in the statements about the counters of a class *)

(** The number of processes of the class [c] that are alive and runnable. *)
Definition runnableCount (c : clsref) (s : Sim) : Z :=
  Z.of_nat (length (List.filter
                      (fun p => clsref_eqb (schedClass p) c && alive p && runnable p)
                      (procList s))).

(** The counters of the class [name] agree with its processes: [nrRunning]
    is the number of its processes that are alive and runnable, and
    [nrWaiting] is one less when the running process is one of them. *)
Definition counters_ok (name : string) (s : Sim) : Prop :=
  exists c running,
    getClass (Cls name) s = Ok c /\ getProc (curr s) s = Ok running /\
    SchedClass.nrRunning c = runnableCount (Cls name) s /\
    SchedClass.nrWaiting c =
      SchedClass.nrRunning c - (if clsref_eqb (schedClass running) (Cls name) then 1 else 0).

(** One FCFS process that runs for 5 and exits when it has run for 1, at the
    end of its first burst. *)
Definition exitConf : SimConf :=
  mkSimConf (Some "exit") 100 (Some 20) (Some FCFSClass.name) None []
    (Some [mkProcDef None (Some (PNum 0)) None
             [firstBehavior 0 5 2;
              mkBehaviorDef None None None (Some (PNum 1)) None None (Some true)
                (Some true)]]).

(** Two fair processes with the start debit: the first runs for 50 from the
    time 0, the second is spawned at the time 10. *)
Definition fairDebitConf : SimConf :=
  mkSimConf (Some "debit") 1000 (Some 1000) (Some LinuxFairClass.name) None
    [(LinuxFairClass.name,
      mkClassParams (Some 1) (Some 1) (Some 8) (Some 1) (Some 1) (Some true))]
    (Some [mkProcDef None (Some (PNum 0)) None [firstBehavior 0 50 1];
           mkProcDef None (Some (PNum 10)) None [firstBehavior 0 5 1]]).

(** A configuration without processes. *)
Definition zeroTaskConf : SimConf :=
  mkSimConf (Some "empty") 100 (Some 20) (Some FCFSClass.name) None [] (Some []).

(** ** Notions used in the statements about [Simulator.checkPreempt] *)



(** Two FCFS processes: the first runs for 10 from the time 0, the second
    is spawned at the time 3. *)
Definition twoFcfsConf : SimConf :=
  mkSimConf (Some "two") 100 (Some 20) (Some FCFSClass.name) None []
    (Some [mkProcDef None (Some (PNum 0)) None [firstBehavior 0 10 5];
           mkProcDef None (Some (PNum 3)) None [firstBehavior 0 4 5]]).

(** A fair process that runs for 10 from the time 0 and an FCFS process
    that is spawned at the time 3; FCFS is the class of higher priority. *)
Definition mixedConf : SimConf :=
  mkSimConf (Some "mixed") 100 (Some 20) None None
    [(LinuxFairClass.name,
      mkClassParams (Some 1) (Some 1) (Some 8) (Some 1) (Some 1) None)]
    (Some [mkProcDef None (Some (PNum 0)) (Some LinuxFairClass.name) [firstBehavior 0 10 5];
           mkProcDef None (Some (PNum 3)) (Some FCFSClass.name) [firstBehavior 0 4 5]]).

(** ** Notions used in the statements about the end events of a process *)

(** The event [e] is stored in the simulation queue, under its time. *)
Definition queued (e : Event) (q : queue) : Prop :=
  exists h, In (time e, h) q /\ In e (holder_events h).

(** * Further parts of the simulator

    The definitions below follow functions of the sources that the
    statements above do not need. *)

(** ** Notions used in the statements about process definitions *)

(** A run or block time that [checkFields] accepts. *)
Definition time_ok (v : procval) : Prop :=
  match v with
  | PNum z => 1 <= z
  | PRange lo hi => 1 <= lo /\ lo <= hi
  end.

(** A priority that [checkFields] accepts. *)
Definition priority_ok (v : prioval) : Prop :=
  match v with
  | PrioRange lo hi => lo <= hi
  | _ => True
  end.

(** An execution condition that [execCondValid] accepts: a number from 1,
    or an interval that starts at 0 or later. *)
Definition condition_ok (v : procval) : Prop :=
  match v with
  | PNum z => 1 <= z
  | PRange lo hi => 0 <= lo /\ lo <= hi
  end.

(** The fields [priority], [run] and [block] that the entry defines are
    valid. *)
Definition update_fields_ok (b : BehaviorDef) : Prop :=
  (forall v, d_priority b = Some v -> priority_ok v) /\
  (forall v, d_run b = Some v -> time_ok v) /\
  (forall v, d_block b = Some v -> time_ok v).

(** The entry defines exactly one of the conditions [procExec], [simExec]
    and [execCnt], and that one is valid. *)
Definition one_condition (b : BehaviorDef) : Prop :=
  (exists v, d_procExec b = Some v /\ condition_ok v /\
             d_simExec b = None /\ d_execCnt b = None) \/
  (exists v, d_simExec b = Some v /\ condition_ok v /\
             d_procExec b = None /\ d_execCnt b = None) \/
  (exists v, d_execCnt b = Some v /\ condition_ok v /\
             d_procExec b = None /\ d_simExec b = None).

(** The entry defines one of the fields [priority], [run] and [block]. *)
Definition some_update_field (b : BehaviorDef) : Prop :=
  is_Some (d_priority b) \/ is_Some (d_run b) \/ is_Some (d_block b).



(** ** Notions used in the statements about the scheduling classes *)

(** The runqueue of the first-come-first-served class holds a process at
    most once, and the processes it holds are marked as being on a
    runqueue. *)
Definition fcfs_ok (s : Sim) : Prop :=
  NoDup (fcfs s) /\
  forall r, r ∈ fcfs s -> exists p, getProc r s = Ok p /\ onRq p = true.

(** [SchedClass.getLatency] *)
Definition SchedClass_getLatency (name : string) (s : Sim) : res Z :=
  do c <- getClass (Cls name) s;
  let lastBit := (simulationTime s - SchedClass.latencyUpdate c) * SchedClass.nrWaiting c in
  Ok (SchedClass.latencySum c + lastBit).

(** ** Statistics of a simulation *)

(** The accumulator of the load statistics. *)
Record LoadAcc : Type := mkLoadAcc {
  acc_all : Z;
  acc_active : Z;
  acc_timestamp : Z
}.

Definition isPickEvent (e : Event) : bool :=
  match kind e with PickEvent => true | _ => false end.

(** [evt.process instanceof IdleProcess] *)
Definition isIdleProcess (o : option pref) : bool :=
  match o with Some Idle => true | _ => false end.

(** The function that [getAverageLoad] reduces the event log with. *)
Definition averageLoadStep (evt : Event) (acc : LoadAcc) : LoadAcc :=
  if isPickEvent evt then
    let all := acc_all acc + (acc_timestamp acc - time evt) in
    let active :=
      if negb (isIdleProcess (process evt))
      then acc_active acc + (acc_timestamp acc - time evt) else acc_active acc in
    mkLoadAcc all active (time evt)
  else acc.

(** [Simulator.getAverageLoad]; the reduction goes from the right. *)
Definition getAverageLoad (s : Sim) : res jsnum :=
  do lastEvt <- deref (last (simEventLog s)) "simEventLog[simEventLog.length - 1] is undefined";
  let execStats := foldr averageLoadStep (mkLoadAcc 0 0 (time lastEvt)) (simEventLog s) in
  Ok (jsdiv (Num (inject_Z (acc_active execStats))) (Num (inject_Z (acc_all execStats)))).

(** The loop of [getCurrLoad] over the events [evts], from the one before
    the last event of the log back to the first. *)
Fixpoint currLoadLoop (reqTime : Z) (evts : list Event) (acc : LoadAcc) : LoadAcc :=
  match evts with
  | [] => acc
  | evt :: evts' =>
      if isPickEvent evt then
        if acc_all acc + acc_timestamp acc - time evt <? reqTime then
          let thisTime := acc_timestamp acc - time evt in
          let all := acc_all acc + thisTime in
          let active :=
            if negb (isIdleProcess (process evt))
            then acc_active acc + thisTime else acc_active acc in
          currLoadLoop reqTime evts' (mkLoadAcc all active (time evt))
        else
          let thisTime := reqTime - acc_all acc in
          let all := acc_all acc + thisTime in
          let active :=
            if negb (isIdleProcess (process evt))
            then acc_active acc + thisTime else acc_active acc in
          mkLoadAcc all active (acc_timestamp acc)
      else currLoadLoop reqTime evts' acc
  end.

(** [Simulator.getCurrLoad] *)
Definition getCurrLoad (reqTime : Z) (s : Sim) : res jsnum :=
  do lastEvt <- deref (last (simEventLog s)) "simEventLog[simEventLog.length - 1] is undefined";
  let acc := currLoadLoop reqTime (tail (rev (simEventLog s)))
               (mkLoadAcc 0 0 (time lastEvt)) in
  if acc_all acc =? 0 then Ok (Num 0)
  else Ok (jsdiv (Num (inject_Z (acc_active acc))) (Num (inject_Z (acc_all acc)))).

(** The events of a log are in the order of their times. *)
Definition chronological (log : list Event) : Prop :=
  StronglySorted Z.le (time <$> log).

(** ** Notions used in the statements about the clock *)

(** The log [l'] is the log [l] with further events, all of the time [t]. *)
Definition log_grows (t : Z) (l l' : list Event) : Prop :=
  exists k, l' = (l ++ k)%list /\ Forall (fun e => time e = t) k.

(** What the handling of an event leaves alone.  From [s] to [s'] the clock
    and the length of the simulation are the same and the event log has
    grown by events of the current time; the timer tick, the flags of the
    simulator, the order of the classes and the number of processes are the
    same. *)
Definition clock_step (s s' : Sim) : Prop :=
  simulationTime s' = simulationTime s /\
  simulationLen s' = simulationLen s /\
  log_grows (simulationTime s) (simEventLog s) (simEventLog s') /\
  timerTickLen s' = timerTickLen s /\
  simRunning s' = simRunning s /\
  simInitDone s' = simInitDone s /\
  processesLoaded s' = processesLoaded s /\
  schedClassPrio s' = schedClassPrio s /\
  schedClassPrioRegistered s' = schedClassPrioRegistered s /\
  length (procList s') = length (procList s).

(** The event log is in the order of time and no event in it is later than
    the clock. *)
Definition log_in_order (s : Sim) : Prop :=
  chronological (simEventLog s) /\
  Forall (fun e => time e <= simulationTime s) (simEventLog s).

(** ** Notions used in the statements about [Simulator.init] *)

(** A step of the set-up of a simulation that adds [n] processes: the
    variables of the run are left as they are. *)
Definition setup_step (n : nat) (s s' : Sim) : Prop :=
  simulationTime s' = simulationTime s /\
  simulationLen s' = simulationLen s /\
  timerTickLen s' = timerTickLen s /\
  contextSwitches s' = contextSwitches s /\
  liveProcessCount s' = liveProcessCount s /\
  simEventLog s' = simEventLog s /\
  curr s' = curr s /\
  processesLoaded s' = processesLoaded s /\
  simRunning s' = simRunning s /\
  length (procList s') = (length (procList s) + n)%nat.

(** From [s] to [s'] events were added to the simulation queue, if any: a
    well-formed queue is well formed again and holds the events it held, and
    an event that was the first one, due by the current time, is still the
    first one. *)
Definition queue_grows (s s' : Sim) : Prop :=
  simulationTime s' = simulationTime s /\
  (wf_queue (simulationQueue s) ->
   wf_queue (simulationQueue s') /\
   (forall e, e ∈ pending (simulationQueue s) -> e ∈ pending (simulationQueue s')) /\
   (forall e, head (pending (simulationQueue s)) = Some e -> time e <= simulationTime s ->
              head (pending (simulationQueue s')) = Some e)).

(** ** The other ways to run a simulation *)

Section Runs.

Variable D : Dispatch.

(** [Simulator.step(steps)]; [None] is a call without a number. *)
Definition step (fuel : nat) (steps : option Z) (s : Sim) : res (option SimResult * Sim) :=
  if negb (simInitDone s) then
    Err "simulation has not been properly started. Run Simulator.init() first."
  else
    let steps := match steps with
                 | Some n => if n <? 1 then 1 else n
                 | None => 1
                 end in
    run D fuel (Some (- steps)) s.

(** [Simulator.runTo(stopTime)] *)
Definition runTo (fuel : nat) (stopTime : Z) (s : Sim) : res (option SimResult * Sim) :=
  if negb (simInitDone s) then
    Err "simulation has not been properly started. Run Simulator.init() first."
  else
    let now := simulationTime s in
    if stopTime <=? now then Ok (None, s)
    else run D fuel (Some (stopTime - now)) s.

End Runs.


(** ** The reordering of the scheduling classes

    An order array is an array of numbers; the definitions below take it as
    a list of natural numbers. *)

(** [checkArray.length] after [checkArray[orderArray[i]] = true] for every
    [i]: one more than the greatest index that was assigned. *)
Definition checkArrayLength (orderArray : list nat) : nat :=
  match orderArray with
  | [] => 0
  | _ => S (max_list orderArray)
  end.

(** The loop that looks for a slot of [checkArray] that is not [true]. *)
Definition checkArrayFull (orderArray : list nat) : bool :=
  forallb (fun i => bool_decide (i ∈ orderArray)) (seq 0 (checkArrayLength orderArray)).

(** [orderArray.map(i => classes[i])]; an index past the end would give
    [undefined], which a list of names does not hold. *)
Definition reordered (orderArray : list nat) (classes : list string) : res (list string) :=
  match mapM (fun i => classes !! i) orderArray with
  | Some l => Ok l
  | None => Err "an entry of the reordered array is undefined"
  end.

(** [Simulator.reorderRegisteredClasses] *)
Definition reorderRegisteredClasses (orderArray : list nat) (s : Sim) : res Sim :=
  if simRunning s then
    Err "a simulation is running, finish or break it (Simulator.break()) before reordering scheduling classes."
  else if negb (length orderArray =? length (schedClassPrioRegistered s))%nat then
    Err "orderArray length needs to match the numer of registered scheduling classes (Simulator.getSchedClassPrioRegistered().length)."
  else if negb (checkArrayFull orderArray) then
    Err "orderArray needs to include all numbers from 0 to length-1."
  else
    do l <- reordered orderArray (schedClassPrioRegistered s);
    let s := set_schedClassPrioRegistered l s in
    if (1 <? length (schedClassPrio s))%nat then
      Ok (set_schedClassPrio
            (filter (fun n => n ∈ schedClassPrio s) (schedClassPrioRegistered s)) s)
    else Ok s.

(** [Simulator.reorderActiveClasses] *)
Definition reorderActiveClasses (orderArray : list nat) (s : Sim) : res Sim :=
  if negb (simInitDone s) then
    Err "simulation has not been initialised yet, no active classes to reorder."
  else if (length (schedClassPrio s) <? 2)%nat then Ok s
  else if simRunning s then
    Err "a simulation is running, finish or break it (Simulator.break()) before reordering scheduling classes."
  else if negb (length orderArray =? length (schedClassPrio s))%nat then
    Err "orderArray length needs to match the numer of active scheduling classes (Simulator.getSchedClassPrio().length)."
  else if negb (checkArrayFull orderArray) then
    Err "orderArray needs to include all numbers from 0 to length-1."
  else
    do l <- reordered orderArray (schedClassPrio s);
    Ok (set_schedClassPrio l s).

(** ** Notions used in the statements about the loading of processes *)

(** The number [x] is a value of the entry [v] of a process definition: the
    number itself, or a number of the interval, the upper end excluded. *)
Definition drawn_from (v : option procval) (x : Z) : Prop :=
  match v with
  | Some (PNum z) => x = z
  | Some (PRange lo hi) => lo <= x /\ (x < hi \/ (lo = hi /\ x = lo))
  | None => False
  end.


(** ** Notions used in the statements about the accounting of the fair class *)

(** The weight that the fair class accounts for the process [proc]: the
    weight of the priority of its current behaviour. *)
Definition fairWeight (proc : pref) (s : Sim) : res Z :=
  do p <- getProc proc s;
  do cb <- currBehavior p;
  LinuxFairClass.getLoad (Behavior.priority cb).

(** From [s] to [s'] the count of enqueued processes of the fair class, its
    load and the weights of the processes are the same. *)
Definition fair_counts_kept (s s' : Sim) : Prop :=
  LinuxFair.enqueued (fair s') = LinuxFair.enqueued (fair s) /\
  LinuxFair.load (fair s') = LinuxFair.load (fair s) /\
  forall r, fairWeight r s' = fairWeight r s.

(** ** Notions used in the statements about a process that blocks *)

(** The fields of a process that the [dequeue] of a scheduling class does
    not assign. *)
Definition same_run (p p' : Process) : Prop :=
  runnable p' = runnable p /\ remainingRuntime p' = remainingRuntime p /\
  picked p' = picked p /\ behavior p' = behavior p /\ schedClass p' = schedClass p.

(** From [s] to [s'] the clock and the simulation queue are the same and
    every process has kept the fields of [same_run]. *)
Definition run_kept (s s' : Sim) : Prop :=
  simulationTime s' = simulationTime s /\
  simulationQueue s' = simulationQueue s /\
  forall r p, getProc r s = Ok p -> exists p', getProc r s' = Ok p' /\ same_run p p'.

(** * The simulation queue *)

Section QueueFacts.

Implicit Types (q : queue) (e : Event) (h : holder Event).

Lemma pending_cons k h q : pending ((k, h) :: q) = (holder_events h ++ pending q)%list.
Proof. reflexivity. Qed.

Lemma wf_queue_nil : wf_queue [].
Proof. split; constructor. Qed.

Lemma wf_queue_cons k h q :
  wf_queue ((k, h) :: q) <->
  holder_ok (k, h) /\ Forall (fun kv => k < fst kv) q /\ wf_queue q.
Proof.
  unfold wf_queue; cbn [map fst]. split.
  - intros [Hs Hf]. inversion Hs as [|? ? Hs' Hlt]; subst.
    inversion Hf as [|? ? Hh Hf']; subst.
    split; [exact Hh|]. split; [|split; assumption].
    apply List.Forall_forall. intros kv Hin.
    rewrite List.Forall_forall in Hlt. apply Hlt. now apply List.in_map.
  - intros (Hh & Hlt & Hs & Hf). split; constructor; auto.
    apply List.Forall_forall. intros x Hin.
    apply List.in_map_iff in Hin. destruct Hin as (kv & <- & Hin).
    rewrite List.Forall_forall in Hlt. now apply Hlt.
Qed.

(** [insert] at a key below every key of the tree links the new node at
    the left. *)
Lemma insert_front k h q :
  Forall (fun kv => k < fst kv) q ->
  redblack.insert Z.compare k h q = (k, h) :: q.
Proof.
  destruct q as [|[k' h'] q]; [reflexivity|].
  intros Hlt. inversion Hlt as [|? ? Hk _]; subst. cbn in Hk |- *.
  now rewrite (proj2 (Z.compare_lt_iff k k')).
Qed.

End QueueFacts.

Section QueueCode.

Implicit Types (q : queue) (e : Event) (h : holder Event).

Lemma insert_by_app {A} (t : A -> Z) (x : A) (l1 l2 : list A) :
  Forall (fun y => t y <= t x) l1 ->
  insert_by t x (l1 ++ l2) = (l1 ++ insert_by t x l2)%list.
Proof.
  induction 1 as [|y l1 Hy _ IH]; [reflexivity|].
  cbn. rewrite (proj2 (Z.ltb_ge (t x) (t y))) by lia. now rewrite IH.
Qed.

Lemma insert_by_front {A} (t : A -> Z) (x : A) (l : list A) :
  Forall (fun y => t x < t y) l -> insert_by t x l = x :: l.
Proof.
  destruct 1 as [|y l Hy _]; [reflexivity|].
  cbn. now rewrite (proj2 (Z.ltb_lt (t x) (t y))).
Qed.

Lemma insert_by_map {A B} (f : A -> B) (t : B -> Z) (x : A) (l : list A) :
  map f (insert_by (fun a => t (f a)) x l) = insert_by t (f x) (map f l).
Proof.
  induction l as [|y l IH]; [reflexivity|].
  cbn. destruct (t (f x) <? t (f y)); cbn; [reflexivity|now rewrite IH].
Qed.

(** The events of a well-formed queue are not due before its first key. *)
Lemma pending_lower_bound k q :
  wf_queue q -> Forall (fun kv => k < fst kv) q ->
  Forall (fun e => k < time e) (pending q).
Proof.
  induction q as [|[k' h'] q IH]; intros Hwf Hlt; [constructor|].
  apply wf_queue_cons in Hwf as ([_ Hh] & Hlt' & Hwf).
  inversion Hlt as [|? ? Hk Hlt'']; subst. cbn in Hk, Hh.
  rewrite pending_cons. apply Forall_app. split.
  - eapply Forall_impl; [exact Hh|]. cbn. intros; lia.
  - now apply IH.
Qed.

(** What [insertEvent] does to the tree, on the sequence of its events. *)
Lemma requeue_pending (e : Event) q :
  wf_queue q ->
  let h' := match redblack.get Z.compare (time e) q with
            | Some (Single x) => Bucket [x; e]
            | Some (Bucket l) => Bucket (l ++ [e])
            | None => Single e
            end in
  let q' := redblack.insert Z.compare (time e) h' (redblack.delete Z.compare (time e) q) in
  wf_queue q' /\ pending q' = insert_by time e (pending q)
  /\ forall k, k < time e -> Forall (fun kv => k < fst kv) q -> Forall (fun kv => k < fst kv) q'.
Proof.
  induction q as [|[k h] q IH]; intros Hwf; cbn zeta.
  - cbn. split; [|split]; [| reflexivity |].
    + apply wf_queue_cons. split; [|split]; [| constructor | apply wf_queue_nil].
      split; cbn; [discriminate | repeat constructor].
    + intros k Hk _. repeat constructor. exact Hk.
  - pose proof Hwf as Hwf0.
    apply wf_queue_cons in Hwf as (Hh & Hlt & Hwf).
    destruct Hh as [Hne Hh]. cbn in Hne, Hh.
    cbn [redblack.get redblack.delete].
    destruct (Z.compare_spec (time e) k) as [Heq | Hlt' | Hgt].
    + (* the key exists: the event joins its array *)
      rewrite insert_front by (now rewrite Heq).
      assert (Hfront : insert_by time e (pending ((k, h) :: q))
                       = (holder_events h ++ e :: pending q)%list).
      { rewrite pending_cons, insert_by_app.
        - f_equal. apply insert_by_front.
          eapply Forall_impl; [apply (pending_lower_bound k); assumption|].
          cbn. intros; lia.
        - eapply Forall_impl; [exact Hh|]. cbn. intros; lia. }
      rewrite Hfront.
      destruct h as [x | l]; cbn in Hne, Hh |- *.
      * split; [|split]; [| reflexivity |].
        -- apply wf_queue_cons. split; [|split]; [| now rewrite Heq | assumption].
           split; cbn; [discriminate|].
           inversion Hh; subst. repeat constructor; congruence.
        -- intros k' Hk' _. constructor; [exact Hk'|].
           eapply Forall_impl; [exact Hlt|]. cbn. intros; lia.
      * split; [|split]; [| now rewrite <- app_assoc |].
        -- apply wf_queue_cons. split; [|split]; [| now rewrite Heq | assumption].
           split; cbn.
           ++ destruct l; [congruence | discriminate].
           ++ apply Forall_app. split; [|repeat constructor].
              eapply Forall_impl; [exact Hh|]. cbn. intros; congruence.
        -- intros k' Hk' _. constructor; [exact Hk'|].
           eapply Forall_impl; [exact Hlt|]. cbn. intros; lia.
    + (* the key is below the first key: a new node at the left *)
      cbn [redblack.insert]. rewrite (proj2 (Z.compare_lt_iff (time e) k)) by exact Hlt'.
      split; [|split].
      * apply wf_queue_cons. split; [|split]; [| | exact Hwf0].
        -- split; cbn; [discriminate | repeat constructor].
        -- constructor; [exact Hlt'|].
           eapply Forall_impl; [exact Hlt|]. cbn. intros; lia.
      * cbn [pending flat_map snd holder_events app].
        symmetry. apply insert_by_front.
        change (Forall (fun y => time e < time y) (pending ((k, h) :: q))).
        rewrite pending_cons. apply Forall_app. split.
        -- eapply Forall_impl; [exact Hh|]. cbn. intros; lia.
        -- eapply Forall_impl; [apply (pending_lower_bound k); assumption|].
           cbn. intros; lia.
      * intros k' Hk' Hall. constructor; [exact Hk' | exact Hall].
    + (* the key is above the first key: the walk goes on to the right *)
      cbn [redblack.insert]. rewrite (proj2 (Z.compare_gt_iff (time e) k)) by exact Hgt.
      destruct (IH Hwf) as (Hwf' & Hpend & Hbound).
      split; [|split].
      * apply wf_queue_cons. split; [|split]; [split; assumption | | exact Hwf'].
        apply Hbound; assumption.
      * rewrite !pending_cons, Hpend. symmetry. apply insert_by_app.
        eapply Forall_impl; [exact Hh|]. cbn. intros; lia.
      * intros k' Hk' Hall. inversion Hall; subst. constructor; [assumption|].
        apply Hbound; [lia|].
        eapply Forall_impl; [exact Hlt|]. cbn in *. intros; lia.
Qed.

Lemma insertEvent_pending now e q q' :
  wf_queue q -> insertEvent now e q = Ok q' ->
  now <= time e /\ wf_queue q' /\ pending q' = insert_by time e (pending q).
Proof.
  intros Hwf. unfold insertEvent. destruct (Z.ltb_spec (time e) now); [discriminate|].
  unfold redblack.getDelete. intros [= <-].
  destruct (requeue_pending e q Hwf) as (? & ? & _). auto.
Qed.

Lemma insertEvent_ok now e q :
  now <= time e -> exists q', insertEvent now e q = Ok q'.
Proof.
  intros H. unfold insertEvent. rewrite (proj2 (Z.ltb_ge (time e) now)) by exact H.
  unfold redblack.getDelete. eauto.
Qed.

(** [getNextEvent] returns the first of the queued events and leaves the
    others in their order. *)
Lemma getNextEvent_pending q :
  wf_queue q -> pending q <> [] ->
  exists e q', getNextEvent q = Ok (e, q') /\ pending q = e :: pending q' /\ wf_queue q'.
Proof.
  destruct q as [|[k h] q]; intros Hwf Hne; [now cbn in Hne|].
  apply wf_queue_cons in Hwf as ([Hne' Hh] & Hlt & Hwf). cbn in Hne', Hh.
  unfold getNextEvent, redblack.leftmostDelete.
  destruct h as [x | [|x0 [|x1 [|x2 l]]]]; cbn in Hne', Hh |- *.
  - eauto.
  - congruence.
  - eauto.
  - apply Forall_cons in Hh as [_ Hh1]. apply Forall_cons in Hh1 as [Hx1 _].
    rewrite insert_front by (now rewrite Hx1).
    eexists _, _. split; [reflexivity|]. split; [reflexivity|].
    apply wf_queue_cons. split; [|split]; [| now rewrite Hx1 | assumption].
    split; cbn; [discriminate|]. repeat constructor.
  - apply Forall_cons in Hh as [_ Hh1]. pose proof Hh1 as Hh2.
    apply Forall_cons in Hh1 as [Hx1 _].
    rewrite insert_front by (now rewrite Hx1).
    eexists _, _. split; [reflexivity|]. split; [reflexivity|].
    apply wf_queue_cons. split; [|split]; [| now rewrite Hx1 | assumption].
    split; cbn; [discriminate|]. rewrite Hx1. exact Hh2.
Qed.

End QueueCode.

Section QueueOrder.

Implicit Types (x y m : stamped) (P pend : list stamped).

Lemma earlier_before x y : earlier x y = true <-> before x y.
Proof.
  unfold earlier, before.
  rewrite orb_true_iff, andb_true_iff, Z.ltb_lt, Z.eqb_eq, Nat.ltb_lt. reflexivity.
Qed.

Lemma earlier_false x y : earlier x y = false <-> ~ before x y.
Proof. rewrite <- earlier_before. destruct (earlier x y); intuition congruence. Qed.

Lemma first_event_spec pend m :
  first_event pend = Some m ->
  In m pend /\ Forall (fun x => ~ before x m) pend.
Proof.
  revert m. induction pend as [|x l IH]; intros m; [discriminate|].
  cbn. destruct (first_event l) as [y|] eqn:Hl.
  - destruct (IH y eq_refl) as [Hin Hall].
    destruct (earlier y x) eqn:Hyx; intros [= <-].
    + apply earlier_before in Hyx. split; [now right|].
      constructor; [|exact Hall]. unfold before in *. lia.
    + apply earlier_false in Hyx. split; [now left|].
      constructor; [unfold before; lia|].
      eapply Forall_impl; [exact Hall|]. cbn. unfold before in *. intros; lia.
  - intros [= <-]. split; [now left|].
    destruct l; [|cbn in Hl; destruct (first_event l); [destruct (earlier _ _)|]; discriminate].
    repeat constructor. unfold before. lia.
Qed.

Lemma first_event_some pend : pend <> [] -> exists m, first_event pend = Some m.
Proof.
  destruct pend as [|x l]; [congruence|]. intros _. cbn.
  destruct (first_event l) as [y|]; [destruct (earlier y x)|]; eauto.
Qed.

(** The first element of the ordered sequence is the event that
    [first_event] selects. *)
Lemma first_event_sorted P pend x :
  StronglySorted before (x :: P) -> Permutation (x :: P) pend ->
  first_event pend = Some x.
Proof.
  intros Hs Hp.
  destruct (first_event_some pend) as [m Hm].
  { intros ->. now apply Permutation_sym, Permutation_nil in Hp. }
  rewrite Hm. f_equal.
  destruct (first_event_spec _ _ Hm) as [Hin Hall].
  apply (Permutation_in _ (Permutation_sym Hp)) in Hin.
  rewrite List.Forall_forall in Hall.
  specialize (Hall x (Permutation_in _ Hp (or_introl eq_refl))).
  destruct Hin as [-> | Hin]; [reflexivity|].
  inversion Hs as [|? ? _ Hlt]; subst.
  rewrite List.Forall_forall in Hlt. now specialize (Hlt m Hin).
Qed.

Lemma insert_by_perm {A} (t : A -> Z) (x : A) (l : list A) :
  Permutation (insert_by t x l) (x :: l).
Proof.
  induction l as [|y l IH]; [reflexivity|].
  cbn. destruct (t x <? t y); [reflexivity|].
  rewrite IH. apply perm_swap.
Qed.

Lemma insert_by_sorted x P :
  StronglySorted before P -> Forall (fun y => (fst y < fst x)%nat) P ->
  StronglySorted before (insert_by (fun a => time (snd a)) x P).
Proof.
  induction 1 as [|y P Hs IH Hlt]; intros Hst; [repeat constructor|].
  apply Forall_cons in Hst as [Hy Hst]. cbn.
  destruct (Z.ltb_spec (time (snd x)) (time (snd y))).
  - constructor; [now constructor|]. constructor; [left; lia|].
    eapply Forall_impl; [exact Hlt|]. cbn. unfold before. intros; lia.
  - constructor; [now apply IH|].
    rewrite List.Forall_forall. intros z Hz.
    apply (Permutation_in _ (insert_by_perm _ _ _)) in Hz. destruct Hz as [<- | Hz].
    + unfold before. lia.
    + rewrite List.Forall_forall in Hlt. now apply Hlt.
Qed.

Lemma remove_stamp_head k e P :
  NoDup (map fst ((k, e) :: P)) -> remove_stamp k ((k, e) :: P) = P.
Proof.
  intros Hnd. apply NoDup_cons in Hnd as [Hk _]. unfold remove_stamp. cbn.
  rewrite Nat.eqb_refl. cbn.
  induction P as [|y P IH]; [reflexivity|]. cbn in *.
  destruct (Nat.eqb_spec (fst y) k) as [Heq | Hne]; cbn.
  - exfalso. apply Hk. rewrite <- Heq. constructor.
  - f_equal. apply IH. intros Hin. apply Hk. now constructor.
Qed.

Lemma remove_stamp_perm k P pend :
  Permutation P pend -> Permutation (remove_stamp k P) (remove_stamp k pend).
Proof.
  unfold remove_stamp. induction 1; cbn.
  - reflexivity.
  - destruct (negb _); [now constructor | assumption].
  - destruct (negb _), (negb _); try reflexivity. apply perm_swap.
  - etransitivity; eassumption.
Qed.

Lemma reachable_inv now n pend popped q :
  reachable now n pend popped q -> queue_inv now n pend popped q.
Proof.
  induction 1 as [now | now n pend popped q q' e _ IH Hins
                 | now n pend popped q q' e x _ IH Hpop Hfirst].
  - split; [apply wf_queue_nil|]. exists []. repeat split; constructor.
  - destruct IH as (Hwf & P & Hmap & Hperm & Hs & Hnd & Hst & Hnow & Hpop & Hps).
    destruct (insertEvent_pending _ _ _ _ Hwf Hins) as (Hle & Hwf' & Hpend).
    split; [exact Hwf'|].
    exists (insert_by (fun a => time (snd a)) (n, e) P).
    assert (Hp : Permutation (insert_by (fun a => time (snd a)) (n, e) P) ((n, e) :: P))
      by apply insert_by_perm.
    split; [|split; [|split; [|split; [|split; [|split; [|split]]]]]].
    + rewrite Hpend, <- Hmap. apply (insert_by_map snd time).
    + rewrite Hp. now constructor.
    + apply insert_by_sorted; assumption.
    + rewrite (Permutation_map fst Hp).
      cbn. apply NoDup_cons. split; [|exact Hnd].
      intros Hin. apply list_elem_of_In, in_map_iff in Hin as (y & Hy & Hin).
      rewrite List.Forall_forall in Hst. specialize (Hst y Hin). cbn in Hy. lia.
    + eapply Permutation_Forall; [apply Permutation_sym, Hp|].
      constructor; [cbn; lia|]. eapply Forall_impl; [exact Hst|]. cbn. intros; lia.
    + eapply Permutation_Forall; [apply Permutation_sym, Hp|].
      constructor; [exact Hle | exact Hnow].
    + exact Hpop.
    + exact Hps.
  - destruct IH as (Hwf & P & Hmap & Hperm & Hs & Hnd & Hst & Hnow & Hpopped & Hps).
    destruct (getNextEvent_pending q Hwf) as (e' & q'' & Hget & Hpend & Hwf').
    { intros Hnil. rewrite Hnil in Hmap. destruct P; [|discriminate].
      apply Permutation_nil in Hperm. subst. discriminate. }
    rewrite Hpop in Hget. injection Hget as <- <-.
    destruct P as [|[k e0] P]; [rewrite Hpend in Hmap; discriminate|].
    rewrite Hpend in Hmap. cbn in Hmap. injection Hmap as -> Hmap.
    rewrite (first_event_sorted _ _ _ Hs Hperm) in Hfirst. injection Hfirst as <-.
    cbn [fst].
    assert (Hle : now <= time e) by (now apply Forall_cons in Hnow as [? _]).
    split; [exact Hwf'|]. exists P.
    inversion Hs as [|? ? Hs' Hlt]; subst.
    split; [|split; [|split; [|split; [|split; [|split; [|split]]]]]].
    + exact Hmap.
    + rewrite <- (remove_stamp_head k e P Hnd). now apply remove_stamp_perm.
    + exact Hs'.
    + cbn in Hnd. now apply NoDup_cons in Hnd as [_ ?].
    + now apply Forall_cons in Hst as [_ ?].
    + eapply Forall_impl; [exact Hlt|]. cbn. unfold before. cbn. intros; lia.
    + constructor; [lia|]. eapply Forall_impl; [exact Hpopped|]. cbn. intros; lia.
    + constructor; [exact Hps|]. eapply Forall_impl; [exact Hpopped|]. cbn. intros; lia.
Qed.

End QueueOrder.

(** C2.  In every state of the simulation queue that is reached by calls
    of [insertEvent] (and of [getNextEvent], each followed by the clock
    being set to the time of the event, as the main loop does),
    [getNextEvent] returns a queued event whose time is minimal among the
    queued events and which, among the events queued for that time, was
    inserted first; and no event is returned whose time is smaller than
    the time of an event returned before. *)
Theorem getNextEvent_earliest_first now n pend popped q :
  reachable now n pend popped q ->
  StronglySorted (fun a b => time b <= time a) popped /\
  (pend <> [] ->
   exists e k q',
     getNextEvent q = Ok (e, q') /\
     In (k, e) pend /\
     (forall x, In x pend -> time e <= time (snd x)) /\
     (forall x, In x pend -> time (snd x) = time e -> (k <= fst x)%nat) /\
     (forall p, In p popped -> time p <= time e) /\
     reachable (time e) n (remove_stamp k pend) (e :: popped) q').
Proof.
  intros Hr.
  destruct (reachable_inv _ _ _ _ _ Hr)
    as (Hwf & P & Hmap & Hperm & Hs & Hnd & Hst & Hnow & Hpopped & Hps).
  split; [exact Hps|]. intros Hne.
  destruct P as [|[k e] P].
  { apply Permutation_nil in Hperm. congruence. }
  destruct (getNextEvent_pending q Hwf) as (e' & q' & Hget & Hpend & Hwf').
  { rewrite <- Hmap. discriminate. }
  rewrite Hpend in Hmap. cbn in Hmap. injection Hmap as <- Hmap.
  pose proof (first_event_sorted _ _ _ Hs Hperm) as Hfirst.
  exists e, k, q'.
  inversion Hs as [|? ? _ Hlt]; subst. rewrite List.Forall_forall in Hlt.
  assert (Hle : now <= time e) by (now apply Forall_cons in Hnow as [? _]).
  split; [exact Hget|]. split; [|split; [|split; [|split]]].
  - apply (Permutation_in _ Hperm). now left.
  - intros x Hx. apply (Permutation_in _ (Permutation_sym Hperm)) in Hx.
    destruct Hx as [<- | Hx]; [cbn; lia|].
    specialize (Hlt x Hx). unfold before in Hlt. cbn in Hlt. lia.
  - intros x Hx Heq. apply (Permutation_in _ (Permutation_sym Hperm)) in Hx.
    destruct Hx as [<- | Hx]; [cbn; lia|].
    specialize (Hlt x Hx). unfold before in Hlt. cbn in Hlt. lia.
  - intros p Hp. rewrite List.Forall_forall in Hpopped. specialize (Hpopped p Hp). lia.
  - exact (reach_pop _ _ _ _ _ _ _ _ Hr Hget Hfirst).
Qed.

Lemma getNextEvent_earliest_first_witness :
  let e0 := mkEvent 0 5 0 TimerEvent None in
  let e1 := mkEvent 1 3 0 ForkEvent (Some (Pid 0)) in
  let e2 := mkEvent 2 3 0 ForkEvent (Some (Pid 1)) in
  let pend := [(2%nat, e2); (1%nat, e1); (0%nat, e0)] in
  let q := [(3, Bucket [e1; e2]); (5, Single e0)] in
  reachable 0 3 pend [] q /\
  (StronglySorted (fun a b => time b <= time a) [] /\
   (pend <> [] ->
    exists e k q',
      getNextEvent q = Ok (e, q') /\
      In (k, e) pend /\
      (forall x, In x pend -> time e <= time (snd x)) /\
      (forall x, In x pend -> time (snd x) = time e -> (k <= fst x)%nat) /\
      (forall p, In p [] -> time p <= time e) /\
      reachable (time e) 3 (remove_stamp k pend) [e] q')).
Proof.
  intros e0 e1 e2 pend q.
  assert (H : reachable 0 3 pend [] q).
  { unfold pend, q.
    eapply reach_insert; [eapply reach_insert; [eapply reach_insert; [apply reach_empty|]|]|];
      reflexivity. }
  split; [exact H|]. exact (getNextEvent_earliest_first 0 3 pend [] q H).
Defined.

(** * The kernel: elementary facts *)

(** A computation that returned has had all its steps return. *)
Ltac inv_res :=
  repeat match goal with
  | H : Ok _ = Ok _ |- _ => injection H as H; try subst
  | H : Err _ = Ok _ |- _ => discriminate H
  | H : unknownClass = Ok _ |- _ => discriminate H
  | H : (_, _) = (_, _) |- _ => injection H as ? ?; try subst
  | H : rbind ?m _ = Ok _ |- _ =>
      let E := fresh "E" in destruct m eqn:E; cbn [rbind] in H; [|discriminate H]
  | H : (let '(_, _) := ?x in _) = Ok _ |- _ =>
      let E := fresh "E" in destruct x eqn:E
  | H : (if ?b then _ else _) = Ok _ |- _ =>
      let E := fresh "E" in destruct b eqn:E
  | H : match ?x with _ => _ end = Ok _ |- _ =>
      let E := fresh "E" in destruct x eqn:E
  end.

Lemma rbind_ok {A B} (m : res A) (k : A -> res B) b :
  rbind m k = Ok b <-> exists a, m = Ok a /\ k a = Ok b.
Proof.
  destruct m; cbn; split.
  - eauto.
  - now intros (? & [= <-] & ?).
  - discriminate.
  - now intros (? & [=] & _).
Qed.

Section Access.

Implicit Types (s : Sim) (r : pref) (p : Process) (c : clsref).

Lemma getProc_setProc_same r p s :
  is_ok (getProc r s) = true -> getProc r (setProc r p s) = Ok p.
Proof.
  destruct r as [|n]; cbn; [reflexivity|].
  destruct (procList s !! n) eqn:E; [|discriminate]. intros _.
  rewrite list_lookup_insert_eq; [reflexivity|]. now apply lookup_lt_Some in E.
Qed.

Lemma getClass_setClass_same c o s :
  getClass c (setClass c o s) = Ok o.
Proof.
  destruct c as [|n]; cbn; [reflexivity|]. now rewrite lookup_insert_eq.
Qed.

Lemma getClass_setClass_other c c' o s :
  c <> c' -> getClass c' (setClass c o s) = getClass c' s.
Proof.
  destruct c as [|n], c' as [|n']; cbn; try congruence; try reflexivity.
  intros Hne. rewrite lookup_insert_ne; [reflexivity|congruence].
Qed.

Lemma getProc_setProc_other r r' p s :
  r <> r' -> getProc r' (setProc r p s) = getProc r' s.
Proof.
  destruct r as [|n], r' as [|n']; cbn; try congruence; try reflexivity.
  intros Hne. rewrite list_lookup_insert_ne; [reflexivity|congruence].
Qed.

Lemma updProc_ok r f s p :
  getProc r s = Ok p -> updProc r f s = Ok (setProc r (f p) s).
Proof. unfold updProc. now intros ->. Qed.

Lemma updProc_inv r f s s' :
  updProc r f s = Ok s' -> exists p, getProc r s = Ok p /\ s' = setProc r (f p) s.
Proof. unfold updProc. intros H. inv_res. eauto. Qed.

Lemma updProc_get r f s s' p :
  getProc r s = Ok p -> updProc r f s = Ok s' -> getProc r s' = Ok (f p).
Proof.
  intros Hp H. rewrite (updProc_ok _ _ _ _ Hp) in H. injection H as <-.
  apply getProc_setProc_same. now rewrite Hp.
Qed.

Lemma updProc_get_other r r' f s s' :
  r <> r' -> updProc r f s = Ok s' -> getProc r' s' = getProc r' s.
Proof.
  intros Hne H. apply updProc_inv in H as (p & _ & ->).
  now apply getProc_setProc_other.
Qed.

Lemma pref_eqb_eq r r' : pref_eqb r r' = true <-> r = r'.
Proof.
  destruct r as [|n], r' as [|m]; cbn; try (split; congruence).
  rewrite Nat.eqb_eq. split; congruence.
Qed.

Lemma pref_eq_dec r r' : {r = r'} + {r <> r'}.
Proof. decide equality. apply Nat.eq_dec. Qed.

Lemma clsref_eqb_eq c c' : clsref_eqb c c' = true <-> c = c'.
Proof.
  destruct c as [|n], c' as [|m]; cbn; try (split; congruence).
  rewrite String.eqb_eq. split; congruence.
Qed.

Lemma updClass_inv c f s s' :
  updClass c f s = Ok s' -> exists o, getClass c s = Ok o /\ s' = setClass c (f o) s.
Proof. unfold updClass. intros H. inv_res. eauto. Qed.

Lemma getProc_setClass r c o s : getProc r (setClass c o s) = getProc r s.
Proof. destruct r, c; reflexivity. Qed.

Lemma sim_insertEvent_inv e s s' :
  sim_insertEvent e s = Ok s' ->
  exists q, insertEvent (simulationTime s) e (simulationQueue s) = Ok q
            /\ s' = set_simulationQueue q s.
Proof. unfold sim_insertEvent. intros H. inv_res. eauto. Qed.

Lemma sim_deleteEvent_inv e s s' :
  sim_deleteEvent e s = Ok s' ->
  exists q, s' = set_simulationQueue q s.
Proof. unfold sim_deleteEvent. intros H. inv_res. eauto. Qed.

Lemma getProcVal_inv entry s z s' :
  getProcVal entry s = Ok (z, s') ->
  s' = s \/ s' = set_randomCount (S (randomCount s)) s.
Proof.
  unfold getProcVal, mathRandomFloor. intros H. inv_res; auto.
Qed.

End Access.

Section Chasing.

Implicit Types (s : Sim) (r : pref) (p : Process) (c : clsref).

(** A process object is found through [procList] and [idle] only. *)
Lemma getProc_ext r s s' :
  procList s' = procList s -> idle s' = idle s -> getProc r s' = getProc r s.
Proof. destruct r; cbn; congruence. Qed.

Lemma getClass_ext c s s' :
  schedClassRegistered s' = schedClassRegistered s -> idleClass s' = idleClass s ->
  getClass c s' = getClass c s.
Proof. destruct c; cbn; congruence. Qed.

Lemma pref_eqb_refl r : pref_eqb r r = true.
Proof. now apply pref_eqb_eq. Qed.

Lemma pref_eqb_neq r r' : r <> r' -> pref_eqb r r' = false.
Proof.
  intros H. destruct (pref_eqb r r') eqn:E; [|reflexivity].
  now apply pref_eqb_eq in E.
Qed.

Lemma updProc_getProc r0 f s s' :
  updProc r0 f s = Ok s' ->
  forall r, getProc r s' =
            if pref_eqb r0 r then (do p <- getProc r s; Ok (f p)) else getProc r s.
Proof.
  intros H r. pose proof H as H'. apply updProc_inv in H as (p & Hp & ->).
  destruct (pref_eq_dec r0 r) as [<- | Hne].
  - rewrite pref_eqb_refl, Hp. cbn. apply getProc_setProc_same. now rewrite Hp.
  - rewrite (pref_eqb_neq _ _ Hne). now apply getProc_setProc_other.
Qed.

Lemma updClass_getProc c f s s' :
  updClass c f s = Ok s' -> forall r, getProc r s' = getProc r s.
Proof. intros H r. apply updClass_inv in H as (o & _ & ->). apply getProc_setClass. Qed.

Lemma sim_insertEvent_getProc e s s' :
  sim_insertEvent e s = Ok s' -> forall r, getProc r s' = getProc r s.
Proof. intros H r. apply sim_insertEvent_inv in H as (q & _ & ->). now apply getProc_ext. Qed.

Lemma sim_deleteEvent_getProc e s s' :
  sim_deleteEvent e s = Ok s' -> forall r, getProc r s' = getProc r s.
Proof. intros H r. apply sim_deleteEvent_inv in H as (q & ->). now apply getProc_ext. Qed.

Lemma getProcVal_getProc entry s z s' :
  getProcVal entry s = Ok (z, s') -> forall r, getProc r s' = getProc r s.
Proof.
  intros H r. apply getProcVal_inv in H as [-> | ->]; [reflexivity | now apply getProc_ext].
Qed.

Lemma newEvent_getProc k t o s e s' :
  newEvent k t o s = (e, s') -> forall r, getProc r s' = getProc r s.
Proof. intros [= _ <-] r. now apply getProc_ext. Qed.

Lemma newEvent_inv k t o s e s' :
  newEvent k t o s = (e, s') ->
  e = mkEvent (eventCount s) t (simulationTime s) k o /\ s' = set_eventCount (S (eventCount s)) s.
Proof. now intros [= <- <-]. Qed.

End Chasing.

(** The steps of a computation that returned, as equations between
    states. *)
Ltac steps_inv :=
  repeat match goal with
  | H : updProc _ _ _ = Ok _ |- _ => apply updProc_inv in H as (? & ? & ->)
  | H : updClass _ _ _ = Ok _ |- _ => apply updClass_inv in H as (? & ? & ->)
  | H : sim_insertEvent _ _ = Ok _ |- _ => apply sim_insertEvent_inv in H as (? & ? & ->)
  | H : sim_deleteEvent _ _ = Ok _ |- _ => apply sim_deleteEvent_inv in H as (? & ->)
  | H : newEvent _ _ _ _ = (_, _) |- _ => apply newEvent_inv in H as [-> ->]
  | H : getProcVal _ _ = Ok (_, _) |- _ => apply getProcVal_inv in H as [-> | ->]
  end.

(** The process [r] is followed back through the steps of a computation. *)
Ltac chase :=
  repeat match goal with
  | H : updProc _ _ ?s = Ok ?s' |- context [getProc ?r ?s'] =>
      rewrite (updProc_getProc _ _ _ _ H r)
  | H : updClass _ _ ?s = Ok ?s' |- context [getProc ?r ?s'] =>
      rewrite (updClass_getProc _ _ _ _ H r)
  | H : sim_insertEvent _ ?s = Ok ?s' |- context [getProc ?r ?s'] =>
      rewrite (sim_insertEvent_getProc _ _ _ H r)
  | H : sim_deleteEvent _ ?s = Ok ?s' |- context [getProc ?r ?s'] =>
      rewrite (sim_deleteEvent_getProc _ _ _ H r)
  | H : getProcVal _ ?s = Ok (_, ?s') |- context [getProc ?r ?s'] =>
      rewrite (getProcVal_getProc _ _ _ _ H r)
  | H : newEvent _ _ _ ?s = (_, ?s') |- context [getProc ?r ?s'] =>
      rewrite (newEvent_getProc _ _ _ _ _ _ H r)
  | |- context [getProc ?r (?f ?v ?s)] =>
      rewrite (getProc_ext r s (f v s) eq_refl eq_refl)
  | |- context [pref_eqb ?r ?r] => rewrite (pref_eqb_refl r)
  | H : getProc ?r ?s = Ok _ |- context [getProc ?r ?s] => rewrite H; cbn [rbind]
  end.

(** * The behaviour of the picked process *)

Section BehaviorSwitch.

Implicit Types (s : Sim) (r next : pref) (p : Process).

Lemma behaviorSwitchDue_spec nb p now :
  behaviorSwitchDue nb p now = true <->
  Behavior.final nb = false /\ switch_condition nb p now.
Proof.
  unfold behaviorSwitchDue, switch_condition.
  rewrite andb_true_iff, negb_true_iff, !orb_true_iff.
  split.
  - intros [Hf [[H | H] | H]]; (split; [exact Hf|]).
    + right; left. destruct (Behavior.procExec nb) as [t|]; [|discriminate].
      exists t. split; [reflexivity|]. now apply Z.geb_le in H.
    + left. destruct (Behavior.simExec nb) as [t|]; [|discriminate].
      exists t. split; [reflexivity|]. now apply Z.geb_le in H.
    + right; right. destruct (Behavior.execCnt nb) as [t|]; [|discriminate].
      exists t. split; [reflexivity|]. now apply Z.geb_le in H.
  - intros [Hf [(t & -> & H) | [(t & -> & H) | (t & -> & H)]]]; (split; [exact Hf|]).
    + left; right. now apply Z.geb_le.
    + left; left. now apply Z.geb_le.
    + right. now apply Z.geb_le.
Qed.

Lemma switch_due_dec p now :
  {switch_due p now} + {~ switch_due p now}.
Proof.
  unfold switch_due.
  destruct (behavior p !! nextBehIndex p) as [nb|] eqn:E.
  - destruct (behaviorSwitchDue nb p now) eqn:Hd.
    + left. exists nb. split; [reflexivity|]. now apply behaviorSwitchDue_spec.
    + right. intros (nb' & [= <-] & H). apply behaviorSwitchDue_spec in H. congruence.
  - right. now intros (nb' & [=] & _).
Qed.

Lemma overlayBehavior_overlaid nb cb : overlaid nb cb (overlayBehavior nb cb).
Proof.
  unfold overlaid, overlayBehavior.
  destruct (Behavior.run nb), (Behavior.block nb), (Behavior.priority nb);
    repeat split; reflexivity.
Qed.

(** The non-final switch: it always returns, and it changes the process
    exactly when the switch is due. *)
Lemma pickNext_switchBehavior_spec next s p :
  getProc next s = Ok p ->
  exists s1 p1,
    pickNext_switchBehavior next s = Ok s1 /\ getProc next s1 = Ok p1 /\
    simulationTime s1 = simulationTime s /\
    (switch_due p (simulationTime s) ->
     exists nb cb,
       behavior p !! nextBehIndex p = Some nb /\ currBehavior p = Ok cb /\
       p1 = set_nextBehIndex (S (nextBehIndex p)) (updCurrBehavior (overlayBehavior nb) p) /\
       behavior p1 = overlayBehavior nb cb :: tail (behavior p)) /\
    (~ switch_due p (simulationTime s) -> s1 = s /\ p1 = p).
Proof.
  intros Hp. unfold pickNext_switchBehavior. rewrite Hp. cbn [rbind].
  destruct (behavior p !! nextBehIndex p) as [nb|] eqn:Hnb.
  - destruct (behaviorSwitchDue nb p (simulationTime s)) eqn:Hd.
    + rewrite (updProc_ok _ _ _ _ Hp). eexists _, _. split; [reflexivity|].
      split; [apply getProc_setProc_same; now rewrite Hp|].
      split; [now destruct next|]. split.
      * intros _. destruct (behavior p) as [|cb l] eqn:Hb.
        { now rewrite lookup_nil in Hnb. }
        exists nb, cb. split; [reflexivity|]. unfold currBehavior. rewrite Hb.
        split; [reflexivity|]. split; [reflexivity|].
        unfold updCurrBehavior. rewrite Hb. reflexivity.
      * intros Hn. exfalso. apply Hn. exists nb. split; [exact Hnb|].
        now apply behaviorSwitchDue_spec.
    + exists s, p. repeat split; auto.
      intros (nb' & Hnb' & H). rewrite Hnb in Hnb'. injection Hnb' as <-.
      apply behaviorSwitchDue_spec in H. congruence.
  - exists s, p. repeat split; auto.
    intros (nb' & Hnb' & _). congruence.
Qed.

End BehaviorSwitch.

Section PickFrames.

Implicit Types (s : Sim) (r next : pref) (p : Process).

Lemma same_progress_refl p : same_progress p p.
Proof. repeat split. Qed.

Lemma same_progress_trans p1 p2 p3 :
  same_progress p1 p2 -> same_progress p2 p3 -> same_progress p1 p3.
Proof. unfold same_progress, same_behavior. intuition congruence. Qed.

Lemma pickNext_account_proc o s next s1 :
  pickNext_account o s = Ok (next, s1) ->
  next = default Idle o /\ simulationTime s1 = simulationTime s /\
  forall p, getProc next s = Ok p ->
            exists p1, getProc next s1 = Ok p1 /\ same_progress p p1.
Proof.
  unfold pickNext_account. intros H. destruct o as [r|]; cbn [default]; inv_res.
  - split; [reflexivity|]. split; [steps_inv; reflexivity|].
    intros p0 Hp0. eexists. split; [chase; reflexivity|]. repeat split.
  - split; [reflexivity|]. split; [reflexivity|].
    intros p0 Hp0. exists p0. split; [chase; reflexivity | apply same_progress_refl].
  - split; [reflexivity|]. split; [reflexivity|].
    intros p0 Hp0. exists p0. split; [assumption | apply same_progress_refl].
Qed.

Lemma pickNext_log_proc next s s1 :
  pickNext_log next s = Ok s1 ->
  simulationTime s1 = simulationTime s /\
  forall p, getProc next s = Ok p ->
            exists p1, getProc next s1 = Ok p1 /\ same_progress p p1.
Proof.
  unfold pickNext_log. intros H. inv_res.
  split; [steps_inv; reflexivity|].
  intros p0 Hp0. eexists. split; [chase; reflexivity|]. repeat split.
Qed.

Lemma pickNext_runTime_proc next s runTime s1 :
  pickNext_runTime next s = Ok (runTime, s1) ->
  simulationTime s1 = simulationTime s /\
  forall p, getProc next s = Ok p ->
            exists p1, getProc next s1 = Ok p1 /\ same_progress p p1.
Proof.
  unfold pickNext_runTime. intros H. inv_res.
  - split; [reflexivity|]. intros p0 Hp0. inv_res. eauto using same_progress_refl.
  - split; [steps_inv; reflexivity|].
    intros p0 Hp0. inv_res. eexists. split; [chase; reflexivity|]. repeat split.
Qed.

Lemma pickNext_strictEnd_proc next t runTime s b s1 :
  pickNext_strictEnd next t runTime s = Ok (b, s1) ->
  simulationTime s1 = simulationTime s /\
  forall p, getProc next s = Ok p ->
            exists p1, getProc next s1 = Ok p1 /\ same_progress p p1.
Proof.
  unfold pickNext_strictEnd. intros H. inv_res;
    (split; [steps_inv; reflexivity|]);
    intros p0 Hp0; inv_res; (eexists; split; [chase; reflexivity|]; repeat split).
Qed.

Lemma pickNext_finalBehavior_proc next s b s1 :
  pickNext_finalBehavior next s = Ok (b, s1) ->
  simulationTime s1 = simulationTime s /\
  forall p, getProc next s = Ok p ->
            exists p1, getProc next s1 = Ok p1 /\ same_progress p p1.
Proof.
  unfold pickNext_finalBehavior. intros H.
  destruct (getProc next s) as [p|] eqn:Hp; cbn [rbind] in H; [|discriminate].
  destruct (behavior p !! nextBehIndex p) as [nb|];
    [destruct (Behavior.final nb)|]; inv_res;
    try (split; [reflexivity|]; intros p0 [= <-]; eauto using same_progress_refl).
  all: match goal with
       | H : pickNext_runTime _ _ = Ok _ |- _ =>
           apply pickNext_runTime_proc in H as [Ht Hrt]
       end.
  all: try match goal with
       | H : pickNext_strictEnd _ _ _ _ = Ok _ |- _ =>
           apply pickNext_strictEnd_proc in H as [Ht' Hse]
       end.
  all: split; [steps_inv; cbn; congruence|].
  all: intros p0 [= <-]; destruct (Hrt _ Hp) as (p1 & Hp1 & Hsp1).
  all: try (destruct (Hse _ Hp1) as (p2 & Hp2 & Hsp2); exists p2;
            split; [exact Hp2 | eapply same_progress_trans; eassumption]).
  all: try (exists p1; split; [exact Hp1 | exact Hsp1]).
  all: eexists; split;
       [chase; reflexivity
       |eapply same_progress_trans; [exact Hsp1|repeat split]].
Qed.

End PickFrames.

Section PickBehavior.

Implicit Types (s : Sim) (r next : pref) (p : Process).

Lemma pickNext_finish_proc next b s s1 :
  pickNext_finish next b s = Ok s1 ->
  forall p, getProc next s = Ok p ->
            exists p1, getProc next s1 = Ok p1 /\ same_behavior p p1.
Proof.
  unfold pickNext_finish. intros H. inv_res.
  - intros p0 Hp0. eexists. split; [chase; reflexivity|]. repeat split.
  - match goal with
    | H : pickNext_runTime _ ?s0 = Ok _ |- _ =>
        apply pickNext_runTime_proc in H as [_ Hrt];
        intros p0 Hp0;
        assert (Hp1 : getProc next s0 = Ok (set_execCnt (execCnt p0 + 1) p0))
          by (chase; reflexivity)
    end.
    destruct (Hrt _ Hp1) as (p1 & Hp1' & Hsp).
    eexists. split; [chase; reflexivity|].
    destruct Hsp as [[Hi Hb] _]. cbn in Hi, Hb. split; cbn; congruence.
Qed.

(** The whole pick, seen from the picked process: the behaviour list is
    consumed by the non-final switch only. *)
Lemma pickNext_run_behavior o s s' next p :
  next = default Idle o ->
  getProc next s = Ok p ->
  pickNext_run o s = Ok s' ->
  exists p',
    getProc next s' = Ok p' /\
    (switch_due p (simulationTime s) ->
     exists nb cb,
       behavior p !! nextBehIndex p = Some nb /\ currBehavior p = Ok cb /\
       nextBehIndex p' = S (nextBehIndex p) /\
       behavior p' = overlayBehavior nb cb :: tail (behavior p)) /\
    (~ switch_due p (simulationTime s) ->
     nextBehIndex p' = nextBehIndex p /\ behavior p' = behavior p).
Proof.
  intros -> Hp. unfold pickNext_run. intros H.
  destruct (pickNext_account o s) as [[next s1]|] eqn:Eacc; cbn [rbind] in H; [|discriminate].
  destruct (pickNext_log next s1) as [s3|] eqn:Elog; cbn [rbind] in H; [|discriminate].
  destruct (pickNext_behavior next s3) as [[endEventSet s5]|] eqn:E2;
    cbn [rbind] in H; [|discriminate].
  apply pickNext_account_proc in Eacc as (-> & Ht1 & Hacc).
  destruct (Hacc _ Hp) as (p1 & Hp1 & Hsp1).
  apply pickNext_log_proc in Elog as (Ht2 & Hlog).
  destruct (Hlog _ Hp1) as (p2 & Hp2 & Hsp2).
  pose proof (same_progress_trans _ _ _ Hsp1 Hsp2) as Hsp.
  destruct Hsp as ([Hidx Hbeh] & Hexec & Hcnt).
  assert (Hdue : switch_due p2 (simulationTime s3) <-> switch_due p (simulationTime s)).
  { unfold switch_due, switch_condition. rewrite Hidx, Hbeh, Hexec, Hcnt, Ht2, Ht1.
    reflexivity. }
  assert (Hfin : exists p', getProc (default Idle o) s' = Ok p' /\
            (switch_due p2 (simulationTime s3) ->
               exists nb cb, behavior p2 !! nextBehIndex p2 = Some nb /\ currBehavior p2 = Ok cb /\
                 nextBehIndex p' = S (nextBehIndex p2) /\
                 behavior p' = overlayBehavior nb cb :: tail (behavior p2)) /\
            (~ switch_due p2 (simulationTime s3) ->
               nextBehIndex p' = nextBehIndex p2 /\ behavior p' = behavior p2)).
  { unfold pickNext_behavior in E2. rewrite Hp2 in E2. cbn [rbind] in E2.
    destruct (nextBehIndex p2 <? length (behavior p2))%nat eqn:Hlen.
    - destruct (pickNext_switchBehavior_spec _ _ _ Hp2)
        as (s4 & p4 & Hsw & Hp4 & _ & Hyes & Hno).
      rewrite Hsw in E2. cbn [rbind] in E2.
      apply pickNext_finalBehavior_proc in E2 as (_ & Hfb).
      destruct (Hfb _ Hp4) as (p5 & Hp5 & [[Hi5 Hb5] _]).
      destruct (pickNext_finish_proc _ _ _ _ H _ Hp5) as (p6 & Hp6 & [Hi6 Hb6]).
      exists p6. split; [exact Hp6|]. split.
      + intros Hd. destruct (Hyes Hd) as (nb & cb & Hnb & Hcb & -> & Hb4).
        exists nb, cb. repeat split; try assumption.
        * rewrite Hi6, Hi5. reflexivity.
        * rewrite Hb6, Hb5. exact Hb4.
      + intros Hd. destruct (Hno Hd) as [_ ->]. split; congruence.
    - inv_res.
      destruct (pickNext_finish_proc _ _ _ _ H _ Hp2) as (p6 & Hp6 & [Hi6 Hb6]).
      exists p6. split; [exact Hp6|]. split; [|auto].
      intros (nb & Hnb & _). apply lookup_lt_Some in Hnb.
      apply Nat.ltb_ge in Hlen. lia. }
  destruct Hfin as (p' & Hp' & Hyes & Hno). exists p'. split; [exact Hp'|].
  unfold currBehavior in *. rewrite Hidx, Hbeh in *. rewrite Hdue in *. auto.
Qed.

End PickBehavior.

(** C5.  At each pick of a task the behaviour list is consumed at most
    once: the non-final switch always returns; if and only if the entry
    at [nextBehIndex] is a non-final entry whose switch condition holds
    (simExec <= now, procExec <= execTime, or execCnt <= the execution
    count), its run, block and priority fields are overlaid onto
    [currBehavior] and [nextBehIndex] is advanced by exactly one, whatever
    the conditions of the entries behind it; otherwise the behaviour is
    left as it is.  The final entry is examined in the same pick, in the
    state that the switch leaves, and does not advance [nextBehIndex]. *)
Theorem behavior_switch_at_most_once next s p :
  getProc next s = Ok p ->
  (exists s1,
     pickNext_switchBehavior next s = Ok s1 /\
     ((nextBehIndex p < length (behavior p))%nat ->
      pickNext_behavior next s = pickNext_finalBehavior next s1)) /\
  (forall o s',
     next = default Idle o -> pickNext_run o s = Ok s' ->
     exists p',
       getProc next s' = Ok p' /\
       (switch_due p (simulationTime s) ->
        exists nb cb cb',
          behavior p !! nextBehIndex p = Some nb /\
          currBehavior p = Ok cb /\ currBehavior p' = Ok cb' /\ overlaid nb cb cb' /\
          nextBehIndex p' = S (nextBehIndex p) /\
          tail (behavior p') = tail (behavior p)) /\
       (~ switch_due p (simulationTime s) ->
        nextBehIndex p' = nextBehIndex p /\ behavior p' = behavior p)).
Proof.
  intros Hp. split.
  - destruct (pickNext_switchBehavior_spec _ _ _ Hp) as (s1 & p1 & Hsw & _).
    exists s1. split; [exact Hsw|]. intros Hlt.
    unfold pickNext_behavior. rewrite Hp. cbn [rbind].
    apply Nat.ltb_lt in Hlt. rewrite Hlt, Hsw. reflexivity.
  - intros o s' Hnext Hrun.
    destruct (pickNext_run_behavior _ _ _ _ _ Hnext Hp Hrun) as (p' & Hp' & Hyes & Hno).
    exists p'. split; [exact Hp'|]. split; [|exact Hno].
    intros Hd. destruct (Hyes Hd) as (nb & cb & Hnb & Hcb & Hidx & Hbeh).
    exists nb, cb, (overlayBehavior nb cb).
    split; [exact Hnb|]. split; [exact Hcb|].
    split; [unfold currBehavior; now rewrite Hbeh|].
    split; [apply overlayBehavior_overlaid|]. split; [exact Hidx|].
    now rewrite Hbeh.
Qed.

Lemma behavior_switch_at_most_once_witness :
  let s := the exampleSim (stepped strictEndConf 2) in
  let p := the (idle s) (getProc (Pid 0) s) in
  getProc (Pid 0) s = Ok p /\
  ((exists s1,
      pickNext_switchBehavior (Pid 0) s = Ok s1 /\
      ((nextBehIndex p < length (behavior p))%nat ->
       pickNext_behavior (Pid 0) s = pickNext_finalBehavior (Pid 0) s1)) /\
   (forall o s',
      Pid 0 = default Idle o -> pickNext_run o s = Ok s' ->
      exists p',
        getProc (Pid 0) s' = Ok p' /\
        (switch_due p (simulationTime s) ->
         exists nb cb cb',
           behavior p !! nextBehIndex p = Some nb /\
           currBehavior p = Ok cb /\ currBehavior p' = Ok cb' /\ overlaid nb cb cb' /\
           nextBehIndex p' = S (nextBehIndex p) /\
           tail (behavior p') = tail (behavior p)) /\
        (~ switch_due p (simulationTime s) ->
         nextBehIndex p' = nextBehIndex p /\ behavior p' = behavior p))).
Proof.
  intros s p.
  assert (H : getProc (Pid 0) s = Ok p) by (vm_compute; reflexivity).
  clearbody s p.
  split; [exact H|]. exact (behavior_switch_at_most_once (Pid 0) s p H).
Defined.

(** * The counter of context switches *)

Section ContextSwitches.

Variable D : Dispatch.

(** [contextSwitches] is a private variable of the simulator: the methods
    of the scheduling classes cannot assign it. *)
Hypothesis dequeue_private :
  forall name r s s', cls_dequeue D name r s = Ok s' -> contextSwitches s' = contextSwitches s.
Hypothesis pickNext_private :
  forall name prev s o s',
    cls_pickNext D (putPrev D) name prev s = Ok (o, s') ->
    contextSwitches s' = contextSwitches s.







End ContextSwitches.

Section PickCounts.

Implicit Types (s : Sim) (next : pref).











End PickCounts.


(** * The scheduling classes and the variables they do not own *)

(** A chain of inequalities between rationals. *)
Ltac qchain :=
  repeat first [ apply Qle_refl | assumption | eapply Qle_trans; [eassumption|] ].

(** The lemma [L] is used on every step of a computation that it fits. *)
Ltac framed L :=
  repeat match goal with
  | H : _ = Ok _ |- _ => apply L in H
  end.

(** The end of a proof that a computation is a [class_step]. *)
Ltac step_done :=
  steps_inv; unfold class_step, minVruntime_le, putPrevDue, LinuxFairClass.upd in *;
  cbn in *;
  repeat match goal with H : _ /\ _ |- _ => destruct H end;
  repeat split; try lia; try congruence; qchain.

Section ClassSteps.

Implicit Types (s : Sim) (proc prev : pref).

Lemma class_step_refl s : class_step 0 s s.
Proof. unfold class_step, minVruntime_le. repeat split; [lia | apply Qle_refl]. Qed.

Lemma class_step_trans k1 k2 s1 s2 s3 :
  class_step k1 s1 s2 -> class_step k2 s2 s3 -> class_step (k1 + k2) s1 s3.
Proof.
  unfold class_step, minVruntime_le. intros (? & ? & ?) (? & ? & ?).
  repeat split; [congruence | lia | qchain].
Qed.

Lemma SchedClass_enqueue_step proc s s' :
  SchedClass_enqueue proc s = Ok s' -> class_step 0 s s'.
Proof. unfold SchedClass_enqueue. intros H. inv_res. step_done. Qed.

Lemma SchedClass_dequeue_step proc s s' :
  SchedClass_dequeue proc s = Ok s' -> class_step 0 s s'.
Proof. unfold SchedClass_dequeue. intros H. inv_res. step_done. Qed.

Lemma SchedClass_updateLatency_step name s s' :
  SchedClass_updateLatency name s = Ok s' -> class_step 0 s s'.
Proof. unfold SchedClass_updateLatency. intros H. step_done. Qed.

Lemma SchedClass_pickNext_step name s s' :
  SchedClass_pickNext name s = Ok s' -> class_step 0 s s' /\ calledPutPrev s = false.
Proof.
  unfold SchedClass_pickNext. intros H. destruct (calledPutPrev s); [discriminate|].
  split; [|reflexivity]. now apply SchedClass_updateLatency_step in H.
Qed.

Lemma SchedClass_putPrev_step s : class_step 1 s (SchedClass_putPrev s).
Proof. step_done. Qed.

(** ** The first-come-first-served class *)

Lemma FCFS_enqueue_step proc s s' : FCFSClass.enqueue proc s = Ok s' -> class_step 0 s s'.
Proof.
  unfold FCFSClass.enqueue. intros H. inv_res. framed SchedClass_enqueue_step. step_done.
Qed.

Lemma FCFS_dequeue_step proc s s' : FCFSClass.dequeue proc s = Ok s' -> class_step 0 s s'.
Proof.
  unfold FCFSClass.dequeue. intros H. inv_res. framed SchedClass_dequeue_step. step_done.
Qed.

Lemma FCFS_putPrev_step prev s s' : FCFSClass.putPrev prev s = Ok s' -> class_step 1 s s'.
Proof. intros [= <-]. apply SchedClass_putPrev_step. Qed.

(** ** The fair class *)

Lemma updateMinVruntime_step proc s s' :
  LinuxFairClass.updateMinVruntime proc s = Ok s' -> class_step 0 s s'.
Proof.
  unfold LinuxFairClass.updateMinVruntime. intros H.
  destruct (getProc proc s) as [p|]; cbn [rbind] in H; [|discriminate].
  match type of H with rbind ?m _ = _ => destruct m as [v|]; cbn [rbind] in H; [|discriminate] end.
  injection H as <-. unfold class_step, minVruntime_le, LinuxFairClass.upd. cbn.
  repeat split; [lia|].
  unfold Qgtb, Qltb. destruct (v ?= LinuxFair.minVruntime (fair s))%Q eqn:E.
  - apply Qeq_alt in E. rewrite E. apply Qle_refl.
  - apply Qle_refl.
  - apply Qgt_alt in E. now apply Qlt_le_weak.
Qed.

Lemma updateCurr_step proc s s' :
  LinuxFairClass.updateCurr proc s = Ok s' -> class_step 0 s s'.
Proof.
  unfold LinuxFairClass.updateCurr. intros H. inv_res; try apply class_step_refl.
  framed updateMinVruntime_step. step_done.
Qed.

Lemma placeEntity_step proc initial s s' :
  LinuxFairClass.placeEntity proc initial s = Ok s' -> class_step 0 s s'.
Proof.
  unfold LinuxFairClass.placeEntity. intros H. inv_res; try apply class_step_refl.
  all: step_done.
Qed.

Lemma enqueueEntity_step proc s s' :
  LinuxFairClass.enqueueEntity proc s = Ok s' -> class_step 0 s s'.
Proof. unfold LinuxFairClass.enqueueEntity. intros H. inv_res; step_done. Qed.

Lemma dequeueEntity_step proc s s' :
  LinuxFairClass.dequeueEntity proc s = Ok s' -> class_step 0 s s'.
Proof. unfold LinuxFairClass.dequeueEntity. intros H. inv_res; step_done. Qed.

Lemma Fair_enqueue_step proc s s' :
  LinuxFairClass.enqueue proc s = Ok s' -> class_step 0 s s'.
Proof.
  unfold LinuxFairClass.enqueue. intros H. inv_res.
  all: framed SchedClass_enqueue_step; framed updateCurr_step; framed placeEntity_step;
    framed enqueueEntity_step.
  all: try match goal with
           | H : context [if clsref_eqb ?a ?b then _ else _] |- _ => destruct (clsref_eqb a b)
           end.
  all: step_done.
Qed.

Lemma Fair_dequeue_step proc s s' :
  LinuxFairClass.dequeue proc s = Ok s' -> class_step 0 s s'.
Proof.
  unfold LinuxFairClass.dequeue. intros H. inv_res.
  all: framed SchedClass_dequeue_step; framed updateCurr_step; framed dequeueEntity_step.
  all: step_done.
Qed.

Lemma Fair_putPrev_step prev s s' :
  LinuxFairClass.putPrev prev s = Ok s' -> class_step 1 s s'.
Proof.
  unfold LinuxFairClass.putPrev. intros H. inv_res.
  all: framed updateCurr_step; framed enqueueEntity_step.
  all: step_done.
Qed.

(** [putPrev] of the fair class leaves the list of the first-come-first-served
    class as it is. *)
Lemma updateCurr_fcfs proc s s' :
  LinuxFairClass.updateCurr proc s = Ok s' -> fcfs s' = fcfs s.
Proof.
  unfold LinuxFairClass.updateCurr, LinuxFairClass.updateMinVruntime. intros H.
  inv_res; try reflexivity.
  all: steps_inv; reflexivity.
Qed.

Lemma Fair_putPrev_fcfs prev s s' :
  LinuxFairClass.putPrev prev s = Ok s' -> fcfs s' = fcfs s.
Proof.
  unfold LinuxFairClass.putPrev, LinuxFairClass.enqueueEntity. intros H. inv_res.
  all: framed updateCurr_fcfs.
  all: steps_inv; cbn in *; congruence.
Qed.

(** ** [pickNext] of the two classes, for a [Simulator.putPrev] that is one
    call of [putPrev] *)

Section PickNext.

Variable simPutPrev : pref -> Sim -> res Sim.
Hypothesis simPutPrev_step : forall r s s', simPutPrev r s = Ok s' -> class_step 1 s s'.
Hypothesis simPutPrev_fcfs : forall r s s', simPutPrev r s = Ok s' -> fcfs s' = fcfs s.

Lemma FCFS_pickNext_step prev s o s' :
  FCFSClass.pickNext simPutPrev prev s = Ok (o, s') -> class_step (putPrevDue o) s s'.
Proof.
  unfold FCFSClass.pickNext. intros H.
  destruct (SchedClass_pickNext FCFSClass.name s) as [s1|] eqn:E1; cbn [rbind] in H;
    [|discriminate].
  apply SchedClass_pickNext_step in E1 as [E1 _].
  destruct (0 <? length (fcfs s1))%nat eqn:El.
  - destruct (simPutPrev prev s1) as [s2|] eqn:E2; cbn [rbind] in H; [|discriminate].
    injection H as <- <-. rewrite (simPutPrev_fcfs _ _ _ E2).
    apply simPutPrev_step in E2.
    destruct (fcfs s1); [discriminate|]. step_done.
  - injection H as <- <-. step_done.
Qed.

Lemma Fair_pickNext_step prev s o s' :
  LinuxFairClass.pickNext simPutPrev prev s = Ok (o, s') -> class_step (putPrevDue o) s s'.
Proof.
  unfold LinuxFairClass.pickNext. intros H. inv_res.
  all: match goal with
       | H : SchedClass_pickNext _ _ = Ok _ |- _ => apply SchedClass_pickNext_step in H as [H _]
       end.
  all: framed simPutPrev_step; framed dequeueEntity_step.
  all: step_done.
Qed.

End PickNext.

(** ** The dispatch over the two classes *)

Lemma putPrev_builtin_step prev s s' : putPrev builtin prev s = Ok s' -> class_step 1 s s'.
Proof.
  unfold putPrev. intros H. inv_res.
  - step_done.
  - cbn in H. inv_res.
    + now apply FCFS_putPrev_step in H.
    + now apply Fair_putPrev_step in H.
Qed.

Lemma putPrev_builtin_fcfs prev s s' : putPrev builtin prev s = Ok s' -> fcfs s' = fcfs s.
Proof.
  unfold putPrev. intros H. inv_res.
  - reflexivity.
  - cbn in H. inv_res.
    + unfold FCFSClass.putPrev in H. now inv_res.
    + now apply Fair_putPrev_fcfs in H.
Qed.

Lemma cls_enqueue_builtin_step name proc s s' :
  cls_enqueue builtin name proc s = Ok s' -> class_step 0 s s'.
Proof.
  cbn. intros H. inv_res; [now apply FCFS_enqueue_step in H | now apply Fair_enqueue_step in H].
Qed.

Lemma cls_dequeue_builtin_step name proc s s' :
  cls_dequeue builtin name proc s = Ok s' -> class_step 0 s s'.
Proof.
  cbn. intros H. inv_res; [now apply FCFS_dequeue_step in H | now apply Fair_dequeue_step in H].
Qed.

Lemma cls_pickNext_builtin_step name prev s o s' :
  cls_pickNext builtin (putPrev builtin) name prev s = Ok (o, s') ->
  class_step (putPrevDue o) s s'.
Proof.
  cbn. intros H. inv_res.
  - eapply FCFS_pickNext_step;
      [apply putPrev_builtin_step | apply putPrev_builtin_fcfs | eassumption].
  - eapply Fair_pickNext_step; [apply putPrev_builtin_step | eassumption].
Qed.

End ClassSteps.

(** * The kernel and the variables of the scheduling classes *)

Section KernelSteps.

Variable D : Dispatch.

Hypothesis dequeue_step :
  forall name r s s', cls_dequeue D name r s = Ok s' -> class_step 0 s s'.
Hypothesis pickNext_step :
  forall name prev s o s',
    cls_pickNext D (putPrev D) name prev s = Ok (o, s') -> class_step (putPrevDue o) s s'.

Lemma class_dequeue_step c r s s' : class_dequeue D c r s = Ok s' -> class_step 0 s s'.
Proof. destruct c; cbn; [intros [= <-]; apply class_step_refl | apply dequeue_step]. Qed.

Lemma handleBlock_step evt s s' : handleBlock D evt s = Ok s' -> class_step 0 s s'.
Proof.
  unfold handleBlock. intros H. inv_res.
  all: framed class_dequeue_step.
  all: step_done.
Qed.

Lemma handleExit_step evt s s' : handleExit D evt s = Ok s' -> class_step 0 s s'.
Proof.
  unfold handleExit. intros H. inv_res.
  all: framed class_dequeue_step.
  all: step_done.
Qed.

Lemma handlePreempt_step r s s' : handlePreempt D r s = Ok s' -> class_step 0 s s'.
Proof.
  unfold handlePreempt. intros H. inv_res.
  all: framed handleBlock_step; framed handleExit_step.
  all: step_done.
Qed.

Lemma pickNext_classes_picked prev names r s next s' :
  pickNext_classes D prev names (Some r) s = Ok (next, s') -> next = Some r.
Proof.
  revert s. induction names as [|name rest IH]; intros s; cbn.
  - now intros [= <- _].
  - intros H. inv_res. eapply IH; eassumption.
Qed.

Lemma pickNext_classes_step prev names o s next s' :
  pickNext_classes D prev names o s = Ok (next, s') ->
  class_step (if o is Some _ then 0 else putPrevDue next) s s'.
Proof.
  revert o s. induction names as [|name rest IH]; intros o s; cbn.
  - intros [= -> <-]. destruct next; apply class_step_refl.
  - destruct o as [r|].
    + intros H. inv_res. framed SchedClass_updateLatency_step. apply IH in H.
      apply (class_step_trans 0 0 _ _ _ E H).
    + intros H. inv_res.
      * pose proof (pickNext_classes_picked _ _ _ _ _ _ H) as ->.
        framed pickNext_step. apply IH in H. apply (class_step_trans 1 0 _ _ _ E H).
      * framed pickNext_step. apply IH in H. apply (class_step_trans 0 _ _ _ _ E H).
Qed.

End KernelSteps.

(** What [Simulator.pickNext] does once the classes have answered leaves
    the variables of the classes alone. *)
Section PickQuiet.

Implicit Types (s : Sim) (next : pref).

Ltac quiet_done := steps_inv; cbn in *; repeat split; congruence.

Lemma pickNext_account_quiet o s next s1 :
  pickNext_account o s = Ok (next, s1) ->
  putPrevCalls s1 = putPrevCalls s /\ fair s1 = fair s /\ calledPutPrev s1 = calledPutPrev s.
Proof. unfold pickNext_account. intros H. inv_res; quiet_done. Qed.

Lemma pickNext_log_quiet next s s1 :
  pickNext_log next s = Ok s1 ->
  putPrevCalls s1 = putPrevCalls s /\ fair s1 = fair s /\ calledPutPrev s1 = calledPutPrev s.
Proof. unfold pickNext_log. intros H. inv_res; quiet_done. Qed.

Lemma pickNext_switchBehavior_quiet next s s1 :
  pickNext_switchBehavior next s = Ok s1 ->
  putPrevCalls s1 = putPrevCalls s /\ fair s1 = fair s /\ calledPutPrev s1 = calledPutPrev s.
Proof. unfold pickNext_switchBehavior. intros H. inv_res; quiet_done. Qed.

Lemma pickNext_runTime_quiet next s t s1 :
  pickNext_runTime next s = Ok (t, s1) ->
  putPrevCalls s1 = putPrevCalls s /\ fair s1 = fair s /\ calledPutPrev s1 = calledPutPrev s.
Proof. unfold pickNext_runTime. intros H. inv_res; quiet_done. Qed.

Lemma pickNext_strictEnd_quiet next t runTime s b s1 :
  pickNext_strictEnd next t runTime s = Ok (b, s1) ->
  putPrevCalls s1 = putPrevCalls s /\ fair s1 = fair s /\ calledPutPrev s1 = calledPutPrev s.
Proof. unfold pickNext_strictEnd. intros H. inv_res; quiet_done. Qed.

Lemma pickNext_finalBehavior_quiet next s b s1 :
  pickNext_finalBehavior next s = Ok (b, s1) ->
  putPrevCalls s1 = putPrevCalls s /\ fair s1 = fair s /\ calledPutPrev s1 = calledPutPrev s.
Proof.
  unfold pickNext_finalBehavior. intros H. inv_res.
  all: framed pickNext_runTime_quiet; framed pickNext_strictEnd_quiet.
  all: repeat match goal with H : _ /\ _ |- _ => destruct H end.
  all: quiet_done.
Qed.

Lemma pickNext_behavior_quiet next s b s1 :
  pickNext_behavior next s = Ok (b, s1) ->
  putPrevCalls s1 = putPrevCalls s /\ fair s1 = fair s /\ calledPutPrev s1 = calledPutPrev s.
Proof.
  unfold pickNext_behavior. intros H. inv_res.
  all: framed pickNext_switchBehavior_quiet; framed pickNext_finalBehavior_quiet.
  all: repeat match goal with H : _ /\ _ |- _ => destruct H end.
  all: quiet_done.
Qed.

Lemma pickNext_finish_quiet next b s s1 :
  pickNext_finish next b s = Ok s1 ->
  putPrevCalls s1 = putPrevCalls s /\ fair s1 = fair s /\ calledPutPrev s1 = calledPutPrev s.
Proof.
  unfold pickNext_finish. intros H. inv_res.
  all: framed pickNext_runTime_quiet.
  all: repeat match goal with H : _ /\ _ |- _ => destruct H end.
  all: quiet_done.
Qed.

Lemma pickNext_run_quiet o s s' :
  pickNext_run o s = Ok s' ->
  putPrevCalls s' = putPrevCalls s /\ fair s' = fair s /\ calledPutPrev s' = calledPutPrev s.
Proof.
  unfold pickNext_run. intros H. inv_res.
  framed pickNext_account_quiet. framed pickNext_log_quiet. framed pickNext_behavior_quiet.
  framed pickNext_finish_quiet.
  repeat match goal with H : _ /\ _ |- _ => destruct H end.
  repeat split; congruence.
Qed.

End PickQuiet.

(** [Simulator.pickNext] as a whole, for classes that are [class_step]s. *)
Lemma pickNext_step_count (D : Dispatch) (s s' : Sim) :
  (forall name r s s', cls_dequeue D name r s = Ok s' -> class_step 0 s s') ->
  (forall name prev s o s',
     cls_pickNext D (putPrev D) name prev s = Ok (o, s') -> class_step (putPrevDue o) s s') ->
  pickNext D s = Ok s' ->
  exists s1 next s2,
    pickNext_classes D (curr s) (schedClassPrio s1) None s1 = Ok (next, s2) /\
    pickNext_run next s2 = Ok s' /\
    putPrevCalls s' = (putPrevCalls s + putPrevDue next)%nat /\
    minVruntime_le s s'.
Proof.
  intros Hdq Hpk. unfold pickNext. intros H.
  destruct (getProc (curr s) s) as [p|] eqn:Hp; cbn [rbind] in H; [|discriminate].
  destruct (if runnable p then handlePreempt D (curr s) s else Ok s) as [s0|] eqn:Hpre;
    cbn [rbind] in H; [|discriminate].
  assert (H0 : class_step 0 s s0).
  { destruct (runnable p); [|injection Hpre as <-; apply class_step_refl].
    eapply handlePreempt_step; eassumption. }
  destruct (pickNext_classes D (curr s) (schedClassPrio (set_calledPutPrev false s0)) None
              (set_calledPutPrev false s0)) as [[next s2]|] eqn:Hloop;
    cbn [rbind] in H; [|discriminate].
  exists (set_calledPutPrev false s0), next, s2.
  split; [exact Hloop|]. split; [exact H|].
  apply (pickNext_classes_step D Hpk) in Hloop.
  apply pickNext_run_quiet in H as (Hc & Hf & _).
  unfold class_step, minVruntime_le in *. cbn in *.
  destruct H0 as (_ & ? & ?), Hloop as (_ & ? & ?).
  rewrite Hf. split; [lia | qchain].
Qed.

Lemma pickNext_builtin_minVruntime (s s' : Sim) :
  pickNext builtin s = Ok s' -> minVruntime_le s s'.
Proof.
  intros H.
  destruct (pickNext_step_count builtin s s' cls_dequeue_builtin_step
              cls_pickNext_builtin_step H) as (? & ? & ? & _ & _ & _ & Hle).
  exact Hle.
Qed.

(** The methods of the fair class that may ask for a new pick. *)
Lemma Fair_checkPreempt_minVruntime proc s s' :
  LinuxFairClass.checkPreempt (pickNext builtin) proc s = Ok s' -> minVruntime_le s s'.
Proof.
  unfold LinuxFairClass.checkPreempt. intros H. inv_res.
  all: framed updateCurr_step; framed pickNext_builtin_minVruntime.
  all: step_done.
Qed.

Lemma Fair_taskTick_minVruntime s s' :
  LinuxFairClass.taskTick (pickNext builtin) s = Ok s' -> minVruntime_le s s'.
Proof.
  unfold LinuxFairClass.taskTick. intros H. inv_res.
  all: framed updateCurr_step; framed pickNext_builtin_minVruntime.
  all: step_done.
Qed.

(** * [min_vruntime] of the fair class *)

(** The conditional [a > b ? a : b] is the greater of the two. *)
Lemma Qgtb_max (a b : Q) :
  let m := if Qgtb a b then a else b in
  (a <= m)%Q /\ (b <= m)%Q /\ (m = a \/ m = b).
Proof.
  unfold Qgtb, Qltb. destruct (b ?= a)%Q eqn:E; cbn.
  - apply Qeq_alt in E. repeat split; [rewrite E; apply Qle_refl | apply Qle_refl | now right].
  - apply Qlt_alt in E. repeat split; [apply Qle_refl | now apply Qlt_le_weak | now left].
  - apply Qgt_alt in E. repeat split; [now apply Qlt_le_weak | apply Qle_refl | now right].
Qed.

(** C7.  [updateMinVruntime] sets [min_vruntime] to the greater of its
    previous value and a candidate, which is the [vruntime] of the given
    process when it is runnable, lowered to the [vruntime] at the left of
    the tree when the tree is in use (that [vruntime] alone when the process
    is not runnable, the previous value when there is neither).  Each of
    the six operations of the fair class ([enqueue], [dequeue], [pickNext],
    [putPrev], [checkPreempt] and [taskTick], with the functions of the
    simulator that they call back) leaves [min_vruntime] at least as great
    as it was. *)
Theorem fair_minVruntime_monotone :
  (forall proc p s s',
     getProc proc s = Ok p ->
     LinuxFairClass.updateMinVruntime proc s = Ok s' ->
     exists leftmost,
       (if LinuxFair.enqueued (fair s) >? 0
        then exists l lp,
               LinuxFairClass.leftmostProc s = Ok l /\ getProc l s = Ok lp /\
               leftmost = Some lp
        else leftmost = None) /\
       let old := LinuxFair.minVruntime (fair s) in
       let new := LinuxFair.minVruntime (fair s') in
       let cand := minVruntime_candidate p leftmost old in
       (old <= new)%Q /\ (cand <= new)%Q /\ (new = old \/ new = cand)) /\
  (forall s s', fair_operation s s' -> minVruntime_le s s').
Proof.
  split.
  - intros proc p s s' Hp H. unfold LinuxFairClass.updateMinVruntime in H.
    rewrite Hp in H. cbn [rbind] in H.
    destruct (LinuxFair.enqueued (fair s) >? 0).
    + destruct (LinuxFairClass.leftmostProc s) as [l|] eqn:Hl; cbn [rbind] in H;
        [|discriminate].
      destruct (getProc l s) as [lp|] eqn:Hlp; cbn [rbind] in H; [|discriminate].
      exists (Some lp). split; [now exists l, lp|].
      unfold minVruntime_candidate.
      destruct (runnable p); cbn [rbind] in H; injection H as <-; cbn; apply Qgtb_max.
    + exists None. split; [reflexivity|].
      unfold minVruntime_candidate.
      destruct (runnable p); cbn [rbind] in H; injection H as <-; cbn; apply Qgtb_max.
  - intros s s' [proc H|proc H|prev next H|prev H|proc H|H].
    + now apply Fair_enqueue_step in H as (_ & _ & H).
    + now apply Fair_dequeue_step in H as (_ & _ & H).
    + eapply Fair_pickNext_step in H as (_ & _ & H);
        [exact H | apply putPrev_builtin_step].
    + now apply Fair_putPrev_step in H as (_ & _ & H).
    + now apply Fair_checkPreempt_minVruntime in H.
    + now apply Fair_taskTick_minVruntime in H.
Qed.

Lemma fair_minVruntime_monotone_witness :
  let s := set_simulationTime 50 (the exampleSim (stepped fairConf 2)) in
  let s' := the s (LinuxFairClass.taskTick (pickNext builtin) s) in
  fair_operation s s' /\ minVruntime_le s s' /\
  LinuxFair.minVruntime (fair s) = 0%Q /\ LinuxFair.minVruntime (fair s') = 49%Q.
Proof.
  intros s s'.
  assert (H : fair_operation s s') by (apply fair_taskTick; vm_compute; reflexivity).
  assert (H0 : LinuxFair.minVruntime (fair s) = 0%Q) by (vm_compute; reflexivity).
  assert (H1 : LinuxFair.minVruntime (fair s') = 49%Q) by (vm_compute; reflexivity).
  clearbody s s'.
  split; [exact H|].
  split; [exact (proj2 fair_minVruntime_monotone s s' H)|].
  split; assumption.
Defined.

(** * The counter of context switches, for the two classes *)


(** * The rule of [putPrev] *)

Section PutPrevRule.

Variable D : Dispatch.





End PutPrevRule.




(** * The counters of a class when its running process exits *)

(** C3.  The simulation [exitConf] has one process, of the class FCFS, which
    is picked at the time 0 and exits at the time 5 while it is running.
    Before the exit the counters of the class agree with its processes.
    After the exit event has been handled the process is dead, the idle
    process runs and no process of the class is alive and runnable, but
    [nrRunning] of the class is still 1: [handleExit] does not decrement it
    for the running process, as it does for a waiting one. *)
Theorem exit_of_running_task_keeps_nrRunning :
  let before := the exampleSim (stepped exitConf 1) in
  let after := the exampleSim (stepped exitConf 2) in
  is_ok (stepped exitConf 2) = true /\
  (curr before = Pid 0 /\ simulationTime before = 0 /\ counters_ok FCFSClass.name before) /\
  (curr after = Idle /\ simulationTime after = 5 /\
   alive <$> procList after = [false] /\
   runnableCount (Cls FCFSClass.name) after = 0 /\
   SchedClass.nrRunning <$> (schedClassRegistered after !! FCFSClass.name) = Some 1 /\
   ~ counters_ok FCFSClass.name after).
Proof.
  intros before after.
  split; [vm_compute; reflexivity|]. split.
  - split; [vm_compute; reflexivity|]. split; [vm_compute; reflexivity|].
    eexists _, _. split; [vm_compute; reflexivity|]. split; vm_compute; auto.
  - split; [vm_compute; reflexivity|]. split; [vm_compute; reflexivity|].
    split; [vm_compute; reflexivity|]. split; [vm_compute; reflexivity|].
    split; [vm_compute; reflexivity|].
    intros (c & r & Hc & _ & Hn & _).
    vm_compute in Hc. injection Hc as <-. vm_compute in Hn. discriminate Hn.
Qed.

(** * The placement of a process by the fair class *)

(** C8.  In the simulation [fairConf] the first process blocks at the time 1
    while it is running and wakes at the time 101.  When [enqueue] of the
    fair class is called for it, [enqueueWakeup] is not set, since [dequeue]
    sets it and is not called for a process that is not on the runqueue;
    the process keeps its [vruntime] of 1, which is less than
    [min_vruntime - sched_latency / 2 = 100 - 4].  In the simulation
    [fairDebitConf], with the start debit, the second process is spawned at
    the time 10: [schedVslice] is not a number, because [proc.load] is not
    defined, and the process keeps the [vruntime] 0 below [min_vruntime],
    which is 10. *)
Theorem wakeup_placement_skipped :
  let s := set_simulationTime 101 (the exampleSim (stepped fairConf 2)) in
  let s' := the s (LinuxFairClass.enqueue (Pid 0) s) in
  let woken := the exampleSim (stepped fairConf 3) in
  let debit := the exampleSim (stepped fairDebitConf 2) in
  (LinuxFairClass.enqueue (Pid 0) s = Ok s' /\
   (exists p p',
      getProc (Pid 0) s = Ok p /\ getProc (Pid 0) s' = Ok p' /\
      alive p = true /\ vruntime p = 1%Q /\ enqueueWakeup p = false /\
      vruntime p' = 1%Q) /\
   LinuxFair.minVruntime (fair s') = 100%Q /\ LinuxFair.schedLatency (fair s') = 8) /\
  (is_ok (stepped fairConf 3) = true /\ simulationTime woken = 101 /\
   (exists p,
      getProc (Pid 0) woken = Ok p /\ runnable p = true /\
      (vruntime p < LinuxFair.minVruntime (fair woken)
                    - inject_Z (LinuxFair.schedLatency (fair woken)) / 2)%Q)) /\
  (is_ok (stepped fairDebitConf 2) = true /\ simulationTime debit = 10 /\
   LinuxFair.startDebit (fair debit) = true /\
   LinuxFairClass.schedVslice (Pid 1)
     (set_simulationTime 10 (the exampleSim (stepped fairDebitConf 1))) = Ok NaN /\
   (exists p,
      getProc (Pid 1) debit = Ok p /\ spawned p = 10 /\ vruntime p = 0%Q /\
      LinuxFair.minVruntime (fair debit) = 10%Q)).
Proof.
  intros s s' woken debit. split; [|split].
  - split; [vm_compute; reflexivity|]. split.
    + eexists _, _. split; [vm_compute; reflexivity|]. split; [vm_compute; reflexivity|].
      repeat split; vm_compute; reflexivity.
    + split; vm_compute; reflexivity.
  - split; [vm_compute; reflexivity|]. split; [vm_compute; reflexivity|].
    eexists. split; [vm_compute; reflexivity|]. split; vm_compute; reflexivity.
  - split; [vm_compute; reflexivity|]. split; [vm_compute; reflexivity|].
    split; [vm_compute; reflexivity|]. split; [vm_compute; reflexivity|].
    eexists. split; [vm_compute; reflexivity|]. repeat split; vm_compute; reflexivity.
Qed.

(** * A configuration without processes *)

Lemma loadProc_empty (s : Sim) :
  loadProc (Some []) s = Err "missing or invalid process list passed to loadProc.".
Proof. reflexivity. Qed.

(** C9, as stated, fails: the configuration [zeroTaskConf] has no
    processes; [Simulator.init] throws for it and [Simulator.run] refuses
    to start. *)
Lemma zero_task_conf_rejected :
  init builtin zeroTaskConf exampleSim
  = Err "missing or invalid process list passed to loadProc." /\
  is_ok (init builtin zeroTaskConf exampleSim) = false /\
  run builtin 64 None exampleSim
  = Err "simulation has not been properly started. Run Simulator.init() first.".
Proof. repeat split; vm_compute; reflexivity. Qed.

(** C9, amended.  A configuration with zero tasks is not accepted:
    [loadProc] throws for an empty process list, so that [Simulator.init]
    throws for every configuration whose process list is empty, whatever the
    scheduling classes and the state of the simulator are. *)
Theorem empty_process_list_rejected (D : Dispatch) (conf : SimConf) (s : Sim) :
  c_processes conf = Some [] ->
  (forall s0, loadProc (c_processes conf) s0
              = Err "missing or invalid process list passed to loadProc.") /\
  exists e, init D conf s = Err e.
Proof.
  intros H. unfold init. rewrite H. split; [intros s0; apply loadProc_empty|].
  repeat match goal with
         | |- exists e, Err _ = Err e => eexists; reflexivity
         | |- exists e, rbind (loadProc (Some []) _) _ = Err e =>
             rewrite loadProc_empty; cbn [rbind]
         | |- exists e, rbind ?m _ = Err e => destruct m; cbn [rbind]
         | |- exists e, (if ?b then _ else _) = Err e => destruct b
         | |- exists e, (let '(_, _) := ?x in _) = Err e => destruct x
         | |- exists e, match ?x with _ => _ end = Err e => destruct x
         end.
Qed.

Lemma empty_process_list_rejected_witness :
  c_processes zeroTaskConf = Some [] /\
  (forall s0, loadProc (c_processes zeroTaskConf) s0
              = Err "missing or invalid process list passed to loadProc.") /\
  exists e, init builtin zeroTaskConf exampleSim = Err e.
Proof.
  split; [reflexivity|].
  exact (empty_process_list_rejected builtin zeroTaskConf exampleSim eq_refl).
Defined.

(** * [Simulator.checkPreempt] *)

Section CheckPreempt.

Variable D : Dispatch.

Implicit Types (s : Sim) (proc : pref) (p c : Process).





End CheckPreempt.




(** * The exit of a process at a simulation time *)

Section Queued.

Implicit Types (q : queue) (e : Event) (h : holder Event).

Lemma redblack_insert_In k h q : In (k, h) (redblack.insert Z.compare k h q).
Proof.
  induction q as [|[k0 h0] q IH]; cbn; [now left|].
  destruct (Z.compare_spec k k0) as [-> | _ | _]; cbn; auto.
Qed.

Lemma redblack_insert_other k h k' h' q :
  k' <> k -> In (k', h') q -> In (k', h') (redblack.insert Z.compare k h q).
Proof.
  intros Hne. induction q as [|[k0 h0] q IH]; cbn; [tauto|].
  destruct (Z.compare_spec k k0) as [-> | _ | _]; cbn; intros [[= <- <-] | Hin]; auto.
  congruence.
Qed.

Lemma redblack_delete_other k k' h' q :
  k' <> k -> In (k', h') q -> In (k', h') (redblack.delete Z.compare k q).
Proof.
  intros Hne. induction q as [|[k0 h0] q IH]; cbn; [tauto|].
  destruct (Z.compare_spec k k0) as [-> | _ | _]; cbn; intros [[= <- <-] | Hin]; auto.
  congruence.
Qed.

Lemma insertEvent_queued now e q q' : insertEvent now e q = Ok q' -> queued e q'.
Proof.
  unfold insertEvent, redblack.getDelete. destruct (time e <? now); [discriminate|].
  intros [= <-]. eexists. split; [apply redblack_insert_In|].
  destruct (redblack.get Z.compare (time e) q) as [[x|l]|]; cbn; auto.
  apply in_or_app. right. now left.
Qed.

Lemma insertEvent_queued_other now e q q' x :
  insertEvent now e q = Ok q' -> time x <> time e -> queued x q -> queued x q'.
Proof.
  unfold insertEvent, redblack.getDelete. destruct (time e <? now); [discriminate|].
  intros [= <-] Hne (h & Hin & Hx). exists h. split; [|exact Hx].
  now apply redblack_insert_other, redblack_delete_other.
Qed.

End Queued.

Section StrictEnd.

Implicit Types (s : Sim) (next : pref) (p : Process).

Lemma getProc_set_curr next r s : getProc r (set_curr next s) = getProc r s.
Proof. now apply getProc_ext. Qed.

Lemma set_remainingRuntime_same p : set_remainingRuntime (remainingRuntime p) p = p.
Proof. now destruct p. Qed.

(** The run time of the burst is the remaining run time of the process from
    then on. *)
Lemma pickNext_runTime_kept next s runTime s0 p :
  getProc next s = Ok p -> pickNext_runTime next s = Ok (runTime, s0) ->
  getProc next s0 = Ok (set_remainingRuntime runTime p) /\
  simulationTime s0 = simulationTime s /\ simulationQueue s0 = simulationQueue s.
Proof.
  intros Hp. unfold pickNext_runTime. rewrite Hp. cbn [rbind].
  destruct (0 <? remainingRuntime p).
  - intros [= <- <-]. now rewrite set_remainingRuntime_same.
  - intros H. inv_res. split.
    + eapply updProc_get; [|eassumption].
      match goal with
      | H : getProcVal _ _ = Ok _ |- _ => now rewrite (getProcVal_getProc _ _ _ _ H)
      end.
    + steps_inv; split; reflexivity.
Qed.

Lemma pickNext_runTime_again next s p :
  getProc next s = Ok p -> 0 < remainingRuntime p ->
  pickNext_runTime next s = Ok (remainingRuntime p, s).
Proof.
  intros Hp Hpos. unfold pickNext_runTime. rewrite Hp. cbn [rbind].
  now rewrite (proj2 (Z.ltb_lt _ _) Hpos).
Qed.

(** The exit event of a non-nice exit at the simulation time [t]. *)
Lemma pickNext_strictEnd_spec next t runTime s p :
  getProc next s = Ok p ->
  (forall old, strictEndEvent p = Some old ->
               is_ok (deleteEvent (simulationTime s) old (simulationQueue s)) = true) ->
  exists e s1,
    pickNext_strictEnd next t runTime s = Ok (simulationTime s + runTime >=? t, s1) /\
    kind e = ExitEvent ExitCond.simExec false /\
    time e = Z.max (simulationTime s) t /\ process e = Some next /\
    getProc next s1 =
      Ok ((if simulationTime s + runTime >=? t then set_nextEvent (Some e) else id)
            (set_strictEndEvent (Some e) p)) /\
    queued e (simulationQueue s1) /\ simulationTime s1 = simulationTime s.
Proof.
  intros Hp Hold. unfold pickNext_strictEnd. rewrite Hp. cbn [rbind].
  assert (Ha : exists sa,
             (match strictEndEvent p with
              | Some old => sim_deleteEvent old s
              | None => Ok s
              end) = Ok sa /\
             getProc next sa = Ok p /\ simulationTime sa = simulationTime s).
  { destruct (strictEndEvent p) as [old|]; [|eauto].
    specialize (Hold old eq_refl). unfold sim_deleteEvent.
    destruct (deleteEvent (simulationTime s) old (simulationQueue s)) as [[o q]|];
      [|discriminate].
    cbn [rbind]. eexists. split; [reflexivity|]. split; [|reflexivity].
    now rewrite (getProc_ext next s (set_simulationQueue q s)). }
  destruct Ha as (sa & -> & Hpa & Hta). cbn [rbind].
  set (now := simulationTime s).
  set (e := mkEvent (eventCount sa) (if t <? now then now else t) (simulationTime sa)
              (ExitEvent ExitCond.simExec false) (Some next)).
  unfold newEvent. fold e. cbn iota.
  set (sb := set_eventCount (S (eventCount sa)) sa).
  assert (Hle : simulationTime sb <= time e).
  { cbn. rewrite Hta. fold now. destruct (Z.ltb_spec t now); lia. }
  destruct (insertEvent_ok (simulationTime sb) e (simulationQueue sb) Hle) as [q' Hq'].
  unfold sim_insertEvent. rewrite Hq'. cbn [rbind].
  set (sc := set_simulationQueue q' sb).
  assert (Hpc : getProc next sc = Ok p) by (rewrite <- Hpa; now apply getProc_ext).
  rewrite (updProc_ok _ _ _ _ Hpc). cbn [rbind].
  set (sd := setProc next (set_strictEndEvent (Some e) p) sc).
  assert (Hpd : getProc next sd = Ok (set_strictEndEvent (Some e) p))
    by (apply getProc_setProc_same; now rewrite Hpc).
  assert (Hq : queued e q') by (eapply insertEvent_queued; eassumption).
  assert (Htime : time e = Z.max now t).
  { cbn. destruct (Z.ltb_spec t now); lia. }
  exists e. destruct (now + runTime >=? t).
  - rewrite (updProc_ok _ _ _ _ Hpd). cbn [rbind]. eexists. split; [reflexivity|].
    split; [reflexivity|]. split; [exact Htime|]. split; [reflexivity|].
    split; [apply getProc_setProc_same; now rewrite Hpd|].
    split; [exact Hq | exact Hta].
  - exists sd. split; [reflexivity|].
    split; [reflexivity|]. split; [exact Htime|]. split; [reflexivity|].
    split; [exact Hpd|]. split; [exact Hq | exact Hta].
Qed.

(** The end of the pick for a process that has run time left. *)
Lemma pickNext_finish_spec next b s p :
  getProc next s = Ok p -> 0 < remainingRuntime p ->
  exists s2 p2,
    pickNext_finish next b s = Ok s2 /\ getProc next s2 = Ok p2 /\
    strictEndEvent p2 = strictEndEvent p /\ curr s2 = next /\
    (b = true -> nextEvent p2 = nextEvent p /\ simulationQueue s2 = simulationQueue s) /\
    (b = false ->
     exists blk,
       nextEvent p2 = Some blk /\ kind blk = BlockEvent /\
       time blk = simulationTime s + remainingRuntime p /\ process blk = Some next /\
       insertEvent (simulationTime s) blk (simulationQueue s) = Ok (simulationQueue s2)).
Proof.
  intros Hp Hpos. unfold pickNext_finish.
  rewrite (updProc_ok _ _ _ _ Hp). cbn [rbind].
  set (s1 := setProc next (set_execCnt (execCnt p + 1) p) s).
  assert (Hp1 : getProc next s1 = Ok (set_execCnt (execCnt p + 1) p))
    by (apply getProc_setProc_same; now rewrite Hp).
  destruct b.
  - cbn [rbind]. rewrite (updProc_ok _ _ _ _ Hp1). cbn [rbind].
    eexists _, _. split; [reflexivity|].
    split.
    { rewrite getProc_set_curr. apply getProc_setProc_same. now rewrite Hp1. }
    repeat split; discriminate.
  - rewrite (pickNext_runTime_again next s1 _ Hp1 Hpos). cbn [rbind].
    change (remainingRuntime (set_execCnt (execCnt p + 1) p)) with (remainingRuntime p).
    set (blk := mkEvent (eventCount s1) (simulationTime s + remainingRuntime p)
                  (simulationTime s1) BlockEvent (Some next)).
    unfold newEvent. fold blk. cbn iota.
    set (sb := set_eventCount (S (eventCount s1)) s1).
    assert (Hle : simulationTime sb <= time blk) by (cbn; lia).
    destruct (insertEvent_ok (simulationTime sb) blk (simulationQueue sb) Hle) as [q' Hq'].
    unfold sim_insertEvent. rewrite Hq'. cbn [rbind].
    set (sc := set_simulationQueue q' sb).
    assert (Hpc : getProc next sc = Ok (set_execCnt (execCnt p + 1) p))
      by (rewrite <- Hp1; now apply getProc_ext).
    rewrite (updProc_ok _ _ _ _ Hpc). cbn [rbind].
    set (sd := setProc next (set_nextEvent (Some blk) (set_execCnt (execCnt p + 1) p)) sc).
    assert (Hpd : getProc next sd = Ok (set_nextEvent (Some blk) (set_execCnt (execCnt p + 1) p)))
      by (apply getProc_setProc_same; now rewrite Hpc).
    rewrite (updProc_ok _ _ _ _ Hpd). cbn [rbind].
    eexists _, _. split; [reflexivity|].
    split.
    { rewrite getProc_set_curr. apply getProc_setProc_same. now rewrite Hpd. }
    split; [reflexivity|]. split; [reflexivity|]. split; [discriminate|].
    intros _. exists blk. repeat split. exact Hq'.
Qed.

End StrictEnd.

(** C6.  When, at the pick of the process [next], the next behaviour entry
    is a final entry whose switch condition is the simulation time [t] and
    which does not end nicely, the pick returns (given that a run time
    [runTime] is found for the burst and that the exit event of an earlier
    pick, if there is one, can be taken from the queue) and, whatever the
    state of the process is: an exit event for the time [max now t] is in
    the simulation queue and is the [strictEndEvent] of the process; it is
    also the [nextEvent] of the process if and only if [now + runTime]
    reaches [t]; otherwise the [nextEvent] is a block event for the end of
    the burst, which is in the queue as well. *)
Theorem strict_end_event_at_pick (next : pref) (s : Sim) (p : Process) (nb : Behavior.t)
    (t runTime : Z) (s0 : Sim) :
  getProc next s = Ok p ->
  behavior p !! nextBehIndex p = Some nb ->
  Behavior.final nb = true -> Behavior.procExec nb = None ->
  Behavior.simExec nb = Some t -> Behavior.endNicely nb = false ->
  pickNext_runTime next s = Ok (runTime, s0) -> 0 < runTime ->
  (forall old, strictEndEvent p = Some old ->
               is_ok (deleteEvent (simulationTime s) old (simulationQueue s)) = true) ->
  let now := simulationTime s in
  exists e b s1 s2 p2,
    pickNext_finalBehavior next s = Ok (b, s1) /\
    pickNext_finish next b s1 = Ok s2 /\
    kind e = ExitEvent ExitCond.simExec false /\
    time e = Z.max now t /\ process e = Some next /\
    getProc next s2 = Ok p2 /\
    strictEndEvent p2 = Some e /\ queued e (simulationQueue s2) /\
    (nextEvent p2 = Some e <-> t <= now + runTime) /\
    (now + runTime < t ->
     exists blk,
       nextEvent p2 = Some blk /\ kind blk = BlockEvent /\
       time blk = now + runTime /\ process blk = Some next /\
       queued blk (simulationQueue s2)).
Proof.
  intros Hp Hnb Hfinal Hproc Hsim Hnice Hrun Hpos Hold now.
  destruct (pickNext_runTime_kept _ _ _ _ _ Hp Hrun) as (Hp0 & Ht0 & Hq0).
  set (p0 := set_remainingRuntime runTime p) in *.
  assert (Hold0 : forall old, strictEndEvent p0 = Some old ->
                    is_ok (deleteEvent (simulationTime s0) old (simulationQueue s0)) = true).
  { intros old Ho. rewrite Ht0, Hq0. now apply Hold. }
  destruct (pickNext_strictEnd_spec next t runTime s0 p0 Hp0 Hold0)
    as (e & s1 & Hse & Hkind & Htime & Hprocess & Hp1 & Hqueued & Ht1).
  rewrite Ht0 in Hse, Htime, Hp1, Ht1. fold now in Hse, Htime, Hp1, Ht1.
  remember (now + runTime >=? t) as b eqn:Eb.
  set (p1 := (if b then set_nextEvent (Some e) else id) (set_strictEndEvent (Some e) p0)) in *.
  assert (Hrem : remainingRuntime p1 = runTime) by (unfold p1; now destruct b).
  assert (Hstrict : strictEndEvent p1 = Some e) by (unfold p1; now destruct b).
  destruct (pickNext_finish_spec next b s1 p1 Hp1 ltac:(now rewrite Hrem))
    as (s2 & p2 & Hfin & Hp2 & Hstrict2 & _ & Htrue & Hfalse).
  exists e, b, s1, s2, p2.
  split.
  { unfold pickNext_finalBehavior. rewrite Hp. cbn [rbind]. rewrite Hnb, Hfinal, Hrun.
    cbn [rbind]. rewrite Hp0. cbn [rbind]. rewrite Hproc, Hsim, Hnice. exact Hse. }
  split; [exact Hfin|]. split; [exact Hkind|]. split; [exact Htime|].
  split; [exact Hprocess|]. split; [exact Hp2|]. split; [congruence|].
  rewrite Ht1, Hrem in Hfalse.
  destruct b.
  - symmetry in Eb. rewrite Z.geb_leb in Eb. apply Z.leb_le in Eb.
    destruct (Htrue eq_refl) as [Hne Hqs]. split; [now rewrite Hqs|].
    split; [|lia]. split; [lia|]. intros _. rewrite Hne. reflexivity.
  - symmetry in Eb. rewrite Z.geb_leb in Eb. apply Z.leb_gt in Eb.
    destruct (Hfalse eq_refl) as (blk & Hne & Hk & Htb & Hpb & Hins).
    assert (Hqe : queued e (simulationQueue s2)).
    { eapply insertEvent_queued_other; [exact Hins | lia | exact Hqueued]. }
    split; [exact Hqe|]. split.
    + split; [|lia]. rewrite Hne. intros [= ->]. rewrite Hkind in Hk. discriminate.
    + intros _. exists blk. repeat split; try assumption.
      eapply insertEvent_queued; exact Hins.
Qed.

Lemma strict_end_event_at_pick_witness :
  let s := the exampleSim (stepped strictEndConf 3) in
  let p := the (idle s) (getProc (Pid 0) s) in
  let nb := Behavior.mk None None None None (Some 50) None true false in
  (getProc (Pid 0) s = Ok p /\ behavior p !! nextBehIndex p = Some nb /\
   pickNext_runTime (Pid 0) s = Ok (7, s) /\ simulationTime s = 7 /\
   is_Some (strictEndEvent p)) /\
  exists e b s1 s2 p2,
    pickNext_finalBehavior (Pid 0) s = Ok (b, s1) /\
    pickNext_finish (Pid 0) b s1 = Ok s2 /\
    kind e = ExitEvent ExitCond.simExec false /\
    time e = Z.max (simulationTime s) 50 /\ process e = Some (Pid 0) /\
    getProc (Pid 0) s2 = Ok p2 /\
    strictEndEvent p2 = Some e /\ queued e (simulationQueue s2) /\
    (nextEvent p2 = Some e <-> 50 <= simulationTime s + 7) /\
    (simulationTime s + 7 < 50 ->
     exists blk,
       nextEvent p2 = Some blk /\ kind blk = BlockEvent /\
       time blk = simulationTime s + 7 /\ process blk = Some (Pid 0) /\
       queued blk (simulationQueue s2)).
Proof.
  intros s p nb.
  assert (Hp : getProc (Pid 0) s = Ok p) by (vm_compute; reflexivity).
  assert (Hnb : behavior p !! nextBehIndex p = Some nb) by (vm_compute; reflexivity).
  assert (Hrun : pickNext_runTime (Pid 0) s = Ok (7, s)) by (vm_compute; reflexivity).
  assert (Hnow : simulationTime s = 7) by (vm_compute; reflexivity).
  assert (Hsome : is_Some (strictEndEvent p)) by (vm_compute; eauto).
  assert (Hold : forall old, strictEndEvent p = Some old ->
                   is_ok (deleteEvent (simulationTime s) old (simulationQueue s)) = true).
  { intros old Ho. vm_compute in Ho. injection Ho as <-. vm_compute. reflexivity. }
  clearbody s p.
  split; [repeat split; assumption|].
  exact (strict_end_event_at_pick (Pid 0) s p nb 50 7 s Hp Hnb eq_refl eq_refl eq_refl
           eq_refl Hrun ltac:(lia) Hold).
Defined.

(** * The checks of a process definition *)

Section Validation.

Implicit Types (b : BehaviorDef) (v : procval).

(** The comparisons of the checks, as propositions. *)
Ltac zbool :=
  repeat match goal with
  | H : context [?a <? ?b] |- _ => destruct (Z.ltb_spec a b)
  | |- context [?a <? ?b] => destruct (Z.ltb_spec a b)
  | H : context [?a >? ?b] |- _ => rewrite (Z.gtb_ltb a b) in H
  | |- context [?a >? ?b] => rewrite (Z.gtb_ltb a b)
  | H : context [?a =? ?b] |- _ => destruct (Z.eqb_spec a b)
  | |- context [?a =? ?b] => destruct (Z.eqb_spec a b)
  end.

Lemma checkFields_spec b :
  let n := (if d_priority b is Some _ then 1 else 0)
           + (if d_run b is Some _ then 1 else 0)
           + (if d_block b is Some _ then 1 else 0) in
  (update_fields_ok b /\ checkFields b = n) \/
  (~ update_fields_ok b /\ -3 <= checkFields b <= -1).
Proof.
  unfold checkFields, update_fields_ok.
  destruct (d_priority b) as [[z|lo hi|]|], (d_run b) as [[r|rl rh]|],
    (d_block b) as [[k|kl kh]|]; cbn; zbool; cbn.
  all: first
    [ left; split; [|reflexivity]; repeat split; intros v [= <-]; cbn; lia
    | right; split; [|lia]; intros (Hp & Hr & Hb);
      first [ specialize (Hp _ eq_refl); cbn in Hp; lia
            | specialize (Hr _ eq_refl); cbn in Hr; lia
            | specialize (Hb _ eq_refl); cbn in Hb; lia ] ].
Qed.


Lemma execCondValid_spec v : execCondValid v = true <-> condition_ok v.
Proof. destruct v as [z|lo hi]; cbn; zbool; cbn; split; intros; try discriminate; lia. Qed.

(** X2.  A behaviour entry behind the first one is accepted by the checks of
    [loadProc] if and only if it defines exactly one of the conditions
    [procExec], [simExec] and [execCnt], that condition is a number from 1 or
    an interval that starts at 0 or later, and, when the entry is not final,
    it defines at least one of [priority], [run] and [block], each of them
    valid. *)
Theorem later_behavior_accepted_iff b :
  checkLaterBehavior b = Ok tt <->
  (d_final b = None -> some_update_field b /\ update_fields_ok b) /\ one_condition b.
Proof.
  unfold checkLaterBehavior.
  match goal with
  | |- rbind ?m _ = _ <-> _ =>
      assert (Hst : m = Ok tt <->
                    (d_final b = None -> some_update_field b /\ update_fields_ok b));
        [|destruct m as [[]|e]; cbn [rbind]]
  end.
  { destruct (d_final b) as [f|]; [split; [discriminate | reflexivity]|].
    destruct (checkFields_spec b) as [[Hok ->] | [Hbad Hr]].
    - unfold some_update_field.
      destruct (d_priority b), (d_run b), (d_block b); simpl; split;
        try (intros _ _; split; [eauto | exact Hok]; fail);
        try (intros [=]; fail); try reflexivity.
      intros H. destruct (H eq_refl) as [[[? [=]] | [[? [=]] | [? [=]]]] _].
    - split.
      + zbool; try discriminate; lia.
      + intros H. destruct (H eq_refl) as [_ H']. contradiction. }
  - (* the conditions *)
    rewrite (and_iff_compat_r _ (iff_sym Hst)).
    assert (Htt : (Ok tt : res unit) = Ok tt <-> True) by tauto.
    rewrite Htt. clear Hst Htt. unfold one_condition.
    destruct (d_procExec b) as [pe|], (d_simExec b) as [se|], (d_execCnt b) as [ec|];
      repeat match goal with
      | |- context [execCondValid ?v] =>
          let E := fresh "E" in
          destruct (execCondValid v) eqn:E;
            [apply execCondValid_spec in E
            |assert (~ condition_ok v) by (rewrite <- execCondValid_spec; congruence); clear E]
      end; cbn; split; try (intros [=]; fail).
    all: try (intros _; split; [exact I|]; eauto 10; fail).
    all: intros [_ [(v & Ha & Hb & Hc & Hd) | [(v & Ha & Hb & Hc & Hd) | (v & Ha & Hb & Hc & Hd)]]];
      try discriminate; try reflexivity; try (injection Ha as <-; contradiction).
  - split; [discriminate|]. intros [H _]. apply Hst in H. discriminate.
Qed.






End Validation.

(** * The values of a process definition *)

(** X3.  [getProcVal] returns a number as it is; for an interval [lo, hi]
    with [lo <= hi] it draws one random number and returns a value from [lo]
    up to, but not including, [hi] (the value [lo] when the interval is a
    point); for an interval with [hi < lo] and for a missing entry it
    throws. *)
Theorem getProcVal_within_interval (s : Sim) :
  (forall z, getProcVal (Some (PNum z)) s = Ok (z, s)) /\
  (forall lo hi,
     lo <= hi ->
     exists x s',
       getProcVal (Some (PRange lo hi)) s = Ok (x, s') /\
       lo <= x /\ (x < hi \/ (lo = hi /\ x = lo)) /\
       randomCount s' = S (randomCount s) /\
       procList s' = procList s /\ simulationQueue s' = simulationQueue s) /\
  (forall lo hi, hi < lo -> is_ok (getProcVal (Some (PRange lo hi)) s) = false) /\
  is_ok (getProcVal None s) = false.
Proof.
  split; [reflexivity|]. split; [|split; [|reflexivity]].
  - intros lo hi Hle. unfold getProcVal, mathRandomFloor.
    rewrite (proj2 (Z.leb_le lo hi) Hle).
    eexists _, _. split; [reflexivity|].
    destruct (Z.ltb_spec 0 (hi - lo)) as [Hpos | Hzero].
    + pose proof (Z.mod_pos_bound (randomSource s (randomCount s)) (hi - lo) Hpos).
      split; [lia|]. split; [left; lia|]. repeat split.
    + split; [lia|]. split; [right; lia|]. repeat split.
  - intros lo hi Hlt. unfold getProcVal.
    now rewrite (proj2 (Z.leb_gt lo hi) Hlt).
Qed.

(** * Taking an event out of the simulation queue *)

Section GetEvent.

Implicit Types (q : queue) (e evt : Event) (h : holder Event).

(** [holder.splice(i, 1)] at the first event that is [evt]. *)
Lemma splice_event_spec evt (l : list Event) :
  (exists e, In e l /\ Event_same e evt = true) ->
  exists e l1 l2,
    splice_event evt l = Some (e, (l1 ++ l2)%list) /\ l = (l1 ++ e :: l2)%list /\
    Event_same e evt = true /\ Forall (fun x => Event_same x evt = false) l1.
Proof.
  induction l as [|a l IH]; intros (e & Hin & He); [destruct Hin|].
  cbn [splice_event]. destruct (Event_same a evt) eqn:Ea.
  - exists a, [], l. split; [reflexivity|]. split; [reflexivity|]. split; [exact Ea|constructor].
  - destruct IH as (e' & l1 & l2 & Hs & -> & He' & Hl1).
    { destruct Hin as [-> | Hin]; [congruence | eauto]. }
    rewrite Hs. exists e', (a :: l1), l2.
    split; [reflexivity|]. split; [reflexivity|]. split; [exact He' | now constructor].
Qed.

(** [getEvent] for an event that is in a well-formed queue. *)
Lemma getEvent_spec now evt q :
  wf_queue q -> now <= time evt ->
  (exists e, In e (pending q) /\ Event_same e evt = true /\ time e = time evt) ->
  exists e q' l1 l2,
    getEvent now evt q = Ok (Some e, q') /\ Event_same e evt = true /\
    wf_queue q' /\
    pending q = (l1 ++ e :: l2)%list /\ pending q' = (l1 ++ l2)%list /\
    Forall (fun x => time x = time evt -> Event_same x evt = false) l1 /\
    forall k, Forall (fun kv => k < fst kv) q -> Forall (fun kv => k < fst kv) q'.
Proof.
  intros Hwf Hnow. unfold getEvent, redblack.getDelete.
  rewrite (proj2 (Z.ltb_ge (time evt) now)) by exact Hnow. clear Hnow now.
  induction q as [|[k h] q IH]; intros (e & Hin & He & Ht); [destruct Hin|].
  pose proof Hwf as Hwf0.
  apply wf_queue_cons in Hwf as ([Hne Hh] & Hlt & Hwf). cbn in Hne, Hh.
  cbn [redblack.get redblack.delete].
  destruct (Z.compare_spec (time evt) k) as [Heq | Hlt' | Hgt].
  - (* the events of this time *)
    assert (Hrest : Forall (fun x => time evt < time x) (pending q)).
    { rewrite Heq. now apply pending_lower_bound. }
    assert (Hine : In e (holder_events h)).
    { rewrite pending_cons in Hin. apply in_app_or in Hin as [Hin | Hin]; [exact Hin|].
      rewrite List.Forall_forall in Hrest. specialize (Hrest _ Hin). lia. }
    assert (Hkeep : forall k0, Forall (fun kv => k0 < fst kv) ((k, h) :: q) ->
                               Forall (fun kv : Z * holder Event => k0 < fst kv) q).
    { intros k0 Hk0. now inversion Hk0. }
    destruct h as [x | [|x0 [|x1 [|x2 l]]]]; cbn in Hne, Hh, Hine |- *.
    + destruct Hine as [-> | []].
      exists e, q, [], (pending q).
      split; [reflexivity|]. split; [exact He|]. split; [exact Hwf|].
      split; [reflexivity|]. split; [reflexivity|]. split; [constructor | exact Hkeep].
    + congruence.
    + destruct Hine as [-> | []].
      exists e, q, [], (pending q).
      split; [reflexivity|]. split; [exact He|]. split; [exact Hwf|].
      split; [reflexivity|]. split; [reflexivity|]. split; [constructor | exact Hkeep].
    + apply Forall_cons in Hh as [Hx0 Hh1]. apply Forall_cons in Hh1 as [Hx1 _].
      rewrite !insert_front by (now rewrite Heq).
      destruct (Event_same x0 evt) eqn:E0.
      * exists x0, ((k, Single x1) :: q), [], (x1 :: pending q).
        split; [now rewrite Heq|]. split; [exact E0|]. split.
        { apply wf_queue_cons. split; [|split; assumption].
          split; cbn; [discriminate | now repeat constructor]. }
        split; [reflexivity|]. split; [reflexivity|]. split; [constructor|].
        intros k0 Hk0. inversion Hk0; subst. now constructor.
      * assert (E1 : Event_same x1 evt = true).
        { destruct Hine as [-> | [-> | []]]; congruence. }
        rewrite E1.
        exists x1, ((k, Single x0) :: q), [x0], (pending q).
        split; [now rewrite Heq|]. split; [exact E1|]. split.
        { apply wf_queue_cons. split; [|split; assumption].
          split; cbn; [discriminate | now repeat constructor]. }
        split; [reflexivity|]. split; [reflexivity|].
        split; [now repeat constructor|].
        intros k0 Hk0. inversion Hk0; subst. now constructor.
    + assert (Hex : exists e, In e (x0 :: x1 :: x2 :: l) /\ Event_same e evt = true)
        by (exists e; split; [exact Hine | exact He]).
      destruct (splice_event_spec evt (x0 :: x1 :: x2 :: l) Hex)
        as (r & l1 & l2 & Hs & Hl & Hr & Hl1).
      cbn [splice_event] in Hs |- *. rewrite Hs.
      rewrite insert_front by (now rewrite Heq).
      assert (Hh' : Forall (fun x => time x = k) (l1 ++ l2)).
      { rewrite Hl in Hh. apply Forall_app in Hh as [H1 H2].
        apply Forall_cons in H2 as [_ H2]. apply Forall_app. now split. }
      exists r, ((k, Bucket (l1 ++ l2)) :: q), l1, (l2 ++ pending q)%list.
      split; [now rewrite Heq|]. split; [exact Hr|]. split.
      { apply wf_queue_cons. split; [|split; assumption].
        split; cbn; [|exact Hh'].
        intros Hnil. apply (f_equal (@length Event)) in Hl, Hnil.
        rewrite length_app in Hl, Hnil. cbn in Hl, Hnil. lia. }
      split.
      { change ((x0 :: x1 :: x2 :: l) ++ pending q = l1 ++ r :: l2 ++ pending q)%list.
        rewrite Hl, <- app_assoc. reflexivity. }
      split; [rewrite pending_cons; cbn [holder_events]; now rewrite <- app_assoc|].
      split.
      { eapply Forall_impl; [exact Hl1|]. cbn. auto. }
      intros k0 Hk0. inversion Hk0; subst. now constructor.
  - (* no event of this time is queued *)
    exfalso. rewrite pending_cons in Hin. apply in_app_or in Hin as [Hin | Hin].
    + rewrite List.Forall_forall in Hh. specialize (Hh _ Hin). lia.
    + pose proof (pending_lower_bound k q Hwf Hlt) as Hb.
      rewrite List.Forall_forall in Hb. specialize (Hb _ Hin). lia.
  - (* the walk goes on to the right *)
    assert (Hin' : In e (pending q)).
    { rewrite pending_cons in Hin. apply in_app_or in Hin as [Hin | Hin]; [|exact Hin].
      rewrite List.Forall_forall in Hh. specialize (Hh _ Hin). lia. }
    assert (Hex : exists e, In e (pending q) /\ Event_same e evt = true /\ time e = time evt)
      by (exists e; auto).
    destruct (IH Hwf Hex) as (r & q' & l1 & l2 & Hget & Hr & Hwf' & Hp & Hp' & Hl1 & Hbound).
    assert (Hins : forall h', redblack.insert Z.compare (time evt) h'
                                ((k, h) :: redblack.delete Z.compare (time evt) q)
                              = (k, h) :: redblack.insert Z.compare (time evt) h'
                                            (redblack.delete Z.compare (time evt) q)).
    { intros h'. cbn [redblack.insert].
      now rewrite (proj2 (Z.compare_gt_iff (time evt) k)) by exact Hgt. }
    exists r, ((k, h) :: q'), (holder_events h ++ l1)%list, l2.
    split.
    { destruct (redblack.get Z.compare (time evt) q) as [[x | [|x0 [|x1 [|x2 l]]]]|];
        try discriminate; rewrite ?Hins.
      - injection Hget as <- <-. reflexivity.
      - injection Hget as <- <-. reflexivity.
      - destruct (Event_same x0 evt); [|destruct (Event_same x1 evt); [|discriminate]];
          injection Hget as <- <-; reflexivity.
      - destruct (splice_event evt (x0 :: x1 :: x2 :: l)) as [[r' l']|]; [|discriminate].
        rewrite Hins. injection Hget as <- <-. reflexivity. }
    split; [exact Hr|]. split.
    { apply wf_queue_cons. split; [split; assumption|]. split; [|exact Hwf'].
      now apply Hbound. }
    split; [rewrite pending_cons, Hp, <- app_assoc; reflexivity|].
    split; [rewrite pending_cons, Hp', <- app_assoc; reflexivity|].
    split.
    { apply Forall_app. split; [|exact Hl1].
      eapply Forall_impl; [exact Hh|]. cbn. intros x Hx Hx'. lia. }
    intros k0 Hk0. inversion Hk0; subst. constructor; [assumption|]. now apply Hbound.
Qed.

Lemma insert_by_split {A} (t : A -> Z) (x : A) (l : list A) :
  exists a b, insert_by t x l = (a ++ x :: b)%list /\ l = (a ++ b)%list.
Proof.
  induction l as [|y l (a & b & Hi & Hl)]; [now exists [], []|].
  cbn. destruct (t x <? t y).
  - now exists [], (y :: l).
  - exists (y :: a), b. cbn. now rewrite Hi, Hl.
Qed.

Lemma Event_same_refl e : Event_same e e = true.
Proof. apply Nat.eqb_refl. Qed.

(** The place of the one event that is [e] in a sequence. *)
Lemma same_event_place e e' (a b l1 l2 : list Event) :
  (a ++ e :: b = l1 ++ e' :: l2)%list ->
  Event_same e' e = true ->
  Forall (fun x => Event_same x e = false) a ->
  Forall (fun x => time x = time e -> Event_same x e = false) l1 ->
  a = l1 /\ e = e' /\ b = l2.
Proof.
  revert l1. induction a as [|y a IH]; intros [|x l1] Heq He' Ha Hl1; cbn in Heq.
  - now injection Heq as <- <-.
  - injection Heq as <- _. apply Forall_cons in Hl1 as [Hx _].
    rewrite Event_same_refl in Hx. now specialize (Hx eq_refl).
  - injection Heq as -> _. apply Forall_cons in Ha as [Hy _]. congruence.
  - injection Heq as <- Heq. apply Forall_cons in Ha as [_ Ha].
    apply Forall_cons in Hl1 as [_ Hl1].
    destruct (IH _ Heq He' Ha Hl1) as (-> & -> & ->). auto.
Qed.

Lemma example_queue_wf (e0 e1 e2 : Event) :
  time e0 = 5 -> time e1 = 3 -> time e2 = 3 ->
  wf_queue [(3, Bucket [e1; e2]); (5, Single e0)].
Proof.
  intros H0 H1 H2. split.
  - cbn. repeat constructor.
  - repeat constructor; cbn; congruence.
Qed.

End GetEvent.

(** X4.  In a well-formed simulation queue that holds the event [evt], at a
    time that has not passed, [deleteEvent] (that is [getEvent]) returns the
    event and leaves a well-formed queue that holds the other events in
    their order: the first event of that time that is [evt] is taken out. *)
Theorem deleteEvent_takes_event_out (now : Z) (evt : Event) (q : queue) :
  wf_queue q -> now <= time evt ->
  (exists e, In e (pending q) /\ Event_same e evt = true /\ time e = time evt) ->
  exists e q' l1 l2,
    deleteEvent now evt q = Ok (Some e, q') /\ Event_same e evt = true /\
    wf_queue q' /\
    pending q = (l1 ++ e :: l2)%list /\ pending q' = (l1 ++ l2)%list /\
    Forall (fun x => time x = time evt -> Event_same x evt = false) l1.
Proof.
  intros Hwf Hnow Hin.
  destruct (getEvent_spec now evt q Hwf Hnow Hin)
    as (e & q' & l1 & l2 & Hget & He & Hwf' & Hp & Hp' & Hl1 & _).
  exists e, q', l1, l2. unfold deleteEvent. auto 10.
Qed.

Lemma deleteEvent_takes_event_out_witness :
  let e0 := mkEvent 0 5 0 TimerEvent None in
  let e1 := mkEvent 1 3 0 ForkEvent (Some (Pid 0)) in
  let e2 := mkEvent 2 3 0 ForkEvent (Some (Pid 1)) in
  let q := [(3, Bucket [e1; e2]); (5, Single e0)] in
  wf_queue q /\ 0 <= time e2 /\
  deleteEvent 0 e2 q = Ok (Some e2, [(3, Single e1); (5, Single e0)]) /\
  exists e q' l1 l2,
    deleteEvent 0 e2 q = Ok (Some e, q') /\ Event_same e e2 = true /\
    wf_queue q' /\
    pending q = (l1 ++ e :: l2)%list /\ pending q' = (l1 ++ l2)%list /\
    Forall (fun x => time x = time e2 -> Event_same x e2 = false) l1.
Proof.
  intros e0 e1 e2 q.
  assert (Hwf : wf_queue q) by (now apply example_queue_wf).
  split; [exact Hwf|]. split; [cbn; lia|]. split; [reflexivity|].
  apply (deleteEvent_takes_event_out 0 e2 q Hwf); [cbn; lia|].
  exists e2. cbn. auto.
Defined.

(** X5.  An event that is inserted into a well-formed simulation queue and
    deleted again leaves the queue with the events it had, in their order:
    [insertEvent] returns for a time that has not passed, [deleteEvent]
    then returns the event, and the queue is well formed.  The event is not
    in the queue before. *)
Theorem insertEvent_deleteEvent_round_trip (now : Z) (e : Event) (q : queue) :
  wf_queue q -> now <= time e ->
  Forall (fun x => Event_same x e = false) (pending q) ->
  exists q1 q2,
    insertEvent now e q = Ok q1 /\ deleteEvent now e q1 = Ok (Some e, q2) /\
    pending q2 = pending q /\ wf_queue q2.
Proof.
  intros Hwf Hnow Hfresh.
  destruct (insertEvent_ok now e q Hnow) as [q1 Hq1].
  destruct (insertEvent_pending now e q q1 Hwf Hq1) as (_ & Hwf1 & Hp1).
  destruct (insert_by_split time e (pending q)) as (a & b & Hi & Hl).
  assert (Hin : exists x, In x (pending q1) /\ Event_same x e = true /\ time x = time e).
  { exists e. rewrite Hp1, Hi. split; [apply in_or_app; right; now left|].
    split; [apply Event_same_refl | reflexivity]. }
  destruct (getEvent_spec now e q1 Hwf1 Hnow Hin)
    as (e' & q2 & l1 & l2 & Hget & He' & Hwf2 & Hp & Hp' & Hl1 & _).
  rewrite Hp1, Hi in Hp. rewrite Hl in Hfresh. apply Forall_app in Hfresh as [Ha _].
  destruct (same_event_place e e' a b l1 l2 Hp He' Ha Hl1) as (-> & <- & ->).
  exists q1, q2. unfold deleteEvent. split; [exact Hq1|]. split; [exact Hget|].
  split; [congruence | exact Hwf2].
Qed.

Lemma insertEvent_deleteEvent_round_trip_witness :
  let e0 := mkEvent 0 5 0 TimerEvent None in
  let e1 := mkEvent 1 3 0 ForkEvent (Some (Pid 0)) in
  let e2 := mkEvent 2 3 0 ForkEvent (Some (Pid 1)) in
  let e := mkEvent 3 3 0 EnqueueEvent (Some (Pid 2)) in
  let q := [(3, Bucket [e1; e2]); (5, Single e0)] in
  wf_queue q /\ 0 <= time e /\
  Forall (fun x => Event_same x e = false) (pending q) /\
  exists q1 q2,
    insertEvent 0 e q = Ok q1 /\ deleteEvent 0 e q1 = Ok (Some e, q2) /\
    pending q2 = pending q /\ wf_queue q2.
Proof.
  intros e0 e1 e2 e q.
  assert (Hwf : wf_queue q) by (now apply example_queue_wf).
  assert (Hfresh : Forall (fun x => Event_same x e = false) (pending q))
    by (repeat constructor).
  split; [exact Hwf|]. split; [cbn; lia|]. split; [exact Hfresh|].
  apply (insertEvent_deleteEvent_round_trip 0 e q Hwf); [cbn; lia | exact Hfresh].
Defined.

(** X6.  On a well-formed simulation queue [peekNextEvent] returns the event
    that [getNextEvent] returns, which is the first of the queued events,
    and [getNextEvent] leaves the other events in a well-formed queue; on an
    empty queue both throw. *)
Theorem peekNextEvent_is_next (q : queue) :
  wf_queue q ->
  match pending q with
  | [] => is_ok (peekNextEvent q) = false /\ is_ok (getNextEvent q) = false
  | e :: rest =>
      peekNextEvent q = Ok e /\
      exists q', getNextEvent q = Ok (e, q') /\ pending q' = rest /\ wf_queue q'
  end.
Proof.
  intros Hwf. destruct (pending q) as [|e rest] eqn:Hp.
  - destruct q as [|[k h] q]; [split; reflexivity|].
    apply wf_queue_cons in Hwf as ([Hne _] & _). cbn in Hne.
    rewrite pending_cons in Hp. apply app_eq_nil in Hp as [Hh _]. contradiction.
  - destruct (getNextEvent_pending q Hwf) as (e' & q' & Hget & Hpq & Hwf'); [congruence|].
    rewrite Hp in Hpq. injection Hpq as <- ->.
    split; [|eauto].
    destruct q as [|[k h] q]; [discriminate|]. rewrite pending_cons in Hp.
    unfold peekNextEvent. cbn [redblack.leftmost].
    destruct h as [x|[|x l]]; cbn in Hp |- *.
    + now injection Hp as ->.
    + apply wf_queue_cons in Hwf as ([Hne _] & _). now cbn in Hne.
    + now injection Hp as ->.
Qed.

Lemma peekNextEvent_is_next_witness :
  let e0 := mkEvent 0 5 0 TimerEvent None in
  let e1 := mkEvent 1 3 0 ForkEvent (Some (Pid 0)) in
  let e2 := mkEvent 2 3 0 ForkEvent (Some (Pid 1)) in
  let q := [(3, Bucket [e1; e2]); (5, Single e0)] in
  wf_queue q /\
  peekNextEvent q = Ok e1 /\
  exists q', getNextEvent q = Ok (e1, q') /\ pending q' = [e2; e0] /\ wf_queue q'.
Proof.
  intros e0 e1 e2 q.
  assert (Hwf : wf_queue q) by (now apply example_queue_wf).
  split; [exact Hwf|]. exact (peekNextEvent_is_next q Hwf).
Defined.


(** * The order of the scheduling classes *)

Section ClassOrder.

Implicit Types (l reg acts : list string) (a : string).

Lemma filter_agree {A} (P Q : A -> Prop) `{!forall x, Decision (P x)}
    `{!forall x, Decision (Q x)} (l : list A) :
  (forall x, x ∈ l -> (P x <-> Q x)) -> filter P l = filter Q l.
Proof.
  induction l as [|x l IH]; [reflexivity|]. intros Hall.
  assert (Hl : filter P l = filter Q l).
  { apply IH. intros y Hy. apply Hall. now apply list_elem_of_further. }
  destruct (decide (P x)) as [Hp|Hp].
  - rewrite !filter_cons_True; [now rewrite Hl | | exact Hp].
    apply Hall; [apply list_elem_of_here | exact Hp].
  - rewrite !filter_cons_False; [exact Hl | | exact Hp].
    intros Hq. apply Hp. apply Hall; [apply list_elem_of_here | exact Hq].
Qed.

Lemma filter_all {A} (P : A -> Prop) `{!forall x, Decision (P x)} (l : list A) :
  (forall x, x ∈ l -> P x) -> filter P l = l.
Proof.
  induction l as [|x l IH]; [reflexivity|]. intros Hall.
  rewrite filter_cons_True by (apply Hall, list_elem_of_here).
  rewrite IH; [reflexivity|]. intros y Hy. apply Hall. now apply list_elem_of_further.
Qed.

Lemma remove_name_notin a l : a ∉ l -> remove_name a l = l.
Proof.
  induction l as [|x l IH]; [reflexivity|]. intros Hn. cbn.
  apply not_elem_of_cons in Hn as [Hx Hl].
  destruct (String.eqb x a) eqn:E; [apply String.eqb_eq in E; congruence|].
  now rewrite IH.
Qed.

Lemma remove_name_filter a l : NoDup l -> remove_name a l = filter (fun x => x <> a) l.
Proof.
  induction 1 as [|x l Hx Hl IH]; [reflexivity|]. cbn [remove_name].
  destruct (String.eqb x a) eqn:E.
  - apply String.eqb_eq in E. subst x. rewrite filter_cons_False by (intros Hn; now apply Hn).
    rewrite <- IH. symmetry. now apply remove_name_notin.
  - apply String.eqb_neq in E. rewrite filter_cons_True by exact E. now rewrite IH.
Qed.

Lemma moved_NoDup reg acts :
  NoDup acts -> NoDup reg ->
  NoDup (filter (fun n => n ∈ reg) acts ++ filter (fun n => n ∉ acts) reg).
Proof.
  intros Ha Hr. apply NoDup_app. split; [now apply NoDup_filter|].
  split; [|now apply NoDup_filter].
  intros x H1 H2. apply list_elem_of_filter in H1 as [_ H1].
  apply list_elem_of_filter in H2 as [H2 _]. contradiction.
Qed.

Lemma foldr_moveToFront reg acts :
  NoDup acts -> NoDup reg ->
  foldr moveToFront reg acts
  = (filter (fun n => n ∈ reg) acts ++ filter (fun n => n ∉ acts) reg)%list.
Proof.
  intros Ha Hr. induction Ha as [|a acts Hna Ha IH].
  - cbn. symmetry. apply filter_all. intros x _. apply not_elem_of_nil.
  - cbn [foldr]. rewrite IH. unfold moveToFront.
    assert (Hnd := moved_NoDup reg acts Ha Hr).
    destruct (decide (a ∈ reg)) as [Hin|Hnin].
    + rewrite bool_decide_eq_true_2.
      2:{ apply elem_of_app. right. apply list_elem_of_filter. split; assumption. }
      rewrite filter_cons_True by exact Hin. cbn. f_equal.
      rewrite (remove_name_filter a _ Hnd), filter_app. f_equal.
      * rewrite list_filter_filter. apply filter_agree.
        intros x Hx. split; [tauto|].
        intros Hxr. split; [|exact Hxr]. intros ->. contradiction.
      * rewrite list_filter_filter. apply list_filter_iff. intros x.
        rewrite not_elem_of_cons. tauto.
    + rewrite bool_decide_eq_false_2.
      2:{ rewrite elem_of_app, !list_elem_of_filter. tauto. }
      rewrite filter_cons_False by exact Hnin. f_equal.
      apply filter_agree. intros x Hx.
      rewrite not_elem_of_cons. split; [intros Hxa|tauto]. split; [|exact Hxa].
      intros ->. contradiction.
Qed.

Lemma moved_Permutation reg acts :
  NoDup acts -> NoDup reg ->
  (filter (fun n => n ∈ reg) acts ++ filter (fun n => n ∉ acts) reg)%list ≡ₚ reg.
Proof.
  intros Ha Hr. apply NoDup_Permutation; [now apply moved_NoDup | exact Hr|].
  intros x. rewrite elem_of_app, !list_elem_of_filter.
  destruct (decide (x ∈ acts)); tauto.
Qed.

End ClassOrder.

(** X7.  [parseClassPrio] with class names that are all different, on
    registered classes that are all different, puts the registered ones of
    the names first, in the order given, and the other registered classes
    behind them in the order they had; names that are not registered are
    ignored.  The registered classes are the same, and the active classes are
    the active ones of before in the new order. *)
Theorem parseClassPrio_named_first (acts : list string) (s : Sim) :
  NoDup acts -> NoDup (schedClassPrioRegistered s) ->
  let reg := schedClassPrioRegistered s in
  let s' := parseClassPrio acts s in
  schedClassPrioRegistered s'
  = (filter (fun n => n ∈ reg) acts ++ filter (fun n => n ∉ acts) reg)%list /\
  schedClassPrioRegistered s' ≡ₚ reg /\
  schedClassPrio s' = filter (fun n => n ∈ schedClassPrio s) (schedClassPrioRegistered s') /\
  (NoDup (schedClassPrio s) -> schedClassPrio s ⊆ reg ->
   schedClassPrio s' ≡ₚ schedClassPrio s).
Proof.
  intros Ha Hr reg s'.
  assert (Hreg : schedClassPrioRegistered s'
                 = (filter (fun n => n ∈ reg) acts ++ filter (fun n => n ∉ acts) reg)%list).
  { unfold s', parseClassPrio. cbn. now apply foldr_moveToFront. }
  assert (Hperm : schedClassPrioRegistered s' ≡ₚ reg).
  { rewrite Hreg. now apply moved_Permutation. }
  assert (Hact : schedClassPrio s'
                 = filter (fun n => n ∈ schedClassPrio s) (schedClassPrioRegistered s')).
  { reflexivity. }
  split; [exact Hreg|]. split; [exact Hperm|]. split; [exact Hact|].
  intros Hnd Hsub. rewrite Hact. apply NoDup_Permutation.
  - apply NoDup_filter. rewrite Hperm. exact Hr.
  - exact Hnd.
  - intros x. rewrite list_elem_of_filter, Hperm. split; [tauto|].
    intros Hx. split; [exact Hx | now apply Hsub].
Qed.

Lemma parseClassPrio_named_first_witness :
  let s := set_schedClassPrio ["FCFSClass"; "LinuxFairClass"]
             (freshSim ["FCFSClass"; "RoundClass"; "LinuxFairClass"] (fun _ => 0)) in
  let acts := ["LinuxFairClass"; "Nothing"; "FCFSClass"] in
  schedClassPrioRegistered (parseClassPrio acts s)
  = ["LinuxFairClass"; "FCFSClass"; "RoundClass"] /\
  schedClassPrio (parseClassPrio acts s) = ["LinuxFairClass"; "FCFSClass"] /\
  schedClassPrioRegistered (parseClassPrio acts s) ≡ₚ schedClassPrioRegistered s.
Proof.
  intros s acts.
  assert (Ha : NoDup acts) by (apply (bool_decide_unpack _); vm_compute; reflexivity).
  assert (Hr : NoDup (schedClassPrioRegistered s))
    by (apply (bool_decide_unpack _); vm_compute; reflexivity).
  split; [vm_compute; reflexivity|]. split; [vm_compute; reflexivity|].
  exact (proj1 (proj2 (parseClassPrio_named_first acts s Ha Hr))).
Defined.

(** * The first-come-first-served class *)

Section FCFS.

Implicit Types (s : Sim) (proc prev r : pref).

Lemma remove_first_notin proc (l : list pref) : proc ∉ l -> FCFSClass.remove_first proc l = l.
Proof.
  induction l as [|x l IH]; [reflexivity|]. intros Hn. cbn.
  apply not_elem_of_cons in Hn as [Hx Hl].
  rewrite pref_eqb_neq by congruence. now rewrite IH.
Qed.

Lemma remove_first_app proc (l : list pref) :
  proc ∉ l -> FCFSClass.remove_first proc (l ++ [proc]) = l.
Proof.
  induction l as [|x l IH]; cbn; [now rewrite pref_eqb_refl|]. intros Hn.
  apply not_elem_of_cons in Hn as [Hx Hl].
  rewrite pref_eqb_neq by congruence. now rewrite IH.
Qed.

Lemma remove_first_elem_of proc r (l : list pref) :
  r ∈ FCFSClass.remove_first proc l -> r ∈ l.
Proof.
  induction l as [|x l IH]; cbn; [easy|].
  destruct (pref_eqb x proc); [apply list_elem_of_further|].
  intros [->|H]%elem_of_cons; [apply list_elem_of_here | apply list_elem_of_further; auto].
Qed.

Lemma remove_first_NoDup proc (l : list pref) :
  NoDup l -> NoDup (FCFSClass.remove_first proc l) /\ proc ∉ FCFSClass.remove_first proc l.
Proof.
  induction 1 as [|x l Hx Hl [IH1 IH2]]; cbn; [split; [constructor | apply not_elem_of_nil]|].
  destruct (pref_eqb x proc) eqn:E.
  - apply pref_eqb_eq in E. subst x. auto.
  - split.
    + constructor; [|exact IH1]. intros Hin. apply Hx. eapply remove_first_elem_of, Hin.
    + apply not_elem_of_cons. split; [|exact IH2]. intros ->.
      now rewrite pref_eqb_refl in E.
Qed.

Lemma SchedClass_enqueue_spec proc s :
  match getProc proc s with
  | Ok p =>
      if alive p && negb (onRq p)
      then SchedClass_enqueue proc s
           = Ok (setProc proc (logEntry s LogEnqueue (set_onRq true p)) s)
      else is_ok (SchedClass_enqueue proc s) = false
  | Err _ => is_ok (SchedClass_enqueue proc s) = false
  end.
Proof.
  unfold SchedClass_enqueue, updProc. destruct (getProc proc s) as [p|]; [|reflexivity].
  cbn. destruct (alive p), (onRq p); reflexivity.
Qed.

Lemma SchedClass_dequeue_spec proc s :
  match getProc proc s with
  | Ok p =>
      if onRq p
      then SchedClass_dequeue proc s
           = Ok (setProc proc (logEntry s LogDequeue (set_onRq false p)) s)
      else is_ok (SchedClass_dequeue proc s) = false
  | Err _ => is_ok (SchedClass_dequeue proc s) = false
  end.
Proof.
  unfold SchedClass_dequeue, updProc. destruct (getProc proc s) as [p|]; [|reflexivity].
  cbn. destruct (onRq p); reflexivity.
Qed.

Lemma FCFS_enqueue_inv proc s s' :
  FCFSClass.enqueue proc s = Ok s' ->
  exists p, getProc proc s = Ok p /\ alive p = true /\ onRq p = false /\
    s' = set_fcfs (fcfs s ++ [proc])
           (setProc proc (logEntry s LogEnqueue (set_onRq true p)) s).
Proof.
  unfold FCFSClass.enqueue. intros H. pose proof (SchedClass_enqueue_spec proc s) as Hs.
  destruct (getProc proc s) as [p|]; [|destruct (SchedClass_enqueue proc s); discriminate].
  destruct (alive p) eqn:Ea, (onRq p) eqn:Er; cbn in Hs;
    try (destruct (SchedClass_enqueue proc s); discriminate).
  rewrite Hs in H. cbn in H. injection H as <-. eauto 6.
Qed.

Lemma FCFS_dequeue_inv proc s s' :
  FCFSClass.dequeue proc s = Ok s' ->
  exists p, getProc proc s = Ok p /\ onRq p = true /\
    s' = set_fcfs (FCFSClass.remove_first proc (fcfs s))
           (setProc proc (logEntry s LogDequeue (set_onRq false p)) s).
Proof.
  unfold FCFSClass.dequeue. intros H. pose proof (SchedClass_dequeue_spec proc s) as Hs.
  destruct (getProc proc s) as [p|]; [|destruct (SchedClass_dequeue proc s); discriminate].
  destruct (onRq p) eqn:Er; cbn in Hs;
    try (destruct (SchedClass_dequeue proc s); discriminate).
  rewrite Hs in H. cbn in H. injection H as <-. eauto 6.
Qed.

Lemma getProc_set_fcfs r l s : getProc r (set_fcfs l s) = getProc r s.
Proof. now apply getProc_ext. Qed.

Lemma getProc_setProc r0 r p0 q s :
  getProc r0 s = Ok p0 ->
  getProc r (setProc r0 q s) = if pref_eqb r0 r then Ok q else getProc r s.
Proof.
  intros H0. destruct (pref_eq_dec r0 r) as [<-|Hne].
  - rewrite pref_eqb_refl. apply getProc_setProc_same. now rewrite H0.
  - rewrite (pref_eqb_neq _ _ Hne). now apply getProc_setProc_other.
Qed.

Lemma FCFS_enqueue_ok proc s s' : fcfs_ok s -> FCFSClass.enqueue proc s = Ok s' -> fcfs_ok s'.
Proof.
  intros [Hnd Hrq] H. apply FCFS_enqueue_inv in H as (p & Hp & _ & Hr & ->).
  assert (Hnin : proc ∉ fcfs s).
  { intros Hin. destruct (Hrq _ Hin) as (p' & Hp' & Hon). congruence. }
  split; cbn.
  - apply NoDup_app. split; [exact Hnd|]. split; [|apply NoDup_singleton].
    intros x Hx ->%list_elem_of_singleton. contradiction.
  - intros r Hin. rewrite getProc_set_fcfs, (getProc_setProc _ _ _ _ _ Hp).
    destruct (pref_eqb proc r) eqn:E; [eauto|].
    apply elem_of_app in Hin as [Hin | ->%list_elem_of_singleton]; [now apply Hrq|].
    now rewrite pref_eqb_refl in E.
Qed.

Lemma FCFS_dequeue_ok proc s s' : fcfs_ok s -> FCFSClass.dequeue proc s = Ok s' -> fcfs_ok s'.
Proof.
  intros [Hnd Hrq] H. apply FCFS_dequeue_inv in H as (p & Hp & Hr & ->).
  destruct (remove_first_NoDup proc _ Hnd) as [Hnd' Hnin].
  split; cbn; [exact Hnd'|].
  intros r Hin. rewrite getProc_set_fcfs, (getProc_setProc _ _ _ _ _ Hp).
  destruct (pref_eqb proc r) eqn:E.
  - apply pref_eqb_eq in E. subst r. contradiction.
  - apply Hrq. eapply remove_first_elem_of, Hin.
Qed.

End FCFS.

(** X8.  The runqueue of the first-come-first-served class stays well
    formed: when it holds no process twice and only processes that are marked
    as on a runqueue, then it does so after an [enqueue] or a [dequeue] that
    returns. *)
Theorem FCFS_runqueue_stays_well_formed (proc : pref) (s s' : Sim) :
  fcfs_ok s ->
  FCFSClass.enqueue proc s = Ok s' \/ FCFSClass.dequeue proc s = Ok s' ->
  fcfs_ok s'.
Proof.
  intros Hok [H|H]; [eapply FCFS_enqueue_ok | eapply FCFS_dequeue_ok]; eassumption.
Qed.

Lemma FCFS_runqueue_stays_well_formed_witness :
  let s := the exampleSim (stepped twoFcfsConf 3) in
  let s' := the s (FCFSClass.enqueue (Pid 0) s) in
  fcfs_ok s /\ FCFSClass.enqueue (Pid 0) s = Ok s' /\
  fcfs s = [Pid 1] /\ fcfs s' = [Pid 1; Pid 0] /\ fcfs_ok s'.
Proof.
  intros s s'.
  assert (Hf : fcfs s = [Pid 1]) by (vm_compute; reflexivity).
  assert (Hp : exists p, getProc (Pid 1) s = Ok p /\ onRq p = true)
    by (eexists; split; vm_compute; reflexivity).
  assert (He : FCFSClass.enqueue (Pid 0) s = Ok s') by (vm_compute; reflexivity).
  assert (Hf' : fcfs s' = [Pid 1; Pid 0]) by (vm_compute; reflexivity).
  clearbody s s'.
  assert (Hok : fcfs_ok s).
  { split; rewrite Hf; [apply NoDup_singleton|].
    intros r ->%list_elem_of_singleton. exact Hp. }
  split; [exact Hok|]. split; [exact He|]. split; [exact Hf|]. split; [exact Hf'|].
  exact (FCFS_runqueue_stays_well_formed (Pid 0) s s' Hok (or_introl He)).
Defined.

(** X9.  First come, first served: [enqueue] puts the process at the end of
    the runqueue, and the [pickNext] that follows returns the process at the
    front, that is the process that was there first, or the new one when the
    runqueue was empty; it leaves the runqueue as it is. *)
Theorem FCFS_picks_the_first_come (proc prev : pref) (s s1 s2 : Sim) (next : option pref) :
  FCFSClass.enqueue proc s = Ok s1 ->
  FCFSClass.pickNext (putPrev builtin) prev s1 = Ok (next, s2) ->
  next = Some (default proc (head (fcfs s))) /\ fcfs s2 = (fcfs s ++ [proc])%list.
Proof.
  intros He Hp. apply FCFS_enqueue_inv in He as (p & _ & _ & _ & ->).
  unfold FCFSClass.pickNext in Hp.
  destruct (SchedClass_pickNext FCFSClass.name _) as [s3|] eqn:E3; [|discriminate].
  cbn [rbind] in Hp.
  assert (Hf : fcfs s3 = (fcfs s ++ [proc])%list).
  { unfold SchedClass_pickNext in E3. destruct (calledPutPrev _); [discriminate|].
    unfold SchedClass_updateLatency in E3. apply updClass_inv in E3 as (o & _ & ->).
    reflexivity. }
  rewrite Hf in Hp. rewrite length_app in Hp. cbn [length] in Hp.
  replace (0 <? length (fcfs s) + 1)%nat with true in Hp
    by (symmetry; apply Nat.ltb_lt; lia).
  destruct (putPrev builtin prev s3) as [s4|] eqn:E4; [|discriminate].
  cbn [rbind] in Hp. injection Hp as <- <-.
  rewrite (putPrev_builtin_fcfs _ _ _ E4), Hf. split; [|reflexivity].
  now destruct (fcfs s).
Qed.

Lemma FCFS_picks_the_first_come_witness :
  let s := set_calledPutPrev false (the exampleSim (stepped twoFcfsConf 3)) in
  let s1 := the s (FCFSClass.enqueue (Pid 0) s) in
  let r := the (None, s1) (FCFSClass.pickNext (putPrev builtin) (Pid 1) s1) in
  FCFSClass.enqueue (Pid 0) s = Ok s1 /\
  FCFSClass.pickNext (putPrev builtin) (Pid 1) s1 = Ok r /\
  fcfs s = [Pid 1] /\ r.1 = Some (Pid 1) /\ fcfs r.2 = [Pid 1; Pid 0].
Proof.
  intros s s1 r.
  assert (Hf : fcfs s = [Pid 1]) by (vm_compute; reflexivity).
  assert (He : FCFSClass.enqueue (Pid 0) s = Ok s1) by (vm_compute; reflexivity).
  assert (Hp : FCFSClass.pickNext (putPrev builtin) (Pid 1) s1 = Ok (r.1, r.2))
    by (vm_compute; reflexivity).
  clearbody s s1 r.
  destruct (FCFS_picks_the_first_come (Pid 0) (Pid 1) s s1 r.2 r.1 He Hp) as [Hn Hq].
  rewrite Hf in Hn, Hq. destruct r as [next s2]. cbn in *. auto.
Defined.

(** X10.  A process that is enqueued in the first-come-first-served class
    and dequeued again leaves the runqueue and the other processes as they
    were; the process itself is as before but for the two entries in its
    execution log.  The runqueue is well formed before. *)
Theorem FCFS_enqueue_dequeue_round_trip (proc : pref) (s s1 : Sim) :
  fcfs_ok s -> FCFSClass.enqueue proc s = Ok s1 ->
  exists s2 p,
    FCFSClass.dequeue proc s1 = Ok s2 /\ fcfs s2 = fcfs s /\
    (forall r, r <> proc -> getProc r s2 = getProc r s) /\
    getProc proc s = Ok p /\
    getProc proc s2
    = Ok (set_execLog (execLog p ++ [mkLogEntry (simulationTime s) LogEnqueue;
                                     mkLogEntry (simulationTime s) LogDequeue]) p).
Proof.
  intros [Hnd Hrq] He. apply FCFS_enqueue_inv in He as (p & Hp & _ & Hr & ->).
  assert (Hnin : proc ∉ fcfs s).
  { intros Hin. destruct (Hrq _ Hin) as (p' & Hp' & Hon). congruence. }
  set (p1 := logEntry s LogEnqueue (set_onRq true p)).
  set (s1 := set_fcfs (fcfs s ++ [proc]) (setProc proc p1 s)).
  assert (Hp1 : getProc proc s1 = Ok p1).
  { unfold s1. rewrite getProc_set_fcfs. apply getProc_setProc_same. now rewrite Hp. }
  pose proof (SchedClass_dequeue_spec proc s1) as Hd. rewrite Hp1 in Hd.
  change (onRq p1) with true in Hd. cbn match in Hd.
  exists (set_fcfs (FCFSClass.remove_first proc (fcfs s1))
            (setProc proc (logEntry s1 LogDequeue (set_onRq false p1)) s1)), p.
  split; [unfold FCFSClass.dequeue; now rewrite Hd|].
  split; [cbn; now apply remove_first_app|].
  split.
  - intros r Hne. rewrite getProc_set_fcfs, getProc_setProc_other by congruence.
    unfold s1. rewrite getProc_set_fcfs. apply getProc_setProc_other. congruence.
  - split; [exact Hp|]. rewrite getProc_set_fcfs.
    rewrite getProc_setProc_same by now rewrite Hp1. f_equal.
    unfold p1, logEntry. destruct p. cbn in *. subst. now rewrite <- app_assoc.
Qed.

Lemma FCFS_enqueue_dequeue_round_trip_witness :
  let s := the exampleSim (stepped twoFcfsConf 3) in
  let s1 := the s (FCFSClass.enqueue (Pid 0) s) in
  fcfs_ok s /\ FCFSClass.enqueue (Pid 0) s = Ok s1 /\
  exists s2, FCFSClass.dequeue (Pid 0) s1 = Ok s2 /\ fcfs s2 = fcfs s /\
    getProc (Pid 1) s2 = getProc (Pid 1) s.
Proof.
  intros s s1.
  assert (Hf : fcfs s = [Pid 1]) by (vm_compute; reflexivity).
  assert (Hp : exists p, getProc (Pid 1) s = Ok p /\ onRq p = true)
    by (eexists; split; vm_compute; reflexivity).
  assert (He : FCFSClass.enqueue (Pid 0) s = Ok s1) by (vm_compute; reflexivity).
  clearbody s s1.
  assert (Hok : fcfs_ok s).
  { split; rewrite Hf; [apply NoDup_singleton|].
    intros r ->%list_elem_of_singleton. exact Hp. }
  split; [exact Hok|]. split; [exact He|].
  destruct (FCFS_enqueue_dequeue_round_trip (Pid 0) s s1 Hok He)
    as (s2 & p & Hd & Hq & Hother & _).
  exists s2. split; [exact Hd|]. split; [exact Hq|]. now apply Hother.
Defined.

(** X11.  The guards of [enqueue] and [dequeue] of the first-come-first-served
    class, which are those of the base class: [enqueue] returns exactly for a
    process that is alive and not on a runqueue, [dequeue] exactly for a
    process that is on a runqueue; otherwise they throw. *)
Theorem FCFS_enqueue_dequeue_guards (proc : pref) (s : Sim) :
  (is_ok (FCFSClass.enqueue proc s) = true <->
   exists p, getProc proc s = Ok p /\ alive p = true /\ onRq p = false) /\
  (is_ok (FCFSClass.dequeue proc s) = true <->
   exists p, getProc proc s = Ok p /\ onRq p = true).
Proof.
  split; split.
  - destruct (FCFSClass.enqueue proc s) as [s'|] eqn:E; [|discriminate]. intros _.
    apply FCFS_enqueue_inv in E as (p & ? & ? & ? & _). eauto.
  - intros (p & Hp & Ha & Hr). unfold FCFSClass.enqueue.
    pose proof (SchedClass_enqueue_spec proc s) as Hs. rewrite Hp, Ha, Hr in Hs.
    cbn in Hs. now rewrite Hs.
  - destruct (FCFSClass.dequeue proc s) as [s'|] eqn:E; [|discriminate]. intros _.
    apply FCFS_dequeue_inv in E as (p & ? & ? & _). eauto.
  - intros (p & Hp & Hr). unfold FCFSClass.dequeue.
    pose proof (SchedClass_dequeue_spec proc s) as Hs. rewrite Hp, Hr in Hs.
    now rewrite Hs.
Qed.

(** * The weights of the fair class *)

Section Weights.

Import LinuxFairClass.

Lemma sorted_lookup {A} (R : A -> A -> Prop) (l : list A) (i j : nat) (a b : A) :
  StronglySorted R l -> l !! i = Some a -> l !! j = Some b -> (i < j)%nat -> R a b.
Proof.
  intros Hs. revert i j. induction Hs as [|x l Hs IH Hall]; intros i j Hi Hj Hlt.
  - discriminate.
  - destruct j as [|j]; [lia|]. cbn in Hj. destruct i as [|i].
    + injection Hi as <-. rewrite Forall_forall in Hall. apply Hall.
      eapply list_elem_of_lookup_2, Hj.
    + cbn in Hi. eapply IH; eauto. lia.
Qed.

Lemma schedPrioToWeight_sorted : StronglySorted Z.gt schedPrioToWeight.
Proof. unfold schedPrioToWeight. repeat (constructor; [|repeat constructor; lia]). constructor. Qed.

Lemma schedPrioToWeight_range : Forall (fun w => 15 <= w <= 88761) schedPrioToWeight.
Proof. unfold schedPrioToWeight. repeat constructor; lia. Qed.

Lemma getLoad_inv z w :
  getLoad (Some (PrioNum z)) = Ok w ->
  -20 <= z <= 19 /\ schedPrioToWeight !! Z.to_nat (z + 20) = Some w.
Proof.
  unfold getLoad. destruct (z <? -20) eqn:E1; [discriminate|].
  destruct (z >? 19) eqn:E2; [discriminate|]. cbn [orb].
  destruct (schedPrioToWeight !! Z.to_nat (z + 20)) as [w0|]; [|discriminate].
  intros [= ->]. split; [lia | reflexivity].
Qed.

Lemma getLoad_ok z :
  -20 <= z <= 19 -> exists w, getLoad (Some (PrioNum z)) = Ok w.
Proof.
  intros Hz. unfold getLoad.
  replace (z <? -20) with false by lia. replace (z >? 19) with false by lia. cbn [orb].
  destruct (schedPrioToWeight !! Z.to_nat (z + 20)) as [w|] eqn:E; [eauto|].
  apply lookup_ge_None in E. cbn in E. lia.
Qed.

Lemma getLoad_range z w : getLoad (Some (PrioNum z)) = Ok w -> 15 <= w <= 88761.
Proof.
  intros (_ & H)%getLoad_inv. pose proof schedPrioToWeight_range as Hr.
  rewrite Forall_forall in Hr. eapply Hr, list_elem_of_lookup_2, H.
Qed.

Lemma getLoad_lt z z' w w' :
  getLoad (Some (PrioNum z)) = Ok w -> getLoad (Some (PrioNum z')) = Ok w' ->
  z < z' -> w' < w.
Proof.
  intros (Hz & H)%getLoad_inv (Hz' & H')%getLoad_inv Hlt.
  apply Z.gt_lt. eapply (sorted_lookup Z.gt _ _ _ _ _ schedPrioToWeight_sorted H H'). lia.
Qed.

Lemma getLoad_zero : getLoad (Some (PrioNum 0)) = Ok 1024.
Proof. reflexivity. Qed.

End Weights.

Section DeltaFair.

Import LinuxFairClass.

Lemma scaled_pos (delta w : Z) :
  0 < delta -> 0 < w -> (0 < inject_Z delta * 1024 / inject_Z w)%Q.
Proof.
  intros Hd Hw. destruct w as [|w|w]; try lia.
  unfold Qlt, Qdiv, Qinv, Qmult, inject_Z. cbn. nia.
Qed.

Lemma scaled_lt (delta w : Z) :
  0 < delta -> 1024 < w -> (inject_Z delta * 1024 / inject_Z w < inject_Z delta)%Q.
Proof.
  intros Hd Hw. destruct w as [|w|w]; try lia.
  unfold Qlt, Qdiv, Qinv, Qmult, inject_Z. cbn. nia.
Qed.

Lemma scaled_gt (delta w : Z) :
  0 < delta -> 0 < w < 1024 -> (inject_Z delta < inject_Z delta * 1024 / inject_Z w)%Q.
Proof.
  intros Hd Hw. destruct w as [|w|w]; try lia.
  unfold Qlt, Qdiv, Qinv, Qmult, inject_Z. cbn. nia.
Qed.

Lemma scaled_same (delta : Z) :
  (inject_Z delta * 1024 / inject_Z 1024 == inject_Z delta)%Q.
Proof. unfold Qeq, Qdiv, Qinv, Qmult, inject_Z. cbn. lia. Qed.

Lemma calcDeltaFairQ_spec delta p cb z w :
  currBehavior p = Ok cb -> Behavior.priority cb = Some (PrioNum z) ->
  getLoad (Some (PrioNum z)) = Ok w ->
  exists q, calcDeltaFairQ delta p = Ok q /\
            (q == inject_Z delta * 1024 / inject_Z w)%Q.
Proof.
  intros Hcb Hprio Hw. unfold calcDeltaFairQ, calcDeltaFair. rewrite Hcb. cbn [rbind].
  rewrite Hprio. destruct (Z.eq_dec z 0) as [->|Hz].
  - cbn. exists (inject_Z delta). split; [reflexivity|].
    rewrite getLoad_zero in Hw. injection Hw as <-. symmetry. apply scaled_same.
  - replace (isZeroPrio (Some (PrioNum z))) with false by (now destruct z).
    rewrite getLoad_zero, Hw. cbn [rbind]. unfold calcDelta, jsmul, jsdiv.
    apply getLoad_range in Hw.
    replace (Qsign (inject_Z w)) with Gt.
    2:{ symmetry. unfold Qsign. apply Qgt_alt. unfold Qlt. cbn. lia. }
    eexists. split; [reflexivity|]. reflexivity.
Qed.

End DeltaFair.

(** X12.  [getLoad] returns a weight only for a priority from -20 to 19.  The
    weights lie between 15 and 88761 and a higher priority number has a
    strictly lower weight. *)
Theorem getLoad_weights_decrease (z z' w w' : Z) :
  LinuxFairClass.getLoad (Some (PrioNum z)) = Ok w ->
  LinuxFairClass.getLoad (Some (PrioNum z')) = Ok w' ->
  z < z' ->
  -20 <= z /\ z' <= 19 /\ 15 <= w' /\ w' < w /\ w <= 88761.
Proof.
  intros H H' Hlt.
  pose proof (getLoad_inv _ _ H) as [Hz _]. pose proof (getLoad_inv _ _ H') as [Hz' _].
  pose proof (getLoad_range _ _ H). pose proof (getLoad_range _ _ H').
  pose proof (getLoad_lt _ _ _ _ H H' Hlt). lia.
Qed.

Lemma getLoad_weights_decrease_witness :
  LinuxFairClass.getLoad (Some (PrioNum (-20))) = Ok 88761 /\
  LinuxFairClass.getLoad (Some (PrioNum 19)) = Ok 15 /\
  is_ok (LinuxFairClass.getLoad (Some (PrioNum 20))) = false /\
  (-20 <= -20 /\ 19 <= 19 /\ 15 <= 15 /\ 15 < 88761 /\ 88761 <= 88761).
Proof.
  split; [reflexivity|]. split; [reflexivity|]. split; [reflexivity|].
  apply (getLoad_weights_decrease (-20) 19 88761 15); [reflexivity | reflexivity | lia].
Defined.

(** X13.  [calcDeltaFair] scales a time by the weight of the priority 0 over
    the weight of the priority of the process: for a process of a priority
    from -20 to 19 the result is [delta * 1024 / weight].  A positive time
    stays positive; it shrinks for a priority under 0, grows for a priority
    over 0 and is the same at the priority 0. *)
Theorem calcDeltaFair_scales_by_weight (delta : Z) (p : Process) (cb : Behavior.t) (z : Z) :
  currBehavior p = Ok cb -> Behavior.priority cb = Some (PrioNum z) ->
  -20 <= z <= 19 ->
  exists w q,
    LinuxFairClass.getLoad (Some (PrioNum z)) = Ok w /\
    LinuxFairClass.calcDeltaFairQ delta p = Ok q /\
    (q == inject_Z delta * 1024 / inject_Z w)%Q /\
    (0 < delta ->
     (0 < q)%Q /\
     (z < 0 -> (q < inject_Z delta)%Q) /\
     (z = 0 -> (q == inject_Z delta)%Q) /\
     (0 < z -> (inject_Z delta < q)%Q)).
Proof.
  intros Hcb Hprio Hz. destruct (getLoad_ok z Hz) as [w Hw].
  destruct (calcDeltaFairQ_spec delta p cb z w Hcb Hprio Hw) as (q & Hq & Heq).
  exists w, q. split; [exact Hw|]. split; [exact Hq|]. split; [exact Heq|].
  intros Hd. pose proof (getLoad_range _ _ Hw) as Hr.
  split; [rewrite Heq; apply scaled_pos; lia|]. split; [|split].
  - intros Hneg. rewrite Heq. apply scaled_lt; [exact Hd|].
    apply (getLoad_lt z 0 w 1024 Hw getLoad_zero Hneg).
  - intros ->. rewrite getLoad_zero in Hw. injection Hw as <-. rewrite Heq.
    apply scaled_same.
  - intros Hpos. rewrite Heq. apply scaled_gt; [exact Hd|]. split; [lia|].
    apply (getLoad_lt 0 z 1024 w getLoad_zero Hw Hpos).
Qed.

Lemma calcDeltaFair_scales_by_weight_witness :
  let cb := Behavior.mk (Some (PrioNum (-5))) (Some (PNum 10)) (Some (PNum 5))
              None None None false false in
  let p := set_behavior [cb] (newProcess 0 "p") in
  -20 <= -5 <= 19 /\
  exists q, LinuxFairClass.calcDeltaFairQ 3121 p = Ok q /\
            (q == 1024)%Q /\ (q < inject_Z 3121)%Q.
Proof.
  intros cb p. split; [lia|].
  destruct (calcDeltaFair_scales_by_weight 3121 p cb (-5) eq_refl eq_refl ltac:(lia))
    as (w & q & Hw & Hq & Heq & Hpos).
  vm_compute in Hw. injection Hw as <-.
  exists q. split; [exact Hq|]. split.
  - rewrite Heq. reflexivity.
  - apply Hpos; lia.
Defined.

(** * The accounting of the fair class *)

Section UpdateCurr.

Import LinuxFairClass.

Lemma calcDeltaFairQ_pos delta p d :
  calcDeltaFairQ delta p = Ok d -> 0 < delta -> (0 < d)%Q.
Proof.
  unfold calcDeltaFairQ, calcDeltaFair. intros H Hd.
  destruct (currBehavior p) as [cb|]; [|discriminate]. cbn [rbind] in H.
  destruct (isZeroPrio (Behavior.priority cb)).
  - cbn in H. injection H as <-. unfold Qlt. cbn. lia.
  - rewrite getLoad_zero in H. cbn [rbind] in H.
    destruct (getLoad (Behavior.priority cb)) as [w|] eqn:Hw; [|discriminate].
    cbn [rbind] in H.
    destruct (Behavior.priority cb) as [[z| |]|]; try discriminate.
    apply getLoad_range in Hw. unfold calcDelta, jsmul, jsdiv in H.
    replace (Qsign (inject_Z w)) with Gt in H.
    2:{ symmetry. unfold Qsign. apply Qgt_alt. unfold Qlt. cbn. lia. }
    injection H as <-. apply scaled_pos; lia.
Qed.

Lemma updateMinVruntime_getProc proc s s' :
  updateMinVruntime proc s = Ok s' -> forall r, getProc r s' = getProc r s.
Proof.
  unfold updateMinVruntime. intros H r.
  destruct (getProc proc s) as [p|]; cbn [rbind] in H; [|discriminate].
  match type of H with rbind ?m _ = _ => destruct m as [v|]; cbn [rbind] in H; [|discriminate] end.
  injection H as <-. now apply getProc_ext.
Qed.

Lemma updateCurr_cases proc s s' :
  updateCurr proc s = Ok s' ->
  exists p, getProc proc s = Ok p /\
    ((schedClass p <> Cls name \/ simulationTime s <= updated p) /\ s' = s \/
     schedClass p = Cls name /\ updated p < simulationTime s /\
     exists d, (0 < d)%Q /\
       getProc proc s'
       = Ok (set_vruntime (vruntime p + d)%Q (set_updated (simulationTime s) p)) /\
       forall r, r <> proc -> getProc r s' = getProc r s).
Proof.
  unfold updateCurr. intros H.
  destruct (getProc proc s) as [p|] eqn:Hp; [|discriminate]. cbn [rbind] in H.
  exists p. split; [reflexivity|].
  destruct (clsref_eqb (schedClass p) (Cls name)) eqn:Ec; cbn [negb] in H.
  2:{ injection H as <-. left. split; [|reflexivity]. left. intros Hc.
      rewrite Hc in Ec. now rewrite (proj2 (clsref_eqb_eq _ _) eq_refl) in Ec. }
  apply clsref_eqb_eq in Ec.
  destruct (simulationTime s - updated p <=? 0) eqn:Ed.
  { injection H as <-. left. split; [right; lia | reflexivity]. }
  right. split; [exact Ec|]. split; [lia|].
  rewrite (updProc_ok _ _ _ _ Hp) in H. cbn [rbind] in H.
  set (p1 := set_updated (simulationTime s) p) in *.
  set (s1 := setProc proc p1 s) in *.
  assert (Hp1 : getProc proc s1 = Ok p1).
  { apply getProc_setProc_same. now rewrite Hp. }
  rewrite Hp1 in H. cbn [rbind] in H.
  destruct (calcDeltaFairQ _ p1) as [d|] eqn:Hd; [|discriminate]. cbn [rbind] in H.
  rewrite (updProc_ok _ _ _ _ Hp1) in H. cbn [rbind] in H.
  exists d. split; [eapply calcDeltaFairQ_pos; [exact Hd | lia]|].
  split.
  - rewrite (updateMinVruntime_getProc _ _ _ H). apply getProc_setProc_same. now rewrite Hp1.
  - intros r Hne. rewrite (updateMinVruntime_getProc _ _ _ H).
    rewrite getProc_setProc_other by congruence. apply getProc_setProc_other. congruence.
Qed.

End UpdateCurr.

(** X14.  [updateCurr] never takes virtual runtime away.  For a process of
    the fair class that was last brought up to date before the current time
    it sets [updated] to the current time and adds a positive amount to the
    [vruntime] of the process; in every other case, and for every other
    process, the process is left as it is. *)
Theorem updateCurr_vruntime_never_decreases (proc : pref) (s s' : Sim) :
  LinuxFairClass.updateCurr proc s = Ok s' ->
  forall r p, getProc r s = Ok p ->
    exists p', getProc r s' = Ok p' /\ (vruntime p <= vruntime p')%Q /\
      (r <> proc \/ schedClass p <> Cls LinuxFairClass.name \/
       simulationTime s <= updated p -> p' = p) /\
      (r = proc -> schedClass p = Cls LinuxFairClass.name ->
       updated p < simulationTime s ->
       updated p' = simulationTime s /\ (vruntime p < vruntime p')%Q).
Proof.
  intros H r p Hr. apply updateCurr_cases in H as (p0 & Hp0 & [[Hcase ->] | Hcase]).
  - exists p. split; [exact Hr|]. split; [apply Qle_refl|]. split; [reflexivity|].
    intros -> Hc Hu. rewrite Hr in Hp0. injection Hp0 as <-. destruct Hcase; [contradiction|lia].
  - destruct Hcase as (Hc & Hu & d & Hd & Hproc & Hother).
    destruct (pref_eq_dec r proc) as [->|Hne].
    + rewrite Hr in Hp0. injection Hp0 as <-. eexists. split; [exact Hproc|].
      cbn. assert (Hlt : (vruntime p < vruntime p + d)%Q).
      { rewrite <- (Qplus_0_r (vruntime p)) at 1. apply Qplus_lt_r. exact Hd. }
      split; [now apply Qlt_le_weak|]. split.
      * intros [Hn | [Hn | Hn]]; [contradiction | contradiction | lia].
      * intros _ _ _. split; [reflexivity | exact Hlt].
    + exists p. rewrite (Hother r Hne). split; [exact Hr|]. split; [apply Qle_refl|].
      split; [reflexivity|]. intros ->. contradiction.
Qed.

Lemma updateCurr_vruntime_never_decreases_witness :
  let s := set_simulationTime 50 (the exampleSim (stepped fairConf 2)) in
  let s' := the s (LinuxFairClass.updateCurr (Pid 1) s) in
  let p := the (idle s) (getProc (Pid 1) s) in
  LinuxFairClass.updateCurr (Pid 1) s = Ok s' /\ getProc (Pid 1) s = Ok p /\
  exists p', getProc (Pid 1) s' = Ok p' /\ (vruntime p <= vruntime p')%Q /\
    (vruntime p' == 49)%Q.
Proof.
  intros s s' p.
  assert (H : LinuxFairClass.updateCurr (Pid 1) s = Ok s') by (vm_compute; reflexivity).
  assert (Hp : getProc (Pid 1) s = Ok p) by (vm_compute; reflexivity).
  assert (Hv : forall p', getProc (Pid 1) s' = Ok p' -> (vruntime p' == 49)%Q).
  { intros p'. vm_compute. intros [= <-]. reflexivity. }
  clearbody s s' p.
  destruct (updateCurr_vruntime_never_decreases (Pid 1) s s' H (Pid 1) p Hp)
    as (p' & Hp' & Hle & _).
  split; [exact H|]. split; [exact Hp|].
  exists p'. split; [exact Hp'|]. split; [exact Hle | exact (Hv p' Hp')].
Defined.

(** * The load statistics *)

Section Load.

Implicit Types (log evts : list Event) (acc : LoadAcc).

Lemma sorted_snoc {A} (R : A -> A -> Prop) (l : list A) (x : A) :
  StronglySorted R l -> Forall (fun y => R y x) l -> StronglySorted R (l ++ [x]).
Proof.
  induction 1 as [|y l Hs IH Hall]; intros Hx; cbn.
  - repeat constructor.
  - apply Forall_cons in Hx as [Hy Hx]. constructor; [now apply IH|].
    apply Forall_app. split; [exact Hall | now constructor].
Qed.

Lemma sorted_rev (l : list Z) : StronglySorted Z.le l -> StronglySorted Z.ge (rev l).
Proof.
  induction 1 as [|x l Hs IH Hall]; cbn; [constructor|].
  apply sorted_snoc; [exact IH|]. apply Forall_forall. intros y Hy.
  rewrite Forall_forall in Hall. apply Z.le_ge, Hall. apply list_elem_of_In.
  apply in_rev. now apply list_elem_of_In.
Qed.

(** A quotient of two times, the first within the second. *)
Lemma fraction_range (a b : Z) :
  0 <= a <= b -> 0 < b ->
  exists q, jsdiv (Num (inject_Z a)) (Num (inject_Z b)) = Num q /\ (0 <= q <= 1)%Q.
Proof.
  intros Ha Hb. unfold jsdiv.
  replace (Qsign (inject_Z b)) with Gt.
  2:{ symmetry. unfold Qsign. apply Qgt_alt. unfold Qlt. cbn. lia. }
  eexists. split; [reflexivity|]. destruct b as [|b|b]; try lia.
  unfold Qle, Qdiv, Qinv, Qmult, inject_Z. cbn. split; nia.
Qed.

Lemma averageLoad_inv T log :
  chronological log -> Forall (fun e => time e <= T) log ->
  let acc := foldr averageLoadStep (mkLoadAcc 0 0 T) log in
  acc_all acc = T - acc_timestamp acc /\
  0 <= acc_active acc <= acc_all acc /\
  acc_timestamp acc <= T /\
  (forall e, e ∈ log -> isPickEvent e = true -> acc_timestamp acc <= time e) /\
  (acc_timestamp acc = T \/
   exists e, e ∈ log /\ isPickEvent e = true /\ time e = acc_timestamp acc).
Proof.
  unfold chronological. induction log as [|e log IH]; intros Hs Hall.
  - cbn. split; [lia|]. split; [lia|]. split; [lia|]. split; [|now left].
    intros e He. now apply elem_of_nil in He.
  - rewrite fmap_cons in Hs. apply StronglySorted_inv in Hs as [Hs He].
    apply Forall_cons in Hall as [HeT Hall].
    specialize (IH Hs Hall). cbn zeta in IH. cbn [foldr]. cbn zeta.
    set (acc := foldr averageLoadStep (mkLoadAcc 0 0 T) log) in *.
    destruct IH as (I1 & I2 & I3 & I4 & I5).
    assert (Hle : forall x, x ∈ log -> time e <= time x).
    { intros x Hx. rewrite Forall_forall in He. apply He.
      apply list_elem_of_fmap. eauto. }
    unfold averageLoadStep. destruct (isPickEvent e) eqn:Ep.
    + assert (Hts : time e <= acc_timestamp acc).
      { destruct I5 as [-> | (x & Hx & _ & <-)]; [exact HeT | now apply Hle]. }
      cbn. split; [lia|]. split; [destruct (negb _); lia|]. split; [exact HeT|]. split.
      * intros x [->|Hx]%elem_of_cons _; [lia | now apply Hle].
      * right. exists e. split; [apply list_elem_of_here | auto].
    + split; [exact I1|]. split; [exact I2|]. split; [exact I3|]. split.
      * intros x [->|Hx]%elem_of_cons Hp; [congruence | now apply I4].
      * destruct I5 as [I5 | (x & Hx & Hp & Ht)]; [now left|].
        right. exists x. split; [now apply list_elem_of_further | auto].
Qed.

Lemma currLoadLoop_inv reqTime evts acc :
  StronglySorted Z.ge (time <$> evts) ->
  Forall (fun e => time e <= acc_timestamp acc) evts ->
  0 <= acc_active acc <= acc_all acc -> acc_all acc <= reqTime ->
  0 <= acc_active (currLoadLoop reqTime evts acc) <= acc_all (currLoadLoop reqTime evts acc) /\
  acc_all (currLoadLoop reqTime evts acc) <= reqTime.
Proof.
  revert acc. induction evts as [|e evts IH]; intros acc Hs Hall Hact Hreq; [cbn; lia|].
  rewrite fmap_cons in Hs. apply StronglySorted_inv in Hs as [Hs He].
  apply Forall_cons in Hall as [Hts Hall]. cbn [currLoadLoop].
  destruct (isPickEvent e); [|now apply IH].
  destruct (acc_all acc + acc_timestamp acc - time e <? reqTime) eqn:E.
  - apply IH; cbn; [exact Hs | | destruct (negb _); lia | lia].
    apply Forall_forall. intros x Hx. rewrite Forall_forall in He.
    apply Z.ge_le, He. apply list_elem_of_fmap. eauto.
  - cbn. destruct (negb _); lia.
Qed.

Lemma chronological_last log lastEvt :
  chronological log -> last log = Some lastEvt ->
  Forall (fun e => time e <= time lastEvt) log.
Proof.
  unfold chronological. intros Hs Hl. apply Forall_forall. intros e He.
  apply list_elem_of_lookup in He as [i Hi]. rewrite last_lookup in Hl.
  destruct (decide (i = pred (length log))) as [->|Hne]; [rewrite Hl in Hi; injection Hi as ->; lia|].
  apply lookup_lt_Some in Hi as Hlt.
  eapply (sorted_lookup Z.le (time <$> log) i (pred (length log))); [exact Hs | | | lia].
  - now rewrite list_lookup_fmap, Hi.
  - now rewrite list_lookup_fmap, Hl.
Qed.

Lemma fmap_rev {A B} (f : A -> B) (l : list A) : f <$> rev l = rev (f <$> l).
Proof. apply map_rev. Qed.

Lemma chronological_rev log lastEvt l' :
  chronological log -> log = (l' ++ [lastEvt])%list ->
  tail (rev log) = rev l' /\
  StronglySorted Z.ge (time <$> rev l') /\
  Forall (fun e => time e <= time lastEvt) (rev l').
Proof.
  unfold chronological. intros Hs ->. apply sorted_rev in Hs.
  rewrite fmap_app, !rev_app_distr in *. cbn in Hs |- *.
  apply StronglySorted_inv in Hs as [Hs Hall]. rewrite <- fmap_rev in Hs, Hall.
  split; [reflexivity|]. split; [exact Hs|].
  rewrite Forall_fmap in Hall. eapply Forall_impl; [exact Hall|]. cbn. intros; lia.
Qed.

End Load.

(** X15.  On an event log in the order of time [getAverageLoad] returns a
    number from 0 to 1 when the log has a pick event of a time before its
    last event; when it has none the division is 0 by 0 and the result is
    [NaN].  On an empty log it throws. *)
Theorem getAverageLoad_between_0_and_1 (s : Sim) :
  chronological (simEventLog s) ->
  match last (simEventLog s) with
  | None => is_ok (getAverageLoad s) = false
  | Some lastEvt =>
      let early e := isPickEvent e = true /\ time e < time lastEvt in
      ((exists e, e ∈ simEventLog s /\ early e) /\
       exists q, getAverageLoad s = Ok (Num q) /\ (0 <= q <= 1)%Q) \/
      ((forall e, e ∈ simEventLog s -> ~ early e) /\ getAverageLoad s = Ok NaN)
  end.
Proof.
  intros Hs. unfold getAverageLoad.
  destruct (last (simEventLog s)) as [lastEvt|] eqn:Hl; [|reflexivity].
  cbn [deref rbind]. cbv zeta.
  pose proof (averageLoad_inv (time lastEvt) _ Hs (chronological_last _ _ Hs Hl)) as Hinv.
  cbn zeta in Hinv.
  set (acc := foldr averageLoadStep _ _) in *.
  destruct Hinv as (I1 & I2 & I3 & I4 & I5).
  destruct (Z.eq_dec (acc_timestamp acc) (time lastEvt)) as [Heq|Hne].
  - right. split.
    + intros e He [Hp Ht]. specialize (I4 e He Hp). lia.
    + replace (acc_all acc) with 0 by lia. replace (acc_active acc) with 0 by lia.
      reflexivity.
  - left. split.
    + destruct I5 as [I5 | (e & He & Hp & Ht)]; [contradiction|].
      exists e. split; [exact He|]. split; [exact Hp | lia].
    + destruct (fraction_range (acc_active acc) (acc_all acc)) as (q & Hq & Hr); [lia | lia|].
      exists q. now rewrite Hq.
Qed.

Lemma getAverageLoad_between_0_and_1_witness :
  let s := the exampleSim (stepped twoFcfsConf 4) in
  chronological (simEventLog s) /\
  getAverageLoad s = Ok (Num (14 # 14)) /\
  exists q, getAverageLoad s = Ok (Num q) /\ (0 <= q <= 1)%Q.
Proof.
  intros s.
  assert (Ht : time <$> simEventLog s = [0; 0; 0; 0; 3; 10; 10; 14; 14])
    by (vm_compute; reflexivity).
  assert (Hl : exists e, last (simEventLog s) = Some e) by (eexists; vm_compute; reflexivity).
  assert (Hv : getAverageLoad s = Ok (Num (14 # 14))) by (vm_compute; reflexivity).
  clearbody s.
  assert (Hc : chronological (simEventLog s)).
  { unfold chronological. rewrite Ht. repeat (constructor; [|repeat constructor; lia]).
    constructor. }
  split; [exact Hc|]. split; [exact Hv|].
  pose proof (getAverageLoad_between_0_and_1 s Hc) as H.
  destruct Hl as [e Hl]. rewrite Hl in H.
  destruct H as [[_ H] | [_ H]]; [exact H | rewrite Hv in H; discriminate].
Defined.

(** X16.  On an event log in the order of time [getCurrLoad] of a time that
    is not negative returns a number from 0 to 1; on an empty log it
    throws. *)
Theorem getCurrLoad_between_0_and_1 (reqTime : Z) (s : Sim) :
  chronological (simEventLog s) -> 0 <= reqTime ->
  match last (simEventLog s) with
  | None => is_ok (getCurrLoad reqTime s) = false
  | Some _ => exists q, getCurrLoad reqTime s = Ok (Num q) /\ (0 <= q <= 1)%Q
  end.
Proof.
  intros Hs Hreq. unfold getCurrLoad.
  destruct (last (simEventLog s)) as [lastEvt|] eqn:Hl; [|reflexivity].
  cbn [deref rbind]. apply last_Some in Hl as [l' Hl'].
  destruct (chronological_rev _ _ _ Hs Hl') as (-> & Hsorted & Hall).
  pose proof (currLoadLoop_inv reqTime (rev l') (mkLoadAcc 0 0 (time lastEvt))
                Hsorted Hall ltac:(cbn; lia) ltac:(cbn; lia)) as [Hact Hle].
  set (acc := currLoadLoop _ _ _) in *.
  destruct (acc_all acc =? 0) eqn:E.
  - exists 0%Q. split; [reflexivity|]. split; [apply Qle_refl | discriminate].
  - destruct (fraction_range (acc_active acc) (acc_all acc)) as (q & Hq & Hr); [lia | lia|].
    exists q. now rewrite Hq.
Qed.

Lemma getCurrLoad_between_0_and_1_witness :
  let s := the exampleSim (stepped twoFcfsConf 4) in
  chronological (simEventLog s) /\ 0 <= 5 /\
  getCurrLoad 5 s = Ok (Num (5 # 5)) /\
  exists q, getCurrLoad 5 s = Ok (Num q) /\ (0 <= q <= 1)%Q.
Proof.
  intros s.
  assert (Ht : time <$> simEventLog s = [0; 0; 0; 0; 3; 10; 10; 14; 14])
    by (vm_compute; reflexivity).
  assert (Hl : exists e, last (simEventLog s) = Some e) by (eexists; vm_compute; reflexivity).
  assert (Hv : getCurrLoad 5 s = Ok (Num (5 # 5))) by (vm_compute; reflexivity).
  clearbody s.
  assert (Hc : chronological (simEventLog s)).
  { unfold chronological. rewrite Ht. repeat (constructor; [|repeat constructor; lia]).
    constructor. }
  split; [exact Hc|]. split; [lia|]. split; [exact Hv|].
  pose proof (getCurrLoad_between_0_and_1 5 s Hc ltac:(lia)) as H.
  destruct Hl as [e Hl]. rewrite Hl in H. exact H.
Defined.

(** * The latency of a scheduling class *)

(** X17.  [updateLatency] logs the latency that [getLatency] returns and
    does not change it: after the call the class is up to date at the current
    time, the last entry of its latency log is the value of [getLatency]
    before the call, and [getLatency] returns the same value. *)
Theorem updateLatency_logs_getLatency (name : string) (s s' : Sim) :
  SchedClass_updateLatency name s = Ok s' ->
  exists v c',
    SchedClass_getLatency name s = Ok v /\
    SchedClass_getLatency name s' = Ok v /\
    getClass (Cls name) s' = Ok c' /\
    last (SchedClass.latencyLog c') = Some v /\
    SchedClass.latencyUpdate c' = simulationTime s.
Proof.
  unfold SchedClass_updateLatency. intros H.
  apply updClass_inv in H as (c & Hc & ->).
  unfold SchedClass_getLatency. rewrite Hc, getClass_setClass_same. cbn [rbind].
  eexists _, _. split; [reflexivity|]. split; [|split; [reflexivity|]].
  - cbn. f_equal. lia.
  - cbn. split; [apply last_snoc | reflexivity].
Qed.

Lemma updateLatency_logs_getLatency_witness :
  let s := set_simulationTime 12 (the exampleSim (stepped twoFcfsConf 2)) in
  let s' := the s (SchedClass_updateLatency FCFSClass.name s) in
  SchedClass_updateLatency FCFSClass.name s = Ok s' /\
  SchedClass_getLatency FCFSClass.name s = Ok 9 /\
  SchedClass_getLatency FCFSClass.name s' = Ok 9.
Proof.
  intros s s'.
  assert (H : SchedClass_updateLatency FCFSClass.name s = Ok s') by (vm_compute; reflexivity).
  assert (Hv : SchedClass_getLatency FCFSClass.name s = Ok 9) by (vm_compute; reflexivity).
  clearbody s s'.
  destruct (updateLatency_logs_getLatency FCFSClass.name s s' H)
    as (v & c' & Hv1 & Hv2 & _).
  split; [exact H|]. split; [exact Hv|]. congruence.
Defined.

(** * The clock and the event log *)

Lemma log_grows_refl t l : log_grows t l l.
Proof. exists []. now rewrite app_nil_r. Qed.

Lemma log_grows_trans t l1 l2 l3 :
  log_grows t l1 l2 -> log_grows t l2 l3 -> log_grows t l1 l3.
Proof.
  intros (k1 & -> & H1) (k2 & -> & H2). exists (k1 ++ k2)%list.
  split; [now rewrite app_assoc | now apply Forall_app].
Qed.

Lemma log_grows_snoc t l l' e :
  log_grows t l l' -> time e = t -> log_grows t l (l' ++ [e]).
Proof.
  intros H He. eapply log_grows_trans; [exact H|]. exists [e]. split; [reflexivity|].
  now repeat constructor.
Qed.

Lemma clock_step_refl s : clock_step s s.
Proof. unfold clock_step. repeat split. apply log_grows_refl. Qed.

Lemma clock_step_trans s1 s2 s3 : clock_step s1 s2 -> clock_step s2 s3 -> clock_step s1 s3.
Proof.
  unfold clock_step.
  intros (Ha1 & Ha2 & Ha3 & ?&?&?&?&?&?&?) (Hb1 & Hb2 & Hb3 & ?&?&?&?&?&?&?).
  rewrite Ha1 in Hb3. split; [congruence|]. split; [congruence|].
  split; [eapply log_grows_trans; eassumption|]. repeat split; congruence.
Qed.

(** A chain of growing logs. *)
Ltac grows_done :=
  repeat first
    [ apply log_grows_refl
    | assumption
    | apply log_grows_snoc;
      [| solve [cbn; first [reflexivity | assumption | lia | congruence]] ]
    | eapply log_grows_trans; [|eassumption] ].

(** The end of a proof that a computation is a [clock_step]. *)
Ltac clock_done :=
  steps_inv; unfold clock_step, LinuxFairClass.upd in *; cbn in *;
  repeat match goal with H : _ /\ _ |- _ => destruct H end;
  repeat match goal with
         | H : simulationTime ?x = _ |- _ => is_var x; rewrite H in *; clear H
         | H : simulationLen ?x = _ |- _ => is_var x; rewrite H in *; clear H
         end;
  repeat match goal with
         | |- context [length (match ?r with Idle => _ | Pid _ => _ end)] => destruct r
         | H : context [length (match ?r with Idle => _ | Pid _ => _ end)] |- _ => destruct r
         end;
  rewrite ?length_insert, ?length_map in *;
  repeat match goal with |- _ /\ _ => split end;
  first [reflexivity | congruence | solve [grows_done]].

Section ClassClock.

Implicit Types (s : Sim) (proc prev : pref).

Lemma SchedClass_enqueue_clock proc s s' :
  SchedClass_enqueue proc s = Ok s' -> clock_step s s'.
Proof. unfold SchedClass_enqueue. intros H. inv_res. clock_done. Qed.

Lemma SchedClass_dequeue_clock proc s s' :
  SchedClass_dequeue proc s = Ok s' -> clock_step s s'.
Proof. unfold SchedClass_dequeue. intros H. inv_res. clock_done. Qed.

Lemma SchedClass_updateLatency_clock name s s' :
  SchedClass_updateLatency name s = Ok s' -> clock_step s s'.
Proof. unfold SchedClass_updateLatency. intros H. clock_done. Qed.

Lemma SchedClass_pickNext_clock name s s' :
  SchedClass_pickNext name s = Ok s' -> clock_step s s'.
Proof.
  unfold SchedClass_pickNext. intros H. destruct (calledPutPrev s); [discriminate|].
  now apply SchedClass_updateLatency_clock in H.
Qed.

Lemma SchedClass_putPrev_clock s : clock_step s (SchedClass_putPrev s).
Proof. clock_done. Qed.

Lemma FCFS_enqueue_clock proc s s' : FCFSClass.enqueue proc s = Ok s' -> clock_step s s'.
Proof.
  unfold FCFSClass.enqueue. intros H. inv_res. framed SchedClass_enqueue_clock. clock_done.
Qed.

Lemma FCFS_dequeue_clock proc s s' : FCFSClass.dequeue proc s = Ok s' -> clock_step s s'.
Proof.
  unfold FCFSClass.dequeue. intros H. inv_res. framed SchedClass_dequeue_clock. clock_done.
Qed.

Lemma updateMinVruntime_clock proc s s' :
  LinuxFairClass.updateMinVruntime proc s = Ok s' -> clock_step s s'.
Proof.
  unfold LinuxFairClass.updateMinVruntime. intros H.
  destruct (getProc proc s) as [p|]; cbn [rbind] in H; [|discriminate].
  match type of H with rbind ?m _ = _ => destruct m as [v|]; cbn [rbind] in H; [|discriminate] end.
  injection H as <-. clock_done.
Qed.

Lemma updateCurr_clock proc s s' :
  LinuxFairClass.updateCurr proc s = Ok s' -> clock_step s s'.
Proof.
  unfold LinuxFairClass.updateCurr. intros H. inv_res; try apply clock_step_refl.
  framed updateMinVruntime_clock. clock_done.
Qed.

Lemma placeEntity_clock proc initial s s' :
  LinuxFairClass.placeEntity proc initial s = Ok s' -> clock_step s s'.
Proof.
  unfold LinuxFairClass.placeEntity. intros H. inv_res; try apply clock_step_refl.
  all: clock_done.
Qed.

Lemma enqueueEntity_clock proc s s' :
  LinuxFairClass.enqueueEntity proc s = Ok s' -> clock_step s s'.
Proof. unfold LinuxFairClass.enqueueEntity. intros H. inv_res; clock_done. Qed.

Lemma dequeueEntity_clock proc s s' :
  LinuxFairClass.dequeueEntity proc s = Ok s' -> clock_step s s'.
Proof. unfold LinuxFairClass.dequeueEntity. intros H. inv_res; clock_done. Qed.

Lemma Fair_enqueue_clock proc s s' :
  LinuxFairClass.enqueue proc s = Ok s' -> clock_step s s'.
Proof.
  unfold LinuxFairClass.enqueue. intros H. inv_res.
  all: framed SchedClass_enqueue_clock; framed updateCurr_clock; framed placeEntity_clock;
    framed enqueueEntity_clock.
  all: try match goal with
           | H : context [if clsref_eqb ?a ?b then _ else _] |- _ => destruct (clsref_eqb a b)
           end.
  all: clock_done.
Qed.

Lemma Fair_dequeue_clock proc s s' :
  LinuxFairClass.dequeue proc s = Ok s' -> clock_step s s'.
Proof.
  unfold LinuxFairClass.dequeue. intros H. inv_res.
  all: framed SchedClass_dequeue_clock; framed updateCurr_clock; framed dequeueEntity_clock.
  all: clock_done.
Qed.

Lemma Fair_putPrev_clock prev s s' :
  LinuxFairClass.putPrev prev s = Ok s' -> clock_step s s'.
Proof.
  unfold LinuxFairClass.putPrev. intros H. inv_res.
  all: framed updateCurr_clock; framed enqueueEntity_clock.
  all: clock_done.
Qed.

Lemma updProc_clock proc f s s' : updProc proc f s = Ok s' -> clock_step s s'.
Proof. intros H. clock_done. Qed.

Lemma upd_clock f s a : clock_step s a -> clock_step s (LinuxFairClass.upd f a).
Proof. intros H. clock_done. Qed.

(** A chain of steps that leave the clock alone. *)
Ltac clock_chain :=
  repeat first
    [ eassumption
    | apply clock_step_refl
    | apply upd_clock
    | match goal with
      | H : clock_step ?a ?b |- clock_step _ ?b =>
          apply (clock_step_trans _ a b); [|exact H]
      end ].

Section Callbacks.

Variable simPutPrev : pref -> Sim -> res Sim.
Hypothesis simPutPrev_clock : forall r s s', simPutPrev r s = Ok s' -> clock_step s s'.
Variable simPickNext : Sim -> res Sim.
Hypothesis simPickNext_clock : forall s s', simPickNext s = Ok s' -> clock_step s s'.

Lemma FCFS_pickNext_clock prev s o s' :
  FCFSClass.pickNext simPutPrev prev s = Ok (o, s') -> clock_step s s'.
Proof.
  unfold FCFSClass.pickNext. intros H. inv_res.
  all: framed SchedClass_pickNext_clock; framed simPutPrev_clock.
  all: clock_done.
Qed.

Lemma Fair_pickNext_clock prev s o s' :
  LinuxFairClass.pickNext simPutPrev prev s = Ok (o, s') -> clock_step s s'.
Proof.
  unfold LinuxFairClass.pickNext. intros H. inv_res.
  all: framed SchedClass_pickNext_clock; framed simPutPrev_clock; framed dequeueEntity_clock;
    framed updProc_clock.
  all: clock_chain.
Qed.

Lemma Fair_checkPreempt_clock proc s s' :
  LinuxFairClass.checkPreempt simPickNext proc s = Ok s' -> clock_step s s'.
Proof.
  unfold LinuxFairClass.checkPreempt. intros H. inv_res.
  all: framed updateCurr_clock; framed simPickNext_clock.
  all: clock_done.
Qed.

Lemma Fair_taskTick_clock s s' :
  LinuxFairClass.taskTick simPickNext s = Ok s' -> clock_step s s'.
Proof.
  unfold LinuxFairClass.taskTick. intros H. inv_res.
  all: framed updateCurr_clock; framed simPickNext_clock.
  all: clock_done.
Qed.

End Callbacks.

End ClassClock.

(** ** The kernel *)

Section KernelClock.

Variable D : Dispatch.

Hypothesis enqueue_clock :
  forall name r s s', cls_enqueue D name r s = Ok s' -> clock_step s s'.
Hypothesis dequeue_clock :
  forall name r s s', cls_dequeue D name r s = Ok s' -> clock_step s s'.
Hypothesis pickNext_clock :
  forall name prev s o s',
    cls_pickNext D (putPrev D) name prev s = Ok (o, s') -> clock_step s s'.
Hypothesis checkPreempt_clock :
  forall name proc s s',
    cls_checkPreempt D (pickNext D) name proc s = Ok s' -> clock_step s s'.
Hypothesis taskTick_clock :
  forall name s s', cls_taskTick D (pickNext D) name s = Ok s' -> clock_step s s'.

Lemma class_dequeue_clock c r s s' : class_dequeue D c r s = Ok s' -> clock_step s s'.
Proof. destruct c; cbn; [intros [= <-]; apply clock_step_refl | apply dequeue_clock]. Qed.

Lemma class_enqueue_clock c r s s' : class_enqueue D c r s = Ok s' -> clock_step s s'.
Proof. destruct c; cbn; [intros [= <-]; apply clock_step_refl | apply enqueue_clock]. Qed.

Lemma handleBlock_clock evt s s' : handleBlock D evt s = Ok s' -> clock_step s s'.
Proof.
  unfold handleBlock. intros H. inv_res.
  all: framed class_dequeue_clock.
  all: clock_done.
Qed.

Lemma handleExit_clock evt s s' : handleExit D evt s = Ok s' -> clock_step s s'.
Proof.
  unfold handleExit. intros H. inv_res.
  all: framed class_dequeue_clock.
  all: clock_done.
Qed.

Lemma handlePreempt_clock r s s' : handlePreempt D r s = Ok s' -> clock_step s s'.
Proof.
  unfold handlePreempt. intros H. inv_res.
  all: framed handleBlock_clock; framed handleExit_clock.
  all: repeat match goal with
              | H : negb (_ =? _) = false |- _ =>
                  apply negb_false_iff, Z.eqb_eq in H
              end.
  all: clock_done.
Qed.

Lemma pickNext_classes_clock prev names o s next s' :
  pickNext_classes D prev names o s = Ok (next, s') -> clock_step s s'.
Proof.
  revert o s. induction names as [|name rest IH]; intros o s; cbn.
  - intros [= _ <-]. apply clock_step_refl.
  - destruct o as [r|]; intros H; inv_res.
    + framed SchedClass_updateLatency_clock. apply IH in H.
      eapply clock_step_trans; eassumption.
    + framed pickNext_clock. apply IH in H. eapply clock_step_trans; eassumption.
    + framed pickNext_clock. apply IH in H. eapply clock_step_trans; eassumption.
Qed.

Lemma pickNext_account_clock o s next s1 :
  pickNext_account o s = Ok (next, s1) -> clock_step s s1.
Proof. unfold pickNext_account. intros H. destruct o; inv_res; clock_done. Qed.

Lemma pickNext_log_clock next s s1 : pickNext_log next s = Ok s1 -> clock_step s s1.
Proof. unfold pickNext_log. intros H. inv_res. clock_done. Qed.

Lemma pickNext_switchBehavior_clock next s s1 :
  pickNext_switchBehavior next s = Ok s1 -> clock_step s s1.
Proof. unfold pickNext_switchBehavior. intros H. inv_res; clock_done. Qed.

Lemma pickNext_runTime_clock next s t s1 :
  pickNext_runTime next s = Ok (t, s1) -> clock_step s s1.
Proof. unfold pickNext_runTime. intros H. inv_res; clock_done. Qed.

Lemma pickNext_strictEnd_clock next t runTime s b s1 :
  pickNext_strictEnd next t runTime s = Ok (b, s1) -> clock_step s s1.
Proof. unfold pickNext_strictEnd. intros H. inv_res; clock_done. Qed.

Lemma pickNext_finalBehavior_clock next s b s1 :
  pickNext_finalBehavior next s = Ok (b, s1) -> clock_step s s1.
Proof.
  unfold pickNext_finalBehavior. intros H. inv_res.
  all: framed pickNext_runTime_clock; framed pickNext_strictEnd_clock.
  all: clock_done.
Qed.

Lemma pickNext_behavior_clock next s b s1 :
  pickNext_behavior next s = Ok (b, s1) -> clock_step s s1.
Proof.
  unfold pickNext_behavior. intros H. inv_res; [|apply clock_step_refl].
  framed pickNext_switchBehavior_clock. framed pickNext_finalBehavior_clock.
  eapply clock_step_trans; eassumption.
Qed.

Lemma pickNext_finish_clock next b s s1 :
  pickNext_finish next b s = Ok s1 -> clock_step s s1.
Proof.
  unfold pickNext_finish. intros H. inv_res.
  all: framed pickNext_runTime_clock.
  all: clock_done.
Qed.

Lemma pickNext_run_clock o s s' : pickNext_run o s = Ok s' -> clock_step s s'.
Proof.
  unfold pickNext_run. intros H. inv_res.
  framed pickNext_account_clock. framed pickNext_log_clock.
  framed pickNext_behavior_clock. framed pickNext_finish_clock.
  repeat (eapply clock_step_trans; [eassumption|]). apply clock_step_refl.
Qed.

Lemma pickNext_kernel_clock s s' : pickNext D s = Ok s' -> clock_step s s'.
Proof.
  unfold pickNext. intros H. inv_res.
  all: framed handlePreempt_clock; framed pickNext_classes_clock; framed pickNext_run_clock.
  all: clock_done.
Qed.

Lemma checkPreempt_walk_clock proc names s s' :
  checkPreempt_walk D proc names s = Ok s' -> clock_step s s'.
Proof.
  revert s. induction names as [|name rest IH]; intros s; cbn.
  - intros [= <-]. apply clock_step_refl.
  - intros H. inv_res.
    + framed pickNext_kernel_clock. apply IH in H. eapply clock_step_trans; eassumption.
    + apply clock_step_refl.
    + now apply IH.
Qed.

Lemma checkPreempt_kernel_clock proc s s' : checkPreempt D proc s = Ok s' -> clock_step s s'.
Proof.
  unfold checkPreempt. intros H. inv_res.
  - apply clock_step_refl.
  - now apply checkPreempt_clock in H.
  - now apply checkPreempt_walk_clock in H.
Qed.

Lemma class_taskTick_clock c s s' : class_taskTick D c s = Ok s' -> clock_step s s'.
Proof. destruct c; cbn; [intros [= <-]; apply clock_step_refl | apply taskTick_clock]. Qed.

(** The log keeps its times when the processes of its events are filled
    in. *)
Lemma fill_process_times (evt : Event) (r : pref) (log : list Event) :
  time <$> map (fun e => if Event_same e evt then set_process (Some r) e else e) log
  = time <$> log.
Proof.
  induction log as [|e log IH]; [reflexivity|]. cbn. rewrite IH. f_equal.
  now destruct (Event_same e evt).
Qed.

(** What the body of the loop of [Simulator.run] does to the clock and to
    the times in the log. *)
Lemma run_event_clock evt s s' :
  run_event D evt s = Ok s' ->
  simulationTime s <= time evt <= simulationLen s /\
  simulationTime s' = time evt /\ simulationLen s' = simulationLen s /\
  exists k, time <$> simEventLog s' = ((time <$> simEventLog s) ++ time evt :: k)%list /\
            Forall (fun t => t = time evt) k.
Proof.
  unfold run_event. intros H.
  destruct (time evt >? simulationLen s) eqn:E1; [discriminate|].
  destruct (time evt <? simulationTime s) eqn:E2; [discriminate|].
  split; [lia|]. unfold sim_time in H.
  destruct (time evt <? 0) eqn:E3; [discriminate|]. cbn [rbind] in H.
  set (s1 := set_simEventLog _ _) in H.
  assert (Hmid : forall s2, clock_step s1 s2 ->
            simulationTime s2 = time evt /\ simulationLen s2 = simulationLen s /\
            exists k, time <$> simEventLog s2
                      = ((time <$> simEventLog s) ++ time evt :: k)%list /\
                      Forall (fun t => t = time evt) k).
  { intros s2 (H1 & H2 & (k & Hk & Hall) & _). cbn in H1, H2, Hk, Hall.
    split; [exact H1|]. split; [exact H2|]. exists (time <$> k).
    rewrite Hk, !fmap_app, <- app_assoc. split; [reflexivity|].
    apply Forall_fmap. exact Hall. }
  match type of H with
  | rbind ?m _ = _ => destruct m as [s2|] eqn:Ebody; cbn [rbind] in H; [|discriminate]
  end.
  assert (Hbody : clock_step s1 s2).
  { clear H Hmid. inv_res.
    all: framed class_enqueue_clock; framed checkPreempt_kernel_clock;
      framed handleBlock_clock; framed handleExit_clock; framed pickNext_kernel_clock;
      framed class_taskTick_clock.
    all: try apply clock_step_refl.
    all: clock_done. }
  destruct (Hmid s2 Hbody) as (H1 & H2 & k & Hk & Hall).
  destruct (process evt); injection H as <-; cbn.
  - eauto.
  - rewrite fill_process_times. eauto.
Qed.

End KernelClock.

(** The two classes of the model leave the clock alone. *)
Lemma putPrev_builtin_clock prev s s' : putPrev builtin prev s = Ok s' -> clock_step s s'.
Proof.
  unfold putPrev. intros H. inv_res.
  - clock_done.
  - cbn in H. inv_res.
    + unfold FCFSClass.putPrev in H. inv_res. apply SchedClass_putPrev_clock.
    + now apply Fair_putPrev_clock in H.
Qed.

Lemma cls_enqueue_builtin_clock name r s s' :
  cls_enqueue builtin name r s = Ok s' -> clock_step s s'.
Proof.
  cbn. intros H. inv_res; [now apply FCFS_enqueue_clock in H | now apply Fair_enqueue_clock in H].
Qed.

Lemma cls_dequeue_builtin_clock name r s s' :
  cls_dequeue builtin name r s = Ok s' -> clock_step s s'.
Proof.
  cbn. intros H. inv_res; [now apply FCFS_dequeue_clock in H | now apply Fair_dequeue_clock in H].
Qed.

Lemma cls_pickNext_builtin_clock name prev s o s' :
  cls_pickNext builtin (putPrev builtin) name prev s = Ok (o, s') -> clock_step s s'.
Proof.
  cbn. intros H. inv_res.
  - eapply FCFS_pickNext_clock; [apply putPrev_builtin_clock | eassumption].
  - eapply Fair_pickNext_clock; [apply putPrev_builtin_clock | eassumption].
Qed.

Lemma pickNext_builtin_clock s s' : pickNext builtin s = Ok s' -> clock_step s s'.
Proof.
  apply pickNext_kernel_clock;
    [apply cls_dequeue_builtin_clock | apply cls_pickNext_builtin_clock].
Qed.

Lemma cls_checkPreempt_builtin_clock name proc s s' :
  cls_checkPreempt builtin (pickNext builtin) name proc s = Ok s' -> clock_step s s'.
Proof.
  cbn. intros H. inv_res.
  - unfold FCFSClass.checkPreempt in H. inv_res. apply clock_step_refl.
  - eapply Fair_checkPreempt_clock; [apply pickNext_builtin_clock | eassumption].
Qed.

Lemma cls_taskTick_builtin_clock name s s' :
  cls_taskTick builtin (pickNext builtin) name s = Ok s' -> clock_step s s'.
Proof.
  cbn. intros H. inv_res.
  - unfold FCFSClass.taskTick in H. inv_res. apply clock_step_refl.
  - eapply Fair_taskTick_clock; [apply pickNext_builtin_clock | eassumption].
Qed.

Lemma run_event_builtin_clock evt s s' :
  run_event builtin evt s = Ok s' ->
  simulationTime s <= time evt <= simulationLen s /\
  simulationTime s' = time evt /\ simulationLen s' = simulationLen s /\
  exists k, time <$> simEventLog s' = ((time <$> simEventLog s) ++ time evt :: k)%list /\
            Forall (fun t => t = time evt) k.
Proof.
  apply run_event_clock.
  - apply cls_enqueue_builtin_clock.
  - apply cls_dequeue_builtin_clock.
  - apply cls_pickNext_builtin_clock.
  - apply cls_checkPreempt_builtin_clock.
  - apply cls_taskTick_builtin_clock.
Qed.

Lemma sorted_app_same (t : Z) (l k : list Z) :
  StronglySorted Z.le l -> Forall (fun x => x <= t) l -> Forall (fun x => x = t) k ->
  StronglySorted Z.le (l ++ k).
Proof.
  intros Hs Hl Hk. induction Hs as [|x l Hs IH Hall]; cbn.
  - induction Hk as [|y k -> Hk IHk]; constructor; [exact IHk|].
    eapply Forall_impl; [exact Hk|]. cbn. intros; lia.
  - apply Forall_cons in Hl as [Hx Hl]. constructor; [now apply IH|].
    apply Forall_app. split; [exact Hall|].
    eapply Forall_impl; [exact Hk|]. cbn. intros; lia.
Qed.

Lemma log_in_order_grown (s s' : Sim) (t : Z) (k : list Z) :
  log_in_order s -> simulationTime s <= t -> simulationTime s' = t ->
  time <$> simEventLog s' = ((time <$> simEventLog s) ++ t :: k)%list ->
  Forall (fun x => x = t) k ->
  log_in_order s'.
Proof.
  intros [Hs Hall] Hle Ht Hlog Hk. unfold log_in_order, chronological in *.
  assert (Hall' : Forall (fun x => x <= t) (time <$> simEventLog s)).
  { apply Forall_fmap. eapply Forall_impl; [exact Hall|]. cbn. intros; lia. }
  split.
  - rewrite Hlog. apply (sorted_app_same t); [exact Hs | exact Hall' | now constructor].
  - rewrite Ht.
    assert (Hnew : Forall (fun x => x <= t) (time <$> simEventLog s')).
    { rewrite Hlog. apply Forall_app. split; [exact Hall'|]. constructor; [lia|].
      eapply Forall_impl; [exact Hk|]. cbn. intros; lia. }
    rewrite Forall_fmap in Hnew. exact Hnew.
Qed.

Lemma run_event_in_order evt s s' :
  run_event builtin evt s = Ok s' -> log_in_order s ->
  simulationTime s <= time evt /\ time evt <= simulationLen s' /\
  simulationTime s' = time evt /\ log_in_order s'.
Proof.
  intros H Hin. apply run_event_builtin_clock in H as (Ht & Hs' & Hlen & k & Hlog & Hk).
  split; [lia|]. split; [lia|]. split; [exact Hs'|].
  eapply log_in_order_grown; eauto. lia.
Qed.

(** X18.  One turn of the loop of [Simulator.run], with the two classes of
    the model: an event is handled only at a time from the current time to
    the length of the simulation, the clock is then at the time of the event,
    and an event log that was in the order of time, with no event later than
    the clock, is so again: the event and the picks it causes are logged at
    the time of the event. *)
Theorem run_event_keeps_log_in_order (evt : Event) (s s' : Sim) :
  run_event builtin evt s = Ok s' -> log_in_order s ->
  simulationTime s <= time evt /\ time evt <= simulationLen s' /\
  simulationTime s' = time evt /\ log_in_order s' /\
  exists k, time <$> simEventLog s' = ((time <$> simEventLog s) ++ time evt :: k)%list /\
            Forall (fun t => t = time evt) k.
Proof.
  intros H Hin. destruct (run_event_in_order _ _ _ H Hin) as (H1 & H2 & H3 & H4).
  apply run_event_builtin_clock in H as (_ & _ & _ & Hk). auto.
Qed.

Lemma run_event_keeps_log_in_order_witness :
  let s0 := the exampleSim (stepped twoFcfsConf 2) in
  let r := the (mkEvent 0 0 0 TimerEvent None, []) (getNextEvent (simulationQueue s0)) in
  let s := set_simulationQueue r.2 s0 in
  let s' := the s (run_event builtin r.1 s) in
  run_event builtin r.1 s = Ok s' /\ log_in_order s /\
  simulationTime s = 3 /\ time r.1 = 10 /\ simulationTime s' = time r.1 /\
  log_in_order s'.
Proof.
  intros s0 r s s'.
  assert (H : run_event builtin r.1 s = Ok s') by (vm_compute; reflexivity).
  assert (Hl : time <$> simEventLog s = [0; 0; 0; 0; 3]) by (vm_compute; reflexivity).
  assert (Hs : simulationTime s = 3) by (vm_compute; reflexivity).
  assert (Hr : time r.1 = 10) by (vm_compute; reflexivity).
  clearbody s s' r. clear s0.
  assert (Hin : log_in_order s).
  { split.
    - unfold chronological. rewrite Hl.
      repeat (constructor; [|repeat constructor; lia]). constructor.
    - rewrite Hs.
      assert (Hall : Forall (fun x => x <= 3) (time <$> simEventLog s))
        by (rewrite Hl; repeat constructor; lia).
      rewrite Forall_fmap in Hall. exact Hall. }
  split; [exact H|]. split; [exact Hin|]. split; [exact Hs|]. split; [exact Hr|].
  destruct (run_event_keeps_log_in_order r.1 s s' H Hin) as (_ & _ & Ht & Hin' & _).
  split; assumption.
Defined.

(** X19.  The loop of [Simulator.run] never sets the clock back when it runs
    to the end or for a number of steps, with the two classes of the model:
    however the loop is left, the clock is not earlier than at the start, and
    an event log that was in the order of time, with no event later than the
    clock, is so at the end. *)
Theorem run_loop_clock_never_goes_back (fuel : nat) (mode : runMode) (n : Z) (s : Sim)
    (x : loopExit) :
  run_loop builtin fuel mode n s = Ok x ->
  (forall t, mode <> RunUntil t) -> log_in_order s ->
  match x with
  | SimStopped _ s' | PartialExit s' | OutOfFuel s' =>
      log_in_order s' /\ simulationTime s <= simulationTime s'
  end.
Proof.
  intros H Hmode. revert n s x H.
  induction fuel as [|fuel IH]; intros n s x H Hin; cbn in H.
  - injection H as <-. split; [exact Hin | lia].
  - destruct (getNextEvent (simulationQueue s)) as [[evt q]|]; cbn [rbind] in H; [|discriminate].
    destruct (isSimStopEvent evt).
    { injection H as <-. split; [exact Hin | cbn; lia]. }
    destruct (run_event builtin evt _) as [s1|] eqn:E1; cbn [rbind] in H; [|discriminate].
    apply run_event_in_order in E1 as (Hle & _ & Ht & Hin1); [|exact Hin].
    cbn in Hle.
    assert (Hrec : forall n' x', run_loop builtin fuel mode n' s1 = Ok x' ->
              match x' with
              | SimStopped _ s' | PartialExit s' | OutOfFuel s' =>
                  log_in_order s' /\ simulationTime s <= simulationTime s'
              end).
    { intros n' x' H'. apply IH in H'; [|exact Hin1].
      destruct x'; destruct H' as [? ?]; split; try assumption; lia. }
    destruct mode as [|t|t].
    + now apply Hrec in H.
    + now destruct (Hmode t).
    + destruct (peekNextEvent (simulationQueue s1)) as [nxt|]; cbn [rbind] in H; [|discriminate].
      match type of H with
      | (if ?b then _ else _) = _ => destruct b
      end.
      * injection H as <-. split; [exact Hin1 | lia].
      * now apply Hrec in H.
Qed.

Lemma run_loop_clock_never_goes_back_witness :
  let s := the exampleSim (init builtin twoFcfsConf exampleSim) in
  let x := the (OutOfFuel s) (run_loop builtin 100 RunToEnd 0 s) in
  run_loop builtin 100 RunToEnd 0 s = Ok x /\ log_in_order s /\
  exists e s', x = SimStopped e s' /\ simulationTime s' = 94 /\
    log_in_order s' /\ simulationTime s <= simulationTime s'.
Proof.
  intros s x.
  assert (H : run_loop builtin 100 RunToEnd 0 s = Ok x) by (vm_compute; reflexivity).
  assert (Hx : exists e s', x = SimStopped e s' /\ simulationTime s' = 94)
    by (eexists; eexists; split; vm_compute; reflexivity).
  assert (Hl : simEventLog s = []) by (vm_compute; reflexivity).
  clearbody s x.
  assert (Hin : log_in_order s).
  { split; [unfold chronological|]; rewrite Hl; constructor. }
  split; [exact H|]. split; [exact Hin|].
  pose proof (run_loop_clock_never_goes_back 100 RunToEnd 0 s x H
                ltac:(discriminate) Hin) as Hend.
  destruct Hx as (e & s' & -> & Ht). exists e, s'. cbn in Hend. tauto.
Defined.

(** ** The flags of the simulator during a run *)

Section KernelFlags.

Variable D : Dispatch.

Hypothesis enqueue_clock :
  forall name r s s', cls_enqueue D name r s = Ok s' -> clock_step s s'.
Hypothesis dequeue_clock :
  forall name r s s', cls_dequeue D name r s = Ok s' -> clock_step s s'.
Hypothesis pickNext_clock :
  forall name prev s o s',
    cls_pickNext D (putPrev D) name prev s = Ok (o, s') -> clock_step s s'.
Hypothesis checkPreempt_clock :
  forall name proc s s',
    cls_checkPreempt D (pickNext D) name proc s = Ok s' -> clock_step s s'.
Hypothesis taskTick_clock :
  forall name s s', cls_taskTick D (pickNext D) name s = Ok s' -> clock_step s s'.

(** What a turn of the loop of [Simulator.run] leaves alone. *)
Lemma run_event_flags evt s s' :
  run_event D evt s = Ok s' ->
  simulationLen s' = simulationLen s /\ timerTickLen s' = timerTickLen s /\
  simRunning s' = simRunning s /\ simInitDone s' = simInitDone s /\
  processesLoaded s' = processesLoaded s /\
  schedClassPrio s' = schedClassPrio s /\
  schedClassPrioRegistered s' = schedClassPrioRegistered s /\
  length (procList s') = length (procList s).
Proof.
  unfold run_event. intros H.
  destruct (time evt >? simulationLen s) eqn:E1; [discriminate|].
  destruct (time evt <? simulationTime s) eqn:E2; [discriminate|].
  unfold sim_time in H.
  destruct (time evt <? 0) eqn:E3; [discriminate|]. cbn [rbind] in H.
  set (s1 := set_simEventLog _ _) in H.
  match type of H with
  | rbind ?m _ = _ => destruct m as [s2|] eqn:Ebody; cbn [rbind] in H; [|discriminate]
  end.
  assert (Hbody : clock_step s1 s2).
  { clear H. inv_res.
    all: framed (class_enqueue_clock D enqueue_clock);
      framed (checkPreempt_kernel_clock D dequeue_clock pickNext_clock checkPreempt_clock);
      framed (handleBlock_clock D dequeue_clock);
      framed (handleExit_clock D dequeue_clock);
      framed (pickNext_kernel_clock D dequeue_clock pickNext_clock);
      framed (class_taskTick_clock D taskTick_clock).
    all: try apply clock_step_refl.
    all: clock_done. }
  destruct Hbody as (_ & ? & _ & ? & ? & ? & ? & ? & ? & ?). cbn in *.
  destruct (process evt); injection H as <-; cbn; repeat split; congruence.
Qed.

End KernelFlags.

Lemma run_event_builtin_flags evt s s' :
  run_event builtin evt s = Ok s' ->
  simulationLen s' = simulationLen s /\ timerTickLen s' = timerTickLen s /\
  simRunning s' = simRunning s /\ simInitDone s' = simInitDone s /\
  processesLoaded s' = processesLoaded s /\
  schedClassPrio s' = schedClassPrio s /\
  schedClassPrioRegistered s' = schedClassPrioRegistered s /\
  length (procList s') = length (procList s).
Proof.
  apply run_event_flags.
  - apply cls_enqueue_builtin_clock.
  - apply cls_dequeue_builtin_clock.
  - apply cls_pickNext_builtin_clock.
  - apply cls_checkPreempt_builtin_clock.
  - apply cls_taskTick_builtin_clock.
Qed.

(** * The state that [Simulator.init] leaves *)

Lemma setup_step_refl s : setup_step 0 s s.
Proof. unfold setup_step. rewrite Nat.add_0_r. repeat split. Qed.

Lemma setup_step_trans n m s1 s2 s3 :
  setup_step n s1 s2 -> setup_step m s2 s3 -> setup_step (n + m) s1 s3.
Proof.
  unfold setup_step. intros (?&?&?&?&?&?&?&?&?&?) (?&?&?&?&?&?&?&?&?&?).
  repeat split; try congruence. lia.
Qed.

(** The end of a proof that a computation is a [setup_step]. *)
Ltac setup_done :=
  steps_inv; unfold setup_step, LinuxFairClass.upd in *; cbn in *;
  repeat match goal with H : _ /\ _ |- _ => destruct H end;
  rewrite ?length_app, ?length_map, ?length_insert in *; cbn [length] in *;
  repeat split; first [congruence | lia].

(** Two steps of the set-up, one after the other. *)
Ltac setup_chain :=
  match goal with
  | H1 : setup_step ?n ?a ?b, H2 : setup_step ?m ?b ?c |- setup_step _ ?a ?c =>
      exact (setup_step_trans n m a b c H1 H2)
  end.

Section Setup.

Implicit Types (s : Sim).

Lemma loadBehavior_setup b s b' s' : loadBehavior b s = Ok (b', s') -> setup_step 0 s s'.
Proof. unfold loadBehavior. intros H. inv_res; setup_done. Qed.

Lemma loadBehaviors_setup l s l' s' : loadBehaviors l s = Ok (l', s') -> setup_step 0 s s'.
Proof.
  revert s l' s'. induction l as [|b l IH]; intros s l' s'; cbn.
  - intros [= _ <-]. apply setup_step_refl.
  - intros H. inv_res. framed loadBehavior_setup. framed IH. setup_chain.
Qed.

Lemma loadProcess_setup pad i d acl s acl' s' :
  loadProcess pad i d (acl, s) = Ok (acl', s') -> setup_step 1 s s'.
Proof.
  unfold loadProcess. intros H. inv_res.
  all: framed loadBehaviors_setup.
  all: setup_done.
Qed.

Lemma loadProcesses_setup pad i defs acl s acl' s' :
  loadProcesses pad i defs (acl, s) = Ok (acl', s') -> setup_step (length defs) s s'.
Proof.
  revert i acl s. induction defs as [|d defs IH]; intros i acl s; cbn [loadProcesses length].
  - intros [= _ <-]. apply setup_step_refl.
  - intros H. destruct (loadProcess pad i d (acl, s)) as [[acl1 s1]|] eqn:E;
      cbn [rbind] in H; [|discriminate].
    apply loadProcess_setup in E. apply IH in H. setup_chain.
Qed.

Lemma loadProc_setup o s s' :
  loadProc o s = Ok s' ->
  exists defs, o = Some defs /\ defs <> [] /\
    length (procList s') = length defs /\ processesLoaded s' = true /\
    simulationLen s' = simulationLen s /\ timerTickLen s' = timerTickLen s /\
    simRunning s' = simRunning s.
Proof.
  unfold loadProc. intros H. destruct o as [defs|]; [|discriminate].
  destruct (length defs <? 1)%nat eqn:El; [discriminate|].
  exists defs. split; [reflexivity|]. split; [intros ->; discriminate|].
  inv_res. apply loadProcesses_setup in E0. unfold setup_step in E0. cbn in *.
  repeat match goal with H : _ /\ _ |- _ => destruct H end.
  repeat split; congruence.
Qed.

Lemma modProc_setup f className s s' :
  LinuxFairClass.modProc f className s = Ok s' -> setup_step 0 s s'.
Proof. unfold LinuxFairClass.modProc. intros H. inv_res. setup_done. Qed.

Lemma cls_init_builtin_setup name cp s s' :
  cls_init builtin name cp s = Ok s' -> setup_step 0 s s'.
Proof.
  cbn. intros H. inv_res.
  - unfold FCFSClass.init in H. inv_res. setup_done.
  - unfold LinuxFairClass.init in H. inv_res.
    all: framed modProc_setup.
    all: setup_done.
Qed.

Lemma initClasses_builtin_setup params names s s' :
  initClasses builtin params names s = Ok s' -> setup_step 0 s s'.
Proof.
  revert s. induction names as [|n names IH]; intros s; cbn [initClasses].
  - intros [= <-]. apply setup_step_refl.
  - intros H. inv_res. framed cls_init_builtin_setup. apply IH in H. setup_chain.
Qed.

End Setup.

(** X20.  What [Simulator.init] leaves when it returns, with the two classes
    of the model: no simulation was running; the clock is at 0, no context
    switch is counted, the idle process is the current one and the event log
    is empty; the simulator is marked as initialised and loaded and not as
    running; the length of the simulation is the one of the configuration and
    not negative, the timer tick is the one of the configuration, or 1000000,
    and more than 1; and the configuration has at least one process
    definition, each of which has become one process, all counted as live. *)
Theorem init_start_state (conf : SimConf) (s s' : Sim) :
  init builtin conf s = Ok s' ->
  simRunning s = false /\
  simulationTime s' = 0 /\ contextSwitches s' = 0 /\ curr s' = Idle /\
  simEventLog s' = [] /\
  simInitDone s' = true /\ processesLoaded s' = true /\ simRunning s' = false /\
  simulationLen s' = c_simLen conf /\ 0 <= c_simLen conf /\
  timerTickLen s' = default 1000000 (c_timerTickLen conf) /\ 1 < timerTickLen s' /\
  exists defs, c_processes conf = Some defs /\ defs <> [] /\
    length (procList s') = length defs /\
    liveProcessCount s' = Z.of_nat (length defs).
Proof.
  unfold init. intros H.
  destruct (simRunning s) eqn:Erun; [discriminate|]. split; [reflexivity|].
  inv_res.
  all: framed loadProc_setup; framed initClasses_builtin_setup.
  all: destruct (c_classPrio conf); unfold parseClassPrio in *.
  all: steps_inv; unfold setup_step in *; cbn in *.
  all: repeat match goal with
              | H : _ /\ _ |- _ => destruct H
              | H : exists _, _ |- _ => destruct H
              end.
  all: rewrite ?length_app, ?length_map, ?length_insert, ?Nat.add_0_r in *.
  all: repeat match goal with
              | |- _ /\ _ => split
              | |- exists _, _ => eexists
              end.
  all: try eassumption.
  all: try first [reflexivity | congruence | lia].
Qed.

Lemma init_start_state_witness :
  let s' := the exampleSim (init builtin twoFcfsConf exampleSim) in
  init builtin twoFcfsConf exampleSim = Ok s' /\
  simulationTime s' = 0 /\ curr s' = Idle /\ simEventLog s' = [] /\
  simulationLen s' = 100 /\ timerTickLen s' = 20 /\
  length (procList s') = 2%nat /\ liveProcessCount s' = 2.
Proof.
  intros s'.
  assert (H : init builtin twoFcfsConf exampleSim = Ok s') by (vm_compute; reflexivity).
  clearbody s'.
  destruct (init_start_state twoFcfsConf exampleSim s' H)
    as (_ & Ht & _ & Hc & Hl & _ & _ & _ & Hlen & _ & Htick & _ & defs & Hd & _ & Hn & Hlive).
  cbn in Hd. injection Hd as <-. cbn in Hn, Hlive, Hlen, Htick.
  repeat split; assumption.
Defined.

(** * The simulation queue that [Simulator.init] leaves *)

Section InitQueue.

Implicit Types (s : Sim) (e : Event).

Lemma queue_grows_same s s' :
  simulationTime s' = simulationTime s -> simulationQueue s' = simulationQueue s ->
  queue_grows s s'.
Proof. intros Ht Hq. split; [exact Ht|]. rewrite Hq. auto. Qed.

Lemma queue_grows_trans s1 s2 s3 : queue_grows s1 s2 -> queue_grows s2 s3 -> queue_grows s1 s3.
Proof.
  intros [Ht1 H1] [Ht2 H2]. split; [congruence|]. intros Hwf.
  destruct (H1 Hwf) as (Hwf2 & Hin2 & Hhd2). destruct (H2 Hwf2) as (Hwf3 & Hin3 & Hhd3).
  split; [exact Hwf3|]. split; [auto|]. intros e He Hle. apply Hhd3; [auto|]. lia.
Qed.

Lemma head_insert_by {A} (t : A -> Z) (x e : A) (l : list A) :
  head l = Some e -> t e <= t x -> head (insert_by t x l) = Some e.
Proof.
  destruct l as [|y l]; [discriminate|]. cbn. intros [= ->] Hle.
  now rewrite (proj2 (Z.ltb_ge (t x) (t e))) by lia.
Qed.

Lemma elem_of_insert_by {A} (t : A -> Z) (x y : A) (l : list A) :
  y ∈ insert_by t x l <-> y = x \/ y ∈ l.
Proof. rewrite (insert_by_perm t x l). apply elem_of_cons. Qed.

Lemma sim_insertEvent_grows e s s' :
  sim_insertEvent e s = Ok s' ->
  queue_grows s s' /\ (wf_queue (simulationQueue s) -> e ∈ pending (simulationQueue s')).
Proof.
  intros H. apply sim_insertEvent_inv in H as (q & Hq & ->). unfold queue_grows.
  change (simulationQueue (set_simulationQueue q s)) with q.
  change (simulationTime (set_simulationQueue q s)) with (simulationTime s).
  split; [split; [reflexivity|]|]; intros Hwf;
    destruct (insertEvent_pending _ _ _ _ Hwf Hq) as (Hnow & Hwf' & Hp).
  - split; [exact Hwf'|]. rewrite Hp. split.
    + intros y Hy. apply elem_of_insert_by. now right.
    + intros y Hy Hle. apply head_insert_by; [exact Hy | lia].
  - rewrite Hp. apply elem_of_insert_by. now left.
Qed.

Lemma loadBehavior_queue b s b' s' :
  loadBehavior b s = Ok (b', s') -> queue_grows s s'.
Proof.
  unfold loadBehavior. intros H. inv_res; steps_inv; now apply queue_grows_same.
Qed.

Lemma loadBehaviors_queue l s l' s' :
  loadBehaviors l s = Ok (l', s') -> queue_grows s s'.
Proof.
  revert s l' s'. induction l as [|b l IH]; intros s l' s'; cbn.
  - intros [= _ <-]. now apply queue_grows_same.
  - intros H. inv_res. framed loadBehavior_queue. framed IH.
    eapply queue_grows_trans; eassumption.
Qed.

Lemma loadProcess_queue pad i d acl s acl' s' :
  loadProcess pad i d (acl, s) = Ok (acl', s') -> queue_grows s s'.
Proof.
  unfold loadProcess. intros H.
  destruct (getProcVal (d_spawn d) s) as [[spawnTime s1]|] eqn:E1; cbn [rbind] in H;
    [|discriminate].
  destruct (loadBehaviors (d_behavior d) s1) as [[beh s2]|] eqn:E2; cbn [rbind] in H;
    [|discriminate].
  match type of H with
  | (let '(_, _) := newEvent ?k ?t ?o ?s in _) = _ =>
      destruct (newEvent k t o s) as [e s3] eqn:E3
  end.
  destruct (sim_insertEvent e s3) as [s4|] eqn:E4; cbn [rbind] in H; [|discriminate].
  injection H as _ <-.
  assert (H1 : queue_grows s s1).
  { apply getProcVal_inv in E1 as [-> | ->]; now apply queue_grows_same. }
  apply loadBehaviors_queue in E2. apply newEvent_inv in E3 as [_ ->].
  apply sim_insertEvent_grows in E4 as [E4 _].
  eapply queue_grows_trans; [exact H1|]. eapply queue_grows_trans; [exact E2|].
  eapply queue_grows_trans; [|exact E4]. now apply queue_grows_same.
Qed.

Lemma loadProcesses_queue pad i defs acl s acl' s' :
  loadProcesses pad i defs (acl, s) = Ok (acl', s') -> queue_grows s s'.
Proof.
  revert i acl s. induction defs as [|d defs IH]; intros i acl s; cbn [loadProcesses].
  - intros [= _ <-]. now apply queue_grows_same.
  - intros H. destruct (loadProcess pad i d (acl, s)) as [[acl1 s1]|] eqn:E;
      cbn [rbind] in H; [|discriminate].
    apply loadProcess_queue in E. apply IH in H. eapply queue_grows_trans; eassumption.
Qed.

Lemma loadProc_queue o s s' : loadProc o s = Ok s' -> queue_grows s s'.
Proof.
  unfold loadProc. intros H. inv_res.
  match goal with
  | E : loadProcesses _ _ _ _ = Ok _ |- _ =>
      apply loadProcesses_queue in E;
      eapply queue_grows_trans; [|eapply queue_grows_trans; [exact E|]]
  end; now apply queue_grows_same.
Qed.

Lemma modProc_queue f className s s' :
  LinuxFairClass.modProc f className s = Ok s' -> queue_grows s s'.
Proof. unfold LinuxFairClass.modProc. intros H. inv_res. now apply queue_grows_same. Qed.

Lemma cls_init_builtin_queue name cp s s' :
  cls_init builtin name cp s = Ok s' -> queue_grows s s'.
Proof.
  cbn. intros H. inv_res.
  - unfold FCFSClass.init in H. inv_res. now apply queue_grows_same.
  - unfold LinuxFairClass.init in H. inv_res.
    all: framed modProc_queue.
    all: repeat (eapply queue_grows_trans; [|eassumption]).
    all: now apply queue_grows_same.
Qed.

Lemma initClasses_builtin_queue params names s s' :
  initClasses builtin params names s = Ok s' -> queue_grows s s'.
Proof.
  revert s. induction names as [|n names IH]; intros s; cbn [initClasses].
  - intros [= <-]. now apply queue_grows_same.
  - intros H. inv_res. framed cls_init_builtin_queue. apply IH in H.
    eapply queue_grows_trans; eassumption.
Qed.

End InitQueue.

Section InitQueueSpec.

Local Arguments pending : simpl never.
Local Arguments wf_queue : simpl never.

(** X21.  The simulation queue that [Simulator.init] leaves, with the two
    classes of the model, is well formed; its first event, the one that
    [getNextEvent] returns, is the start event, at the time 0; and it holds
    the stop event at the length of the simulation and a timer event at the
    length of the timer tick. *)
Theorem init_queue_starts_with_start_event (conf : SimConf) (s s' : Sim) :
  init builtin conf s = Ok s' ->
  wf_queue (simulationQueue s') /\
  (exists e q', getNextEvent (simulationQueue s') = Ok (e, q') /\
     kind e = SimStartEvent /\ time e = 0 /\ wf_queue q') /\
  (exists e, e ∈ pending (simulationQueue s') /\ kind e = SimStopEvent /\
     time e = simulationLen s') /\
  (exists e, e ∈ pending (simulationQueue s') /\ kind e = TimerEvent /\
     time e = timerTickLen s').
Proof.
  unfold init. intros H.
  destruct (simRunning s) eqn:Erun; [discriminate|].
  match type of H with
  | (let '(_, _) := newEvent ?k ?t ?o ?s in _) = _ =>
      destruct (newEvent k t o s) as [e0 s0] eqn:E0
  end.
  apply newEvent_inv in E0 as [He0 ->].
  destruct (sim_insertEvent e0 _) as [s1|] eqn:E1; cbn [rbind] in H; [|discriminate].
  apply sim_insertEvent_inv in E1 as (q1 & Hq1 & ->).
  destruct (insertEvent_pending _ _ _ _ wf_queue_nil Hq1) as (_ & Hwf1 & Hp1).
  assert (Hhd1 : head (pending q1) = Some e0) by (rewrite Hp1; reflexivity).
  assert (Hk0 : kind e0 = SimStartEvent /\ time e0 = 0) by (now rewrite He0).
  destruct Hk0 as [Hk0 Ht0]. clear Hq1 He0 Hp1.
  inv_res.
  all: framed loadProc_queue; framed initClasses_builtin_queue.
  all: steps_inv.
  all: destruct (c_classPrio conf); unfold parseClassPrio in *.
  all: unfold queue_grows in *; cbn in *.
  all: repeat match goal with
              | H : _ /\ (wf_queue ?q -> _), Hwf : wf_queue ?q |- _ =>
                  let Ht := fresh "Ht" in
                  let G := fresh "G" in
                  destruct H as [Ht G]; destruct (G Hwf) as (? & ? & ?); clear G
              end.
  all: repeat match goal with
              | H : insertEvent _ _ ?q = Ok _, Hwf : wf_queue ?q |- _ =>
                  destruct (insertEvent_pending _ _ _ _ Hwf H) as (? & ? & ?); clear H
              end.
  all: repeat match goal with
              | Ht : simulationTime _ = 0 |- _ => rewrite Ht in *; clear Ht
              end.
  all: cbn in *.
  all: match goal with
       | Hp : pending ?x = insert_by time ?tm (pending ?x0),
         Hp0 : pending ?x0 = insert_by time ?st (pending ?q),
         Hwf : wf_queue ?x |- wf_queue ?x /\ _ =>
           assert (Hhd : head (pending x) = Some e0)
             by (rewrite Hp, Hp0; apply head_insert_by;
                 [apply head_insert_by; [auto with lia | cbn; lia] | cbn; lia]);
           split; [exact Hwf|]; split;
           [ destruct (getNextEvent_pending x Hwf) as (e & q' & Hget & Hpe & Hwf');
             [intros Hnil; rewrite Hnil in Hhd; discriminate|];
             rewrite Hpe in Hhd; injection Hhd as ->; eauto 7
           | split;
             [ exists st; split; [|split; reflexivity];
               rewrite Hp, Hp0, !elem_of_insert_by; auto
             | exists tm; split; [|split; reflexivity];
               rewrite Hp, elem_of_insert_by; auto ] ]
       end.
Qed.

End InitQueueSpec.


Lemma init_queue_starts_with_start_event_witness :
  let s' := the exampleSim (init builtin twoFcfsConf exampleSim) in
  init builtin twoFcfsConf exampleSim = Ok s' /\
  wf_queue (simulationQueue s') /\
  exists e q', getNextEvent (simulationQueue s') = Ok (e, q') /\
    kind e = SimStartEvent /\ time e = 0.
Proof.
  intros s'.
  assert (H : init builtin twoFcfsConf exampleSim = Ok s') by (vm_compute; reflexivity).
  clearbody s'.
  destruct (init_queue_starts_with_start_event twoFcfsConf exampleSim s' H)
    as (Hwf & (e & q' & Hget & Hk & Ht & _) & _).
  split; [exact H|]. split; [exact Hwf|]. eauto.
Defined.

(** * The life cycle of a simulation *)

Section LifeCycle.

Implicit Types (s : Sim) (D : Dispatch).

Lemma run_finalExit_flags evt s s' :
  run_finalExit evt s = Ok s' ->
  simInitDone s' = false /\ simRunning s' = false /\ simulationLen s' = simulationLen s.
Proof.
  unfold run_finalExit, sim_time. intros H. inv_res. steps_inv. cbn. auto.
Qed.

(** How [Simulator.run] ends. *)
Lemma run_inv D fuel runFor s res s' :
  run D fuel runFor s = Ok (res, s') ->
  simInitDone s = true /\ processesLoaded s = true /\
  ((runFor = Some 0 /\ res = None /\ s' = set_simRunning true s) \/
   exists mode x,
     run_loop D fuel mode 0 (set_simRunning true s) = Ok x /\
     match runFor with
     | None => mode = RunToEnd
     | Some k => (0 < k /\ mode = RunUntil (k + simulationTime s)) \/
                 (k < 0 /\ mode = RunSteps (- k))
     end /\
     match x with
     | SimStopped evt s1 =>
         run_finalExit evt s1 = Ok s' /\
         res = Some (simResult true (simulationLen s') s')
     | PartialExit s1 => s' = s1 /\ res = Some (simResult false (simulationTime s1) s1)
     | OutOfFuel _ => False
     end).
Proof.
  unfold run. intros H.
  destruct (simInitDone s); [|discriminate]. destruct (processesLoaded s); [|discriminate].
  cbn [negb] in H. split; [reflexivity|]. split; [reflexivity|].
  assert (Hstart : forall mode,
            (do x <- run_loop D fuel mode 0 (set_simRunning true s);
             match x with
             | SimStopped evt s0 =>
                 do s1 <- run_finalExit evt s0;
                 Ok (Some (simResult true (simulationLen s1) s1), s1)
             | PartialExit s0 => Ok (Some (simResult false (simulationTime s0) s0), s0)
             | OutOfFuel _ => Err "the model ran out of fuel"
             end) = Ok (res, s') ->
            exists x, run_loop D fuel mode 0 (set_simRunning true s) = Ok x /\
              match x with
              | SimStopped evt s1 =>
                  run_finalExit evt s1 = Ok s' /\
                  res = Some (simResult true (simulationLen s') s')
              | PartialExit s1 =>
                  s' = s1 /\ res = Some (simResult false (simulationTime s1) s1)
              | OutOfFuel _ => False
              end).
  { intros mode Hm. destruct (run_loop D fuel mode 0 _) as [x|]; [|discriminate].
    exists x. split; [reflexivity|]. cbn [rbind] in Hm. destruct x as [evt s1|s1|s1].
    - destruct (run_finalExit evt s1) as [s2|]; [|discriminate].
      cbn [rbind] in Hm. injection Hm as <- <-. auto.
    - injection Hm as <- <-. auto.
    - discriminate. }
  destruct runFor as [k|].
  - destruct (0 <? k) eqn:E1; [|destruct (k <? 0) eqn:E2].
    + right. apply Hstart in H as (x & Hx & Hend).
      exists (RunUntil (k + simulationTime s)), x. cbn in Hx |- *.
      split; [exact Hx|]. split; [left; split; [lia | reflexivity] | exact Hend].
    + right. apply Hstart in H as (x & Hx & Hend). exists (RunSteps (- k)), x.
      split; [exact Hx|]. split; [right; split; [lia | reflexivity] | exact Hend].
    + left. injection H as <- <-. replace k with 0 by lia. auto.
  - right. apply Hstart in H as (x & Hx & Hend). exists RunToEnd, x. auto.
Qed.

Lemma run_loop_flags fuel mode n s x :
  run_loop builtin fuel mode n s = Ok x ->
  match x with
  | SimStopped _ s' | OutOfFuel s' =>
      simRunning s' = simRunning s /\ simInitDone s' = simInitDone s /\
      processesLoaded s' = processesLoaded s
  | PartialExit s' =>
      simRunning s' = simRunning s /\ simInitDone s' = simInitDone s /\
      processesLoaded s' = processesLoaded s /\
      mode <> RunToEnd /\
      forall a, mode = RunUntil a -> simulationTime s' = a
  end.
Proof.
  revert n s x. induction fuel as [|fuel IH]; intros n s x H; cbn in H.
  - injection H as <-. auto.
  - destruct (getNextEvent (simulationQueue s)) as [[evt q]|]; cbn [rbind] in H; [|discriminate].
    destruct (isSimStopEvent evt).
    { injection H as <-. cbn. auto. }
    destruct (run_event builtin evt _) as [s1|] eqn:E1; cbn [rbind] in H; [|discriminate].
    apply run_event_builtin_flags in E1 as (_ & _ & Hr & Hi & Hl & _). cbn in Hr, Hi, Hl.
    assert (Hrec : forall n', run_loop builtin fuel mode n' s1 = Ok x ->
              match x with
              | SimStopped _ s' | OutOfFuel s' =>
                  simRunning s' = simRunning s /\ simInitDone s' = simInitDone s /\
                  processesLoaded s' = processesLoaded s
              | PartialExit s' =>
                  simRunning s' = simRunning s /\ simInitDone s' = simInitDone s /\
                  processesLoaded s' = processesLoaded s /\
                  mode <> RunToEnd /\
                  forall a, mode = RunUntil a -> simulationTime s' = a
              end).
    { intros n' H'. apply IH in H'. rewrite Hr, Hi, Hl in H'. exact H'. }
    destruct mode as [|a|a].
    + now apply Hrec in H.
    + destruct (peekNextEvent (simulationQueue s1)) as [nxt|]; cbn [rbind] in H; [|discriminate].
      destruct (time nxt >? a); [|now apply Hrec in H].
      unfold sim_time in H. destruct (a <? 0); [discriminate|]. cbn [rbind] in H.
      injection H as <-. cbn. repeat split; try assumption; [discriminate|].
      now intros ? [= ->].
    + destruct (peekNextEvent (simulationQueue s1)) as [nxt|]; cbn [rbind] in H; [|discriminate].
      match type of H with
      | (if ?b then _ else _) = _ => destruct b
      end; [|now apply Hrec in H].
      injection H as <-. repeat split; try assumption; discriminate.
Qed.

End LifeCycle.

(** X22.  A simulation that has been run to its end cannot be run again:
    when [Simulator.run] returns a finished result, whatever the scheduling
    classes, the run time of the result is the length of the simulation and
    the simulator is marked neither initialised nor running, so that [run],
    [step] and [runTo] throw until [Simulator.init] is called. *)
Theorem finished_run_needs_init (D : Dispatch) (fuel : nat) (runFor : option Z)
    (s s' : Sim) (r : SimResult) :
  run D fuel runFor s = Ok (Some r, s') -> r_finished r = true ->
  simInitDone s' = false /\ simRunning s' = false /\
  r_runTime r = simulationLen s' /\
  (forall fuel' runFor',
     run D fuel' runFor' s'
     = Err "simulation has not been properly started. Run Simulator.init() first.") /\
  (forall fuel' steps, is_ok (step D fuel' steps s') = false) /\
  (forall fuel' stopTime, is_ok (runTo D fuel' stopTime s') = false).
Proof.
  intros H Hfin. apply run_inv in H as (_ & _ & [(_ & [=] & _) | (mode & x & _ & _ & Hend)]).
  destruct x as [evt s1|s1|s1]; [| |contradiction].
  - destruct Hend as [Hexit [= ->]]. apply run_finalExit_flags in Hexit as (Hi & Hr & _).
    split; [exact Hi|]. split; [exact Hr|]. split; [reflexivity|].
    unfold step, runTo, run. rewrite Hi. cbn. repeat split.
  - destruct Hend as [_ [= ->]]. discriminate Hfin.
Qed.

Lemma finished_run_needs_init_witness :
  let s := the exampleSim (init builtin twoFcfsConf exampleSim) in
  let x := the (None, s) (run builtin 100 None s) in
  exists r, run builtin 100 None s = Ok (Some r, x.2) /\ r_finished r = true /\
    r_runTime r = 100 /\ simInitDone x.2 = false /\
    is_ok (run builtin 100 None x.2) = false.
Proof.
  intros s x.
  assert (H : exists r, run builtin 100 None s = Ok (Some r, x.2) /\ r_finished r = true /\
                        r_runTime r = 100)
    by (eexists; split; [vm_compute; reflexivity | split; vm_compute; reflexivity]).
  clearbody s x. destruct H as (r & H & Hfin & Ht). exists r.
  destruct (finished_run_needs_init builtin 100 None s x.2 r H Hfin)
    as (Hi & _ & _ & Hrun & _).
  split; [exact H|]. split; [exact Hfin|]. split; [exact Ht|]. split; [exact Hi|].
  now rewrite Hrun.
Defined.

(** X23.  A run that does not finish leaves the simulator locked, with the
    two classes of the model: when [Simulator.run] returns [null], which it
    does for the argument 0, or a result that is not finished, the simulator
    is marked as initialised, loaded and running, and [Simulator.init] throws.
    The run time of an unfinished result is the clock, which after a run for
    a positive time is the clock of before plus that time. *)
Theorem unfinished_run_blocks_init (fuel : nat) (runFor : option Z) (s s' : Sim)
    (res : option SimResult) :
  run builtin fuel runFor s = Ok (res, s') ->
  default false (r_finished <$> res) = false ->
  simRunning s' = true /\ simInitDone s' = true /\ processesLoaded s' = true /\
  (forall conf,
     init builtin conf s'
     = Err "a simulation is already underway. Finish it, or stop it with Simulator.break() before starting a new one.") /\
  match res with
  | None => runFor = Some 0 /\ simulationTime s' = simulationTime s
  | Some r =>
      r_runTime r = simulationTime s' /\
      exists k, runFor = Some k /\ k <> 0 /\
        (0 < k -> simulationTime s' = simulationTime s + k)
  end.
Proof.
  intros H Hfin.
  apply run_inv in H as (Hi & Hl & [(-> & -> & ->) | (mode & x & Hx & Hmode & Hend)]).
  - cbn. unfold init. cbn. auto 10.
  - apply run_loop_flags in Hx. destruct x as [evt s1|s1|s1]; [| |contradiction].
    + destruct Hend as [_ ->]. discriminate Hfin.
    + destruct Hend as [<- ->]. destruct Hx as (Hr & Hi' & Hl' & Hne & Ht).
      cbn in Hr, Hi', Hl'.
      split; [exact Hr|]. split; [congruence|]. split; [congruence|].
      split; [intros conf; unfold init; now rewrite Hr|].
      split; [reflexivity|]. destruct runFor as [k|]; [|contradiction].
      exists k. split; [reflexivity|]. destruct Hmode as [[Hk ->] | [Hk ->]].
      * split; [lia|]. intros _. rewrite (Ht _ eq_refl). lia.
      * split; [lia|]. intros Hpos. lia.
Qed.

Lemma unfinished_run_blocks_init_witness :
  let s := the exampleSim (init builtin twoFcfsConf exampleSim) in
  let x := the (None, s) (run builtin 100 (Some 5) s) in
  run builtin 100 (Some 5) s = Ok (x.1, x.2) /\
  default false (r_finished <$> x.1) = false /\
  simulationTime s = 0 /\ simulationTime x.2 = 5 /\ simRunning x.2 = true /\
  is_ok (init builtin twoFcfsConf x.2) = false.
Proof.
  intros s x.
  assert (H : run builtin 100 (Some 5) s = Ok (x.1, x.2)) by (vm_compute; reflexivity).
  assert (Hfin : default false (r_finished <$> x.1) = false) by (vm_compute; reflexivity).
  assert (Hs : simulationTime s = 0) by (vm_compute; reflexivity).
  assert (Hres : is_Some x.1) by (eexists; vm_compute; reflexivity).
  clearbody s x.
  destruct (unfinished_run_blocks_init 100 (Some 5) s x.2 x.1 H Hfin)
    as (Hr & _ & _ & Hinit & Hend).
  split; [exact H|]. split; [exact Hfin|]. split; [exact Hs|].
  destruct Hres as [r Hres]. rewrite Hres in Hend.
  destruct Hend as (_ & k & [= <-] & _ & Hk).
  split; [rewrite Hk; lia|]. split; [exact Hr|]. now rewrite Hinit.
Defined.

(** * The reordering of the scheduling classes *)

Section Reorder.

Implicit Types (order : list nat) (classes : list string).

Lemma checkArrayFull_spec order :
  checkArrayFull order = true <->
  forall i, (i < checkArrayLength order)%nat -> i ∈ order.
Proof.
  unfold checkArrayFull. rewrite forallb_forall. split.
  - intros H i Hi. eapply bool_decide_eq_true_1. apply H. apply in_seq. lia.
  - intros H i Hi. apply bool_decide_eq_true_2. apply H. apply in_seq in Hi. lia.
Qed.

(** The numbers of an order array that passes the check are indices of the
    array. *)
Lemma checkArrayFull_bound order :
  checkArrayFull order = true -> Forall (fun i => (i < length order)%nat) order.
Proof.
  intros H. rewrite checkArrayFull_spec in H. apply Forall_forall. intros x Hx.
  destruct order as [|a order']; [now apply elem_of_nil in Hx|].
  change (checkArrayLength (a :: order')) with (S (max_list (a :: order'))) in H.
  remember (a :: order') as order eqn:Ho. clear Ho.
  assert (Hle : (S (max_list order) <= length order)%nat).
  { assert (Hs : (length (seq 0 (S (max_list order))) <= length order)%nat).
    { apply submseteq_length. apply NoDup_submseteq; [apply NoDup_seq|].
      intros i Hi. apply H. apply elem_of_seq in Hi. lia. }
    now rewrite length_seq in Hs. }
  pose proof (max_list_elem_of_le _ _ Hx). lia.
Qed.

Lemma reordered_spec order classes :
  Forall (fun i => (i < length classes)%nat) order ->
  exists l, reordered order classes = Ok l /\
    l = (fun i => default "" (classes !! i)) <$> order /\
    forall i n, order !! i = Some n -> l !! i = classes !! n.
Proof.
  intros Hall. set (f := fun i => default "" (classes !! i)).
  assert (Hm : mapM (fun i => classes !! i) order = Some (f <$> order)).
  { apply mapM_Some. apply Forall2_fmap_r, Forall_Forall2_diag.
    eapply Forall_impl; [exact Hall|]. intros i Hi. unfold compose, f. cbn beta in Hi |- *.
    destruct (classes !! i) as [c|] eqn:E; [reflexivity|]. apply lookup_ge_None in E. lia. }
  exists (f <$> order). unfold reordered. rewrite Hm. split; [reflexivity|].
  split; [reflexivity|]. intros i n Hi. rewrite list_lookup_fmap, Hi. cbn. subst f.
  rewrite Forall_forall in Hall.
  assert (Hn : (n < length classes)%nat) by (eapply Hall, list_elem_of_lookup_2, Hi).
  destruct (classes !! n) as [c|] eqn:E; [reflexivity|]. apply lookup_ge_None in E. lia.
Qed.

Lemma reordered_inv order classes l :
  reordered order classes = Ok l ->
  Forall (fun i => (i < length classes)%nat) order /\
  l = (fun i => default "" (classes !! i)) <$> order.
Proof.
  unfold reordered. destruct (mapM _ order) as [l0|] eqn:Hm; [|discriminate].
  intros [= ->]. assert (Hall : Forall (fun i => (i < length classes)%nat) order).
  { assert (Hs : is_Some (mapM (fun i => classes !! i) order)) by (now rewrite Hm).
    apply mapM_is_Some_1 in Hs. eapply Forall_impl; [exact Hs|]. cbn.
    intros i Hi. now apply lookup_lt_is_Some_1. }
  split; [exact Hall|].
  destruct (reordered_spec order classes Hall) as (l' & Hl' & -> & _).
  unfold reordered in Hl'. rewrite Hm in Hl'. congruence.
Qed.

Lemma identity_order classes :
  classes = (fun i => default "" (classes !! i)) <$> seq 0 (length classes).
Proof.
  apply list_eq. intros i. rewrite list_lookup_fmap.
  destruct (classes !! i) as [c|] eqn:E.
  - rewrite lookup_seq_lt by (eapply lookup_lt_Some, E). cbn. now rewrite E.
  - rewrite lookup_seq_ge by (now apply lookup_ge_None). reflexivity.
Qed.

Lemma order_Permutation order (n : nat) :
  NoDup order -> length order = n -> Forall (fun i => (i < n)%nat) order ->
  order ≡ₚ seq 0 n.
Proof.
  intros Hnd Hlen Hall. apply submseteq_length_Permutation.
  - apply NoDup_submseteq; [exact Hnd|]. intros i Hi. rewrite Forall_forall in Hall.
    apply elem_of_seq. specialize (Hall i Hi). lia.
  - rewrite length_seq. lia.
Qed.

(** The classes after a reordering that passed the check. *)
Lemma reordered_classes order classes l :
  length order = length classes -> reordered order classes = Ok l ->
  length l = length classes /\
  (forall i n, order !! i = Some n -> l !! i = classes !! n /\ (n < length classes)%nat) /\
  (NoDup order -> l ≡ₚ classes) /\
  (NoDup l -> NoDup order).
Proof.
  intros Hlen H. apply reordered_inv in H as [Hall ->].
  split; [now rewrite length_fmap|]. split; [|split].
  - intros i n Hi. rewrite Forall_forall in Hall.
    assert (Hn : (n < length classes)%nat) by (eapply Hall, list_elem_of_lookup_2, Hi).
    split; [|exact Hn]. rewrite list_lookup_fmap, Hi. cbn.
    destruct (classes !! n) as [c|] eqn:E; [reflexivity|]. apply lookup_ge_None in E. lia.
  - intros Hnd.
    transitivity ((fun i => default "" (classes !! i)) <$> seq 0 (length classes)).
    + apply fmap_Permutation. now apply order_Permutation.
    + now rewrite <- identity_order.
  - apply NoDup_fmap_1.
Qed.

End Reorder.

(** X24.  [reorderActiveClasses] with two or more active classes returns
    only for an initialised simulator that is not running and for as many
    numbers as there are active classes; the class at the place [i] of the
    new order is then the class that was at the place [orderArray[i]].  When
    the numbers are all different the active classes are the same as before,
    in another order; when a number occurs twice, a class occurs twice.  The
    registered classes are left as they are. *)
Theorem reorderActiveClasses_takes_classes_by_index (order : list nat) (s s' : Sim) :
  reorderActiveClasses order s = Ok s' ->
  (2 <= length (schedClassPrio s))%nat ->
  simInitDone s = true /\ simRunning s = false /\
  length order = length (schedClassPrio s) /\
  length (schedClassPrio s') = length (schedClassPrio s) /\
  (forall i n, order !! i = Some n ->
     schedClassPrio s' !! i = schedClassPrio s !! n /\
     (n < length (schedClassPrio s))%nat) /\
  (NoDup order -> schedClassPrio s' ≡ₚ schedClassPrio s) /\
  (NoDup (schedClassPrio s') -> NoDup order) /\
  schedClassPrioRegistered s' = schedClassPrioRegistered s.
Proof.
  unfold reorderActiveClasses. intros H Hlen.
  destruct (simInitDone s); [|discriminate]. cbn [negb] in H.
  replace (length (schedClassPrio s) <? 2)%nat with false in H
    by (symmetry; apply Nat.ltb_ge; lia).
  destruct (simRunning s); [discriminate|].
  destruct (length order =? length (schedClassPrio s))%nat eqn:El; [|discriminate].
  apply Nat.eqb_eq in El. cbn [negb] in H.
  destruct (checkArrayFull order); [|discriminate]. cbn [negb] in H.
  destruct (reordered order (schedClassPrio s)) as [l|] eqn:Hl; [|discriminate].
  cbn [rbind] in H. injection H as <-. cbn.
  destruct (reordered_classes order _ l El Hl) as (H1 & H2 & H3 & H4). auto 10.
Qed.

Lemma reorderActiveClasses_takes_classes_by_index_witness :
  let s := the exampleSim (init builtin mixedConf exampleSim) in
  let s' := the s (reorderActiveClasses [1%nat; 0%nat] s) in
  reorderActiveClasses [1%nat; 0%nat] s = Ok s' /\
  schedClassPrio s = [FCFSClass.name; LinuxFairClass.name] /\
  schedClassPrio s' = [LinuxFairClass.name; FCFSClass.name] /\
  schedClassPrio s' ≡ₚ schedClassPrio s.
Proof.
  intros s s'.
  assert (H : reorderActiveClasses [1%nat; 0%nat] s = Ok s') by (vm_compute; reflexivity).
  assert (Hs : schedClassPrio s = [FCFSClass.name; LinuxFairClass.name])
    by (vm_compute; reflexivity).
  assert (Hs' : schedClassPrio s' = [LinuxFairClass.name; FCFSClass.name])
    by (vm_compute; reflexivity).
  clearbody s s'.
  assert (Hlen : (2 <= length (schedClassPrio s))%nat) by (rewrite Hs; cbn; lia).
  destruct (reorderActiveClasses_takes_classes_by_index [1%nat; 0%nat] s s' H Hlen)
    as (_ & _ & _ & _ & _ & Hperm & _).
  split; [exact H|]. split; [exact Hs|]. split; [exact Hs'|].
  apply Hperm. apply (bool_decide_unpack _). vm_compute. reflexivity.
Defined.

(** X25.  What [reorderActiveClasses] checks.  For an initialised simulator
    that is not running, with two or more active classes, the call returns
    exactly when the order array has as many numbers as there are active
    classes and holds every number up to its greatest one; that the numbers
    are all different is not checked. *)
Theorem reorderActiveClasses_accepts_iff (order : list nat) (s : Sim) :
  simInitDone s = true -> simRunning s = false ->
  (2 <= length (schedClassPrio s))%nat ->
  is_ok (reorderActiveClasses order s) = true <->
  length order = length (schedClassPrio s) /\
  forall i, (i <= max_list order)%nat -> i ∈ order.
Proof.
  intros Hi Hr Hlen. unfold reorderActiveClasses. rewrite Hi, Hr. cbn [negb].
  replace (length (schedClassPrio s) <? 2)%nat with false
    by (symmetry; apply Nat.ltb_ge; lia).
  destruct (length order =? length (schedClassPrio s))%nat eqn:El; cbn [negb].
  2:{ apply Nat.eqb_neq in El. split; [discriminate | tauto]. }
  apply Nat.eqb_eq in El.
  assert (Hcl : checkArrayLength order = S (max_list order)).
  { destruct order; [cbn in El; lia | reflexivity]. }
  destruct (checkArrayFull order) eqn:Ec; cbn [negb].
  - pose proof (checkArrayFull_bound order Ec) as Hb. rewrite El in Hb.
    destruct (reordered_spec order _ Hb) as (l & -> & _). cbn [rbind is_ok].
    split; [intros _|reflexivity]. split; [exact El|].
    rewrite checkArrayFull_spec, Hcl in Ec. intros i Hle. apply Ec. lia.
  - split; [discriminate|]. intros [_ Hall].
    assert (Hc : checkArrayFull order = true).
    { apply checkArrayFull_spec. rewrite Hcl. intros i Hlt. apply Hall. lia. }
    congruence.
Qed.

Lemma reorderActiveClasses_accepts_iff_witness :
  let s := the exampleSim (init builtin mixedConf exampleSim) in
  let s' := the s (reorderActiveClasses [0%nat; 0%nat] s) in
  simInitDone s = true /\ simRunning s = false /\
  schedClassPrio s = [FCFSClass.name; LinuxFairClass.name] /\
  reorderActiveClasses [0%nat; 0%nat] s = Ok s' /\
  schedClassPrio s' = [FCFSClass.name; FCFSClass.name] /\
  (is_ok (reorderActiveClasses [0%nat; 0%nat] s) = true <->
   length [0%nat; 0%nat] = length (schedClassPrio s) /\
   forall i, (i <= max_list [0%nat; 0%nat])%nat -> i ∈ [0%nat; 0%nat]).
Proof.
  intros s s'.
  assert (Hi : simInitDone s = true) by (vm_compute; reflexivity).
  assert (Hr : simRunning s = false) by (vm_compute; reflexivity).
  assert (Hs : schedClassPrio s = [FCFSClass.name; LinuxFairClass.name])
    by (vm_compute; reflexivity).
  assert (H : reorderActiveClasses [0%nat; 0%nat] s = Ok s') by (vm_compute; reflexivity).
  assert (Hs' : schedClassPrio s' = [FCFSClass.name; FCFSClass.name])
    by (vm_compute; reflexivity).
  clearbody s s'.
  assert (Hlen : (2 <= length (schedClassPrio s))%nat) by (rewrite Hs; cbn; lia).
  split; [exact Hi|]. split; [exact Hr|]. split; [exact Hs|]. split; [exact H|].
  split; [exact Hs'|].
  exact (reorderActiveClasses_accepts_iff [0%nat; 0%nat] s Hi Hr Hlen).
Defined.

(** X26.  [reorderRegisteredClasses] returns only when no simulation is
    running and for as many numbers as there are registered classes; the
    registered class at the place [i] of the new order is then the class that
    was at the place [orderArray[i]].  When the numbers are all different the
    registered classes are the same as before, in another order; when a
    number occurs twice, a class occurs twice.  Two or more active classes
    are put in the new order of the registered ones. *)
Theorem reorderRegisteredClasses_takes_classes_by_index (order : list nat) (s s' : Sim) :
  reorderRegisteredClasses order s = Ok s' ->
  simRunning s = false /\
  length order = length (schedClassPrioRegistered s) /\
  (forall i n, order !! i = Some n ->
     schedClassPrioRegistered s' !! i = schedClassPrioRegistered s !! n /\
     (n < length (schedClassPrioRegistered s))%nat) /\
  (NoDup order -> schedClassPrioRegistered s' ≡ₚ schedClassPrioRegistered s) /\
  (NoDup (schedClassPrioRegistered s') -> NoDup order) /\
  schedClassPrio s'
  = (if (1 <? length (schedClassPrio s))%nat
     then filter (fun n => n ∈ schedClassPrio s) (schedClassPrioRegistered s')
     else schedClassPrio s).
Proof.
  unfold reorderRegisteredClasses. intros H.
  destruct (simRunning s); [discriminate|].
  destruct (length order =? length (schedClassPrioRegistered s))%nat eqn:El; [|discriminate].
  apply Nat.eqb_eq in El. cbn [negb] in H.
  destruct (checkArrayFull order); [|discriminate]. cbn [negb] in H.
  destruct (reordered order (schedClassPrioRegistered s)) as [l|] eqn:Hl; [|discriminate].
  cbn [rbind] in H.
  destruct (reordered_classes order _ l El Hl) as (H1 & H2 & H3 & H4).
  change (schedClassPrio (set_schedClassPrioRegistered l s)) with (schedClassPrio s) in H.
  destruct (1 <? length (schedClassPrio s))%nat; injection H as <-; cbn; auto 10.
Qed.

Lemma reorderRegisteredClasses_takes_classes_by_index_witness :
  let s := set_simRunning false (the exampleSim (stepped mixedConf 2)) in
  let s' := the s (reorderRegisteredClasses [1%nat; 0%nat] s) in
  reorderRegisteredClasses [1%nat; 0%nat] s = Ok s' /\
  schedClassPrioRegistered s = [FCFSClass.name; LinuxFairClass.name] /\
  schedClassPrioRegistered s' = [LinuxFairClass.name; FCFSClass.name] /\
  schedClassPrio s' = [LinuxFairClass.name; FCFSClass.name] /\
  schedClassPrioRegistered s' ≡ₚ schedClassPrioRegistered s.
Proof.
  intros s s'.
  assert (H : reorderRegisteredClasses [1%nat; 0%nat] s = Ok s') by (vm_compute; reflexivity).
  assert (Hs : schedClassPrioRegistered s = [FCFSClass.name; LinuxFairClass.name])
    by (vm_compute; reflexivity).
  assert (Hs' : schedClassPrioRegistered s' = [LinuxFairClass.name; FCFSClass.name])
    by (vm_compute; reflexivity).
  assert (Ha' : schedClassPrio s' = [LinuxFairClass.name; FCFSClass.name])
    by (vm_compute; reflexivity).
  clearbody s s'.
  destruct (reorderRegisteredClasses_takes_classes_by_index [1%nat; 0%nat] s s' H)
    as (_ & _ & _ & Hperm & _).
  split; [exact H|]. split; [exact Hs|]. split; [exact Hs'|]. split; [exact Ha'|].
  apply Hperm. apply (bool_decide_unpack _). vm_compute. reflexivity.
Defined.

(** * An event that is alone at its time *)

Section LoneEvent.

Implicit Types (q : queue) (e evt : Event) (h : holder Event).

Lemma app_split_front (hs p l1 l2 : list Event) e (t : Z) :
  (hs ++ p = l1 ++ e :: l2)%list -> time e = t -> Forall (fun x => time x <> t) hs ->
  exists l1', l1 = (hs ++ l1')%list /\ p = (l1' ++ e :: l2)%list.
Proof.
  revert l1. induction hs as [|a hs IH]; intros l1 Heq He Hall; [now exists l1|].
  apply Forall_cons in Hall as [Ha Hall]. destruct l1 as [|x l1]; cbn in Heq.
  - injection Heq as -> _. congruence.
  - injection Heq as <- Heq. destruct (IH l1 Heq He Hall) as (l1' & -> & ->).
    now exists l1'.
Qed.

(** The node of the time of [evt] holds [e] alone, and the tree without it
    holds the other events. *)
Lemma lone_holder evt e q l1 l2 :
  wf_queue q -> pending q = (l1 ++ e :: l2)%list -> time e = time evt ->
  Forall (fun x => time x <> time evt) l1 -> Forall (fun x => time x <> time evt) l2 ->
  (redblack.get Z.compare (time evt) q = Some (Single e) \/
   redblack.get Z.compare (time evt) q = Some (Bucket [e])) /\
  wf_queue (redblack.delete Z.compare (time evt) q) /\
  pending (redblack.delete Z.compare (time evt) q) = (l1 ++ l2)%list /\
  forall k, Forall (fun kv => k < fst kv) q ->
            Forall (fun kv => k < fst kv) (redblack.delete Z.compare (time evt) q).
Proof.
  revert l1. induction q as [|[k h] q IH]; intros l1 Hwf Hp He Hl1 Hl2.
  { destruct l1; discriminate. }
  apply wf_queue_cons in Hwf as ([Hne Hh] & Hlt & Hwf). cbn in Hne, Hh.
  rewrite pending_cons in Hp. cbn [redblack.get redblack.delete].
  destruct (Z.compare_spec (time evt) k) as [Heq | Hlt' | Hgt].
  - destruct (holder_events h) as [|a t] eqn:Hhs; [congruence|].
    apply Forall_cons in Hh as [Ha Ht].
    destruct l1 as [|x l1]; cbn in Hp.
    2:{ injection Hp as <- _. apply Forall_cons in Hl1 as [Hx _]. lia. }
    injection Hp as <- Hp.
    destruct t as [|b t].
    2:{ cbn in Hp. subst l2. apply Forall_cons in Hl2 as [Hb _].
        apply Forall_cons in Ht as [Hb' _]. lia. }
    cbn in Hp. subst l2. split.
    { destruct h as [x | l]; cbn in Hhs; [injection Hhs as ->; now left|].
      subst l. now right. }
    split; [exact Hwf|]. split; [reflexivity|]. intros k0 Hk0. now inversion Hk0.
  - exfalso.
    assert (Hall : Forall (fun x => k <= time x) (holder_events h ++ pending q)).
    { apply Forall_app. split.
      - eapply Forall_impl; [exact Hh|]. cbn. intros; lia.
      - eapply Forall_impl; [apply (pending_lower_bound k q Hwf Hlt)|]. cbn. intros; lia. }
    rewrite Hp in Hall. apply Forall_app in Hall as [_ Hall].
    apply Forall_cons in Hall as [Hall _]. lia.
  - assert (Hhs : Forall (fun x => time x <> time evt) (holder_events h)).
    { eapply Forall_impl; [exact Hh|]. cbn. intros; lia. }
    destruct (app_split_front _ _ _ _ _ _ Hp He Hhs) as (l1' & -> & Hp').
    apply Forall_app in Hl1 as [_ Hl1'].
    destruct (IH l1' Hwf Hp' He Hl1' Hl2) as (Hget & Hwf' & Hpd & Hbound).
    split; [exact Hget|]. split.
    { apply wf_queue_cons. split; [split; assumption|]. split; [now apply Hbound | exact Hwf']. }
    split; [rewrite pending_cons, Hpd, <- app_assoc; reflexivity|].
    intros k0 Hk0. inversion Hk0; subst. constructor; [assumption|]. now apply Hbound.
Qed.

End LoneEvent.

(** X27.  [deleteEvent] does not look at an event that is alone at its time:
    when one event [e] is queued at the time of [evt], in a well-formed
    simulation queue and at a time that has not passed, [deleteEvent] for
    [evt] returns [e] and takes it out of the queue, whether or not [e] is
    [evt]. *)
Theorem deleteEvent_takes_lone_event (now : Z) (evt e : Event) (q : queue)
    (l1 l2 : list Event) :
  wf_queue q -> now <= time evt ->
  pending q = (l1 ++ e :: l2)%list -> time e = time evt ->
  Forall (fun x => time x <> time evt) l1 -> Forall (fun x => time x <> time evt) l2 ->
  exists q', deleteEvent now evt q = Ok (Some e, q') /\
             wf_queue q' /\ pending q' = (l1 ++ l2)%list.
Proof.
  intros Hwf Hnow Hp He Hl1 Hl2.
  destruct (lone_holder evt e q l1 l2 Hwf Hp He Hl1 Hl2) as (Hget & Hwf' & Hpd & _).
  exists (redblack.delete Z.compare (time evt) q).
  unfold deleteEvent, getEvent, redblack.getDelete.
  rewrite (proj2 (Z.ltb_ge (time evt) now)) by exact Hnow.
  destruct Hget as [-> | ->]; auto.
Qed.

Lemma deleteEvent_takes_lone_event_witness :
  let e0 := mkEvent 0 5 0 TimerEvent None in
  let e1 := mkEvent 1 3 0 ForkEvent (Some (Pid 0)) in
  let e2 := mkEvent 2 3 0 ForkEvent (Some (Pid 1)) in
  let evt := mkEvent 7 5 0 BlockEvent (Some (Pid 0)) in
  let q := [(3, Bucket [e1; e2]); (5, Single e0)] in
  wf_queue q /\ Event_same e0 evt = false /\
  deleteEvent 0 evt q = Ok (Some e0, [(3, Bucket [e1; e2])]) /\
  exists q', deleteEvent 0 evt q = Ok (Some e0, q') /\
             wf_queue q' /\ pending q' = [e1; e2].
Proof.
  intros e0 e1 e2 evt q.
  assert (Hwf : wf_queue q) by (now apply example_queue_wf).
  split; [exact Hwf|]. split; [reflexivity|]. split; [reflexivity|].
  apply (deleteEvent_takes_lone_event 0 evt e0 q [e1; e2] [] Hwf);
    [cbn; lia | reflexivity | reflexivity | repeat constructor; cbn; lia | constructor].
Defined.

(** * The processes that [loadProc] makes *)

Section Loading.

Implicit Types (s : Sim) (d : ProcDef) (p : Process).

Lemma getProcVal_drawn v s x s' : getProcVal v s = Ok (x, s') -> drawn_from v x.
Proof.
  unfold getProcVal, mathRandomFloor. destruct v as [[z|lo hi]|]; [| |discriminate].
  - now intros [= <- _].
  - destruct (Z.leb_spec lo hi) as [Hle|]; [|discriminate]. intros [= <- _]. cbn.
    destruct (Z.ltb_spec 0 (hi - lo)) as [Hpos | Hzero].
    + pose proof (Z.mod_pos_bound (randomSource s (randomCount s)) (hi - lo) Hpos). lia.
    + lia.
Qed.






End Loading.



(** * The load of the fair class *)

Section FairLoad.

Implicit Types (s : Sim) (proc r : pref).

Lemma fair_counts_kept_refl s : fair_counts_kept s s.
Proof. repeat split. Qed.

Lemma fair_counts_kept_trans s1 s2 s3 :
  fair_counts_kept s1 s2 -> fair_counts_kept s2 s3 -> fair_counts_kept s1 s3.
Proof.
  intros (H1 & H2 & H3) (H4 & H5 & H6). split; [congruence|]. split; [congruence|].
  intros r. now rewrite H6, H3.
Qed.

(** An assignment to a process that leaves its behaviours alone. *)
Lemma updProc_counts r0 f s s' :
  updProc r0 f s = Ok s' -> (forall p, behavior (f p) = behavior p) ->
  fair_counts_kept s s'.
Proof.
  intros H Hf. pose proof (updProc_getProc _ _ _ _ H) as Hget.
  apply updProc_inv in H as (p0 & Hp0 & ->).
  split; [reflexivity|]. split; [reflexivity|]. intros r. unfold fairWeight.
  rewrite Hget. destruct (pref_eqb r0 r); [|reflexivity].
  destruct (getProc r s) as [p|]; [|reflexivity]. cbn [rbind].
  unfold currBehavior. now rewrite Hf.
Qed.

(** A change of the fair class that is not one of its two counters. *)
Lemma upd_counts f s :
  (forall o, LinuxFair.enqueued (f o) = LinuxFair.enqueued o) ->
  (forall o, LinuxFair.load (f o) = LinuxFair.load o) ->
  fair_counts_kept s (LinuxFairClass.upd f s).
Proof.
  intros H1 H2. unfold LinuxFairClass.upd. split; [apply H1|]. split; [apply H2|].
  reflexivity.
Qed.

Lemma SchedClass_enqueue_counts proc s s' :
  SchedClass_enqueue proc s = Ok s' -> fair_counts_kept s s'.
Proof.
  unfold SchedClass_enqueue. intros H. inv_res.
  eapply updProc_counts; [eassumption|]. reflexivity.
Qed.

Lemma SchedClass_dequeue_counts proc s s' :
  SchedClass_dequeue proc s = Ok s' -> fair_counts_kept s s'.
Proof.
  unfold SchedClass_dequeue. intros H. inv_res.
  eapply updProc_counts; [eassumption|]. reflexivity.
Qed.

Lemma updateMinVruntime_counts proc s s' :
  LinuxFairClass.updateMinVruntime proc s = Ok s' -> fair_counts_kept s s'.
Proof.
  unfold LinuxFairClass.updateMinVruntime. intros H.
  destruct (getProc proc s) as [p|]; cbn [rbind] in H; [|discriminate].
  match type of H with rbind ?m _ = _ => destruct m as [v|]; cbn [rbind] in H; [|discriminate] end.
  injection H as <-. now apply upd_counts.
Qed.

Lemma updateCurr_counts proc s s' :
  LinuxFairClass.updateCurr proc s = Ok s' -> fair_counts_kept s s'.
Proof.
  unfold LinuxFairClass.updateCurr. intros H. inv_res; try apply fair_counts_kept_refl.
  repeat match goal with
         | H : updProc _ _ _ = Ok _ |- _ =>
             apply updProc_counts in H; [|reflexivity]
         end.
  framed updateMinVruntime_counts.
  repeat (eapply fair_counts_kept_trans; [eassumption|]). apply fair_counts_kept_refl.
Qed.

Lemma placeEntity_counts proc initial s s' :
  LinuxFairClass.placeEntity proc initial s = Ok s' -> fair_counts_kept s s'.
Proof.
  unfold LinuxFairClass.placeEntity. intros H. inv_res; try apply fair_counts_kept_refl.
  all: eapply updProc_counts; [eassumption|]; reflexivity.
Qed.

Lemma enqueueEntity_counts proc s s' :
  LinuxFairClass.enqueueEntity proc s = Ok s' -> fair_counts_kept s s'.
Proof.
  unfold LinuxFairClass.enqueueEntity. intros H. inv_res; now apply upd_counts.
Qed.

Lemma dequeueEntity_counts proc s s' :
  LinuxFairClass.dequeueEntity proc s = Ok s' -> fair_counts_kept s s'.
Proof.
  unfold LinuxFairClass.dequeueEntity. intros H. inv_res; now apply upd_counts.
Qed.

(** A chain of steps that keep the counters. *)
Ltac counts_chain :=
  repeat first
    [ eassumption
    | apply fair_counts_kept_refl
    | solve [apply upd_counts; reflexivity]
    | match goal with
      | H : fair_counts_kept ?a ?b |- fair_counts_kept _ ?b =>
          apply (fair_counts_kept_trans _ a b); [|exact H]
      end ].

(** The steps of a computation, as steps that keep the counters. *)
Ltac counts_steps :=
  repeat match goal with
         | H : updProc _ _ _ = Ok _ |- _ => apply updProc_counts in H; [|reflexivity]
         end;
  framed SchedClass_enqueue_counts; framed SchedClass_dequeue_counts;
  framed updateCurr_counts; framed placeEntity_counts;
  framed enqueueEntity_counts; framed dequeueEntity_counts;
  repeat match goal with
         | H : fair_counts_kept (if ?b then _ else _) _ |- _ => destruct b
         end.

Lemma Fair_enqueue_load proc s s' :
  LinuxFairClass.enqueue proc s = Ok s' ->
  exists w, fairWeight proc s = Ok w /\
    LinuxFair.enqueued (fair s') = LinuxFair.enqueued (fair s) + 1 /\
    LinuxFair.load (fair s') = LinuxFair.load (fair s) + w /\
    forall r, fairWeight r s' = fairWeight r s.
Proof.
  unfold LinuxFairClass.enqueue. intros H. inv_res;
  match goal with
  | Hp : getProc ?pr ?a = Ok ?p, Hcb : currBehavior ?p = Ok ?cb,
    Hw : LinuxFairClass.getLoad (Behavior.priority ?cb) = Ok ?w |- _ =>
      assert (Hwt : fairWeight pr a = Ok w)
        by (unfold fairWeight; rewrite Hp; cbn [rbind]; rewrite Hcb; exact Hw);
      exists w; clear Hp Hcb Hw;
      counts_steps;
      assert (Hpre : fair_counts_kept s a) by counts_chain;
      assert (Hpost : fair_counts_kept
                        (LinuxFairClass.upd
                           (fun o => LinuxFair.set_enqueued (LinuxFair.enqueued o + 1)
                                       (LinuxFair.set_load (LinuxFair.load o + w) o)) a) s')
        by counts_chain;
      destruct Hpre as (Hp1 & Hp2 & Hp3); destruct Hpost as (Hq1 & Hq2 & Hq3);
      cbn in Hq1, Hq2;
      (split; [now rewrite <- Hp3|]); (split; [cbn; lia|]); (split; [cbn; lia|]);
      intros r; exact (eq_trans (Hq3 r) (Hp3 r))
  end.
Qed.

Lemma Fair_dequeue_load proc s s' :
  LinuxFairClass.dequeue proc s = Ok s' ->
  exists w, fairWeight proc s = Ok w /\
    LinuxFair.enqueued (fair s') = LinuxFair.enqueued (fair s) - 1 /\
    LinuxFair.load (fair s') = LinuxFair.load (fair s) - w /\
    forall r, fairWeight r s' = fairWeight r s.
Proof.
  unfold LinuxFairClass.dequeue. intros H. inv_res;
  match goal with
  | Hp : getProc ?pr ?a = Ok ?p, Hcb : currBehavior ?p = Ok ?cb,
    Hw : LinuxFairClass.getLoad (Behavior.priority ?cb) = Ok ?w |- _ =>
      assert (Hwt : fairWeight pr a = Ok w)
        by (unfold fairWeight; rewrite Hp; cbn [rbind]; rewrite Hcb; exact Hw);
      exists w; clear Hp Hcb Hw;
      counts_steps;
      assert (Hpre : fair_counts_kept s a) by counts_chain;
      match goal with
      | |- _ /\ LinuxFair.enqueued (fair ?fin) = _ /\ _ =>
          assert (Hpost : fair_counts_kept
                            (LinuxFairClass.upd
                               (fun o => LinuxFair.set_enqueued (LinuxFair.enqueued o - 1)
                                           (LinuxFair.set_load (LinuxFair.load o - w) o)) a) fin)
            by counts_chain
      end;
      destruct Hpre as (Hp1 & Hp2 & Hp3); destruct Hpost as (Hq1 & Hq2 & Hq3);
      cbn in Hq1, Hq2;
      (split; [now rewrite <- Hp3|]); (split; [cbn; lia|]); (split; [cbn; lia|]);
      intros r; exact (eq_trans (Hq3 r) (Hp3 r))
  end.
Qed.

Lemma fairWeight_range proc s w : fairWeight proc s = Ok w -> 15 <= w <= 88761.
Proof.
  unfold fairWeight. intros H. inv_res.
  match goal with
  | H : LinuxFairClass.getLoad ?p = Ok _ |- _ =>
      destruct p as [[z| |]|]; try discriminate H; exact (getLoad_range _ _ H)
  end.
Qed.

End FairLoad.

(** X29.  [LinuxFairClass.enqueue] and [LinuxFairClass.dequeue] keep the
    account of the run queue: an enqueue that succeeds raises [enqueued] by
    one and [load] by the weight [w] of the current priority of the
    process, one of the weights of [schedPrioToWeight] (from 15 to 88761);
    a dequeue of the same process that succeeds after it lowers both by the
    same amounts, so that the two counters are back at their values. *)
Theorem Fair_enqueue_dequeue_keep_account (proc : pref) (s s1 s2 : Sim) :
  LinuxFairClass.enqueue proc s = Ok s1 ->
  LinuxFairClass.dequeue proc s1 = Ok s2 ->
  exists w, fairWeight proc s = Ok w /\ 15 <= w <= 88761 /\
    LinuxFair.enqueued (fair s1) = LinuxFair.enqueued (fair s) + 1 /\
    LinuxFair.load (fair s1) = LinuxFair.load (fair s) + w /\
    LinuxFair.enqueued (fair s2) = LinuxFair.enqueued (fair s) /\
    LinuxFair.load (fair s2) = LinuxFair.load (fair s).
Proof.
  intros (w & Hw & He & Hl & Hk)%Fair_enqueue_load
         (w' & Hw' & He' & Hl' & _)%Fair_dequeue_load.
  rewrite Hk, Hw in Hw'. injection Hw' as <-.
  exists w. split; [exact Hw|]. split; [exact (fairWeight_range _ _ _ Hw)|].
  repeat split; lia.
Qed.

Lemma Fair_enqueue_dequeue_keep_account_witness :
  let s := the exampleSim (stepped fairConf 2) in
  let s1 := the s (LinuxFairClass.enqueue (Pid 0) s) in
  let s2 := the s (LinuxFairClass.dequeue (Pid 0) s1) in
  (LinuxFairClass.enqueue (Pid 0) s = Ok s1 /\
   LinuxFairClass.dequeue (Pid 0) s1 = Ok s2 /\
   fairWeight (Pid 0) s = Ok 1024 /\ LinuxFair.load (fair s) = 2048) /\
  exists w, fairWeight (Pid 0) s = Ok w /\ 15 <= w <= 88761 /\
    LinuxFair.enqueued (fair s1) = LinuxFair.enqueued (fair s) + 1 /\
    LinuxFair.load (fair s1) = LinuxFair.load (fair s) + w /\
    LinuxFair.enqueued (fair s2) = LinuxFair.enqueued (fair s) /\
    LinuxFair.load (fair s2) = LinuxFair.load (fair s).
Proof.
  intros s s1 s2.
  assert (H1 : LinuxFairClass.enqueue (Pid 0) s = Ok s1) by (vm_compute; reflexivity).
  assert (H2 : LinuxFairClass.dequeue (Pid 0) s1 = Ok s2) by (vm_compute; reflexivity).
  assert (H3 : fairWeight (Pid 0) s = Ok 1024) by (vm_compute; reflexivity).
  assert (H4 : LinuxFair.load (fair s) = 2048) by (vm_compute; reflexivity).
  clearbody s s1 s2.
  split; [repeat split; assumption|].
  exact (Fair_enqueue_dequeue_keep_account (Pid 0) s s1 s2 H1 H2).
Defined.

(** * A process that blocks *)

Section Block.

Implicit Types (s : Sim) (proc r : pref) (p : Process).

Lemma same_run_refl p : same_run p p.
Proof. repeat split. Qed.

Lemma same_run_trans p1 p2 p3 : same_run p1 p2 -> same_run p2 p3 -> same_run p1 p3.
Proof. unfold same_run. intros (?&?&?&?&?) (?&?&?&?&?). repeat split; congruence. Qed.

Lemma run_kept_refl s : run_kept s s.
Proof. repeat split. intros r p Hp. exists p. split; [exact Hp | apply same_run_refl]. Qed.

Lemma run_kept_trans s1 s2 s3 : run_kept s1 s2 -> run_kept s2 s3 -> run_kept s1 s3.
Proof.
  intros (Ht1 & Hq1 & H1) (Ht2 & Hq2 & H2). split; [congruence|]. split; [congruence|].
  intros r p Hp. destruct (H1 r p Hp) as (p2 & Hp2 & Hs2).
  destruct (H2 r p2 Hp2) as (p3 & Hp3 & Hs3). exists p3. split; [exact Hp3|].
  eapply same_run_trans; eassumption.
Qed.

(** An assignment to fields of a process that are not among those of
    [same_run]. *)
Lemma updProc_kept r0 f s s' :
  updProc r0 f s = Ok s' -> (forall p, same_run p (f p)) -> run_kept s s'.
Proof.
  intros H Hf. pose proof (updProc_getProc _ _ _ _ H) as Hget.
  apply updProc_inv in H as (p0 & Hp0 & ->).
  split; [reflexivity|]. split; [reflexivity|]. intros r p Hp. rewrite Hget.
  destruct (pref_eqb r0 r).
  - rewrite Hp. cbn [rbind]. eauto.
  - exists p. split; [exact Hp | apply same_run_refl].
Qed.

(** A change of the object of the fair class. *)
Lemma upd_kept f s : run_kept s (LinuxFairClass.upd f s).
Proof.
  split; [reflexivity|]. split; [reflexivity|]. intros r p Hp. exists p.
  split; [exact Hp | apply same_run_refl].
Qed.

Lemma SchedClass_dequeue_kept proc s s' :
  SchedClass_dequeue proc s = Ok s' -> run_kept s s'.
Proof.
  unfold SchedClass_dequeue. intros H. inv_res.
  eapply updProc_kept; [eassumption|]. intros p. repeat split.
Qed.

Lemma updateMinVruntime_kept proc s s' :
  LinuxFairClass.updateMinVruntime proc s = Ok s' -> run_kept s s'.
Proof.
  unfold LinuxFairClass.updateMinVruntime. intros H.
  destruct (getProc proc s) as [p|]; cbn [rbind] in H; [|discriminate].
  match type of H with rbind ?m _ = _ => destruct m as [v|]; cbn [rbind] in H; [|discriminate] end.
  injection H as <-. apply upd_kept.
Qed.

(** The steps of a computation, as steps that keep what [run_kept] names. *)
Ltac kept_steps :=
  repeat match goal with
         | H : updProc _ _ _ = Ok _ |- _ =>
             apply updProc_kept in H; [|intros ?; repeat split]
         end;
  framed SchedClass_dequeue_kept; framed updateMinVruntime_kept.

Ltac kept_chain :=
  repeat first
    [ eassumption
    | apply run_kept_refl
    | match goal with
      | H : run_kept ?a ?b |- run_kept _ ?b =>
          apply (run_kept_trans _ a b); [|exact H]
      end ].

Lemma updateCurr_kept proc s s' :
  LinuxFairClass.updateCurr proc s = Ok s' -> run_kept s s'.
Proof.
  unfold LinuxFairClass.updateCurr. intros H. inv_res; try apply run_kept_refl.
  kept_steps. kept_chain.
Qed.

Lemma dequeueEntity_kept proc s s' :
  LinuxFairClass.dequeueEntity proc s = Ok s' -> run_kept s s'.
Proof.
  unfold LinuxFairClass.dequeueEntity. intros H. inv_res; apply upd_kept.
Qed.

Lemma FCFS_dequeue_kept proc s s' :
  FCFSClass.dequeue proc s = Ok s' ->
  run_kept s s' /\ exists p', getProc proc s' = Ok p' /\ onRq p' = false.
Proof.
  unfold FCFSClass.dequeue. intros H. inv_res. split.
  - apply SchedClass_dequeue_kept in E. exact E.
  - unfold SchedClass_dequeue in E. inv_res.
    match goal with
    | H : updProc _ _ _ = Ok ?a |- _ =>
        change (getProc proc (set_fcfs (FCFSClass.remove_first proc (fcfs a)) a))
          with (getProc proc a);
        rewrite (updProc_getProc _ _ _ _ H proc)
    end.
    rewrite pref_eqb_refl, E0. cbn [rbind]. eauto.
Qed.

Lemma Fair_dequeue_kept proc s s' :
  LinuxFairClass.dequeue proc s = Ok s' ->
  run_kept s s' /\ exists p', getProc proc s' = Ok p' /\ onRq p' = false.
Proof.
  unfold LinuxFairClass.dequeue. intros H. inv_res.
  all: match goal with
       | Hlast : updProc _ (set_onRq false) ?a = Ok ?b |- _ =>
           assert (Hoff : exists p', getProc proc b = Ok p' /\ onRq p' = false)
             by (pose proof (updProc_getProc _ _ _ _ Hlast proc) as Hg;
                 rewrite pref_eqb_refl in Hg;
                 apply updProc_inv in Hlast as (p0 & Hp0 & _);
                 rewrite Hp0 in Hg; cbn [rbind] in Hg; eauto)
       end.
  all: destruct Hoff as (p1 & Hp1 & Hoff).
  - split.
    + kept_steps. framed updateCurr_kept. framed dequeueEntity_kept.
      eapply run_kept_trans; [|eassumption].
      eapply run_kept_trans; [|apply upd_kept]. kept_chain.
    + rewrite (updProc_getProc _ _ _ _ H proc), pref_eqb_refl.
      change (getProc proc (LinuxFairClass.upd ?f ?a)) with (getProc proc a).
      rewrite Hp1. cbn [rbind]. eauto.
  - split.
    + kept_steps. framed updateCurr_kept. framed dequeueEntity_kept.
      eapply run_kept_trans; [|apply upd_kept]. kept_chain.
    + exists p1. split; [exact Hp1 | exact Hoff].
Qed.

Lemma class_dequeue_builtin_kept c proc s s' :
  class_dequeue builtin c proc s = Ok s' ->
  run_kept s s' /\
  (c <> IdleCls -> exists p', getProc proc s' = Ok p' /\ onRq p' = false).
Proof.
  destruct c as [|name]; cbn.
  - intros [= <-]. split; [apply run_kept_refl | congruence].
  - destruct (String.eqb name FCFSClass.name).
    + intros H. apply FCFS_dequeue_kept in H as [H1 H2]. auto.
    + destruct (String.eqb name LinuxFairClass.name); [|discriminate].
      intros H. apply Fair_dequeue_kept in H as [H1 H2]. auto.
Qed.

(** The first half of [handleBlock]: the process is marked as blocked and
    taken off the runqueue of its class. *)
Lemma handleBlock_taken_off r p s s0 s1 lastRun :
  getProc r s = Ok p ->
  updProc r (fun p => set_runLog (runLog p ++ [lastRun])
                        (set_execTime (execTime p + lastRun)
                           (set_picked (simulationTime s)
                              (set_runnable false (set_remainingRuntime 0 p))))) s = Ok s0 ->
  (if onRq p then class_dequeue builtin (schedClass p) r s0 else Ok s0) = Ok s1 ->
  simulationTime s1 = simulationTime s /\ simulationQueue s1 = simulationQueue s /\
  exists p1, getProc r s1 = Ok p1 /\ runnable p1 = false /\ remainingRuntime p1 = 0 /\
             picked p1 = simulationTime s /\ (schedClass p1 <> IdleCls -> onRq p1 = false).
Proof.
  intros Hp H0 H1.
  pose proof (updProc_get _ _ _ _ _ Hp H0) as Hp0.
  apply updProc_inv in H0 as (p' & Hp' & ->).
  destruct (onRq p) eqn:Hon.
  - apply class_dequeue_builtin_kept in H1 as ((Ht & Hq & Hk) & Hoff).
    split; [exact Ht|]. split; [exact Hq|].
    destruct (Hk r _ Hp0) as (p1 & Hp1 & Hr1 & Hr2 & Hr3 & _ & Hr5).
    exists p1. split; [exact Hp1|]. cbn in Hr1, Hr2, Hr3, Hr5.
    repeat split; try assumption. intros Hc.
    destruct Hoff as (p2 & Hp2 & Hoff); [congruence|]. congruence.
  - injection H1 as <-. split; [reflexivity|]. split; [reflexivity|].
    eexists. split; [exact Hp0|]. cbn. repeat split. intros _. exact Hon.
Qed.

End Block.


(** X30.  [handleBlock] (FCFS and fair classes) puts the process of the block
    event to sleep and schedules its wake-up: when it returns on a
    well-formed simulation queue, the process is not runnable, has no
    remaining runtime, was last picked now and, unless it is the idle
    process, is on no runqueue; its next event is a new [EnqueueEvent] for
    it, queued at the current time plus a block time drawn from the [block]
    entry of its current behaviour, which is not negative.  The clock is
    not moved and the queue stays well formed. *)
Theorem handleBlock_schedules_the_wakeup (evt : Event) (r : pref) (s s' : Sim) :
  process evt = Some r ->
  wf_queue (simulationQueue s) ->
  handleBlock builtin evt s = Ok s' ->
  exists p' cb t e,
    getProc r s' = Ok p' /\ runnable p' = false /\ remainingRuntime p' = 0 /\
    picked p' = simulationTime s /\ (schedClass p' <> IdleCls -> onRq p' = false) /\
    currBehavior p' = Ok cb /\ drawn_from (Behavior.block cb) t /\ 0 <= t /\
    nextEvent p' = Some e /\ kind e = EnqueueEvent /\ process e = Some r /\
    time e = simulationTime s + t /\
    e ∈ pending (simulationQueue s') /\ wf_queue (simulationQueue s') /\
    simulationTime s' = simulationTime s.
Proof.
  unfold handleBlock. intros Hr Hwf H. rewrite Hr in H. cbn [deref rbind] in H.
  destruct (getProc r s) as [p|] eqn:Hp; cbn [rbind] in H; [|discriminate].
  match type of H with rbind ?m _ = _ => destruct m as [s0|] eqn:H0; cbn [rbind] in H; [|discriminate] end.
  match type of H with rbind ?m _ = _ => destruct m as [s1|] eqn:H1; cbn [rbind] in H; [|discriminate] end.
  destruct (handleBlock_taken_off _ _ _ _ _ _ Hp H0 H1)
    as (Ht & Hq & p1 & Hp1 & Hrun & Hrem & Hpick & Hoff).
  clear H0 H1 Hp. rewrite Hp1 in H. cbn [rbind] in H. inv_res.
  pose proof (getProcVal_drawn _ _ _ _ E0) as Hdrawn.
  assert (Hp3 : getProc r a1 = Ok p1).
  { rewrite (sim_insertEvent_getProc _ _ _ E3 r), (newEvent_getProc _ _ _ _ _ _ E2 r),
      (getProcVal_getProc _ _ _ _ E0 r). exact Hp1. }
  pose proof (updProc_get _ _ _ _ _ Hp3 E4) as Hp4.
  rewrite <- (updClass_getProc _ _ _ _ H r) in Hp4.
  assert (Hs2 : simulationTime s2 = simulationTime s /\ simulationQueue s2 = simulationQueue s).
  { apply getProcVal_inv in E0 as [-> | ->]; cbn; auto. }
  destruct Hs2 as [Ht2 Hq2].
  apply newEvent_inv in E2 as [He ->].
  assert (He' : kind e = EnqueueEvent /\ process e = Some r /\
                time e = simulationTime s + z) by (rewrite He; auto).
  destruct He' as (Hkind & Hproc & Htime). clear He.
  apply sim_insertEvent_inv in E3 as (q & Hins & ->).
  apply updProc_inv in E4 as (p4 & _ & ->).
  apply updClass_inv in H as (c & _ & ->).
  cbn in Hins. rewrite Ht2, Hq2 in Hins.
  destruct (insertEvent_pending _ _ _ _ Hwf Hins) as (Hle & Hwf' & Hpend).
  eexists _, a, z, e. split; [exact Hp4|]. cbn.
  repeat match goal with |- _ /\ _ => split end; try assumption; try reflexivity.
  - lia.
  - change (e ∈ pending q). rewrite Hpend. apply elem_of_insert_by. now left.
Qed.

Lemma handleBlock_schedules_the_wakeup_witness :
  let s := set_simulationTime 1 (the exampleSim (stepped fairConf 1)) in
  let evt := mkEvent 0 1 0 BlockEvent (Some (Pid 0)) in
  let s' := the s (handleBlock builtin evt s) in
  (process evt = Some (Pid 0) /\ wf_queue (simulationQueue s) /\
   handleBlock builtin evt s = Ok s' /\
   (nextEvent <$> procList s' !! 0%nat) =
     Some (Some (mkEvent 9 101 1 EnqueueEvent (Some (Pid 0))))) /\
  exists p' cb t e,
    getProc (Pid 0) s' = Ok p' /\ runnable p' = false /\ remainingRuntime p' = 0 /\
    picked p' = simulationTime s /\ (schedClass p' <> IdleCls -> onRq p' = false) /\
    currBehavior p' = Ok cb /\ drawn_from (Behavior.block cb) t /\ 0 <= t /\
    nextEvent p' = Some e /\ kind e = EnqueueEvent /\ process e = Some (Pid 0) /\
    time e = simulationTime s + t /\
    e ∈ pending (simulationQueue s') /\ wf_queue (simulationQueue s') /\
    simulationTime s' = simulationTime s.
Proof.
  intros s evt s'.
  assert (H : handleBlock builtin evt s = Ok s') by (vm_compute; reflexivity).
  assert (Hwf : wf_queue (simulationQueue s)).
  { split; vm_compute; repeat first [constructor | discriminate]. }
  assert (He : (nextEvent <$> procList s' !! 0%nat) =
               Some (Some (mkEvent 9 101 1 EnqueueEvent (Some (Pid 0)))))
    by (vm_compute; reflexivity).
  clearbody s s'.
  split; [split; [reflexivity|]; split; [exact Hwf|]; split; [exact H|exact He]|].
  exact (handleBlock_schedules_the_wakeup evt (Pid 0) s s' eq_refl Hwf H).
Defined.
